(** * Checkpoint schedules of tlm_adjoint: a shallow embedding

    The development follows [tlm_adjoint/binomial_checkpointing.py]:
    the step-advance function [n_advance], the snapshot allocator
    [allocate_snapshots], and the two schedules
    [MultistageCheckpointSchedule] and [TwoLevelCheckpointSchedule].

    Python integers are [Z]; [//] is [Z.div] (both round towards minus
    infinity); strings are [string].  A generator is a function from its
    state to an outcome, a final state and the list of the actions it
    yielded, each paired with the state the driver can observe while the
    generator is suspended there. *)

From Stdlib Require Import ZArith List Bool String Lia Arith.
From Stdlib Require Import Permutation Sorted.
Import ListNotations.
Local Open Scope Z_scope.

(** ** Exceptions and outcomes *)

Inductive exn : Type :=
| ValueError
| RuntimeError
| AssertionError
| IndexError
| TypeError
| StopIteration.

(** [OutOfFuel] marks a [while] loop that was cut by the bound on its
    iterations; the totality theorems show that it does not occur. *)
Inductive outcome (A : Type) : Type :=
| Done (a : A)
| Raised (e : exn)
| OutOfFuel.

Arguments Done {A} a.
Arguments Raised {A} e.
Arguments OutOfFuel {A}.

(** * Part I: the embedding *)

(** ** [n_advance] *)

(** The [while] loop of [n_advance] on [(t, b_s_tm2, b_s_tm1, b_s_t)]. *)
Fixpoint beta_loop (fuel : nat) (n snapshots t b_s_tm2 b_s_tm1 b_s_t : Z)
  : option (Z * Z * Z * Z) :=
  if (b_s_tm1 >=? n) || (n >? b_s_t) then
    match fuel with
    | O => None
    | S fuel' =>
        let t := t + 1 in
        let b_s_tm2 := b_s_tm1 in
        let b_s_tm1 := b_s_t in
        let b_s_t := (b_s_t * (snapshots + t)) / t in
        beta_loop fuel' n snapshots t b_s_tm2 b_s_tm1 b_s_t
    end
  else Some (t, b_s_tm2, b_s_tm1, b_s_t).

(** The branch [trajectory == "maximum"]. *)
Definition maximum_step (n snapshots t b_s_tm2 b_s_tm1 : Z) : Z :=
  let b_sm1_tm2 := (b_s_tm2 * snapshots) / (snapshots + t - 2) in
  if n <=? b_s_tm1 + b_sm1_tm2 then n - b_s_tm1 + b_s_tm2
  else
    let b_sm1_tm1 := (b_s_tm1 * snapshots) / (snapshots + t - 1) in
    let b_sm2_tm1 := (b_sm1_tm1 * (snapshots - 1)) / (snapshots + t - 2) in
    if n <=? b_s_tm1 + b_sm2_tm1 + b_sm1_tm2 then b_s_tm2 + b_sm1_tm2
    else if n <=? b_s_tm1 + b_sm1_tm1 + b_sm2_tm1
         then n - b_sm1_tm1 - b_sm2_tm1
         else b_s_tm1.

(** The branch [trajectory == "revolve"]. *)
Definition revolve_step (n snapshots t b_s_tm2 b_s_tm1 : Z) : Z :=
  let b_sm1_tm1 := (b_s_tm1 * snapshots) / (snapshots + t - 1) in
  let b_sm2_tm1 := (b_sm1_tm1 * (snapshots - 1)) / (snapshots + t - 2) in
  if n <=? b_s_tm1 + b_sm2_tm1 then b_s_tm2
  else if n <? b_s_tm1 + b_sm1_tm1 + b_sm2_tm1
       then n - b_sm1_tm1 - b_sm2_tm1
       else b_s_tm1.

Definition n_advance (fuel : nat) (n snapshots : Z) (trajectory : string)
  : outcome Z :=
  if n <? 1 then Raised ValueError
  else if snapshots <=? 0 then Raised ValueError
  else
    let snapshots := Z.max (Z.min snapshots (n - 1)) 1 in
    if snapshots =? 1 then Done (n - 1)
    else if snapshots =? n - 1 then Done 1
    else
      match beta_loop fuel n snapshots 2 1 (snapshots + 1)
                      (((snapshots + 1) * (snapshots + 2)) / 2) with
      | None => OutOfFuel
      | Some (t, b_s_tm2, b_s_tm1, _) =>
          if String.eqb trajectory "maximum" then
            Done (maximum_step n snapshots t b_s_tm2 b_s_tm1)
          else if String.eqb trajectory "revolve" then
            Done (revolve_step n snapshots t b_s_tm2 b_s_tm1)
          else Raised ValueError
      end.

(** ** Actions

    Modelled from the spec: the action records of [checkpointing.py],
    which [binomial_checkpointing.py] imports and which is not among the
    sources at hand.  Section 4.1 of the specification lists them with
    their fields. *)

Inductive action : Type :=
| Clear (clear_ics clear_data : bool)
| Configure (store_ics store_data : bool)
| Forward (n0 n1 : Z)
| Reverse (n1 n0 : Z)
| Read (n : Z) (storage : string) (delete : bool)
| Write (n : Z) (storage : string)
| EndForward
| EndReverse (exhausted : bool).

(** ** Generators

    [gen St A] is a computation over a generator state [St] that yields
    actions.  Each yielded action is recorded with the state at the moment
    of the [yield], which is what the driver sees through the accessors of
    the schedule while the generator is suspended. *)

Section Generator.
Context {St : Type}.

Definition event : Type := action * St.

Definition gen (A : Type) : Type := St -> outcome A * St * list event.

Definition ret {A} (a : A) : gen A := fun s => (Done a, s, []).

Definition bind {A B} (m : gen A) (k : A -> gen B) : gen B :=
  fun s =>
    match m s with
    | (Done a, s1, tr1) =>
        match k a s1 with
        | (o, s2, tr2) => (o, s2, tr1 ++ tr2)
        end
    | (Raised e, s1, tr1) => (Raised e, s1, tr1)
    | (OutOfFuel, s1, tr1) => (OutOfFuel, s1, tr1)
    end.

Definition yield (a : action) : gen unit :=
  fun s => (Done tt, s, [(a, s)]).

Definition raise {A} (e : exn) : gen A := fun s => (Raised e, s, []).

Definition get : gen St := fun s => (Done s, s, []).

Definition modify (f : St -> St) : gen unit := fun s => (Done tt, f s, []).

Definition lift {A} (o : outcome A) : gen A := fun s => (o, s, []).

(** Python's [assert]. *)
Definition assert_ (b : bool) : gen unit :=
  if b then ret tt else raise AssertionError.

(** [while cond: body], cut after [fuel] iterations. *)
Fixpoint while_ (fuel : nat) (cond : St -> bool) (body : gen unit)
  : gen unit :=
  fun s =>
    if cond s then
      match fuel with
      | O => (OutOfFuel, s, [])
      | S fuel' => bind body (fun _ => while_ fuel' cond body) s
      end
    else (Done tt, s, []).

Definition actions (tr : list event) : list action := map fst tr.

End Generator.

Arguments event : clear implicits.
Arguments gen : clear implicits.

Declare Scope gen_scope.
Delimit Scope gen_scope with gen.
Notation "x <- m ;; k" := (bind m (fun x => k))
  (at level 61, m at next level, right associativity) : gen_scope.
Notation "m ;; k" := (bind m (fun _ => k))
  (at level 61, right associativity) : gen_scope.
Local Open Scope gen_scope.

(** [len(l)] as a Python integer. *)
Definition len {A} (l : list A) : Z := Z.of_nat (List.length l).

(** The position a Python index denotes in a sequence of length [n]:
    negative indices count from the end. *)
Definition position (n i : Z) : option nat :=
  if (0 <=? i) && (i <? n) then Some (Z.to_nat i)
  else if (- n <=? i) && (i <? 0) then Some (Z.to_nat (i + n))
  else None.

(** [l[i]]. *)
Definition getitem {A} (l : list A) (i : Z) : outcome A :=
  match position (len l) i with
  | Some k => match nth_error l k with
              | Some x => Done x
              | None => Raised IndexError
              end
  | None => Raised IndexError
  end.

(** The list [l] with the element at position [k] replaced by [f] of it. *)
Fixpoint update {A} (k : nat) (f : A -> A) (l : list A) : list A :=
  match l, k with
  | [], _ => []
  | x :: l', O => f x :: l'
  | x :: l', S k' => x :: update k' f l'
  end.

(** ** The multistage schedule *)

Module Multistage.

(** The attributes fixed by [__init__]. *)
Record config : Type := {
  _max_n : option Z;
  _snapshots_in_ram : Z;
  _snapshots_on_disk : Z;
  _storage : list string;
  _keep_block_0_ics : bool;
  _trajectory : string
}.

(** The attributes [iter] updates.  [_snapshots] is the Python list with
    its last element first: [_snapshots[-1]] is the head, [append] is
    [cons], [pop()] leaves the tail. *)
Record state : Type := {
  _n : Z;
  _r : Z;
  _snapshots : list Z;
  _exhausted : bool
}.

Definition set_n (x : Z) (s : state) : state :=
  {| _n := x; _r := _r s; _snapshots := _snapshots s;
     _exhausted := _exhausted s |}.

Definition set_r (x : Z) (s : state) : state :=
  {| _n := _n s; _r := x; _snapshots := _snapshots s;
     _exhausted := _exhausted s |}.

Definition set_snapshots (l : list Z) (s : state) : state :=
  {| _n := _n s; _r := _r s; _snapshots := l;
     _exhausted := _exhausted s |}.

Definition set_exhausted (b : bool) (s : state) : state :=
  {| _n := _n s; _r := _r s; _snapshots := _snapshots s;
     _exhausted := b |}.

(** Modelled from the spec: [CheckpointSchedule.__init__] of
    [checkpointing.py] (not among the sources at hand) creates the
    counters [n] and [r] at zero; [_snapshots] and [_exhausted] are set by
    [MultistageCheckpointSchedule.__init__]. *)
Definition initial_state : state :=
  {| _n := 0; _r := 0; _snapshots := []; _exhausted := false |}.

Section Iter.
Variable fuel : nat.
Variable c : config.

Definition capacity : Z := _snapshots_in_ram c + _snapshots_on_disk c.

Definition _snapshot (max_n n : Z) : gen state string :=
  assert_ ((n >=? 0) && (n <? max_n));;
  s <- get;;
  if len (_snapshots s) >=? capacity then raise RuntimeError
  else
    modify (set_snapshots (n :: _snapshots s));;
    s <- get;;
    lift (getitem (_storage c) (len (_snapshots s) - 1)).

(** The body of [while self._n < self._max_n - 1]. *)
Definition forward_step (max_n : Z) : gen state unit :=
  yield (Configure true false);;
  s <- get;;
  let snapshots := capacity - len (_snapshots s) in
  let n0 := _n s in
  a <- lift (n_advance fuel (max_n - n0) snapshots (_trajectory c));;
  let n1 := n0 + a in
  assert_ (n1 >? n0);;
  modify (set_n n1);;
  yield (Forward n0 n1);;
  cp_storage <- _snapshot max_n n0;;
  yield (Write n0 cp_storage);;
  yield (Clear true true).

(** The body of [while self._n < self._max_n - self._r - 1]. *)
Definition rerun_step (max_n : Z) : gen state unit :=
  yield (Configure true false);;
  s <- get;;
  let snapshots := capacity - len (_snapshots s) in
  let n0 := _n s in
  a <- lift (n_advance fuel (max_n - _r s - n0) snapshots (_trajectory c));;
  let n1 := n0 + a in
  assert_ (n1 >? n0);;
  modify (set_n n1);;
  yield (Forward n0 n1);;
  cp_storage <- _snapshot max_n n0;;
  yield (Write n0 cp_storage);;
  yield (Clear true true).

(** The [else] branch of the reverse loop: restore without deleting and
    advance again to step [max_n - r - 1]. *)
Definition rerun (max_n cp_n : Z) (cp_storage : string) : gen state unit :=
  modify (set_n cp_n);;
  yield (Read cp_n cp_storage false);;
  yield (Clear true true);;
  yield (Configure false false);;
  s <- get;;
  let snapshots := capacity - len (_snapshots s) + 1 in
  let n0 := _n s in
  a <- lift (n_advance fuel (max_n - _r s - n0) snapshots (_trajectory c));;
  let n1 := n0 + a in
  assert_ (n1 >? n0);;
  modify (set_n n1);;
  yield (Forward n0 n1);;
  yield (Clear true true);;
  while_ fuel (fun s => _n s <? max_n - _r s - 1) (rerun_step max_n);;
  s <- get;;
  if negb (_n s =? max_n - _r s - 1) then raise RuntimeError
  else ret tt.

(** The adjoint step that ends the body of the reverse loop. *)
Definition adjoint_step : gen state unit :=
  s <- get;;
  yield (Configure (_keep_block_0_ics c && (_n s =? 0)) true);;
  modify (fun s => set_n (_n s + 1) s);;
  s <- get;;
  yield (Forward (_n s - 1) (_n s));;
  modify (fun s => set_r (_r s + 1) s);;
  s <- get;;
  yield (Reverse (_n s) (_n s - 1));;
  yield (Clear (negb (_keep_block_0_ics c) || negb (_n s =? 1)) true).

(** The body of [while self._r < self._max_n]. *)
Definition reverse_step (max_n : Z) : gen state unit :=
  s <- get;;
  match _snapshots s with
  | [] => raise RuntimeError
  | cp_n :: rest =>
      cp_storage <- lift (getitem (_storage c) (len (_snapshots s) - 1));;
      (if cp_n =? max_n - _r s - 1 then
         modify (set_snapshots rest);;
         modify (set_n cp_n);;
         yield (Read cp_n cp_storage true);;
         yield (Clear true true)
       else rerun max_n cp_n cp_storage);;
      adjoint_step
  end.

(** The part between the two loops: the last forward step and the first
    adjoint step. *)
Definition turn : gen state unit :=
  s <- get;;
  yield (Configure (_keep_block_0_ics c && (_n s =? 0)) true);;
  modify (fun s => set_n (_n s + 1) s);;
  s <- get;;
  yield (Forward (_n s - 1) (_n s));;
  yield EndForward;;
  modify (fun s => set_r (_r s + 1) s);;
  s <- get;;
  yield (Reverse (_n s) (_n s - 1));;
  yield (Clear (negb (_keep_block_0_ics c) || negb (_n s =? 1)) true).

(** The end of [iter], after the reverse loop. *)
Definition finish (max_n : Z) : gen state unit :=
  s <- get;;
  if negb (_r s =? max_n) then raise RuntimeError
  else if negb (len (_snapshots s) =? 0) then raise RuntimeError
  else
    modify (set_exhausted true);;
    yield (EndReverse true).

Definition iter : gen state unit :=
  match _max_n c with
  | None => raise RuntimeError
  | Some max_n =>
      while_ fuel (fun s => _n s <? max_n - 1) (forward_step max_n);;
      s <- get;;
      if negb (_n s =? max_n - 1) then raise RuntimeError
      else
        turn;;
        while_ fuel (fun s => _r s <? max_n) (reverse_step max_n);;
        finish max_n
  end.

Definition is_exhausted (s : state) : bool := _exhausted s.

Definition uses_disk_storage : bool := _snapshots_on_disk c >? 0.

End Iter.

End Multistage.

(** ** [allocate_snapshots]

    The weights are Python floats; the allocator only adds them and
    compares them with [<], so it is stated over any type [W] with these
    two operations. *)

Section Allocate.
Variable W : Type.
Variable Wzero : W.
Variable Wadd : W -> W -> W.
Variable Wltb : W -> W -> bool.
Variables write_weight read_weight delete_weight : W.

(** [weights[i] += w]. *)
Definition add_weight (weights : list W) (i : Z) (w : W)
  : outcome (list W) :=
  match position (len weights) i with
  | Some k => Done (update k (fun x => Wadd x w) weights)
  | None => Raised IndexError
  end.

(** The handlers of the inner function [action], on the pair of the
    nonlocal [snapshot_i] and the list [weights]. *)
Definition action_read (delete : bool) (st : Z * list W)
  : outcome (Z * list W) :=
  let (snapshot_i, weights) := st in
  if snapshot_i <? 0 then Raised RuntimeError
  else
    match add_weight weights snapshot_i read_weight with
    | Done weights =>
        if delete then
          match add_weight weights snapshot_i delete_weight with
          | Done weights => Done (snapshot_i - 1, weights)
          | Raised e => Raised e
          | OutOfFuel => OutOfFuel
          end
        else Done (snapshot_i, weights)
    | Raised e => Raised e
    | OutOfFuel => OutOfFuel
    end.

Definition action_write (snapshots : Z) (st : Z * list W)
  : outcome (Z * list W) :=
  let (snapshot_i, weights) := st in
  let snapshot_i := snapshot_i + 1 in
  if snapshot_i >=? snapshots then Raised RuntimeError
  else
    match add_weight weights snapshot_i write_weight with
    | Done weights => Done (snapshot_i, weights)
    | Raised e => Raised e
    | OutOfFuel => OutOfFuel
    end.

Definition dispatch (snapshots : Z) (cp_action : action) (st : Z * list W)
  : outcome (Z * list W) :=
  match cp_action with
  | Read _ _ delete => action_read delete st
  | Write _ _ => action_write snapshots st
  | _ => Done st
  end.

Definition is_EndReverse (a : action) : bool :=
  match a with
  | EndReverse _ => true
  | _ => false
  end.

(** The loop [while True: cp_action = next(cp_schedule); ...] over the
    actions the schedule yields; [rest] is how the generator ends after
    them.  [next] on a generator that has returned raises
    [StopIteration]. *)
Fixpoint drive (snapshots : Z) (tr : list action) (rest : outcome unit)
         (st : Z * list W) : outcome (Z * list W) :=
  match tr with
  | [] =>
      match rest with
      | Done _ => Raised StopIteration
      | Raised e => Raised e
      | OutOfFuel => OutOfFuel
      end
  | cp_action :: tr' =>
      match dispatch snapshots cp_action st with
      | Done st' =>
          if is_EndReverse cp_action then Done st'
          else drive snapshots tr' rest st'
      | Raised e => Raised e
      | OutOfFuel => OutOfFuel
      end
  end.

(** [enumerate(l)], counting from [i]. *)
Fixpoint enumerate_from {A} (i : nat) (l : list A) : list (nat * A) :=
  match l with
  | [] => []
  | x :: l' => (i, x) :: enumerate_from (S i) l'
  end.

(** [sorted(..., key=lambda p: p[1], reverse=True)].  Python's sort is
    stable, also with [reverse=True]: of two entries with equal keys the
    one that came first stays first.  The insertion below puts [p] before
    the first entry whose key is not greater than the key of [p]. *)
Fixpoint insert_desc (p : nat * W) (l : list (nat * W)) : list (nat * W) :=
  match l with
  | [] => [p]
  | q :: l' =>
      if Wltb (snd p) (snd q) then q :: insert_desc p l'
      else p :: q :: l'
  end.

Definition sorted_desc (l : list (nat * W)) : list (nat * W) :=
  fold_right insert_desc [] l.

(** [l[:k]]. *)
Definition slice_to {A} (k : Z) (l : list A) : list A :=
  if 0 <=? k then firstn (Z.to_nat k) l
  else firstn (Z.to_nat (len l + k)) l.

(** The last lines of [allocate_snapshots]: the allocation computed from
    the weights. *)
Definition allocation_of (weights : list W) (snapshots snapshots_in_ram : Z)
  : list string :=
  let allocation := repeat "disk"%string (Z.to_nat snapshots) in
  fold_left (fun allocation i => update i (fun _ => "RAM"%string) allocation)
            (map fst (slice_to snapshots_in_ram
                               (sorted_desc (enumerate_from 0 weights))))
            allocation.

(** The schedule [MultistageCheckpointSchedule(max_n, snapshots, 0,
    trajectory=trajectory)] the allocator runs: with no snapshot on disk
    the constructor takes one of its first two branches. *)
Definition dry_run_config (max_n : option Z) (snapshots : Z)
           (trajectory : string) : Multistage.config :=
  {| Multistage._max_n := max_n;
     Multistage._snapshots_in_ram := snapshots;
     Multistage._snapshots_on_disk := 0;
     Multistage._storage :=
       if snapshots =? 0 then repeat "disk"%string (Z.to_nat 0)
       else repeat "RAM"%string (Z.to_nat snapshots);
     Multistage._keep_block_0_ics := false;
     Multistage._trajectory := trajectory |}.

Definition allocate_snapshots (fuel : nat) (max_n : option Z)
           (snapshots_in_ram snapshots_on_disk : Z) (trajectory : string)
  : outcome (list W * list string) :=
  let snapshots := snapshots_in_ram + snapshots_on_disk in
  let weights := repeat Wzero (Z.to_nat snapshots) in
  let cp_schedule := dry_run_config max_n snapshots trajectory in
  match Multistage.iter fuel cp_schedule Multistage.initial_state with
  | (rest, _, tr) =>
      match drive snapshots (actions tr) rest (-1, weights) with
      | Done (snapshot_i, weights) =>
          if snapshot_i =? -1 then
            Done (weights, allocation_of weights snapshots snapshots_in_ram)
          else Raised AssertionError
      | Raised e => Raised e
      | OutOfFuel => OutOfFuel
      end
  end.

End Allocate.

(** [MultistageCheckpointSchedule(max_n, snapshots_in_ram,
    snapshots_on_disk, keep_block_0_ics=..., trajectory=...)].  The call of
    [allocate_snapshots] uses the default weights [1.0], [1.0] and [0.0],
    whose sums are whole numbers; they are taken in [Z]. *)
Definition MultistageCheckpointSchedule (fuel : nat) (max_n : option Z)
           (snapshots_in_ram snapshots_on_disk : Z)
           (keep_block_0_ics : bool) (trajectory : string)
  : outcome (Multistage.config * Multistage.state) :=
  let build storage :=
    Done ({| Multistage._max_n := max_n;
             Multistage._snapshots_in_ram := snapshots_in_ram;
             Multistage._snapshots_on_disk := snapshots_on_disk;
             Multistage._storage := storage;
             Multistage._keep_block_0_ics := keep_block_0_ics;
             Multistage._trajectory := trajectory |},
          Multistage.initial_state) in
  if snapshots_in_ram =? 0 then
    build (repeat "disk"%string (Z.to_nat snapshots_on_disk))
  else if snapshots_on_disk =? 0 then
    build (repeat "RAM"%string (Z.to_nat snapshots_in_ram))
  else
    match allocate_snapshots Z 0 Z.add Z.ltb 1 1 0 fuel max_n
                             snapshots_in_ram snapshots_on_disk trajectory
    with
    | Done (_, storage) => build storage
    | Raised e => Raised e
    | OutOfFuel => OutOfFuel
    end.

(** ** The two-level schedule *)

Module TwoLevel.

(** The attributes fixed by [__init__]. *)
Record config : Type := {
  _period : Z;
  _binomial_snapshots : Z;
  _binomial_storage : string;
  _keep_block_0_ics : bool;
  _trajectory : string
}.

(** The counters of the schedule and the two local variables of [iter]
    that live across its [yield]s: the list [snapshots] (last element
    first, as for the multistage schedule) and [n0s]. *)
Record state : Type := {
  _n : Z;
  _r : Z;
  _max_n : option Z;
  snapshots : list Z;
  n0s : Z
}.

Definition set_n (x : Z) (s : state) : state :=
  {| _n := x; _r := _r s; _max_n := _max_n s;
     snapshots := snapshots s; n0s := n0s s |}.

Definition set_r (x : Z) (s : state) : state :=
  {| _n := _n s; _r := x; _max_n := _max_n s;
     snapshots := snapshots s; n0s := n0s s |}.

Definition set_max_n (x : option Z) (s : state) : state :=
  {| _n := _n s; _r := _r s; _max_n := x;
     snapshots := snapshots s; n0s := n0s s |}.

Definition set_snapshots (l : list Z) (s : state) : state :=
  {| _n := _n s; _r := _r s; _max_n := _max_n s;
     snapshots := l; n0s := n0s s |}.

Definition set_n0s (x : Z) (s : state) : state :=
  {| _n := _n s; _r := _r s; _max_n := _max_n s;
     snapshots := snapshots s; n0s := x |}.

(** Modelled from the spec: [CheckpointSchedule.__init__] of
    [checkpointing.py] (not among the sources at hand), called without
    [max_n], creates the counters at zero and leaves [max_n] unset.  The
    two locals have no value yet; they are assigned before they are
    read. *)
Definition initial_state : state :=
  {| _n := 0; _r := 0; _max_n := None; snapshots := []; n0s := 0 |}.

(** Modelled from the spec: [CheckpointSchedule.finalize] of
    [checkpointing.py] (not among the sources at hand), by which the driver
    signals the end of the forward sweep, "which fixes [max_n]". *)
Definition finalize (n : Z) (s : state) : state := set_max_n (Some n) s.

(** The [yield]s of one pass of the forward loop. *)
Inductive suspension : Type :=
| AtConfigure
| AtForward
| AtWrite
| AtClear.

Definition suspension_eqb (a b : suspension) : bool :=
  match a, b with
  | AtConfigure, AtConfigure => true
  | AtForward, AtForward => true
  | AtWrite, AtWrite => true
  | AtClear, AtClear => true
  | _, _ => false
  end.

(** What the driver does during one pass of the forward loop: nothing, or
    a call [finalize(n)] made while the generator is suspended at the given
    [yield]. *)
Definition driver_call : Type := option (suspension * Z).

Section Iter.
Variable fuel : nat.
Variable c : config.

(** A [yield] of the forward loop, followed by what the driver does before
    it resumes the generator. *)
Definition yield_to (d : driver_call) (here : suspension) (a : action)
  : gen state unit :=
  yield a;;
  match d with
  | Some (at_, n) =>
      if suspension_eqb at_ here then modify (finalize n) else ret tt
  | None => ret tt
  end.

(** The body of [while self._max_n is None]. *)
Definition forward_step (d : driver_call) : gen state unit :=
  yield_to d AtConfigure (Configure true false);;
  s <- get;;
  match _max_n s with
  | Some _ => raise RuntimeError
  | None =>
      let n0 := _n s in
      let n1 := n0 + _period c in
      modify (set_n n1);;
      yield_to d AtForward (Forward n0 n1);;
      yield_to d AtWrite (Write n0 "disk");;
      yield_to d AtClear (Clear true true)
  end.

(** The forward loop under a driver that makes the calls of [script], one
    entry per pass.  When the script ends before [finalize] was called the
    driver has stopped requesting actions, and the run is cut there. *)
Fixpoint forward_loop (script : list driver_call) : gen state unit :=
  s <- get;;
  match _max_n s with
  | Some _ => ret tt
  | None =>
      match script with
      | [] => lift OutOfFuel
      | d :: script' => forward_step d;; forward_loop script'
      end
  end.

(** The body of [while self._n < self._max_n - self._r - 1]. *)
Definition rerun_step (max_n : Z) : gen state unit :=
  yield (Configure true false);;
  s <- get;;
  let n_snapshots := _binomial_snapshots c + 1 - len (snapshots s) in
  let n0 := _n s in
  a <- lift (n_advance fuel (max_n - _r s - n0) n_snapshots (_trajectory c));;
  let n1 := n0 + a in
  assert_ (n1 >? n0);;
  modify (set_n n1);;
  yield (Forward n0 n1);;
  s <- get;;
  if len (snapshots s) >=? _binomial_snapshots c + 1 then raise RuntimeError
  else
    modify (set_snapshots (n0 :: snapshots s));;
    yield (Write n0 (_binomial_storage c));;
    yield (Clear true true).

(** The [else] branch: restore without deleting and advance again to step
    [max_n - r - 1]. *)
Definition rerun (max_n cp_n : Z) : gen state unit :=
  modify (set_n cp_n);;
  s <- get;;
  (if cp_n =? n0s s then yield (Read cp_n "disk" false)
   else yield (Read cp_n (_binomial_storage c) false));;
  yield (Clear true true);;
  yield (Configure false false);;
  s <- get;;
  let n_snapshots := _binomial_snapshots c + 1 - len (snapshots s) + 1 in
  let n0 := _n s in
  a <- lift (n_advance fuel (max_n - _r s - n0) n_snapshots (_trajectory c));;
  let n1 := n0 + a in
  assert_ (n1 >? n0);;
  modify (set_n n1);;
  yield (Forward n0 n1);;
  yield (Clear true true);;
  while_ fuel (fun s => _n s <? max_n - _r s - 1) (rerun_step max_n);;
  s <- get;;
  if negb (_n s =? max_n - _r s - 1) then raise RuntimeError
  else ret tt.

(** The adjoint step that ends the body of the innermost reverse loop. *)
Definition adjoint_step : gen state unit :=
  s <- get;;
  yield (Configure (_keep_block_0_ics c && (_n s =? 0)) true);;
  modify (fun s => set_n (_n s + 1) s);;
  s <- get;;
  yield (Forward (_n s - 1) (_n s));;
  modify (fun s => set_r (_r s + 1) s);;
  s <- get;;
  yield (Reverse (_n s) (_n s - 1));;
  yield (Clear (negb (_keep_block_0_ics c) || negb (_n s =? 1)) true).

(** The body of [while self._r < self._max_n - n0s]. *)
Definition restore_step (max_n : Z) : gen state unit :=
  s <- get;;
  match snapshots s with
  | [] => raise RuntimeError
  | cp_n :: rest =>
      (if cp_n =? max_n - _r s - 1 then
         modify (set_snapshots rest);;
         modify (set_n cp_n);;
         (if cp_n =? n0s s then yield (Read cp_n "disk" false)
          else yield (Read cp_n (_binomial_storage c) true));;
         yield (Clear true true)
       else rerun max_n cp_n);;
      adjoint_step
  end.

(** The body of [while self._r < self._max_n]: one period. *)
Definition period_step (max_n : Z) : gen state unit :=
  s <- get;;
  let n := max_n - _r s - 1 in
  let n0s_ := (n / _period c) * _period c in
  let n1s := Z.min (n0s_ + _period c) max_n in
  if negb (_r s =? max_n - n1s) then raise RuntimeError
  else
    modify (set_n0s n0s_);;
    modify (set_snapshots [n0s_]);;
    while_ fuel (fun s => _r s <? max_n - n0s s) (restore_step max_n);;
    s <- get;;
    if negb (_r s =? max_n - n0s s) then raise RuntimeError
    else if negb (len (snapshots s) =? 0) then raise RuntimeError
    else ret tt.

(** One pass of [while True]: a complete reverse sweep.  [max_n] is read
    once; nothing in the sweep assigns it.  On [None] the comparison
    [self._r < self._max_n] raises [TypeError]. *)
Definition reverse_sweep : gen state unit :=
  s <- get;;
  match _max_n s with
  | None => raise TypeError
  | Some max_n =>
      while_ fuel (fun s => _r s <? max_n) (period_step max_n);;
      s <- get;;
      if negb (_r s =? max_n) then raise RuntimeError
      else
        modify (set_r 0);;
        yield (EndReverse false)
  end.

(** [while True] never ends by itself; the driver stops after a number of
    sweeps. *)
Fixpoint reverse_sweeps (sweeps : nat) : gen state unit :=
  match sweeps with
  | O => ret tt
  | S sweeps' => reverse_sweep;; reverse_sweeps sweeps'
  end.

Definition iter (script : list driver_call) (sweeps : nat)
  : gen state unit :=
  forward_loop script;;
  yield EndForward;;
  reverse_sweeps sweeps.

Definition is_exhausted (s : state) : bool := false.

Definition uses_disk_storage : bool := true.

End Iter.

End TwoLevel.

(** [x in l] for strings. *)
Definition string_in (x : string) (l : list string) : bool :=
  existsb (String.eqb x) l.

(** [TwoLevelCheckpointSchedule(disk_period, binomial_snapshots,
    binomial_storage=..., keep_block_0_ics=..., binomial_trajectory=...)]. *)
Definition TwoLevelCheckpointSchedule (disk_period binomial_snapshots : Z)
           (binomial_storage : string) (keep_block_0_ics : bool)
           (binomial_trajectory : string)
  : outcome (TwoLevel.config * TwoLevel.state) :=
  if disk_period <? 1 then Raised ValueError
  else if negb (string_in binomial_storage ["RAM"; "disk"]%string)
       then Raised ValueError
  else
    Done ({| TwoLevel._period := disk_period;
             TwoLevel._binomial_snapshots := binomial_snapshots;
             TwoLevel._binomial_storage := binomial_storage;
             TwoLevel._keep_block_0_ics := keep_block_0_ics;
             TwoLevel._trajectory := binomial_trajectory |},
          TwoLevel.initial_state).

(** * Part II: reasoning about generators *)

Definition valid_trajectory (trajectory : string) : Prop :=
  trajectory = "maximum"%string \/ trajectory = "revolve"%string.

Section Logic.
Context {St : Type}.
Implicit Types (s : St) (tr : list (event St)).

(** [post m s Q]: running [m] from [s] ends in an outcome, a state and a
    trace that satisfy [Q]. *)
Definition post {A} (m : gen St A) (s : St)
           (Q : outcome A -> St -> list (event St) -> Prop) : Prop :=
  match m s with
  | (o, s', tr) => Q o s' tr
  end.

Lemma post_conseq {A} (m : gen St A) s (Q Q' : _ -> _ -> _ -> Prop) :
  post m s Q -> (forall o s' tr, Q o s' tr -> Q' o s' tr) -> post m s Q'.
Proof.
  unfold post. destruct (m s) as [[o s'] tr]. intros H HQ. now apply HQ.
Qed.

Lemma post_bind {A B} (m : gen St A) (k : A -> gen St B) s Q :
  post m s (fun o s1 tr1 =>
              match o with
              | Done a => post (k a) s1 (fun o2 s2 tr2 => Q o2 s2 (tr1 ++ tr2))
              | Raised e => Q (Raised e) s1 tr1
              | OutOfFuel => Q OutOfFuel s1 tr1
              end) ->
  post (bind m k) s Q.
Proof.
  unfold post, bind. destruct (m s) as [[[a|e|] s1] tr1]; trivial.
  destruct (k a s1) as [[o2 s2] tr2]. trivial.
Qed.

Lemma bind_assoc {A B C} (m : gen St A) (k : A -> gen St B)
      (k' : B -> gen St C) s :
  bind (bind m k) k' s = bind m (fun a => bind (k a) k') s.
Proof.
  unfold bind. destruct (m s) as [[[a|e|] s1] tr1]; trivial.
  destruct (k a s1) as [[[b|e|] s2] tr2]; trivial.
  destruct (k' b s2) as [[o3 s3] tr3]. now rewrite app_assoc.
Qed.

Lemma post_bind_assoc {A B C} (m : gen St A) (k : A -> gen St B)
      (k' : B -> gen St C) s Q :
  post (bind m (fun a => bind (k a) k')) s Q -> post (bind (bind m k) k') s Q.
Proof. unfold post. now rewrite bind_assoc. Qed.

Lemma post_ret {A} (a : A) s (Q : _ -> _ -> _ -> Prop) :
  Q (Done a) s [] -> post (ret a) s Q.
Proof. trivial. Qed.

Lemma post_raise {A} (e : exn) s (Q : outcome A -> _ -> _ -> Prop) :
  Q (Raised e) s [] -> post (raise e) s Q.
Proof. trivial. Qed.

Lemma post_yield (a : action) s (Q : _ -> _ -> _ -> Prop) :
  Q (Done tt) s [(a, s)] -> post (yield a) s Q.
Proof. trivial. Qed.

Lemma post_modify (f : St -> St) s (Q : _ -> _ -> _ -> Prop) :
  Q (Done tt) (f s) [] -> post (modify f) s Q.
Proof. trivial. Qed.

Lemma post_lift {A} (o : outcome A) s (Q : _ -> _ -> _ -> Prop) :
  Q o s [] -> post (lift o) s Q.
Proof. trivial. Qed.

Lemma post_ret_bind {A B} (a : A) (k : A -> gen St B) s Q :
  post (k a) s Q -> post (bind (ret a) k) s Q.
Proof.
  unfold post, bind, ret. now destruct (k a s) as [[o2 s2] tr2].
Qed.

Lemma post_raise_bind {A B} (e : exn) (k : A -> gen St B) s
      (Q : _ -> _ -> _ -> Prop) :
  Q (Raised e) s [] -> post (bind (raise e) k) s Q.
Proof. trivial. Qed.

Lemma post_yield_bind {B} (a : action) (k : unit -> gen St B) s Q :
  post (k tt) s (fun o s2 tr2 => Q o s2 ((a, s) :: tr2)) ->
  post (bind (yield a) k) s Q.
Proof.
  unfold post, bind, yield. now destruct (k tt s) as [[o2 s2] tr2].
Qed.

Lemma post_get_bind {B} (k : St -> gen St B) s Q :
  post (k s) s Q -> post (bind get k) s Q.
Proof.
  unfold post, bind, get. now destruct (k s s) as [[o2 s2] tr2].
Qed.

Lemma post_modify_bind {B} (f : St -> St) (k : unit -> gen St B) s Q :
  post (k tt) (f s) Q -> post (bind (modify f) k) s Q.
Proof.
  unfold post, bind, modify. now destruct (k tt (f s)) as [[o2 s2] tr2].
Qed.

Lemma post_lift_bind {A B} (o : outcome A) (k : A -> gen St B) s
      (Q : _ -> _ -> _ -> Prop) :
  match o with
  | Done a => post (k a) s Q
  | Raised e => Q (Raised e) s []
  | OutOfFuel => Q OutOfFuel s []
  end ->
  post (bind (lift o) k) s Q.
Proof.
  unfold post, bind, lift. destruct o as [a|e|]; trivial.
  now destruct (k a s) as [[o2 s2] tr2].
Qed.

Lemma post_assert_bind {B} (b : bool) (k : unit -> gen St B) s
      (Q : _ -> _ -> _ -> Prop) :
  (b = false -> Q (Raised AssertionError) s []) ->
  (b = true -> post (k tt) s Q) ->
  post (bind (assert_ b) k) s Q.
Proof.
  intros Hf Ht. destruct b; cbn [assert_].
  - apply post_ret_bind. now apply Ht.
  - apply post_raise_bind. now apply Hf.
Qed.

(** *** Loops *)

(** Total correctness: an invariant [Inv], a relation [R] between the
    state before, the trace and the state after that composes along the
    iterations, and a measure [mu] the body decreases. *)
Lemma while_total (Inv : St -> Prop)
      (R : St -> list (event St) -> St -> Prop) (mu : St -> nat)
      (cond : St -> bool) (body : gen St unit) :
  (forall s, R s [] s) ->
  (forall s1 t1 s2 t2 s3, R s1 t1 s2 -> R s2 t2 s3 -> R s1 (t1 ++ t2) s3) ->
  (forall s, Inv s -> cond s = true ->
             post body s (fun o s' tr =>
                            o = Done tt /\ Inv s' /\ R s tr s'
                            /\ (mu s' < mu s)%nat)) ->
  forall fuel s, Inv s -> (mu s <= fuel)%nat ->
    post (while_ fuel cond body) s
         (fun o s' tr => o = Done tt /\ Inv s' /\ cond s' = false
                         /\ R s tr s').
Proof.
  intros Hrefl Htrans Hbody.
  induction fuel as [|fuel IH]; intros s Hinv Hmu.
  - unfold post. cbn [while_]. destruct (cond s) eqn:Hc.
    + specialize (Hbody s Hinv Hc). unfold post in Hbody.
      destruct (body s) as [[o s'] tr]. lia.
    + auto.
  - unfold post. cbn [while_]. destruct (cond s) eqn:Hc; [|auto].
    apply post_bind. eapply post_conseq; [apply (Hbody s Hinv Hc)|].
    intros o s1 tr1 (-> & Hinv1 & HR1 & Hlt).
    eapply post_conseq; [apply (IH s1 Hinv1); lia|].
    cbv beta. intros o s2 tr2 (-> & Hinv2 & Hc2 & HR2).
    eauto using Htrans.
Qed.

(** Safety: whatever the outcome, the trace satisfies [T]; the invariant
    is kept while the loop goes on. *)
Lemma while_safe (Inv : St -> Prop) (T : list (event St) -> Prop)
      (cond : St -> bool) (body : gen St unit) :
  T [] ->
  (forall t1 t2, T t1 -> T t2 -> T (t1 ++ t2)) ->
  (forall s, Inv s -> cond s = true ->
             post body s (fun o s' tr => T tr /\ (o = Done tt -> Inv s'))) ->
  forall fuel s, Inv s ->
    post (while_ fuel cond body) s
         (fun o s' tr => T tr /\ (o = Done tt -> Inv s' /\ cond s' = false)).
Proof.
  intros Hnil Happ Hbody.
  induction fuel as [|fuel IH]; intros s Hinv.
  - unfold post. cbn [while_]. destruct (cond s) eqn:Hc.
    + split; [trivial | discriminate].
    + auto.
  - unfold post. cbn [while_]. destruct (cond s) eqn:Hc; [|auto].
    apply post_bind. eapply post_conseq; [apply (Hbody s Hinv Hc)|].
    intros [[]|e|] s1 tr1 [HT1 Hinv1]; try (split; [trivial | discriminate]).
    eapply post_conseq; [apply (IH s1); auto|].
    cbv beta. intros o s2 tr2 [HT2 Hinv2]. auto.
Qed.

Lemma post_while_step (fuel : nat) (cond : St -> bool)
      (body : gen St unit) s Q :
  cond s = true ->
  post (bind body (fun _ => while_ fuel cond body)) s Q ->
  post (while_ (S fuel) cond body) s Q.
Proof. unfold post. cbn [while_]. now intros ->. Qed.

Lemma post_while_first (fuel : nat) (cond : St -> bool)
      (body : gen St unit) s Q :
  (1 <= fuel)%nat -> cond s = true ->
  post (bind body (fun _ => while_ (Nat.pred fuel) cond body)) s Q ->
  post (while_ fuel cond body) s Q.
Proof.
  destruct fuel as [|fuel]; [lia|]. intros _. apply post_while_step.
Qed.

(** Two runs from related states: same outcome, same trace, related final
    states. *)
Definition same_run (E : St -> St -> Prop)
           (x y : outcome unit * St * list (event St)) : Prop :=
  match x, y with
  | (o1, s1, t1), (o2, s2, t2) => o1 = o2 /\ t1 = t2 /\ E s1 s2
  end.

Lemma while_same_run (E : St -> St -> Prop) (cond : St -> bool)
      (body : gen St unit) :
  (forall s1 s2, E s1 s2 -> cond s1 = cond s2) ->
  (forall s1 s2, E s1 s2 -> same_run E (body s1) (body s2)) ->
  forall fuel s1 s2, E s1 s2 ->
    same_run E (while_ fuel cond body s1) (while_ fuel cond body s2).
Proof.
  intros Hcond Hbody.
  induction fuel as [|fuel IH]; intros s1 s2 HE; cbn [while_];
    rewrite <- (Hcond s1 s2 HE); destruct (cond s1);
    try (unfold same_run; now auto).
  unfold bind. specialize (Hbody s1 s2 HE). unfold same_run in Hbody.
  destruct (body s1) as [[o1 s1'] t1], (body s2) as [[o2 s2'] t2].
  destruct Hbody as (<- & <- & HE').
  destruct o1 as [[]|e|]; try (unfold same_run; now auto).
  specialize (IH s1' s2' HE'). unfold same_run in IH.
  destruct (while_ fuel cond body s1') as [[o3 s3] t3],
           (while_ fuel cond body s2') as [[o4 s4] t4].
  destruct IH as (<- & <- & HE''). unfold same_run. auto.
Qed.

End Logic.

(** *** Properties kept by every run

    [keeps I T m]: from a state in [I], whatever the outcome of [m], the
    trace satisfies [T], and when [m] returns the final state is in [I].
    [T] is closed under concatenation, so the property follows the
    structure of the generator. *)

Section Keeps.
Context {St : Type}.
Variable I : St -> Prop.
Variable T : list (event St) -> Prop.
Hypothesis T_nil : T [].
Hypothesis T_app : forall t1 t2, T t1 -> T t2 -> T (t1 ++ t2).

Definition keeps {A} (m : gen St A) : Prop :=
  forall s, I s ->
    post m s (fun o s' tr =>
                T tr /\ match o with Done _ => I s' | _ => True end).

Lemma keeps_bind {A B} (m : gen St A) (k : A -> gen St B) :
  keeps m -> (forall a, keeps (k a)) -> keeps (bind m k).
Proof.
  intros Hm Hk s Hs. apply post_bind.
  eapply post_conseq; [apply (Hm s Hs)|].
  intros [a|e|] s1 t1 [HT1 H1]; auto.
  eapply post_conseq; [apply (Hk a s1 H1)|].
  cbv beta. intros o s2 t2 [HT2 H2]. auto.
Qed.

Lemma keeps_ret {A} (a : A) : keeps (ret a).
Proof. intros s Hs. apply post_ret. auto. Qed.

Lemma keeps_raise {A} (e : exn) : keeps (@raise St A e).
Proof. intros s Hs. apply post_raise. auto. Qed.

Lemma keeps_get : keeps get.
Proof. intros s Hs. unfold post, get. auto. Qed.

Lemma keeps_lift {A} (o : outcome A) : keeps (lift o).
Proof. intros s Hs. apply post_lift. destruct o; auto. Qed.

Lemma keeps_assert (b : bool) : keeps (assert_ b).
Proof. destruct b; [apply keeps_ret | apply keeps_raise]. Qed.

Lemma keeps_modify (f : St -> St) :
  (forall s, I s -> I (f s)) -> keeps (modify f).
Proof. intros Hf s Hs. apply post_modify. auto. Qed.

Lemma keeps_yield (a : action) :
  (forall s, I s -> T [(a, s)]) -> keeps (yield a).
Proof. intros Ha s Hs. apply post_yield. auto. Qed.

Lemma keeps_while (fuel : nat) (cond : St -> bool) (body : gen St unit) :
  keeps body -> keeps (while_ fuel cond body).
Proof.
  intros Hbody s Hs.
  eapply post_conseq.
  - apply (while_safe I T cond body T_nil T_app); [|exact Hs].
    intros s1 H1 _. eapply post_conseq; [apply (Hbody s1 H1)|].
    cbv beta. intros o s' tr [HT H']. split; trivial. now intros ->.
  - cbv beta. intros o s' tr [HT H']. split; trivial.
    destruct o as [[]|e|]; trivial. now apply H'.
Qed.

End Keeps.

(** One step of symbolic execution of a generator. *)
Ltac gstep :=
  lazymatch goal with
  | |- post (bind (bind _ _) _) _ _ => apply post_bind_assoc
  | |- post (bind (yield _) _) _ _ => apply post_yield_bind
  | |- post (bind get _) _ _ => apply post_get_bind
  | |- post (bind (modify _) _) _ _ => apply post_modify_bind
  | |- post (bind (ret _) _) _ _ => apply post_ret_bind
  | |- post (bind (raise _) _) _ _ => apply post_raise_bind
  | |- post (bind (lift (Done _)) _) _ _ => apply post_lift_bind
  | |- post (yield _) _ _ => apply post_yield
  | |- post (ret _) _ _ => apply post_ret
  | |- post (raise _) _ _ => apply post_raise
  | |- post (modify _) _ _ => apply post_modify
  | |- post (lift _) _ _ => apply post_lift
  end; cbv beta match zeta.

Ltac gsteps := repeat gstep.
(** ** [n_advance]: the loop and the bounds of the step *)

Record beta_inv (n snapshots t b2 b1 b0 : Z) : Prop := {
  bi_t : 2 <= t;
  bi_b2 : 1 <= b2;
  bi_b21 : b2 < b1;
  bi_b10 : b1 < b0;
  bi_b1t : t <= b1;
  bi_b0t : t + 1 <= b0;
  bi_b1n : b1 < n
}.

Lemma beta_next_gt (s t b0 : Z) :
  1 <= s -> 2 <= t -> t + 1 <= b0 ->
  b0 + 1 <= (b0 * (s + (t + 1))) / (t + 1).
Proof.
  intros Hs Ht Hb.
  apply Z.div_le_lower_bound; nia.
Qed.

Lemma beta_inv_init (n s : Z) :
  2 <= s -> s + 1 < n ->
  beta_inv n s 2 1 (s + 1) (((s + 1) * (s + 2)) / 2).
Proof.
  intros Hs Hn.
  assert (2 * (s + 1) <= ((s + 1) * (s + 2)) / 2)
    by (apply Z.div_le_lower_bound; nia).
  constructor; lia.
Qed.

Lemma beta_inv_step (n s t b2 b1 b0 : Z) :
  1 <= s -> beta_inv n s t b2 b1 b0 -> b0 < n ->
  beta_inv n s (t + 1) b1 b0 ((b0 * (s + (t + 1))) / (t + 1)).
Proof.
  intros Hs [] Hn.
  pose proof (beta_next_gt s t b0 Hs bi_t0 bi_b0t0).
  constructor; lia.
Qed.

Lemma beta_loop_total (fuel : nat) :
  forall n s t b2 b1 b0,
    1 <= s -> beta_inv n s t b2 b1 b0 ->
    (Z.to_nat (n - b0) <= fuel)%nat ->
    exists t' b2' b1' b0',
      beta_loop fuel n s t b2 b1 b0 = Some (t', b2', b1', b0')
      /\ beta_inv n s t' b2' b1' b0' /\ n <= b0'.
Proof.
  induction fuel as [|fuel IH]; intros n s t b2 b1 b0 Hs Hinv Hfuel.
  - cbn [beta_loop].
    assert (Hge : (b1 >=? n) = false) by (destruct Hinv; lia).
    assert (Hgt : (n >? b0) = false) by (rewrite Z.gtb_ltb; apply Z.ltb_ge; lia).
    rewrite Hge, Hgt. cbn [orb].
    exists t, b2, b1, b0. split; [reflexivity | split; [assumption | lia]].
  - cbn [beta_loop].
    assert (Hge : (b1 >=? n) = false) by (destruct Hinv; lia).
    rewrite Hge. cbn [orb].
    destruct (n >? b0) eqn:Hgt.
    + assert (Hlt : b0 < n) by (rewrite Z.gtb_ltb in Hgt; apply Z.ltb_lt; exact Hgt).
      pose proof (beta_inv_step _ _ _ _ _ _ Hs Hinv Hlt) as Hinv'.
      apply IH; trivial.
      destruct Hinv. pose proof (beta_next_gt s t b0 Hs bi_t0 bi_b0t0). lia.
    + rewrite Z.gtb_ltb in Hgt. apply Z.ltb_ge in Hgt.
      exists t, b2, b1, b0. split; [reflexivity | split; assumption].
Qed.

(** *** The two policies stay strictly between 0 and n *)

Section Steps.
Variables n s t b2 b1 b0 : Z.
Hypothesis Hs : 2 <= s.
Hypothesis Hinv : beta_inv n s t b2 b1 b0.

Let q12 := (b2 * s) / (s + t - 2).
Let q11 := (b1 * s) / (s + t - 1).
Let q21 := (q11 * (s - 1)) / (s + t - 2).

Lemma q12_nonneg : 0 <= q12.
Proof. destruct Hinv. apply Z.div_pos; nia. Qed.

Lemma q11_bounds : 1 <= q11 <= b1.
Proof.
  destruct Hinv. subst q11. split.
  - apply Z.div_le_lower_bound; nia.
  - apply Z.div_le_upper_bound; nia.
Qed.

Lemma q21_nonneg : 0 <= q21.
Proof.
  pose proof q11_bounds. destruct Hinv. apply Z.div_pos; nia.
Qed.

Lemma maximum_step_bounds :
  0 < maximum_step n s t b2 b1 < n.
Proof.
  pose proof q12_nonneg. pose proof q11_bounds. pose proof q21_nonneg.
  destruct Hinv. unfold maximum_step.
  fold q12. fold q11. fold q21.
  repeat match goal with
         | |- context [?a <=? ?b] => destruct (Z.leb_spec a b)
         end; lia.
Qed.

Lemma revolve_step_bounds :
  0 < revolve_step n s t b2 b1 < n.
Proof.
  pose proof q11_bounds. pose proof q21_nonneg.
  destruct Hinv. unfold revolve_step.
  fold q11. fold q21.
  repeat match goal with
         | |- context [?a <=? ?b] => destruct (Z.leb_spec a b)
         | |- context [?a <? ?b] => destruct (Z.ltb_spec a b)
         end; lia.
Qed.
End Steps.

(** What the schedules need from [n_advance]. *)
Lemma n_advance_spec (fuel : nat) (n snapshots : Z) (trajectory : string) :
  1 <= n -> 1 <= snapshots -> valid_trajectory trajectory ->
  (Z.to_nat n <= fuel)%nat ->
  exists r,
    n_advance fuel n snapshots trajectory = Done r
    /\ (snapshots = 1 -> r = n - 1)
    /\ (2 <= n -> snapshots >= n - 1 -> r = 1)
    /\ (snapshots < n - 1 -> 0 < r < n)
    /\ (2 <= n -> 0 < r < n).
Proof.
  intros Hn Hsn Htraj Hfuel. unfold n_advance.
  destruct (Z.ltb_spec n 1); [lia|].
  destruct (Z.leb_spec snapshots 0); [lia|].
  set (s := Z.max (Z.min snapshots (n - 1)) 1).
  destruct (Z.eqb_spec s 1) as [Hs1|Hs1].
  { exists (n - 1). repeat split; try lia. }
  destruct (Z.eqb_spec s (n - 1)) as [Hsn1|Hsn1].
  { exists 1. repeat split; try lia. }
  assert (Hs : 2 <= s) by lia.
  assert (Hlt : s + 1 < n) by lia.
  pose proof (beta_inv_init n s Hs Hlt) as Hinit.
  destruct (beta_loop_total fuel n s 2 1 (s + 1) _ ltac:(lia) Hinit)
    as (t & b2 & b1 & b0 & -> & Hinv & Hb0).
  { destruct Hinit. lia. }
  pose proof (maximum_step_bounds n s t b2 b1 b0 Hs Hinv) as Hmax.
  pose proof (revolve_step_bounds n s t b2 b1 b0 Hs Hinv) as Hrev.
  destruct Htraj as [-> | ->]; cbn [String.eqb Ascii.eqb Bool.eqb];
    eexists; (split; [reflexivity|]); repeat split; lia.
Qed.

(** *** Claim C1 *)

(** The claim as it is worded, at one input: the three cases hold of any
    value [n_advance] returns. *)
Definition n_advance_claim (n snapshots : Z) (trajectory : string) : Prop :=
  forall fuel r,
    n_advance fuel n snapshots trajectory = Done r ->
    (snapshots = 1 -> r = n - 1)
    /\ (snapshots >= n - 1 -> r = 1)
    /\ (snapshots < n - 1 -> 0 < r < n).

(** C1, counterexample: with one block and one snapshot, [n = 1] and
    [snapshots = 1 >= n - 1], [n_advance] returns [n - 1 = 0] and not 1. *)
Lemma n_advance_one_block :
  n_advance 0 1 1 "maximum" = Done 0 /\ ~ n_advance_claim 1 1 "maximum".
Proof.
  split; [reflexivity|].
  intros H. destruct (H 0%nat 0 eq_refl) as (_ & H1 & _).
  specialize (H1 ltac:(lia)). discriminate.
Qed.

(** C1, amended: for [n >= 1], [snapshots >= 1] and one of the two
    trajectories, [n_advance] returns (with fuel for [n] turns of its loop)
    a value [r]; [r = n - 1] when [snapshots = 1]; [r = 1] when
    [snapshots >= n - 1] and [n >= 2]; [0 < r < n] when
    [snapshots < n - 1]. *)
Theorem n_advance_limits (fuel : nat) (n snapshots : Z)
        (trajectory : string) :
  1 <= n -> 1 <= snapshots -> valid_trajectory trajectory ->
  (Z.to_nat n <= fuel)%nat ->
  exists r,
    n_advance fuel n snapshots trajectory = Done r
    /\ (snapshots = 1 -> r = n - 1)
    /\ (2 <= n -> snapshots >= n - 1 -> r = 1)
    /\ (snapshots < n - 1 -> 0 < r < n).
Proof.
  intros Hn Hs Htraj Hfuel.
  destruct (n_advance_spec fuel n snapshots trajectory Hn Hs Htraj Hfuel)
    as (r & Hr & H1 & H2 & H3 & _).
  exists r. auto.
Qed.

Lemma n_advance_limits_witness :
  exists r,
    n_advance 100 100 5 "revolve" = Done r
    /\ (5 = 1 -> r = 100 - 1)
    /\ (2 <= 100 -> 5 >= 100 - 1 -> r = 1)
    /\ (5 < 100 - 1 -> 0 < r < 100).
Proof.
  apply (n_advance_limits 100 100 5 "revolve").
  - lia.
  - lia.
  - right. reflexivity.
  - lia.
Defined.

(** ** Shared predicates on stacks and traces *)

(** [descending lo hi l]: the stack [l], top first, is strictly decreasing
    and lies in [lo, hi). *)
Fixpoint descending (lo hi : Z) (l : list Z) : Prop :=
  match l with
  | [] => True
  | x :: l' => lo <= x < hi /\ descending lo x l'
  end.

Lemma descending_empty (lo hi : Z) (l : list Z) :
  descending lo hi l -> hi <= lo -> l = [].
Proof. destruct l; cbn; trivial. lia. Qed.

Lemma len_nonneg {A} (l : list A) : 0 <= len l.
Proof. unfold len. lia. Qed.

Lemma len_cons {A} (x : A) (l : list A) : len (x :: l) = len l + 1.
Proof. unfold len. cbn [List.length]. lia. Qed.

Lemma len_nil {A} : len (@nil A) = 0.
Proof. reflexivity. Qed.

Lemma len_repeat {A} (x : A) (k : nat) : len (repeat x k) = Z.of_nat k.
Proof. unfold len. now rewrite repeat_length. Qed.

(** [tracks f d z tr z']: along [tr] the quantity [f] of the state starts
    from [z], changes at each action [a] by exactly [d a], and ends at
    [z']. *)
Fixpoint tracks {St} (f : St -> Z) (d : action -> Z) (z : Z)
         (tr : list (event St)) (z' : Z) : Prop :=
  match tr with
  | [] => z' = z
  | e :: tr' => f (snd e) = z + d (fst e) /\ tracks f d (f (snd e)) tr' z'
  end.

Lemma tracks_app {St} (f : St -> Z) d z1 t1 z2 t2 z3 :
  tracks f d z1 t1 z2 -> tracks f d z2 t2 z3 -> tracks f d z1 (t1 ++ t2) z3.
Proof.
  revert z1. induction t1 as [|e t1 IH]; cbn; intros z1 H1 H2.
  - now subst.
  - destruct H1 as [He H1]. split; trivial. now apply IH.
Qed.

(** The reverse counter moves at [Reverse] actions only. *)
Definition rdelta (a : action) : Z :=
  match a with
  | Reverse _ _ => 1
  | _ => 0
  end.

(** The stack grows at a [Write] and shrinks at a deleting [Read]. *)
Definition sdelta (a : action) : Z :=
  match a with
  | Write _ _ => 1
  | Read _ _ true => -1
  | _ => 0
  end.

(** Refinements of [gstep] for tests and assertions. *)
Ltac gbranch :=
  lazymatch goal with
  | |- post (bind (assert_ ?b) _) _ _ =>
      apply post_assert_bind; intros ?
  | |- post (bind (if ?b then _ else _) _) _ _ => destruct b eqn:?
  | |- post (if ?b then _ else _) _ _ => destruct b eqn:?
  end.

Ltac grun := repeat first [gstep | gbranch].

(** ** The multistage schedule: total correctness *)

Module MultistageProofs.
Import Multistage.

Record valid (fuel : nat) (c : config) (N : Z) : Prop := {
  v_max_n : _max_n c = Some N;
  v_N : 1 <= N;
  v_storage : len (_storage c) = capacity c;
  v_trajectory : valid_trajectory (_trajectory c);
  v_capacity : 1 <= capacity c \/ N = 1;
  v_fuel : (Z.to_nat N <= fuel)%nat
}.

Definition stack_size (s : state) : Z := len (_snapshots s).

(** What holds at every action before [EndReverse]. *)
Definition ev_ok (c : config) (N : Z) (e : event state) : Prop :=
  stack_size (snd e) <= capacity c
  /\ 0 <= _r (snd e) <= N
  /\ is_EndReverse (fst e) = false
  /\ _exhausted (snd e) = false
  /\ match fst e with
     | Read _ _ false => 1 <= stack_size (snd e)
     | _ => True
     end.

(** A segment of a run. *)
Definition seg (c : config) (N : Z) (s : state) (tr : list (event state))
           (s' : state) : Prop :=
  Forall (ev_ok c N) tr
  /\ tracks _r rdelta (_r s) tr (_r s')
  /\ tracks stack_size sdelta (stack_size s) tr (stack_size s').

Lemma seg_refl c N s : seg c N s [] s.
Proof. repeat split; constructor. Qed.

Lemma seg_trans c N s1 t1 s2 t2 s3 :
  seg c N s1 t1 s2 -> seg c N s2 t2 s3 -> seg c N s1 (t1 ++ t2) s3.
Proof.
  intros (F1 & R1 & S1) (F2 & R2 & S2). repeat split.
  - apply Forall_app; auto.
  - eapply tracks_app; eauto.
  - eapply tracks_app; eauto.
Qed.

(** The invariant of the loops that advance and write snapshots, at
    reverse counter [r0]. *)
Definition adv_inv (c : config) (N r0 : Z) (s : state) : Prop :=
  _r s = r0
  /\ 0 <= r0
  /\ 0 <= _n s <= N - r0 - 1
  /\ descending 0 (_n s) (_snapshots s)
  /\ (_n s < N - r0 - 1 -> stack_size s < capacity c)
  /\ stack_size s <= capacity c
  /\ (0 < _n s -> In 0 (_snapshots s))
  /\ _exhausted s = false.

Lemma getitem_storage (c : config) (i : Z) :
  0 <= i < len (_storage c) ->
  exists x, getitem (_storage c) i = Done x.
Proof.
  intros Hi. unfold getitem, position.
  replace ((0 <=? i) && (i <? len (_storage c))) with true by lia.
  destruct (nth_error (_storage c) (Z.to_nat i)) eqn:E; eauto.
  apply nth_error_None in E. unfold len in Hi. lia.
Qed.

Ltac ms_simpl :=
  cbn [_n _r _snapshots _exhausted set_n set_r set_snapshots set_exhausted
       fst snd tracks rdelta sdelta is_EndReverse descending In] in *;
  rewrite ?len_cons, ?len_nil in *.

Ltac ms_finish :=
  unfold adv_inv, seg, ev_ok, stack_size in *;
  repeat (ms_simpl;
          match goal with
          | |- _ /\ _ => split
          | |- Forall _ (_ :: _) => constructor
          | |- Forall _ [] => constructor
          | |- True => exact I
          end);
  ms_simpl; try tauto; try lia.

Section Steps.
Variable fuel : nat.
Variable c : config.
Variable N : Z.
Hypothesis Hvalid : valid fuel c N.

Lemma rerun_step_total (r0 : Z) (s : state) :
  adv_inv c N r0 s -> _n s < N - r0 - 1 ->
  post (rerun_step fuel c N) s
       (fun o s' tr =>
          o = Done tt /\ adv_inv c N r0 s' /\ seg c N s tr s'
          /\ _n s < _n s').
Proof.
  intros (Hr & Hr0 & Hn & Hdesc & Hfree & Hcap & H0 & Hex) Hlt.
  specialize (Hfree Hlt).
  destruct Hvalid as [_ HN Hsto Htraj _ Hfuel].
  destruct (n_advance_spec fuel (N - _r s - _n s) (capacity c - stack_size s)
                           (_trajectory c))
    as (a & Ha & Hone & _ & _ & Hbound); try lia; trivial.
  specialize (Hbound ltac:(lia)).
  destruct (getitem_storage c (stack_size s)) as [st Hst].
  { pose proof (len_nonneg (_snapshots s)). unfold stack_size in *. lia. }
  unfold rerun_step. grun.
  apply post_lift_bind. unfold stack_size in Ha. rewrite Ha.
  grun; [lia|].
  unfold _snapshot. grun; cbn [_n _r _snapshots _exhausted set_n] in *.
  1: lia.
  1: unfold stack_size in *; lia.
  cbn [_snapshots set_snapshots set_n]. rewrite len_cons.
  replace (len (_snapshots s) + 1 - 1) with (stack_size s)
    by (unfold stack_size; lia).
  rewrite Hst. grun.
  unfold adv_inv, seg, ev_ok, stack_size in *.
  cbn [_n _r _snapshots _exhausted set_n set_snapshots fst snd tracks
       rdelta sdelta is_EndReverse descending In].
  rewrite !len_cons.
  pose proof (len_nonneg (_snapshots s)).
  assert (Hfull : _n s + a < N - r0 - 1 ->
                  len (_snapshots s) + 1 < capacity c).
  { intros Hlt'. destruct (Z.eq_dec (capacity c - len (_snapshots s)) 1)
      as [E|E]; [specialize (Hone E)|]; lia. }
  assert (Hin : 0 < _n s + a -> _n s = 0 \/ In 0 (_snapshots s)).
  { intros _. destruct (Z.eq_dec (_n s) 0); [auto | right; apply H0; lia]. }
  ms_finish.
Qed.

Lemma forward_step_eq (s : state) :
  _r s = 0 -> forward_step fuel c N s = rerun_step fuel c N s.
Proof.
  intros Hr. unfold forward_step, rerun_step, bind, yield, get.
  rewrite Hr, Z.sub_0_r. reflexivity.
Qed.

Lemma advance_loop_total (r0 : Z) (s : state) :
  adv_inv c N r0 s ->
  post (while_ fuel (fun s => _n s <? N - _r s - 1) (rerun_step fuel c N)) s
       (fun o s' tr =>
          o = Done tt /\ adv_inv c N r0 s' /\ _n s' = N - r0 - 1
          /\ seg c N s tr s').
Proof.
  intros Hinv.
  eapply post_conseq.
  - apply (while_total (adv_inv c N r0) (seg c N)
                       (fun s => Z.to_nat (N - r0 - 1 - _n s))).
    + apply seg_refl.
    + apply seg_trans.
    + intros s1 Hinv1 Hc.
      assert (Hr1 : _r s1 = r0) by apply Hinv1.
      eapply post_conseq;
        [apply (rerun_step_total r0 s1 Hinv1); lia|].
      cbv beta. intros o s' tr (-> & Hinv' & Hseg & Hlt).
      refine (conj eq_refl (conj Hinv' (conj Hseg _))).
      destruct Hinv1 as (_ & _ & Hn1 & _), Hinv' as (_ & _ & Hn' & _). lia.
    + exact Hinv.
    + destruct Hvalid, Hinv as (_ & ? & ? & _). lia.
  - cbv beta. intros o s' tr (-> & Hinv' & Hc & Hseg).
    refine (conj eq_refl (conj Hinv' (conj _ Hseg))).
    destruct Hinv' as (Hr' & _ & Hn' & _). lia.
Qed.

Lemma forward_loop_total (s : state) :
  adv_inv c N 0 s ->
  post (while_ fuel (fun s => _n s <? N - 1) (forward_step fuel c N)) s
       (fun o s' tr =>
          o = Done tt /\ adv_inv c N 0 s' /\ _n s' = N - 1
          /\ seg c N s tr s').
Proof.
  intros Hinv.
  eapply post_conseq.
  - apply (while_total (adv_inv c N 0) (seg c N)
                       (fun s => Z.to_nat (N - 1 - _n s))).
    + apply seg_refl.
    + apply seg_trans.
    + intros s1 Hinv1 Hc.
      assert (Hr1 : _r s1 = 0) by apply Hinv1.
      unfold post. rewrite (forward_step_eq s1 Hr1).
      eapply post_conseq;
        [apply (rerun_step_total 0 s1 Hinv1); lia|].
      cbv beta. intros o s' tr (-> & Hinv' & Hseg & Hlt).
      refine (conj eq_refl (conj Hinv' (conj Hseg _))).
      destruct Hinv1 as (_ & _ & Hn1 & _), Hinv' as (_ & _ & Hn' & _). lia.
    + exact Hinv.
    + destruct Hvalid, Hinv as (_ & ? & ? & _). lia.
  - cbv beta. intros o s' tr (-> & Hinv' & Hc & Hseg).
    refine (conj eq_refl (conj Hinv' (conj _ Hseg))).
    destruct Hinv' as (Hr' & _ & Hn' & _). lia.
Qed.

(** The invariant of the reverse loop. *)
Definition rev_inv (s : state) : Prop :=
  1 <= _r s <= N
  /\ descending 0 (N - _r s) (_snapshots s)
  /\ stack_size s <= capacity c
  /\ (_r s < N -> In 0 (_snapshots s))
  /\ _exhausted s = false.

Lemma adjoint_step_total (s : state) :
  _r s < N -> 0 <= _r s -> _n s = N - _r s - 1 ->
  stack_size s <= capacity c -> _exhausted s = false ->
  post (adjoint_step c) s
       (fun o s' tr =>
          o = Done tt /\ seg c N s tr s' /\ _r s' = _r s + 1
          /\ _snapshots s' = _snapshots s /\ _exhausted s' = false).
Proof.
  intros Hr Hr0 Hn Hcap Hex. unfold adjoint_step. grun. ms_finish.
Qed.

Lemma rerun_total (s : state) (cp_n : Z) (rest : list Z) (st : string) :
  rev_inv s -> _snapshots s = cp_n :: rest -> cp_n < N - _r s - 1 ->
  post (rerun fuel c N cp_n st) s
       (fun o s' tr =>
          o = Done tt /\ adv_inv c N (_r s) s' /\ _n s' = N - _r s - 1
          /\ seg c N s tr s').
Proof.
  intros (Hr & Hdesc & Hcap & H0 & Hex) Hstack Hlt.
  rewrite Hstack in Hdesc, H0. cbn [descending] in Hdesc.
  destruct Hdesc as [Hcp Hdesc]. specialize (H0 ltac:(lia)).
  destruct Hvalid as [_ HN Hsto Htraj _ Hfuel].
  unfold stack_size in Hcap. rewrite Hstack, len_cons in Hcap.
  pose proof (len_nonneg rest) as Hrest.
  destruct (n_advance_spec fuel (N - _r s - cp_n)
                           (capacity c - len (cp_n :: rest) + 1)
                           (_trajectory c))
    as (a & Ha & Hone & _ & _ & Hbound);
    rewrite ?len_cons; try lia; trivial.
  specialize (Hbound ltac:(lia)).
  unfold rerun. grun. cbn [_n _r _snapshots set_n]. rewrite Hstack.
  apply post_lift_bind. rewrite Ha. grun; [lia|].
  apply post_bind.
  eapply post_conseq; [apply (advance_loop_total (_r s))|].
  - unfold adv_inv, stack_size. ms_simpl. rewrite Hstack. ms_simpl.
    assert (Hfull : cp_n + a < N - _r s - 1 ->
                    len rest + 1 < capacity c).
    { intros Hlt'. destruct (Z.eq_dec (capacity c - (len rest + 1) + 1) 1)
        as [E|E]; [specialize (Hone E)|]; lia. }
    repeat split; try tauto; try lia.
  - cbv beta. intros o s' tr (-> & Hinv' & Hn' & Hseg).
    assert (Hr' : _r s' = _r s) by apply Hinv'.
    grun; [lia|].
    refine (conj eq_refl (conj Hinv' (conj Hn' _))).
    destruct Hseg as (HF & HR & HS).
    unfold seg, ev_ok, stack_size in *. ms_simpl. rewrite Hstack.
    ms_simpl. rewrite app_nil_r.
    repeat (ms_simpl;
            match goal with
            | |- _ /\ _ => split
            | |- Forall _ (_ :: _) => constructor
            | |- Forall _ (_ ++ _) => apply Forall_app
            | |- Forall _ [] => constructor
            | |- True => exact I
            end); ms_simpl; rewrite ?Hstack in *; ms_simpl; trivial; lia.
Qed.

Lemma reverse_step_total (s : state) :
  rev_inv s -> _r s < N ->
  post (reverse_step fuel c N) s
       (fun o s' tr =>
          o = Done tt /\ rev_inv s' /\ seg c N s tr s'
          /\ _r s' = _r s + 1).
Proof.
  intros Hinv Hlt. pose proof Hinv as (Hr & Hdesc & Hcap & H0 & Hex).
  specialize (H0 Hlt).
  unfold reverse_step. gstep.
  destruct (_snapshots s) as [|cp_n rest] eqn:Hstack; [destruct H0|].
  cbn [descending] in Hdesc. destruct Hdesc as [Hcp Hdesc].
  unfold stack_size in Hcap. rewrite Hstack, len_cons in Hcap.
  pose proof (len_nonneg rest) as Hrest.
  destruct (getitem_storage c (len (cp_n :: rest) - 1)) as [st Hst].
  { destruct Hvalid. rewrite len_cons. lia. }
  apply post_lift_bind. rewrite Hst.
  destruct (Z.eqb_spec cp_n (N - _r s - 1)) as [Hcp_n|Hcp_n];
    cbv beta match.
  - grun.
    eapply post_conseq; [apply adjoint_step_total|];
      cbn [_n _r _snapshots _exhausted set_n set_snapshots];
      unfold stack_size; cbn [_snapshots set_n set_snapshots];
      try lia; trivial.
    intros o s' tr (-> & (HF & HR & HS) & Hr' & Hsn' & Hex').
    unfold rev_inv, seg, ev_ok, stack_size in *. rewrite Hsn', Hr'.
    ms_simpl. rewrite Hstack. ms_simpl.
    assert (Hin : _r s + 1 < N -> In 0 rest)
      by (intros; destruct H0; [lia | trivial]).
    replace (N - (_r s + 1)) with cp_n by lia.
    repeat (ms_simpl;
            match goal with
            | |- _ /\ _ => split
            | |- Forall _ (_ :: _) => constructor
            | |- Forall _ [] => constructor
            | |- True => exact I
            end); ms_simpl; rewrite ?Hsn' in *; trivial; try lia.
    rewrite <- Hr'. exact HR.
  - apply post_bind.
    eapply post_conseq;
      [apply (rerun_total s cp_n rest st Hinv Hstack); lia|].
    cbv beta. intros o s1 t1 (-> & Hinv1 & Hn1 & Hseg1).
    destruct Hinv1 as (Hr1 & _ & Hnr1 & Hdesc1 & _ & Hcap1 & Hin1 & Hex1).
    eapply post_conseq; [apply adjoint_step_total|]; try lia; trivial.
    cbv beta. intros o s' t2 (-> & Hseg2 & Hr' & Hsn' & Hex').
    pose proof (seg_trans _ _ _ _ _ _ _ Hseg1 Hseg2) as Hseg.
    refine (conj eq_refl (conj _ (conj Hseg _))); [|lia].
    unfold rev_inv, stack_size in *. rewrite Hsn', Hr', Hr1.
    replace (N - (_r s + 1)) with (_n s1) by lia.
    repeat split; trivial; try lia.
    intros _. apply Hin1. lia.
Qed.

Lemma reverse_loop_total (s : state) :
  rev_inv s ->
  post (while_ fuel (fun s => _r s <? N) (reverse_step fuel c N)) s
       (fun o s' tr =>
          o = Done tt /\ rev_inv s' /\ _r s' = N /\ seg c N s tr s').
Proof.
  intros Hinv.
  eapply post_conseq.
  - apply (while_total rev_inv (seg c N) (fun s => Z.to_nat (N - _r s))).
    + apply seg_refl.
    + apply seg_trans.
    + intros s1 Hinv1 Hc.
      eapply post_conseq; [apply (reverse_step_total s1 Hinv1); lia|].
      cbv beta. intros o s' tr (-> & Hinv' & Hseg & Hr').
      refine (conj eq_refl (conj Hinv' (conj Hseg _))). lia.
    + exact Hinv.
    + destruct Hvalid, Hinv as (? & _). lia.
  - cbv beta. intros o s' tr (-> & Hinv' & Hc & Hseg).
    refine (conj eq_refl (conj Hinv' (conj _ Hseg))).
    destruct Hinv' as (? & _). lia.
Qed.

Lemma turn_total (s : state) :
  adv_inv c N 0 s -> _n s = N - 1 ->
  post (turn c) s
       (fun o s' tr =>
          o = Done tt /\ rev_inv s'
          /\ Forall (ev_ok c N) tr
          /\ tracks _r rdelta (_r s) tr (_r s')
          /\ tracks stack_size sdelta (stack_size s) tr (stack_size s')
          /\ In EndForward (actions tr)).
Proof.
  intros (Hr & _ & Hn & Hdesc & _ & Hcap & H0 & Hex) HnN.
  destruct Hvalid as [_ HN _ _ _ _].
  unfold turn. grun. unfold rev_inv, actions. cbn [map fst].
  rewrite HnN in Hdesc.
  unfold ev_ok, stack_size in *.
  replace (N - _r (set_r (_r (set_n (_n s + 1) s) + 1) (set_n (_n s + 1) s)))
    with (N - 1) by (cbn [_r set_r set_n]; lia).
  repeat (ms_simpl;
          match goal with
          | |- _ /\ _ => split
          | |- Forall _ (_ :: _) => constructor
          | |- Forall _ [] => constructor
          | |- True => exact I
          end); ms_simpl; trivial; try lia.
  - intros. apply H0. lia.
  - right. right. now left.
Qed.

Lemma finish_total (s : state) :
  rev_inv s -> _r s = N ->
  post (finish N) s
       (fun o s' tr =>
          o = Done tt /\ tr = [(EndReverse true, s')]
          /\ _r s' = N /\ _snapshots s' = [] /\ _exhausted s' = true).
Proof.
  intros (Hr & Hdesc & Hcap & H0 & Hex) HrN.
  rewrite HrN, Z.sub_diag in Hdesc.
  apply descending_empty in Hdesc; [|lia].
  unfold finish. grun; try lia.
  - rewrite Hdesc in *. discriminate.
  - cbn [_r _snapshots _exhausted set_exhausted]. auto.
Qed.

End Steps.

(** A complete run: the actions before [EndReverse], then
    [EndReverse(True)] in the final state. *)
Definition complete_run (c : config) (N : Z) (tr : list (event state))
           (s' : state) : Prop :=
  exists pre,
    tr = pre ++ [(EndReverse true, s')]
    /\ Forall (ev_ok c N) pre
    /\ tracks _r rdelta 0 pre N
    /\ tracks stack_size sdelta 0 pre 0
    /\ In EndForward (actions pre)
    /\ _r s' = N /\ _snapshots s' = [] /\ _exhausted s' = true.

Lemma initial_adv_inv (fuel : nat) (c : config) (N : Z) :
  valid fuel c N -> adv_inv c N 0 initial_state.
Proof.
  intros [_ HN Hsto _ Hcap _].
  pose proof (len_nonneg (_storage c)).
  unfold adv_inv, stack_size, initial_state. cbn.
  repeat split; try lia.
Qed.

Lemma iter_total (fuel : nat) (c : config) (N : Z) :
  valid fuel c N ->
  exists s' tr,
    iter fuel c initial_state = (Done tt, s', tr) /\ complete_run c N tr s'.
Proof.
  intros Hvalid.
  enough (H : post (iter fuel c) initial_state
                   (fun o s' tr => o = Done tt /\ complete_run c N tr s')).
  { unfold post in H. destruct (iter fuel c initial_state) as [[o s'] tr].
    destruct H as [-> H]. eauto. }
  unfold iter. rewrite (v_max_n _ _ _ Hvalid).
  apply post_bind.
  eapply post_conseq;
    [apply (forward_loop_total fuel c N Hvalid), (initial_adv_inv fuel);
     trivial|].
  cbv beta. intros o s1 t1 (-> & Hinv1 & Hn1 & HF1 & HR1 & HS1).
  gstep. replace (negb (_n s1 =? N - 1)) with false by lia.
  apply post_bind.
  eapply post_conseq; [apply (turn_total fuel c N Hvalid s1 Hinv1 Hn1)|].
  cbv beta. intros o s2 t2 (-> & Hinv2 & HF2 & HR2 & HS2 & Hend).
  apply post_bind.
  eapply post_conseq;
    [apply (reverse_loop_total fuel c N Hvalid s2 Hinv2)|].
  cbv beta. intros o s3 t3 (-> & Hinv3 & Hr3 & HF3 & HR3 & HS3).
  eapply post_conseq; [apply (finish_total c N s3 Hinv3 Hr3)|].
  cbv beta. intros o s4 t4 (-> & -> & Hr4 & Hsn4 & Hex4).
  split; trivial. exists (t1 ++ t2 ++ t3).
  assert (Hs3 : stack_size s3 = 0).
  { destruct Hinv3 as (_ & Hdesc & _). rewrite Hr3, Z.sub_diag in Hdesc.
    apply descending_empty in Hdesc; [|lia].
    unfold stack_size. now rewrite Hdesc. }
  repeat split; trivial.
  - now rewrite <- !app_assoc.
  - repeat (apply Forall_app; split); trivial.
  - pose proof (tracks_app _ _ _ _ _ _ _ HR1
                            (tracks_app _ _ _ _ _ _ _ HR2 HR3)) as H.
    rewrite Hr3 in H. exact H.
  - pose proof (tracks_app _ _ _ _ _ _ _ HS1
                            (tracks_app _ _ _ _ _ _ _ HS2 HS3)) as H.
    rewrite Hs3 in H. exact H.
  - unfold actions. rewrite !map_app, !in_app_iff. auto.
Qed.

(** *** The allocator follows the stack of the schedule *)

Lemma update_length {A} (k : nat) (f : A -> A) (l : list A) :
  List.length (update k f l) = List.length l.
Proof.
  revert k. induction l as [|x l IH]; intros [|k]; cbn; auto.
Qed.

Lemma len_update {A} (k : nat) (f : A -> A) (l : list A) :
  len (update k f l) = len l.
Proof. unfold len. now rewrite update_length. Qed.

Section Allocator.
Variable W : Type.
Variable Wzero : W.
Variable Wadd : W -> W -> W.
Variable Wltb : W -> W -> bool.
Variables write_weight read_weight delete_weight : W.

(** The slot of the snapshot an action is about: its position on the
    stack of the schedule, counted from the bottom, at the moment of the
    action.  A written snapshot is on top of the stack; so is a snapshot
    that is read and kept; a snapshot that is read and deleted has just
    left the stack, whose size is the position it had. *)
Definition slot (e : event state) : nat :=
  match fst e with
  | Read _ _ true => Z.to_nat (stack_size (snd e))
  | _ => Z.to_nat (stack_size (snd e) - 1)
  end.

(** The accumulation of the weights as the specification words it. *)
Definition charge (e : event state) (weights : list W) : list W :=
  match fst e with
  | Write _ _ => update (slot e) (fun x => Wadd x write_weight) weights
  | Read _ _ delete =>
      let weights := update (slot e) (fun x => Wadd x read_weight) weights in
      if delete
      then update (slot e) (fun x => Wadd x delete_weight) weights
      else weights
  | _ => weights
  end.

Definition accumulate (tr : list (event state)) (weights : list W)
  : list W :=
  fold_left (fun weights e => charge e weights) tr weights.

Lemma len_charge (e : event state) (weights : list W) :
  len (charge e weights) = len weights.
Proof.
  unfold charge. destruct (fst e) as [| | | | ? ? []| | |];
    now rewrite ?len_update.
Qed.

Lemma add_weight_in_range (weights : list W) (i : Z) (w : W) :
  0 <= i < len weights ->
  add_weight W Wadd weights i w
  = Done (update (Z.to_nat i) (fun x => Wadd x w) weights).
Proof.
  intros Hi. unfold add_weight, position.
  now replace ((0 <=? i) && (i <? len weights)) with true by lia.
Qed.

Lemma drive_accumulate (c : config) (N snapshots : Z)
      (rest_tr : list action) (rest : outcome unit) :
  capacity c = snapshots ->
  forall (pre : list (event state)) (z z' : Z) (weights : list W),
    0 <= z <= snapshots -> len weights = snapshots ->
    Forall (ev_ok c N) pre ->
    tracks stack_size sdelta z pre z' ->
    drive W Wadd write_weight read_weight delete_weight snapshots
          (actions pre ++ rest_tr) rest (z - 1, weights)
    = drive W Wadd write_weight read_weight delete_weight snapshots
            rest_tr rest (z' - 1, accumulate pre weights)
      /\ 0 <= z' <= snapshots.
Proof.
  intros Hcap.
  induction pre as [|[a s] pre IH]; intros z z' weights Hz Hlen HF HT.
  - cbn in HT. subst z'. cbn. auto.
  - inversion HF as [|? ? Hev HF']; subst. cbn [tracks fst snd] in HT.
    destruct HT as [Hs HT].
    destruct Hev as (Hsz & _ & Hend & _ & Hread). cbn [fst snd] in *.
    pose proof (len_nonneg (_snapshots s)) as Hnn. fold (stack_size s) in Hnn.
    assert (Hstep :
              dispatch W Wadd write_weight read_weight delete_weight
                       (capacity c) a (z - 1, weights)
              = Done (stack_size s - 1, charge (a, s) weights)).
    { unfold charge, slot. cbn [fst snd].
      destruct a as [| | | |n st [|]|n st| |]; cbn [dispatch sdelta] in *;
        try (rewrite Hs; do 2 f_equal; lia).
      - unfold action_read.
        replace (z - 1 <? 0) with false by lia.
        rewrite add_weight_in_range by lia.
        rewrite add_weight_in_range by (rewrite len_update; lia).
        do 2 f_equal; [lia|].
        replace (Z.to_nat (z - 1)) with (Z.to_nat (stack_size s)) by lia.
        reflexivity.
      - unfold action_read.
        replace (z - 1 <? 0) with false by lia.
        rewrite add_weight_in_range by lia.
        do 2 f_equal; [lia|].
        replace (Z.to_nat (z - 1)) with (Z.to_nat (stack_size s - 1)) by lia.
        reflexivity.
      - unfold action_write.
        replace (z - 1 + 1 >=? capacity c) with false by lia.
        rewrite add_weight_in_range by lia.
        do 2 f_equal; [lia|].
        replace (Z.to_nat (z - 1 + 1)) with (Z.to_nat (stack_size s - 1))
          by lia.
        reflexivity. }
    cbn [actions map app fst drive]. rewrite Hstep, Hend.
    cbn [accumulate fold_left].
    apply IH; trivial; try lia. now rewrite len_charge.
Qed.

End Allocator.

(** *** The allocator and the constructor are total *)

Lemma dry_run_valid (fuel : nat) (N snapshots : Z) (trajectory : string) :
  1 <= N -> 0 <= snapshots -> 1 <= snapshots \/ N = 1 ->
  valid_trajectory trajectory -> (Z.to_nat N <= fuel)%nat ->
  valid fuel (dry_run_config (Some N) snapshots trajectory) N.
Proof.
  intros HN Hs Hcap Htraj Hfuel.
  constructor; cbn; trivial.
  - unfold capacity. cbn.
    destruct (Z.eqb_spec snapshots 0); rewrite ?len_repeat, ?len_nil; lia.
  - unfold capacity. cbn. lia.
Qed.

Lemma accumulate_app {W} (Wadd : W -> W -> W) (ww rw dw : W)
      (t1 t2 : list (event state)) (weights : list W) :
  accumulate W Wadd ww rw dw (t1 ++ t2) weights
  = accumulate W Wadd ww rw dw t2 (accumulate W Wadd ww rw dw t1 weights).
Proof. unfold accumulate. apply fold_left_app. Qed.

Section AllocatorTotal.
Variable W : Type.
Variable Wzero : W.
Variable Wadd : W -> W -> W.
Variable Wltb : W -> W -> bool.
Variables write_weight read_weight delete_weight : W.

Lemma allocate_snapshots_total (fuel : nat) (N in_ram on_disk : Z)
      (trajectory : string) :
  1 <= N -> 0 <= in_ram -> 0 <= on_disk ->
  1 <= in_ram + on_disk \/ N = 1 ->
  valid_trajectory trajectory -> (Z.to_nat N <= fuel)%nat ->
  let snapshots := in_ram + on_disk in
  let cp_schedule := dry_run_config (Some N) snapshots trajectory in
  exists s' tr,
    iter fuel cp_schedule initial_state = (Done tt, s', tr)
    /\ complete_run cp_schedule N tr s'
    /\ let weights :=
         accumulate W Wadd write_weight read_weight delete_weight tr
                    (repeat Wzero (Z.to_nat snapshots)) in
       allocate_snapshots W Wzero Wadd Wltb write_weight read_weight
                          delete_weight fuel (Some N) in_ram on_disk
                          trajectory
       = Done (weights, allocation_of W Wltb weights snapshots in_ram).
Proof.
  intros HN Hram Hdisk Hcap Htraj Hfuel snapshots cp_schedule.
  assert (Hvalid : valid fuel cp_schedule N)
    by (apply dry_run_valid; trivial; lia).
  destruct (iter_total fuel cp_schedule N Hvalid) as (s' & tr & Hrun & Hc).
  exists s', tr. split; [exact Hrun|]. split; [exact Hc|].
  destruct Hc as (pre & -> & HF & _ & HS & _).
  cbv zeta. unfold allocate_snapshots. fold snapshots. fold cp_schedule.
  rewrite Hrun. unfold actions at 1. rewrite map_app. fold (actions pre).
  assert (Hcapc : capacity cp_schedule = snapshots)
    by (unfold capacity; cbn; lia).
  destruct (drive_accumulate W Wadd write_weight read_weight delete_weight
              cp_schedule N snapshots
              (map fst [(EndReverse true, s')]) (Done tt) Hcapc
              pre 0 0 (repeat Wzero (Z.to_nat snapshots)))
    as [Hdrive _]; trivial; try lia.
  { rewrite len_repeat. lia. }
  change (-1) with (0 - 1) at 1. rewrite Hdrive. cbn.
  rewrite accumulate_app. reflexivity.
Qed.

End AllocatorTotal.

(** The schedule the allocator runs is the one the constructor builds. *)
Lemma dry_run_constructed (fuel : nat) (max_n : option Z) (snapshots : Z)
      (trajectory : string) :
  MultistageCheckpointSchedule fuel max_n snapshots 0 false trajectory
  = Done (dry_run_config max_n snapshots trajectory, initial_state).
Proof.
  unfold MultistageCheckpointSchedule, dry_run_config.
  destruct (Z.eqb_spec snapshots 0) as [->|Hs]; reflexivity.
Qed.

Lemma allocation_of_length {W} (Wltb : W -> W -> bool) (weights : list W)
      (snapshots in_ram : Z) :
  len (allocation_of W Wltb weights snapshots in_ram)
  = Z.of_nat (Z.to_nat snapshots).
Proof.
  unfold allocation_of.
  generalize (map fst (slice_to in_ram
                         (sorted_desc W Wltb (enumerate_from 0 weights)))).
  intros l. rewrite <- (len_repeat "disk"%string (Z.to_nat snapshots)).
  generalize (repeat "disk"%string (Z.to_nat snapshots)).
  induction l as [|i l IH]; intros a; cbn; trivial.
  rewrite IH. apply len_update.
Qed.

(** With arguments in their ranges the constructor returns a schedule whose
    configuration is valid. *)
Lemma constructor_total (fuel : nat) (N in_ram on_disk : Z) (keep : bool)
      (trajectory : string) :
  1 <= N -> 0 <= in_ram -> 0 <= on_disk ->
  1 <= in_ram + on_disk \/ N = 1 ->
  valid_trajectory trajectory -> (Z.to_nat N <= fuel)%nat ->
  exists c,
    MultistageCheckpointSchedule fuel (Some N) in_ram on_disk keep trajectory
    = Done (c, initial_state)
    /\ valid fuel c N
    /\ capacity c = in_ram + on_disk.
Proof.
  intros HN Hram Hdisk Hcap Htraj Hfuel.
  unfold MultistageCheckpointSchedule.
  destruct (Z.eqb_spec in_ram 0) as [Hr0|Hr0];
    [|destruct (Z.eqb_spec on_disk 0) as [Hd0|Hd0]].
  - eexists. split; [reflexivity|].
    split; [constructor|]; unfold capacity; cbn; trivial; try lia.
    rewrite len_repeat. lia.
  - eexists. split; [reflexivity|].
    split; [constructor|]; unfold capacity; cbn; trivial; try lia.
    rewrite len_repeat. lia.
  - destruct (allocate_snapshots_total Z 0 Z.add Z.ltb 1 1 0 fuel N in_ram
                on_disk trajectory HN Hram Hdisk Hcap Htraj Hfuel)
      as (s' & tr & _ & _ & Halloc).
    cbv zeta in Halloc. rewrite Halloc.
    eexists. split; [reflexivity|].
    split; [constructor|]; unfold capacity; cbn; trivial; try lia.
    rewrite allocation_of_length. lia.
Qed.

(** *** Claims C2, C3 and C6 *)

Definition count_writes (l : list action) : Z :=
  len (filter (fun a => match a with Write _ _ => true | _ => false end) l).

(** C2, counterexample: six steps with two snapshots on disk.  The schedule
    yields three [Write] actions (steps 0 and 3 in the forward sweep, step
    1 in the reverse sweep) although its capacity is two. *)
Lemma three_writes_with_two_snapshots :
  exists c s' tr,
    MultistageCheckpointSchedule 6 (Some 6) 0 2 false "maximum"
    = Done (c, initial_state)
    /\ iter 6 c initial_state = (Done tt, s', tr)
    /\ count_writes (actions tr) = 3
    /\ ~ count_writes (actions tr) <= 0 + 2.
Proof.
  eexists _, _, _. split; [reflexivity|]. split; [vm_compute; reflexivity|].
  split; [reflexivity|]. vm_compute. intros H. apply H. reflexivity.
Qed.

(** C2, amended: a schedule built with [max_n >= 1], snapshot counts that
    are not negative and not both zero unless [max_n = 1], and one of the
    two trajectories, runs to [EndReverse(True)].  At every action the size
    of the snapshot stack is at most [snapshots_in_ram +
    snapshots_on_disk]; this size starts at 0, grows by one at each [Write],
    shrinks by one at each deleting [Read] and is 0 when [EndReverse] is
    yielded. *)
Theorem stack_within_capacity (fuel : nat) (N in_ram on_disk : Z)
        (keep : bool) (trajectory : string) :
  1 <= N -> 0 <= in_ram -> 0 <= on_disk ->
  1 <= in_ram + on_disk \/ N = 1 ->
  valid_trajectory trajectory -> (Z.to_nat N <= fuel)%nat ->
  exists c s' pre,
    MultistageCheckpointSchedule fuel (Some N) in_ram on_disk keep trajectory
    = Done (c, initial_state)
    /\ iter fuel c initial_state
       = (Done tt, s', pre ++ [(EndReverse true, s')])
    /\ Forall (fun e => stack_size (snd e) <= in_ram + on_disk) pre
    /\ tracks stack_size sdelta 0 pre 0
    /\ stack_size s' = 0.
Proof.
  intros HN Hram Hdisk Hcap Htraj Hfuel.
  destruct (constructor_total fuel N in_ram on_disk keep trajectory)
    as (c & Hc & Hvalid & Hcapc); trivial.
  destruct (iter_total fuel c N Hvalid)
    as (s' & tr & Hrun & pre & -> & HF & _ & HS & _ & _ & Hsn & _).
  exists c, s', pre. repeat split; trivial.
  - rewrite <- Hcapc. revert HF. apply Forall_impl. intros e He. apply He.
  - unfold stack_size. now rewrite Hsn.
Qed.

Lemma stack_within_capacity_witness :
  exists c s' pre,
    MultistageCheckpointSchedule 10 (Some 10) 1 2 false "maximum"
    = Done (c, initial_state)
    /\ iter 10 c initial_state
       = (Done tt, s', pre ++ [(EndReverse true, s')])
    /\ Forall (fun e => stack_size (snd e) <= 1 + 2) pre
    /\ tracks stack_size sdelta 0 pre 0
    /\ stack_size s' = 0.
Proof.
  apply (stack_within_capacity 10 10 1 2 false "maximum").
  - lia.
  - lia.
  - lia.
  - left. lia.
  - left. reflexivity.
  - lia.
Defined.

(** Where a counter that follows [rdelta] first reaches its final value. *)
Lemma tracks_settled {St} (f : St -> Z) (N : Z) (l : list (event St)) :
  tracks f rdelta N l N -> Forall (fun e => f (snd e) <= N) l ->
  Forall (fun e => f (snd e) = N /\ rdelta (fst e) = 0) l.
Proof.
  induction l as [|e l IH]; cbn; intros HT HF; constructor;
    inversion HF as [|? ? He HF']; subst; destruct HT as [Hf HT].
  - assert (0 <= rdelta (fst e)) by (destruct (fst e); cbn; lia). lia.
  - assert (0 <= rdelta (fst e)) by (destruct (fst e); cbn; lia).
    assert (Hfe : f (snd e) = N) by lia.
    rewrite Hfe in HT. auto.
Qed.

Lemma tracks_reaches {St} (f : St -> Z) (N : Z) (l : list (event St)) :
  forall z, z < N ->
    tracks f rdelta z l N -> Forall (fun e => f (snd e) <= N) l ->
    exists before n1 n0 s1 after,
      l = before ++ (Reverse n1 n0, s1) :: after
      /\ Forall (fun e => f (snd e) < N) before
      /\ f s1 = N
      /\ Forall (fun e => f (snd e) = N /\ rdelta (fst e) = 0) after.
Proof.
  induction l as [|[a s] l IH]; cbn [tracks fst snd]; intros z Hz HT HF.
  - lia.
  - destruct HT as [Hf HT]. inversion HF as [|? ? He HF']; subst.
    cbn [snd] in He.
    destruct (Z.eq_dec (f s) N) as [HN|HN].
    + destruct a; cbn [rdelta] in Hf; try lia.
      exists [], n1, n0, s, l. repeat split; trivial.
      rewrite HN in HT. now apply tracks_settled.
    + destruct (IH (f s)) as (before & n1 & n0 & s1 & after & -> & HB & H1 & HA);
        trivial; try lia.
      exists ((a, s) :: before), n1, n0, s1, after.
      repeat split; trivial. constructor; trivial. cbn. lia.
Qed.

(** C3, counterexample: one step and no snapshot.  The counter [r] already
    equals [max_n = 1] at the [Reverse] action and at the [Clear] that
    follows it, before [EndReverse] is yielded: three actions of the run
    see [r = max_n], not one. *)
Lemma reverse_counter_full_before_end :
  exists c s' tr s1,
    MultistageCheckpointSchedule 1 (Some 1) 0 0 false "maximum"
    = Done (c, initial_state)
    /\ iter 1 c initial_state = (Done tt, s', tr)
    /\ In (Reverse 1 0, s1) tr /\ _r s1 = 1
    /\ len (filter (fun e => _r (snd e) =? 1) tr) = 3.
Proof.
  eexists _, _, _, _. split; [reflexivity|]. split; [vm_compute; reflexivity|].
  split; [do 3 right; left; reflexivity|]. split; reflexivity.
Qed.

(** C3, amended: a schedule built with arguments in their ranges runs to a
    single [EndReverse(True)], its last action, after which
    [is_exhausted()] is true.  Along the run [r] starts at 0 and increases
    by exactly 1 at each [Reverse] action and at no other action.  [r]
    becomes [max_n] exactly once, at a [Reverse] action: before it [r <
    max_n], and from it on, through the following actions up to and
    including [EndReverse], [r = max_n] and no further [Reverse] occurs. *)
Theorem reverse_counter (fuel : nat) (N in_ram on_disk : Z)
        (keep : bool) (trajectory : string) :
  1 <= N -> 0 <= in_ram -> 0 <= on_disk ->
  1 <= in_ram + on_disk \/ N = 1 ->
  valid_trajectory trajectory -> (Z.to_nat N <= fuel)%nat ->
  exists c s' before n1 n0 s1 after,
    MultistageCheckpointSchedule fuel (Some N) in_ram on_disk keep trajectory
    = Done (c, initial_state)
    /\ iter fuel c initial_state
       = (Done tt, s',
          (before ++ (Reverse n1 n0, s1) :: after) ++ [(EndReverse true, s')])
    /\ tracks _r rdelta 0 (before ++ (Reverse n1 n0, s1) :: after) N
    /\ Forall (fun e => _r (snd e) < N /\ is_EndReverse (fst e) = false)
              before
    /\ _r s1 = N
    /\ Forall (fun e => _r (snd e) = N /\ rdelta (fst e) = 0
                        /\ is_EndReverse (fst e) = false) after
    /\ _r s' = N
    /\ is_exhausted s' = true.
Proof.
  intros HN Hram Hdisk Hcap Htraj Hfuel.
  destruct (constructor_total fuel N in_ram on_disk keep trajectory)
    as (c & Hc & Hvalid & Hcapc); trivial.
  destruct (iter_total fuel c N Hvalid)
    as (s' & tr & Hrun & pre & -> & HF & HR & _ & _ & Hr' & _ & Hex).
  assert (HFr : Forall (fun e => _r (snd e) <= N) pre).
  { revert HF. apply Forall_impl. intros e He. apply He. }
  destruct (tracks_reaches _r N pre 0 ltac:(lia) HR HFr)
    as (before & n1 & n0 & s1 & after & -> & HB & H1 & HA).
  exists c, s', before, n1, n0, s1, after.
  apply Forall_app in HF. destruct HF as [HFb HFa].
  inversion HFa as [|? ? _ HFa']; subst.
  repeat split; trivial.
  - rewrite Forall_forall in *. intros e He. split; [now apply HB|].
    now apply (HFb e He).
  - rewrite Forall_forall in *. intros e He.
    destruct (HA e He). repeat split; trivial. now apply (HFa' e He).
Qed.

Lemma reverse_counter_witness :
  exists c s' before n1 n0 s1 after,
    MultistageCheckpointSchedule 10 (Some 10) 0 3 true "revolve"
    = Done (c, initial_state)
    /\ iter 10 c initial_state
       = (Done tt, s',
          (before ++ (Reverse n1 n0, s1) :: after) ++ [(EndReverse true, s')])
    /\ tracks _r rdelta 0 (before ++ (Reverse n1 n0, s1) :: after) 10
    /\ Forall (fun e => _r (snd e) < 10 /\ is_EndReverse (fst e) = false)
              before
    /\ _r s1 = 10
    /\ Forall (fun e => _r (snd e) = 10 /\ rdelta (fst e) = 0
                        /\ is_EndReverse (fst e) = false) after
    /\ _r s' = 10
    /\ is_exhausted s' = true.
Proof.
  apply (reverse_counter 10 10 0 3 true "revolve").
  - lia.
  - lia.
  - lia.
  - left. lia.
  - right. reflexivity.
  - lia.
Defined.

(** C6, counterexample: the schedule the allocator runs for two slots has
    both of them in RAM, none on disk. *)
Lemma dry_run_slots_in_RAM :
  MultistageCheckpointSchedule 2 (Some 2) (1 + 1) 0 false "maximum"
  = Done (dry_run_config (Some 2) (1 + 1) "maximum", initial_state)
  /\ _storage (dry_run_config (Some 2) (1 + 1) "maximum")
     = ["RAM"; "RAM"]%string
  /\ _storage (dry_run_config (Some 2) (1 + 1) "maximum")
     <> ["disk"; "disk"]%string.
Proof. repeat split. discriminate. Qed.

Section AllocatorRefines.
Variable W : Type.
Variable Wzero : W.
Variable Wadd : W -> W -> W.
Variable Wltb : W -> W -> bool.
Variables write_weight read_weight delete_weight : W.

(** C6, amended: the allocator runs the schedule
    [MultistageCheckpointSchedule(max_n, snapshots, 0)] with [snapshots =
    snapshots_in_ram + snapshots_on_disk], in which every slot is in RAM
    and none on disk.  With arguments in their ranges this run completes,
    and the weights the allocator returns are those obtained by adding, in
    the order of the actions, [write_weight] at every [Write] and
    [read_weight] (then [delete_weight] when the [Read] deletes) at every
    [Read], to the slot given by the position of the snapshot on the stack
    of the schedule at the moment of the action. *)
Theorem allocator_weights (fuel : nat) (N in_ram on_disk : Z)
        (trajectory : string) :
  1 <= N -> 0 <= in_ram -> 0 <= on_disk ->
  1 <= in_ram + on_disk ->
  valid_trajectory trajectory -> (Z.to_nat N <= fuel)%nat ->
  let snapshots := in_ram + on_disk in
  exists c s' tr weights allocation,
    MultistageCheckpointSchedule fuel (Some N) snapshots 0 false trajectory
    = Done (c, initial_state)
    /\ _snapshots_in_ram c = snapshots /\ _snapshots_on_disk c = 0
    /\ _storage c = repeat "RAM"%string (Z.to_nat snapshots)
    /\ iter fuel c initial_state = (Done tt, s', tr)
    /\ allocate_snapshots W Wzero Wadd Wltb write_weight read_weight
                          delete_weight fuel (Some N) in_ram on_disk
                          trajectory
       = Done (weights, allocation)
    /\ weights
       = accumulate W Wadd write_weight read_weight delete_weight tr
                    (repeat Wzero (Z.to_nat snapshots)).
Proof.
  intros HN Hram Hdisk Hcap Htraj Hfuel snapshots.
  destruct (allocate_snapshots_total W Wzero Wadd Wltb write_weight
              read_weight delete_weight fuel N in_ram on_disk trajectory)
    as (s' & tr & Hrun & _ & Halloc); auto.
  eexists _, s', tr, _, _.
  split; [apply dry_run_constructed|].
  repeat split; trivial.
  - cbn. fold snapshots.
    destruct (Z.eqb_spec snapshots 0); [lia | reflexivity].
  - exact Halloc.
Qed.

End AllocatorRefines.

Lemma allocator_weights_witness :
  exists c s' tr weights allocation,
    MultistageCheckpointSchedule 10 (Some 10) (1 + 2) 0 false "maximum"
    = Done (c, initial_state)
    /\ _snapshots_in_ram c = 1 + 2 /\ _snapshots_on_disk c = 0
    /\ _storage c = repeat "RAM"%string (Z.to_nat (1 + 2))
    /\ iter 10 c initial_state = (Done tt, s', tr)
    /\ allocate_snapshots Z 0 Z.add Z.ltb 1 1 0 10 (Some 10) 1 2 "maximum"
       = Done (weights, allocation)
    /\ weights = accumulate Z Z.add 1 1 0 tr (repeat 0 (Z.to_nat (1 + 2))).
Proof.
  apply (allocator_weights Z 0 Z.add Z.ltb 1 1 0 10 10 1 2 "maximum").
  - lia.
  - lia.
  - lia.
  - lia.
  - left. reflexivity.
  - lia.
Defined.

End MultistageProofs.

(** ** The allocation: ranks in the stable descending sort *)

Module AllocationProofs.

Lemma nth_error_update {A} (f : A -> A) (l : list A) (k i : nat) :
  nth_error (update k f l) i
  = if Nat.eqb i k then option_map f (nth_error l i) else nth_error l i.
Proof.
  revert k i. induction l as [|x l IH]; intros [|k] [|i]; cbn; trivial;
    try apply IH; now destruct (Nat.eqb i k).
Qed.

(** Marking the positions of [idxs] in [a]. *)
Lemma nth_error_mark (idxs : list nat) (a : list string) (i : nat) :
  nth_error
    (fold_left (fun a j => update j (fun _ => "RAM"%string) a) idxs a) i
  = if existsb (Nat.eqb i) idxs
    then option_map (fun _ => "RAM"%string) (nth_error a i)
    else nth_error a i.
Proof.
  revert a. induction idxs as [|j idxs IH]; intros a; cbn [fold_left existsb].
  - reflexivity.
  - rewrite IH, nth_error_update.
    destruct (Nat.eqb i j); cbn [orb]; [|reflexivity].
    destruct (nth_error a i); cbn; now destruct (existsb _ idxs).
Qed.

Lemma In_enumerate_from {A} (l : list A) (s j : nat) (x : A) :
  In (j, x) (enumerate_from s l)
  <-> (s <= j)%nat /\ nth_error l (j - s) = Some x.
Proof.
  revert s. induction l as [|y l IH]; intros s; cbn [enumerate_from In].
  - split; [easy|]. intros [_ H]. now destruct (j - s)%nat.
  - rewrite IH. split.
    + intros [[= <- <-]|[Hs Hn]].
      * rewrite Nat.sub_diag. auto.
      * split; [lia|]. replace (j - s)%nat with (S (j - S s)) by lia.
        exact Hn.
    + intros [Hs Hn]. destruct (Nat.eq_dec s j) as [<-|Hne].
      * rewrite Nat.sub_diag in Hn. left. cbn in Hn. congruence.
      * right. split; [lia|].
        replace (j - s)%nat with (S (j - S s)) in Hn by lia. exact Hn.
Qed.

Lemma count_below {A} (l : list A) (s i : nat) :
  List.length (filter (fun q => Nat.ltb (fst q) i) (enumerate_from s l))
  = (Nat.min i (s + List.length l) - s)%nat.
Proof.
  revert s. induction l as [|x l IH]; intros s;
    cbn [enumerate_from filter List.length fst].
  - lia.
  - destruct (Nat.ltb_spec s i); cbn [List.length]; rewrite IH; lia.
Qed.

Section Ranks.
Variable W : Type.
Variable Wltb : W -> W -> bool.

(** [<] on the weights is a strict weak order. *)
Hypothesis Wltb_asym : forall x y, Wltb x y = true -> Wltb y x = false.
Hypothesis Wltb_negtrans :
  forall x y z, Wltb x z = true -> Wltb x y = true \/ Wltb y z = true.

(** Slot [p] comes before slot [q]: its weight is not smaller, and it is
    greater or [p] is the earlier slot. *)
Definition precb (p q : nat * W) : bool :=
  negb (Wltb (snd p) (snd q))
  && (Wltb (snd q) (snd p) || Nat.ltb (fst p) (fst q)).

Definition prec (p q : nat * W) : Prop := precb p q = true.

(** The number of slots that come before [p]. *)
Definition rank (weights : list W) (p : nat * W) : nat :=
  List.length (filter (fun q => precb q p) (enumerate_from 0 weights)).

Lemma prec_irrefl (p : nat * W) : ~ prec p p.
Proof.
  unfold prec, precb. rewrite Nat.ltb_irrefl.
  destruct (Wltb (snd p) (snd p)); cbn; discriminate.
Qed.

Lemma prec_asym (p q : nat * W) : prec p q -> ~ prec q p.
Proof.
  unfold prec, precb. intros H H'.
  destruct (Wltb (snd p) (snd q)) eqn:E1, (Wltb (snd q) (snd p)) eqn:E2;
    cbn in *; try discriminate.
  apply Nat.ltb_lt in H, H'. lia.
Qed.

Lemma prec_trans (p q r : nat * W) : prec p q -> prec q r -> prec p r.
Proof.
  unfold prec, precb. intros H1 H2.
  apply andb_true_iff in H1, H2. destruct H1 as [A1 B1], H2 as [A2 B2].
  apply negb_true_iff in A1, A2.
  apply andb_true_iff. split.
  - apply negb_true_iff. destruct (Wltb (snd p) (snd r)) eqn:E; trivial.
    destruct (Wltb_negtrans _ (snd q) _ E); congruence.
  - apply orb_true_iff in B1, B2. apply orb_true_iff.
    destruct B1 as [B1|B1].
    + left. destruct (Wltb_negtrans _ (snd r) _ B1); congruence.
    + destruct B2 as [B2|B2].
      * left. destruct (Wltb_negtrans _ (snd p) _ B2); congruence.
      * right. apply Nat.ltb_lt in B1, B2. apply Nat.ltb_lt. lia.
Qed.

Lemma insert_desc_perm (p : nat * W) (l : list (nat * W)) :
  Permutation (insert_desc W Wltb p l) (p :: l).
Proof.
  induction l as [|q l IH]; cbn [insert_desc]; [reflexivity|].
  destruct (Wltb (snd p) (snd q)); [|reflexivity].
  rewrite IH. apply perm_swap.
Qed.

Lemma sorted_desc_perm (l : list (nat * W)) :
  Permutation (sorted_desc W Wltb l) l.
Proof.
  induction l as [|p l IH]; cbn; [reflexivity|].
  rewrite insert_desc_perm. now constructor.
Qed.

Lemma insert_desc_sorted (p : nat * W) (l : list (nat * W)) :
  StronglySorted prec l ->
  Forall (fun q => (fst p < fst q)%nat) l ->
  StronglySorted prec (insert_desc W Wltb p l).
Proof.
  induction l as [|q l IH]; cbn [insert_desc]; intros Hs Hlt.
  - repeat constructor.
  - inversion Hs as [|? ? Hs' Hq]; subst.
    inversion Hlt as [|? ? Hpq Hlt']; subst.
    destruct (Wltb (snd p) (snd q)) eqn:E.
    + constructor; [now apply IH|].
      assert (Hqp : prec q p).
      { unfold prec, precb. rewrite (Wltb_asym _ _ E), E. reflexivity. }
      eapply Permutation_Forall;
        [symmetry; apply insert_desc_perm | now constructor].
    + assert (Hpq' : prec p q).
      { unfold prec, precb. rewrite E. cbn.
        apply orb_true_iff. right. now apply Nat.ltb_lt. }
      constructor; trivial. constructor; trivial.
      revert Hq. apply Forall_impl. intros r. now apply prec_trans.
Qed.

Lemma sorted_desc_sorted (l : list (nat * W)) :
  StronglySorted (fun p q => (fst p < fst q)%nat) l ->
  StronglySorted prec (sorted_desc W Wltb l).
Proof.
  induction l as [|p l IH]; cbn; intros Hs; [constructor|].
  inversion Hs; subst. apply insert_desc_sorted; [now apply IH|].
  eapply Permutation_Forall; [symmetry; apply sorted_desc_perm|trivial].
Qed.

Lemma enumerate_from_sorted (l : list W) (s : nat) :
  StronglySorted (fun p q => (fst p < fst q)%nat) (enumerate_from s l).
Proof.
  revert s. induction l as [|x l IH]; intros s; cbn; constructor; trivial.
  apply Forall_forall. intros [j y] Hin.
  apply In_enumerate_from in Hin. cbn. lia.
Qed.

(** In a sorted list the first [k] entries are those of rank below [k]. *)
Lemma firstn_sorted (l : list (nat * W)) (p : nat * W) :
  StronglySorted prec l -> In p l ->
  forall k, In p (firstn k l)
            <-> (List.length (filter (fun q => precb q p) l) < k)%nat.
Proof.
  induction l as [|q l IH]; intros Hs Hin k; [destruct Hin|].
  inversion Hs as [|? ? Hs' Hq]; subst. rewrite Forall_forall in Hq.
  destruct k as [|k]; [cbn; lia|]. cbn [firstn filter In].
  destruct Hin as [->|Hin].
  - replace (precb p p) with false
      by (symmetry; apply not_true_is_false, prec_irrefl).
    replace (filter (fun q => precb q p) l) with (@nil (nat * W)).
    + cbn. split; [lia | auto].
    + symmetry. clear IH Hs Hs'. induction l as [|x l IHl]; trivial.
      cbn [filter].
      replace (precb x p) with false.
      * apply IHl. intros y Hy. apply Hq. now right.
      * symmetry. apply not_true_is_false, prec_asym, Hq. now left.
  - pose proof (Hq p Hin) as Hqp. unfold prec in Hqp. rewrite Hqp.
    cbn [List.length]. rewrite <- Nat.succ_lt_mono, <- (IH Hs' Hin k).
    split; [|auto]. intros [->|H]; trivial.
    now destruct (prec_irrefl p).
Qed.

Lemma filter_length_perm {A} (f : A -> bool) (l l' : list A) :
  Permutation l l' ->
  List.length (filter f l) = List.length (filter f l').
Proof.
  induction 1; cbn; try congruence.
  - destruct (f x); cbn; congruence.
  - destruct (f x), (f y); reflexivity.
Qed.

(** The slots marked RAM by [allocation_of]. *)
Lemma allocation_of_rank (weights : list W) (snapshots in_ram : Z)
      (i : nat) (wi : W) :
  List.length weights = Z.to_nat snapshots -> 0 <= in_ram ->
  nth_error weights i = Some wi ->
  nth_error (allocation_of W Wltb weights snapshots in_ram) i
  = Some (if Z.of_nat (rank weights (i, wi)) <? in_ram
          then "RAM"%string else "disk"%string).
Proof.
  intros Hlen Hram Hnth. unfold allocation_of, slice_to.
  replace (0 <=? in_ram) with true by lia.
  set (L := sorted_desc W Wltb (enumerate_from 0 weights)).
  assert (Hperm : Permutation L (enumerate_from 0 weights))
    by apply sorted_desc_perm.
  assert (Hsorted : StronglySorted prec L)
    by apply sorted_desc_sorted, enumerate_from_sorted.
  assert (Hin : In (i, wi) L).
  { eapply Permutation_in; [symmetry; exact Hperm|].
    apply In_enumerate_from. rewrite Nat.sub_0_r. split; [lia | trivial]. }
  assert (Hdisk : nth_error (repeat "disk"%string (Z.to_nat snapshots)) i
                  = Some "disk"%string).
  { apply nth_error_repeat.
    assert (i < List.length weights)%nat
      by (apply nth_error_Some; congruence). lia. }
  rewrite nth_error_mark, Hdisk. cbn [option_map].
  pose proof (firstn_sorted L (i, wi) Hsorted Hin (Z.to_nat in_ram)) as Hk.
  rewrite (filter_length_perm _ _ _ Hperm) in Hk. fold (rank weights (i, wi)) in Hk.
  destruct (existsb (Nat.eqb i) (map fst (firstn (Z.to_nat in_ram) L)))
    eqn:Hex.
  - apply existsb_exists in Hex. destruct Hex as (j & Hj & Hij).
    apply Nat.eqb_eq in Hij. subst j. apply in_map_iff in Hj.
    destruct Hj as ([j w] & Hfst & Hj). cbn in Hfst. subst j.
    assert (w = wi).
    { assert (Hj' : In (i, w) L).
      { rewrite <- (firstn_skipn (Z.to_nat in_ram) L).
        apply in_or_app. now left. }
      eapply Permutation_in in Hj'; [|exact Hperm]. rename Hj' into Hje.
      apply In_enumerate_from in Hje. rewrite Nat.sub_0_r in Hje.
      destruct Hje. congruence. }
    subst w. apply Hk in Hj.
    now replace (Z.of_nat (rank weights (i, wi)) <? in_ram) with true by lia.
  - destruct (Z.ltb_spec (Z.of_nat (rank weights (i, wi))) in_ram) as [Hlt|];
      trivial.
    assert (Hi : In (i, wi) (firstn (Z.to_nat in_ram) L)) by (apply Hk; lia).
    assert (Hex' : existsb (Nat.eqb i)
                           (map fst (firstn (Z.to_nat in_ram) L)) = true).
    { apply existsb_exists. exists i. split; [|apply Nat.eqb_refl].
      apply in_map_iff. now exists (i, wi). }
    congruence.
Qed.

(** With equal weights the rank of a slot is its index. *)
Lemma rank_equal_weights (weights : list W) (i : nat) (wi : W) :
  (forall x y, In x weights -> In y weights -> Wltb x y = false) ->
  nth_error weights i = Some wi ->
  rank weights (i, wi) = i.
Proof.
  intros Heq Hnth. unfold rank.
  assert (Hi : (i < List.length weights)%nat)
    by (apply nth_error_Some; congruence).
  rewrite (filter_ext_in (fun q => precb q (i, wi))
                         (fun q => Nat.ltb (fst q) i)).
  - rewrite count_below. lia.
  - intros [j wj] Hj. apply In_enumerate_from in Hj.
    rewrite Nat.sub_0_r in Hj. destruct Hj as [_ Hj].
    apply nth_error_In in Hj, Hnth. unfold precb. cbn [fst snd].
    now rewrite !Heq.
Qed.

End Ranks.

(** *** Claim C7 *)

Section Drive.
Variable W : Type.
Variable Wadd : W -> W -> W.
Variables write_weight read_weight delete_weight : W.

Lemma add_weight_length (weights weights' : list W) (i : Z) (w : W) :
  add_weight W Wadd weights i w = Done weights' ->
  List.length weights' = List.length weights.
Proof.
  unfold add_weight. destruct (position (len weights) i); [|discriminate].
  intros [= <-]. apply MultistageProofs.update_length.
Qed.

Lemma dispatch_length (snapshots : Z) (a : action) (st st' : Z * list W) :
  dispatch W Wadd write_weight read_weight delete_weight snapshots a st
  = Done st' ->
  List.length (snd st') = List.length (snd st).
Proof.
  destruct st as [z w], a; cbn [dispatch snd];
    try (intros [= <-]; reflexivity).
  - unfold action_read. destruct (z <? 0); [discriminate|].
    destruct (add_weight W Wadd w z read_weight) as [w1| |] eqn:E1;
      try discriminate.
    apply add_weight_length in E1. destruct delete.
    + destruct (add_weight W Wadd w1 z delete_weight) as [w2| |] eqn:E2;
        try discriminate.
      apply add_weight_length in E2. intros [= <-]. cbn. congruence.
    + intros [= <-]. exact E1.
  - unfold action_write. destruct (z + 1 >=? snapshots); [discriminate|].
    destruct (add_weight W Wadd w (z + 1) write_weight) as [w1| |] eqn:E1;
      try discriminate.
    apply add_weight_length in E1. intros [= <-]. exact E1.
Qed.

Lemma drive_length (snapshots : Z) (tr : list action) (rest : outcome unit) :
  forall st st',
    drive W Wadd write_weight read_weight delete_weight snapshots tr rest st
    = Done st' ->
    List.length (snd st') = List.length (snd st).
Proof.
  induction tr as [|a tr IH]; intros st st'; cbn [drive].
  - destruct rest; discriminate.
  - destruct (dispatch W Wadd write_weight read_weight delete_weight
                       snapshots a st) as [st1| |] eqn:E; try discriminate.
    apply dispatch_length in E.
    destruct (is_EndReverse a).
    + intros [= <-]. exact E.
    + intros H. apply IH in H. congruence.
Qed.

End Drive.

Section Allocation.
Variable W : Type.
Variable Wzero : W.
Variable Wadd : W -> W -> W.
Variable Wltb : W -> W -> bool.
Variables write_weight read_weight delete_weight : W.

Hypothesis Wltb_asym : forall x y, Wltb x y = true -> Wltb y x = false.
Hypothesis Wltb_negtrans :
  forall x y z, Wltb x z = true -> Wltb x y = true \/ Wltb y z = true.

(** C7: when [<] on the weights is a strict weak order and
    [snapshots_in_ram >= 0], the allocation [allocate_snapshots] returns
    has RAM at slot [i] exactly when fewer than [snapshots_in_ram] slots
    come before [i], where a slot comes before [i] when its weight is
    greater, or equal with a smaller index; the other slots are on disk.
    When no weight is smaller than another the slots in RAM are the first
    [snapshots_in_ram] ones. *)
Theorem allocation_by_rank (fuel : nat) (max_n : option Z)
        (in_ram on_disk : Z) (trajectory : string)
        (weights : list W) (allocation : list string) :
  0 <= in_ram ->
  allocate_snapshots W Wzero Wadd Wltb write_weight read_weight
                     delete_weight fuel max_n in_ram on_disk trajectory
  = Done (weights, allocation) ->
  List.length allocation = List.length weights
  /\ (forall i wi,
         nth_error weights i = Some wi ->
         nth_error allocation i
         = Some (if Z.of_nat (rank W Wltb weights (i, wi)) <? in_ram
                 then "RAM"%string else "disk"%string))
  /\ ((forall x y, In x weights -> In y weights -> Wltb x y = false) ->
      forall i, (i < List.length weights)%nat ->
                nth_error allocation i
                = Some (if Z.of_nat i <? in_ram
                        then "RAM"%string else "disk"%string)).
Proof.
  intros Hram. unfold allocate_snapshots.
  destruct (Multistage.iter _ _ _) as [[rest s'] tr].
  destruct (drive _ _ _ _ _ _ _ _ _) as [[z w]| |] eqn:Hdrive;
    try discriminate.
  destruct (z =? -1); [|discriminate]. intros [= <- <-].
  apply drive_length in Hdrive. cbn [snd] in Hdrive.
  rewrite repeat_length in Hdrive.
  assert (Hrank : forall i wi,
             nth_error w i = Some wi ->
             nth_error (allocation_of W Wltb w (in_ram + on_disk) in_ram) i
             = Some (if Z.of_nat (rank W Wltb w (i, wi)) <? in_ram
                     then "RAM"%string else "disk"%string)).
  { intros i wi Hnth. now apply allocation_of_rank. }
  split; [|split; [exact Hrank|]].
  - pose proof (MultistageProofs.allocation_of_length Wltb w
                  (in_ram + on_disk) in_ram) as Hl.
    unfold len in Hl. lia.
  - intros Heq i Hi.
    destruct (nth_error w i) as [wi|] eqn:Hnth;
      [|apply nth_error_None in Hnth; lia].
    rewrite (Hrank i wi Hnth).
    now rewrite (rank_equal_weights W Wltb w i wi Heq Hnth).
Qed.

End Allocation.

Lemma allocation_by_rank_witness :
  List.length ["disk"; "disk"; "RAM"]%string = List.length [3; 5; 7]
  /\ (forall i wi,
         nth_error [3; 5; 7] i = Some wi ->
         nth_error ["disk"; "disk"; "RAM"]%string i
         = Some (if Z.of_nat (rank Z Z.ltb [3; 5; 7] (i, wi)) <? 1
                 then "RAM"%string else "disk"%string))
  /\ ((forall x y, In x [3; 5; 7] -> In y [3; 5; 7] -> Z.ltb x y = false) ->
      forall i, (i < List.length [3; 5; 7])%nat ->
                nth_error ["disk"; "disk"; "RAM"]%string i
                = Some (if Z.of_nat i <? 1
                        then "RAM"%string else "disk"%string)).
Proof.
  apply (allocation_by_rank Z 0 Z.add Z.ltb 1 1 0
           ltac:(intros; lia) ltac:(intros; lia)
           10 (Some 10) 1 2 "maximum").
  - lia.
  - vm_compute. reflexivity.
Defined.

End AllocationProofs.
(** ** Claim C4: a [Write] follows the [Forward] that starts at its step *)

(** [follows_forward prev a]: if [a] is [Write(n, _)] then the action
    before it is a [Forward(n, n1)] with [n < n1]. *)
Definition follows_forward (prev : option action) (a : action) : Prop :=
  match a with
  | Write n _ =>
      match prev with
      | Some (Forward n0 n1) => n0 = n /\ n < n1
      | _ => False
      end
  | _ => True
  end.

Fixpoint writes_follow (prev : option action) (l : list action) : Prop :=
  match l with
  | [] => True
  | a :: l' => follows_forward prev a /\ writes_follow (Some a) l'
  end.

Definition writes_after_forward {St} (tr : list (event St)) : Prop :=
  writes_follow None (actions tr).

(** The claim as it is worded: the [Forward] before [Write(n, _)] ends at
    [n]. *)
Definition follows_forward_end (prev : option action) (a : action) : Prop :=
  match a with
  | Write n _ =>
      match prev with
      | Some (Forward n0 n1) => n1 = n
      | _ => False
      end
  | _ => True
  end.

Fixpoint writes_at_end (prev : option action) (l : list action) : Prop :=
  match l with
  | [] => True
  | a :: l' => follows_forward_end prev a /\ writes_at_end (Some a) l'
  end.

Lemma writes_follow_weaken (prev : option action) (l : list action) :
  writes_follow None l -> writes_follow prev l.
Proof.
  destruct l as [|a l]; cbn; trivial. intros [Ha Hl]. split; trivial.
  now destruct a.
Qed.

Lemma writes_follow_app (prev : option action) (l1 l2 : list action) :
  writes_follow prev l1 -> writes_follow None l2 ->
  writes_follow prev (l1 ++ l2).
Proof.
  revert prev. induction l1 as [|a l1 IH]; cbn; intros prev H1 H2.
  - now apply writes_follow_weaken.
  - destruct H1. split; auto.
Qed.

Lemma writes_after_forward_nil {St} : @writes_after_forward St [].
Proof. exact I. Qed.

Lemma writes_after_forward_app {St} (t1 t2 : list (event St)) :
  writes_after_forward t1 -> writes_after_forward t2 ->
  writes_after_forward (t1 ++ t2).
Proof.
  unfold writes_after_forward, actions. rewrite map_app.
  apply writes_follow_app.
Qed.

(** Symbolic execution along every branch. *)
Ltac gsafe :=
  repeat first
    [ gstep
    | gbranch
    | lazymatch goal with
      | |- post (bind (lift ?o) _) _ _ =>
          apply post_lift_bind; destruct o eqn:?; cbv beta match
      | |- post (match ?x with _ => _ end) _ _ =>
          destruct x eqn:?; cbv beta match
      | |- post (bind (match ?x with _ => _ end) _) _ _ =>
          destruct x eqn:?; cbv beta match
      end ].

(** The structure of a generator, rule by rule. *)
Ltac keeps_structure Hnil Happ :=
  repeat lazymatch goal with
    | |- keeps _ _ (bind _ _) => apply (keeps_bind _ _ Happ); [|intro]
    | |- keeps _ _ get => apply keeps_get; exact Hnil
    | |- keeps _ _ (ret _) => apply keeps_ret; exact Hnil
    | |- keeps _ _ (raise _) => apply keeps_raise; exact Hnil
    | |- keeps _ _ (lift _) => apply keeps_lift; exact Hnil
    | |- keeps _ _ (assert_ _) => apply keeps_assert; exact Hnil
    | |- keeps _ _ (while_ _ _ _) => apply (keeps_while _ _ Hnil Happ)
    | |- keeps _ _ (if ?b then _ else _) => destruct b
    | |- keeps _ _ (match ?x with _ => _ end) => destruct x
    end.

Module MultistageWrites.
Import Multistage.

Section Safe.
Variable fuel : nat.
Variable c : config.

Definition safe {A} (m : gen state A) : Prop :=
  keeps (fun _ => True) writes_after_forward m.

Lemma forward_step_safe (max_n : Z) : safe (forward_step fuel c max_n).
Proof.
  intros s _. unfold forward_step, _snapshot. gsafe;
    unfold writes_after_forward; cbn; intuition lia.
Qed.

Lemma rerun_step_safe (max_n : Z) : safe (rerun_step fuel c max_n).
Proof.
  intros s _. unfold rerun_step, _snapshot. gsafe;
    unfold writes_after_forward; cbn; intuition lia.
Qed.

Lemma yield_safe (a : action) :
  follows_forward None a -> safe (yield a).
Proof.
  intros Ha. apply keeps_yield. intros s _.
  unfold writes_after_forward. cbn. auto.
Qed.

Lemma modify_safe (f : state -> state) : safe (modify f).
Proof. now apply keeps_modify. Qed.

Ltac safe_structure :=
  unfold safe;
  repeat (keeps_structure (@writes_after_forward_nil state)
                          (@writes_after_forward_app state);
          try lazymatch goal with
          | |- keeps _ _ (modify _) => apply modify_safe
          | |- keeps _ _ (yield _) => apply yield_safe; exact Logic.I
          | |- keeps _ _ (rerun_step _ _ _) => apply rerun_step_safe
          | |- keeps _ _ (forward_step _ _ _) => apply forward_step_safe
          end).

Lemma rerun_safe (max_n cp_n : Z) (st : string) :
  safe (rerun fuel c max_n cp_n st).
Proof. unfold rerun. safe_structure. Qed.

Lemma adjoint_step_safe : safe (adjoint_step c).
Proof. unfold adjoint_step. safe_structure. Qed.

Lemma turn_safe : safe (turn c).
Proof. unfold turn. safe_structure. Qed.

Lemma finish_safe (max_n : Z) : safe (finish max_n).
Proof. unfold finish. safe_structure. Qed.

Lemma reverse_step_safe (max_n : Z) : safe (reverse_step fuel c max_n).
Proof.
  unfold reverse_step. safe_structure;
    first [apply rerun_safe | apply adjoint_step_safe].
Qed.

Lemma iter_safe : safe (iter fuel c).
Proof.
  unfold iter. safe_structure;
    first [apply reverse_step_safe | apply turn_safe | apply finish_safe].
Qed.

End Safe.

End MultistageWrites.

Module TwoLevelWrites.
Import TwoLevel.

Section Safe.
Variable fuel : nat.
Variable c : config.
Hypothesis Hperiod : 1 <= _period c.

Definition safe {A} (m : gen state A) : Prop :=
  keeps (fun _ => True) writes_after_forward m.

Lemma tl_forward_step_safe (d : driver_call) : safe (forward_step c d).
Proof.
  intros s _. unfold forward_step, yield_to.
  destruct d as [[[] n]|]; cbn [suspension_eqb]; gsafe;
    unfold writes_after_forward; cbn; intuition lia.
Qed.

Lemma tl_rerun_step_safe (max_n : Z) : safe (rerun_step fuel c max_n).
Proof.
  intros s _. unfold rerun_step. gsafe;
    unfold writes_after_forward; cbn; intuition lia.
Qed.

Lemma tl_yield_safe (a : action) :
  follows_forward None a -> safe (yield a).
Proof.
  intros Ha. apply keeps_yield. intros s _.
  unfold writes_after_forward. cbn. auto.
Qed.

Lemma tl_modify_safe (f : state -> state) : safe (modify f).
Proof. now apply keeps_modify. Qed.

Ltac safe_structure :=
  unfold safe;
  repeat (keeps_structure (@writes_after_forward_nil state)
                          (@writes_after_forward_app state);
          try lazymatch goal with
          | |- keeps _ _ (modify _) => apply tl_modify_safe
          | |- keeps _ _ (yield _) => apply tl_yield_safe; exact Logic.I
          | |- keeps _ _ (rerun_step _ _ _) => apply tl_rerun_step_safe
          | |- keeps _ _ (forward_step _ _) => apply tl_forward_step_safe
          end).

Lemma tl_rerun_safe (max_n cp_n : Z) : safe (rerun fuel c max_n cp_n).
Proof. unfold rerun. safe_structure. Qed.

Lemma tl_adjoint_step_safe : safe (adjoint_step c).
Proof. unfold adjoint_step. safe_structure. Qed.

Lemma restore_step_safe (max_n : Z) : safe (restore_step fuel c max_n).
Proof.
  unfold restore_step. safe_structure;
    first [apply tl_rerun_safe | apply tl_adjoint_step_safe].
Qed.

Lemma period_step_safe (max_n : Z) : safe (period_step fuel c max_n).
Proof.
  unfold period_step. safe_structure. apply restore_step_safe.
Qed.

Lemma reverse_sweep_safe : safe (reverse_sweep fuel c).
Proof.
  unfold reverse_sweep. safe_structure. apply period_step_safe.
Qed.

Lemma reverse_sweeps_safe (sweeps : nat) :
  safe (reverse_sweeps fuel c sweeps).
Proof.
  induction sweeps as [|sweeps IH]; cbn [reverse_sweeps]; safe_structure.
  - apply reverse_sweep_safe.
  - apply IH.
Qed.

Lemma forward_loop_safe (script : list driver_call) :
  safe (forward_loop c script).
Proof.
  induction script as [|d script IH]; cbn [forward_loop]; safe_structure.
  apply IH.
Qed.

Lemma tl_iter_safe (script : list driver_call) (sweeps : nat) :
  safe (iter fuel c script sweeps).
Proof.
  unfold iter. safe_structure;
    first [apply forward_loop_safe | apply reverse_sweeps_safe].
Qed.

End Safe.

End TwoLevelWrites.

(** C4, counterexample: three steps and one snapshot.  The first actions
    are [Configure], [Forward(0, 2)], [Write(0, "disk")]: the [Write] is at
    step 0, where the [Forward] before it starts, and that [Forward] ends
    at step 2. *)
Lemma write_at_start_of_forward :
  exists c s' tr,
    MultistageCheckpointSchedule 3 (Some 3) 0 1 false "maximum"
    = Done (c, Multistage.initial_state)
    /\ Multistage.iter 3 c Multistage.initial_state = (Done tt, s', tr)
    /\ firstn 3 (actions tr)
       = [Configure true false; Forward 0 2; Write 0 "disk"]
    /\ ~ writes_at_end None (actions tr).
Proof.
  eexists _, _, _. split; [reflexivity|]. split; [vm_compute; reflexivity|].
  split; [reflexivity|]. cbn. intros (_ & _ & H & _). discriminate H.
Qed.

(** C4, amended: in every action sequence a schedule produces, whatever
    its arguments and however far it is driven, each [Write(n, tier)] comes
    immediately after a [Forward(n, n1)] with [n < n1]: the [Forward] that
    starts at step [n], not one that ends there. *)
Theorem writes_follow_forward :
  (forall fuel max_n in_ram on_disk keep trajectory c s0 o s' tr,
      MultistageCheckpointSchedule fuel max_n in_ram on_disk keep trajectory
      = Done (c, s0) ->
      Multistage.iter fuel c s0 = (o, s', tr) ->
      writes_follow None (actions tr))
  /\ (forall disk_period binomial_snapshots binomial_storage keep trajectory
             fuel script sweeps c s0 o s' tr,
         TwoLevelCheckpointSchedule disk_period binomial_snapshots
                                    binomial_storage keep trajectory
         = Done (c, s0) ->
         TwoLevel.iter fuel c script sweeps s0 = (o, s', tr) ->
         writes_follow None (actions tr)).
Proof.
  split.
  - intros fuel max_n in_ram on_disk keep trajectory c s0 o s' tr _ Hrun.
    pose proof (MultistageWrites.iter_safe fuel c s0 Logic.I) as H.
    unfold post in H. rewrite Hrun in H. apply H.
  - intros p bs st keep trajectory fuel script sweeps c s0 o s' tr Hc Hrun.
    assert (Hp : 1 <= TwoLevel._period c).
    { unfold TwoLevelCheckpointSchedule in Hc.
      destruct (Z.ltb_spec p 1); [discriminate|].
      destruct (negb _); [discriminate|].
      injection Hc as <- _. exact H. }
    pose proof (TwoLevelWrites.tl_iter_safe fuel c Hp script sweeps s0 Logic.I)
      as H.
    unfold post in H. rewrite Hrun in H. apply H.
Qed.

Lemma writes_follow_forward_witness :
  writes_follow None
    (actions
       (snd (TwoLevel.iter 5
               {| TwoLevel._period := 2;
                  TwoLevel._binomial_snapshots := 1;
                  TwoLevel._binomial_storage := "RAM";
                  TwoLevel._keep_block_0_ics := false;
                  TwoLevel._trajectory := "maximum" |}
               [None; Some (TwoLevel.AtForward, 4)] 1
               TwoLevel.initial_state))).
Proof.
  refine (proj2 writes_follow_forward 2 1 "RAM"%string false
                "maximum"%string 5%nat [None; Some (TwoLevel.AtForward, 4)]
                1%nat _ _ _ _ _ eq_refl _).
  vm_compute. reflexivity.
Defined.

(** ** Claim C5: which errors the constructors report *)

Lemma n_advance_unknown_trajectory (fuel : nat) (n snapshots : Z)
      (trajectory : string) :
  2 <= snapshots < n - 1 -> ~ valid_trajectory trajectory ->
  (Z.to_nat n <= fuel)%nat ->
  n_advance fuel n snapshots trajectory = Raised ValueError.
Proof.
  intros Hs Htraj Hfuel. unfold n_advance.
  replace (n <? 1) with false by lia.
  replace (snapshots <=? 0) with false by lia.
  replace (Z.max (Z.min snapshots (n - 1)) 1) with snapshots by lia.
  replace (snapshots =? 1) with false by lia.
  replace (snapshots =? n - 1) with false by lia.
  pose proof (beta_inv_init n snapshots ltac:(lia) ltac:(lia)) as Hinit.
  destruct (beta_loop_total fuel n snapshots 2 1 (snapshots + 1) _
                            ltac:(lia) Hinit)
    as (t & b2 & b1 & b0 & -> & _).
  { destruct Hinit. lia. }
  destruct (String.eqb_spec trajectory "maximum") as [->|_];
    [destruct Htraj; now left|].
  destruct (String.eqb_spec trajectory "revolve") as [->|_];
    [destruct Htraj; now right|].
  reflexivity.
Qed.

Lemma first_advance_raises (fuel : nat) (c : Multistage.config) (N : Z) :
  Multistage._max_n c = Some N -> 2 <= N -> (1 <= fuel)%nat ->
  n_advance fuel (N - 0) (Multistage.capacity c - 0)
            (Multistage._trajectory c)
  = Raised ValueError ->
  Multistage.iter fuel c Multistage.initial_state
  = (Raised ValueError, Multistage.initial_state,
     [(Configure true false, Multistage.initial_state)]).
Proof.
  intros Hmax HN Hfuel Hadv.
  enough (H : post (Multistage.iter fuel c) Multistage.initial_state
                   (fun o s' tr =>
                      (o, s', tr)
                      = (Raised ValueError, Multistage.initial_state,
                         [(Configure true false,
                           Multistage.initial_state)]))).
  { unfold post in H.
    now destruct (Multistage.iter fuel c Multistage.initial_state)
      as [[o s'] tr]. }
  unfold Multistage.iter. rewrite Hmax. apply post_bind.
  destruct fuel as [|fuel]; [lia|].
  apply post_while_step; [cbn; lia|]. apply post_bind_assoc.
  unfold Multistage.forward_step. gsteps.
  apply post_lift_bind.
  cbn [Multistage._n Multistage._snapshots Multistage.initial_state len
       List.length Z.of_nat].
  rewrite Hadv. reflexivity.
Qed.

(** C5, counterexample: a multistage schedule for three steps with no
    snapshot at all, and one with an unknown trajectory, are constructed
    without error; [ValueError] is raised when the actions are requested,
    after the first [Configure]. *)
Lemma errors_deferred_to_iteration :
  (exists c,
      MultistageCheckpointSchedule 3 (Some 3) 0 0 false "maximum"
      = Done (c, Multistage.initial_state)
      /\ Multistage.iter 3 c Multistage.initial_state
         = (Raised ValueError, Multistage.initial_state,
            [(Configure true false, Multistage.initial_state)]))
  /\ (exists c,
         MultistageCheckpointSchedule 9 (Some 9) 0 2 false "optimal"
         = Done (c, Multistage.initial_state)
         /\ Multistage.iter 9 c Multistage.initial_state
            = (Raised ValueError, Multistage.initial_state,
               [(Configure true false, Multistage.initial_state)])).
Proof. split; eexists; split; reflexivity. Qed.

(** ** The two-level schedule: total correctness of a reverse sweep *)

Module TwoLevelProofs.
Import TwoLevel.

Record valid (fuel : nat) (c : config) (N : Z) : Prop := {
  v_period : 1 <= _period c;
  v_snapshots : 0 <= _binomial_snapshots c;
  v_trajectory : valid_trajectory (_trajectory c);
  v_N : 1 <= N;
  v_fuel : (Z.to_nat N <= fuel)%nat
}.

(** What holds at every action of a sweep before [EndReverse]: the
    restored steps are steps of the forward sweep, and no action ends the
    sweep. *)
Definition ev_ok (N : Z) (e : event state) : Prop :=
  is_EndReverse (fst e) = false
  /\ _max_n (snd e) = Some N
  /\ match fst e with
     | Read n _ _ => 0 <= n < N
     | _ => True
     end.

Definition seg (N : Z) (s : state) (tr : list (event state)) (s' : state)
  : Prop :=
  Forall (ev_ok N) tr /\ _r s <= _r s'.

Lemma tl_seg_refl N s : seg N s [] s.
Proof. split; [constructor | lia]. Qed.

Lemma tl_seg_trans N s1 t1 s2 t2 s3 :
  seg N s1 t1 s2 -> seg N s2 t2 s3 -> seg N s1 (t1 ++ t2) s3.
Proof.
  intros [F1 R1] [F2 R2]. split; [apply Forall_app; auto | lia].
Qed.

Ltac tl_simpl :=
  cbn [_n _r _max_n snapshots n0s set_n set_r set_max_n set_snapshots
       set_n0s fst snd is_EndReverse descending In] in *;
  rewrite ?len_cons, ?len_nil in *.

Section Steps.
Variable fuel : nat.
Variable c : config.
Variable N : Z.
Hypothesis Hvalid : valid fuel c N.

Definition capacity : Z := _binomial_snapshots c + 1.

(** The invariant of the innermost loop, at reverse counter [r0] in the
    period that starts at [lo]. *)
Definition adv_inv (lo r0 : Z) (s : state) : Prop :=
  _r s = r0
  /\ _max_n s = Some N
  /\ n0s s = lo
  /\ 0 <= lo
  /\ 0 <= r0
  /\ lo < _n s <= N - r0 - 1
  /\ descending lo (_n s) (snapshots s)
  /\ (_n s < N - r0 - 1 -> len (snapshots s) < capacity)
  /\ len (snapshots s) <= capacity
  /\ In lo (snapshots s).

Ltac tl_finish :=
  unfold adv_inv, seg, ev_ok, capacity in *;
  repeat (tl_simpl;
          match goal with
          | |- _ /\ _ => split
          | |- Forall _ (_ :: _) => constructor
          | |- Forall _ (_ ++ _) => apply Forall_app
          | |- Forall _ [] => constructor
          | |- True => exact Logic.I
          end);
  tl_simpl; try tauto; try lia.

Lemma tl_rerun_step_total (lo r0 : Z) (s : state) :
  adv_inv lo r0 s -> _n s < N - r0 - 1 ->
  post (rerun_step fuel c N) s
       (fun o s' tr =>
          o = Done tt /\ adv_inv lo r0 s' /\ seg N s tr s'
          /\ _n s < _n s').
Proof.
  intros (Hr & Hmax & Hn0s & Hlo & Hr0 & Hn & Hdesc & Hfree & Hcap & Hin)
         Hlt.
  specialize (Hfree Hlt).
  destruct Hvalid as [Hp Hbs Htraj HN Hfuel].
  destruct (n_advance_spec
              fuel (N - _r s - _n s)
              (_binomial_snapshots c + 1 - len (snapshots s))
              (_trajectory c))
    as (a & Ha & Hone & _ & _ & Hbound);
    unfold capacity in *; try lia; trivial.
  specialize (Hbound ltac:(lia)).
  unfold rerun_step. grun.
  apply post_lift_bind. rewrite Ha. grun; tl_simpl; try lia.
  pose proof (len_nonneg (snapshots s)).
  assert (Hfull : _n s + a < N - r0 - 1 ->
                  len (snapshots s) + 1 < _binomial_snapshots c + 1).
  { intros Hlt'.
    destruct (Z.eq_dec (_binomial_snapshots c + 1 - len (snapshots s)) 1)
      as [E|E]; [specialize (Hone E)|]; lia. }
  tl_finish.
Qed.

Lemma tl_advance_loop_total (lo r0 : Z) (s : state) :
  adv_inv lo r0 s ->
  post (while_ fuel (fun s => _n s <? N - _r s - 1) (rerun_step fuel c N)) s
       (fun o s' tr =>
          o = Done tt /\ adv_inv lo r0 s' /\ _n s' = N - r0 - 1
          /\ seg N s tr s').
Proof.
  intros Hinv.
  eapply post_conseq.
  - apply (while_total (adv_inv lo r0) (seg N)
                       (fun s => Z.to_nat (N - r0 - 1 - _n s))).
    + apply tl_seg_refl.
    + apply tl_seg_trans.
    + intros s1 Hinv1 Hc.
      assert (Hr1 : _r s1 = r0) by apply Hinv1.
      eapply post_conseq;
        [apply (tl_rerun_step_total lo r0 s1 Hinv1); lia|].
      cbv beta. intros o s' tr (-> & Hinv' & Hseg & Hlt).
      refine (conj eq_refl (conj Hinv' (conj Hseg _))).
      destruct Hinv1 as (_ & _ & _ & _ & _ & Hn1 & _),
               Hinv' as (_ & _ & _ & _ & _ & Hn' & _). lia.
    + exact Hinv.
    + destruct Hvalid, Hinv as (_ & _ & _ & ? & ? & ? & _). lia.
  - cbv beta. intros o s' tr (-> & Hinv' & Hc & Hseg).
    refine (conj eq_refl (conj Hinv' (conj _ Hseg))).
    destruct Hinv' as (Hr' & _ & _ & _ & _ & Hn' & _). lia.
Qed.

(** The invariant of the loop over one period, which starts at [lo]. *)
Definition restore_inv (lo : Z) (s : state) : Prop :=
  n0s s = lo
  /\ _max_n s = Some N
  /\ 0 <= lo
  /\ 0 <= _r s
  /\ N - lo - _period c <= _r s <= N - lo
  /\ descending lo (N - _r s) (snapshots s)
  /\ len (snapshots s) <= capacity
  /\ (_r s < N - lo -> In lo (snapshots s)).

Lemma tl_adjoint_step_total (s : state) :
  _max_n s = Some N ->
  post (adjoint_step c) s
       (fun o s' tr =>
          o = Done tt /\ seg N s tr s' /\ _r s' = _r s + 1
          /\ snapshots s' = snapshots s /\ n0s s' = n0s s
          /\ _max_n s' = Some N).
Proof.
  intros Hmax. unfold adjoint_step. grun. tl_finish.
Qed.

Lemma tl_rerun_total (lo : Z) (s : state) (cp_n : Z) (rest : list Z) :
  restore_inv lo s -> snapshots s = cp_n :: rest -> cp_n < N - _r s - 1 ->
  post (rerun fuel c N cp_n) s
       (fun o s' tr =>
          o = Done tt /\ adv_inv lo (_r s) s' /\ _n s' = N - _r s - 1
          /\ seg N s tr s'
          /\ (cp_n = lo -> In (Read lo "disk" false) (actions tr))).
Proof.
  intros (Hn0s & Hmax & Hlo & Hr0 & Hr & Hdesc & Hcap & H0) Hstack Hlt.
  rewrite Hstack in Hdesc, H0. cbn [descending] in Hdesc.
  destruct Hdesc as [Hcp Hdesc]. specialize (H0 ltac:(lia)).
  destruct Hvalid as [Hp Hbs Htraj HN Hfuel].
  rewrite Hstack, len_cons in Hcap.
  pose proof (len_nonneg rest) as Hrest.
  destruct (n_advance_spec
              fuel (N - _r s - cp_n)
              (_binomial_snapshots c + 1 - len (cp_n :: rest) + 1)
              (_trajectory c))
    as (a & Ha & Hone & _ & _ & Hbound);
    unfold capacity in *; rewrite ?len_cons; try lia; trivial.
  specialize (Hbound ltac:(lia)). rewrite len_cons in Ha, Hone.
  assert (Hfull : cp_n + a < N - _r s - 1 ->
                  len rest + 1 < _binomial_snapshots c + 1).
  { intros Hlt'.
    destruct (Z.eq_dec (_binomial_snapshots c + 1 - (len rest + 1) + 1) 1)
      as [E|E]; [specialize (Hone E)|]; lia. }
  unfold rerun. gstep. gstep. cbn [n0s set_n]. rewrite Hn0s.
  destruct (Z.eqb_spec cp_n lo) as [Hcl|Hcl]; grun;
    cbn [_n _r snapshots set_n]; rewrite Hstack, len_cons;
    apply post_lift_bind; rewrite Ha; (grun; [lia|]);
    apply post_bind;
    (eapply post_conseq; [apply (tl_advance_loop_total lo (_r s))|]);
    try (unfold adv_inv, capacity; tl_simpl; rewrite Hstack; tl_simpl;
         repeat split; trivial; lia);
    cbv beta; intros o s' tr (-> & Hinv' & Hn' & HF & HR);
    assert (Hr' : _r s' = _r s) by apply Hinv';
    (grun; [lia|]);
    refine (conj eq_refl (conj Hinv' (conj Hn' _)));
    unfold seg, ev_ok, actions in *; rewrite app_nil_r;
    repeat (tl_simpl;
            match goal with
            | |- _ /\ _ => split
            | |- Forall _ (_ :: _) => constructor
            | |- Forall _ [] => constructor
            | |- True => exact Logic.I
            | |- _ -> _ => intro
            end); tl_simpl; cbn [map fst]; trivial; try lia; auto;
    try (left; congruence).
Qed.

Lemma restore_step_total (lo : Z) (s : state) :
  restore_inv lo s -> _r s < N - lo ->
  post (restore_step fuel c N) s
       (fun o s' tr =>
          o = Done tt /\ restore_inv lo s' /\ seg N s tr s'
          /\ _r s' = _r s + 1
          /\ (forall rest, snapshots s = lo :: rest ->
                           In (Read lo "disk" false) (actions tr))).
Proof.
  intros Hinv Hlt.
  pose proof Hinv as (Hn0s & Hmax & Hlo & Hr0 & Hr & Hdesc & Hcap & H0).
  specialize (H0 Hlt).
  unfold restore_step. gstep.
  destruct (snapshots s) as [|cp_n rest] eqn:Hstack; [destruct H0|].
  cbn [descending] in Hdesc. destruct Hdesc as [Hcp Hdesc].
  rewrite len_cons in Hcap.
  pose proof (len_nonneg rest) as Hrest.
  destruct (Z.eqb_spec cp_n (N - _r s - 1)) as [Hcp_n|Hcp_n];
    cbv beta match.
  - assert (Hin : _r s + 1 < N - lo -> In lo rest)
      by (intros; destruct H0; [lia | trivial]).
    gstep. gstep. gstep. cbn [n0s set_n set_snapshots]. rewrite Hn0s.
    destruct (Z.eqb_spec cp_n lo) as [Hcl|Hcl]; grun;
      (eapply post_conseq; [apply tl_adjoint_step_total; exact Hmax|]);
      intros o s' tr (-> & (HF & HR) & Hr' & Hsn' & Hn0s' & Hmax');
      tl_simpl;
      unfold restore_inv, seg, ev_ok, actions in *;
      rewrite Hsn', Hr', Hn0s';
      replace (N - (_r s + 1)) with cp_n by lia;
      repeat (tl_simpl;
              match goal with
              | |- _ /\ _ => split
              | |- Forall _ (_ :: _) => constructor
              | |- Forall _ [] => constructor
              | |- True => exact Logic.I
              | |- forall _, _ => intro
              end); tl_simpl; cbn [map fst In]; trivial; try lia; auto;
      try (left; congruence);
      try (match goal with H : _ :: _ = _ :: _ |- _ =>
             injection H as ? ?; lia end).
  - apply post_bind.
    eapply post_conseq;
      [apply (tl_rerun_total lo s cp_n rest Hinv Hstack); lia|].
    cbv beta. intros o s1 t1 (-> & Hinv1 & Hn1 & Hseg1 & Hread).
    destruct Hinv1 as (Hr1 & Hmax1 & Hn0s1 & _ & _ & Hnr1 & Hdesc1 & _
                       & Hcap1 & Hin1).
    eapply post_conseq; [apply tl_adjoint_step_total; exact Hmax1|].
    cbv beta. intros o s' t2 (-> & Hseg2 & Hr' & Hsn' & Hn0s' & Hmax').
    pose proof (tl_seg_trans _ _ _ _ _ _ Hseg1 Hseg2) as Hseg.
    refine (conj eq_refl (conj _ (conj Hseg (conj _ _)))); [|lia|].
    + unfold restore_inv. rewrite Hsn', Hr', Hr1, Hn0s', Hn0s1.
      replace (N - (_r s + 1)) with (_n s1) by lia.
      repeat split; trivial; lia.
    + intros rest' [= -> _]. unfold actions. rewrite map_app.
      apply in_or_app. left. now apply Hread.
Qed.

Lemma restore_loop_total (lo : Z) (s : state) (fuel' : nat) :
  restore_inv lo s -> (Z.to_nat (N - lo - _r s) <= fuel')%nat ->
  post (while_ fuel' (fun s => _r s <? N - n0s s) (restore_step fuel c N)) s
       (fun o s' tr =>
          o = Done tt /\ restore_inv lo s' /\ _r s' = N - lo
          /\ seg N s tr s').
Proof.
  intros Hinv Hfuel.
  eapply post_conseq.
  - apply (while_total (restore_inv lo) (seg N)
                       (fun s => Z.to_nat (N - lo - _r s))).
    + apply tl_seg_refl.
    + apply tl_seg_trans.
    + intros s1 Hinv1 Hc.
      assert (Hn0s1 : n0s s1 = lo) by apply Hinv1.
      eapply post_conseq; [apply (restore_step_total lo s1 Hinv1); lia|].
      cbv beta. intros o s' tr (-> & Hinv' & Hseg & Hr' & _).
      refine (conj eq_refl (conj Hinv' (conj Hseg _))). lia.
    + exact Hinv.
    + exact Hfuel.
  - cbv beta. intros o s' tr (-> & Hinv' & Hc & Hseg).
    refine (conj eq_refl (conj Hinv' (conj _ Hseg))).
    destruct Hinv' as (Hn0s' & _ & _ & _ & ? & _). lia.
Qed.

(** *** Periods *)

Lemma period_start (p r : Z) :
  1 <= p -> 0 <= r < N -> r = 0 \/ (N - r) mod p = 0 ->
  let lo := (N - r - 1) / p * p in
  0 <= lo /\ lo <= N - r - 1 < lo + p /\ lo mod p = 0
  /\ Z.min (lo + p) N = N - r.
Proof.
  intros Hp Hr Hper lo.
  pose proof (Z.div_mod (N - r - 1) p ltac:(lia)) as Hdm.
  pose proof (Z.mod_pos_bound (N - r - 1) p ltac:(lia)) as Hmb.
  assert (Hq : 0 <= (N - r - 1) / p) by (apply Z.div_pos; lia).
  assert (Hlo : lo mod p = 0) by (unfold lo; apply Z.mod_mul; lia).
  assert (Hlo' : lo = p * ((N - r - 1) / p)) by (unfold lo; lia).
  assert (Hbounds : lo <= N - r - 1 < lo + p) by lia.
  assert (H0 : 0 <= lo) by nia.
  clearbody lo.
  repeat split; try lia.
  destruct Hper as [-> | Hper]; [lia|].
  pose proof (Z.div_mod (N - r) p ltac:(lia)) as Hdm'.
  rewrite Hper in Hdm'.
  assert ((N - r) / p = (N - r - 1) / p + 1) by nia.
  nia.
Qed.

Lemma same_multiple (p lo m : Z) :
  1 <= p -> lo mod p = 0 -> m mod p = 0 -> lo <= m < lo + p -> m = lo.
Proof.
  intros Hp Hlo Hm Hb.
  pose proof (Z.div_mod lo p ltac:(lia)) as H1.
  pose proof (Z.div_mod m p ltac:(lia)) as H2.
  rewrite Hlo in H1. rewrite Hm in H2.
  assert (lo / p <= m / p) by (apply Z.div_le_mono; lia).
  assert (m / p < lo / p + 1) by (apply Z.div_lt_upper_bound; lia).
  replace (m / p) with (lo / p) in H2 by lia. lia.
Qed.

(** The invariant of the loop over the periods. *)
Definition outer_inv (s : state) : Prop :=
  _max_n s = Some N
  /\ 0 <= _r s <= N
  /\ (_r s = 0 \/ (N - _r s) mod _period c = 0).

(** Every period whose start lies between the two reverse counters is
    restored from disk, without deleting. *)
Definition covered (s : state) (tr : list (event state)) (s' : state)
  : Prop :=
  forall m, m mod _period c = 0 -> N - _r s' <= m < N - _r s ->
            In (Read m "disk" false) (actions tr).

Definition sweep_seg (s : state) (tr : list (event state)) (s' : state)
  : Prop :=
  seg N s tr s' /\ covered s tr s'.

Lemma sweep_seg_refl s : sweep_seg s [] s.
Proof. split; [apply tl_seg_refl|]. intros m _ Hm. lia. Qed.

Lemma sweep_seg_trans s1 t1 s2 t2 s3 :
  sweep_seg s1 t1 s2 -> sweep_seg s2 t2 s3 -> sweep_seg s1 (t1 ++ t2) s3.
Proof.
  intros [S1 C1] [S2 C2]. split; [eapply tl_seg_trans; eauto|].
  intros m Hm Hb. unfold actions. rewrite map_app. apply in_or_app.
  destruct S1 as [_ R1], S2 as [_ R2].
  destruct (Z_lt_le_dec m (N - _r s2)).
  - right. apply C2; trivial. lia.
  - left. apply C1; trivial. lia.
Qed.

Lemma period_step_total (s : state) :
  outer_inv s -> _r s < N ->
  post (period_step fuel c N) s
       (fun o s' tr =>
          o = Done tt /\ outer_inv s' /\ sweep_seg s tr s'
          /\ _r s < _r s').
Proof.
  intros (Hmax & Hr & Hper) Hlt.
  destruct Hvalid as [Hp Hbs Htraj HN Hfuel].
  destruct (period_start (_period c) (_r s) Hp ltac:(lia) Hper)
    as (Hlo & Hbounds & Hmod & Hmin).
  unfold period_step. gstep. rewrite Hmin.
  set (lo := (N - _r s - 1) / _period c * _period c) in *.
  replace (negb (_r s =? N - (N - _r s))) with false by lia.
  gstep. gstep.
  set (s0 := set_snapshots [lo] (set_n0s lo s)).
  assert (Hinv0 : restore_inv lo s0).
  { unfold restore_inv, s0, capacity. tl_simpl.
    repeat split; trivial; try lia; auto. unfold len. cbn. lia. }
  apply post_bind.
  apply post_while_first; [lia | unfold s0; cbn; lia |].
  apply post_bind.
  eapply post_conseq;
    [apply (restore_step_total lo s0 Hinv0); unfold s0; cbn; lia|].
  cbv beta. intros o s1 t1 (-> & Hinv1 & Hseg1 & Hr1 & Hread).
  specialize (Hread [] eq_refl).
  eapply post_conseq; [apply (restore_loop_total lo s1 _ Hinv1)|].
  { unfold s0 in Hr1. cbn in Hr1. lia. }
  cbv beta. intros o s2 t2 (-> & Hinv2 & Hr2 & Hseg2).
  destruct Hinv2 as (Hn0s2 & Hmax2 & _ & _ & _ & Hdesc2 & _).
  rewrite Hr2 in Hdesc2.
  replace (N - (N - lo)) with lo in Hdesc2 by lia.
  apply descending_empty in Hdesc2; [|lia].
  gstep. rewrite Hn0s2, Hdesc2, len_nil.
  replace (negb (_r s2 =? N - lo)) with false by lia.
  cbn [negb Z.eqb]. gstep.
  pose proof (tl_seg_trans _ _ _ _ _ _ Hseg1 Hseg2) as [HF HR].
  unfold s0 in HR, Hr1. cbn [_r set_snapshots set_n0s] in HR, Hr1.
  repeat split; trivial; try lia.
  - right. replace (N - _r s2) with lo by lia. exact Hmod.
  - rewrite app_nil_r. exact HF.
  - intros m Hm Hb. rewrite app_nil_r.
    assert (m = lo) by (apply (same_multiple (_period c)); trivial; lia).
    subst m. unfold actions. rewrite map_app. apply in_or_app. now left.
Qed.

Lemma period_loop_total (s : state) :
  outer_inv s ->
  post (while_ fuel (fun s => _r s <? N) (period_step fuel c N)) s
       (fun o s' tr =>
          o = Done tt /\ outer_inv s' /\ _r s' = N /\ sweep_seg s tr s').
Proof.
  intros Hinv.
  eapply post_conseq.
  - apply (while_total outer_inv sweep_seg (fun s => Z.to_nat (N - _r s))).
    + apply sweep_seg_refl.
    + apply sweep_seg_trans.
    + intros s1 Hinv1 Hc.
      eapply post_conseq; [apply (period_step_total s1 Hinv1); lia|].
      cbv beta. intros o s' tr (-> & Hinv' & Hseg & Hr').
      refine (conj eq_refl (conj Hinv' (conj Hseg _))). lia.
    + exact Hinv.
    + destruct Hvalid, Hinv as (_ & ? & _). lia.
  - cbv beta. intros o s' tr (-> & Hinv' & Hc & Hseg).
    refine (conj eq_refl (conj Hinv' (conj _ Hseg))).
    destruct Hinv' as (_ & ? & _). lia.
Qed.

Lemma reverse_sweep_total (s : state) :
  _max_n s = Some N -> _r s = 0 ->
  post (reverse_sweep fuel c) s
       (fun o s' tr =>
          o = Done tt
          /\ exists pre,
              tr = pre ++ [(EndReverse false, s')]
              /\ Forall (ev_ok N) pre
              /\ (forall m, m mod _period c = 0 -> 0 <= m < N ->
                            In (Read m "disk" false) (actions pre))
              /\ _r s' = 0 /\ _max_n s' = Some N).
Proof.
  intros Hmax Hr. unfold reverse_sweep. gstep. rewrite Hmax.
  apply post_bind.
  eapply post_conseq; [apply (period_loop_total s)|].
  { destruct Hvalid. unfold outer_inv. rewrite Hr. repeat split; auto; lia. }
  cbv beta. intros o s1 t1 (-> & (Hmax1 & _) & Hr1 & (HF & _) & Hcov).
  gstep. replace (negb (_r s1 =? N)) with false by lia. grun.
  split; trivial. exists t1. repeat split; trivial.
  intros m Hm Hb. apply Hcov; trivial. lia.
Qed.

End Steps.

Lemma post_equation {St A} (m : gen St A) (s : St)
      (Q : outcome A -> St -> list (event St) -> Prop) :
  post m s Q -> exists o s' tr, m s = (o, s', tr) /\ Q o s' tr.
Proof.
  unfold post. destruct (m s) as [[o s'] tr]. intros H.
  now exists o, s', tr.
Qed.

(** *** Claim C9 *)

Definition is_Write (a : action) : bool :=
  match a with
  | Write _ _ => true
  | _ => false
  end.

(** C9: a two-level schedule with [disk_period = 5], any
    [binomial_snapshots >= 0], storage and trajectory, whose forward sweep
    is finalized at [max_n = 15] in the third pass of the forward loop,
    once its [Forward] is yielded.  The forward sweep writes the snapshots
    of the steps 0, 5 and 10 to disk and no other; the reverse sweep runs
    to [EndReverse(False)], restores each of the steps 0, 5 and 10 from
    disk without deleting it, and every [Read] it yields at a multiple of 5
    is at one of these three steps. *)
Theorem three_periods (fuel : nat) (binomial_snapshots : Z)
        (binomial_storage : string) (keep : bool) (trajectory : string)
        (at_ : suspension) :
  0 <= binomial_snapshots ->
  binomial_storage = "RAM"%string \/ binomial_storage = "disk"%string ->
  valid_trajectory trajectory -> (15 <= fuel)%nat ->
  at_ <> AtConfigure ->
  exists c s1 forward s2 reverse,
    TwoLevelCheckpointSchedule 5 binomial_snapshots binomial_storage keep
                               trajectory
    = Done (c, initial_state)
    /\ iter fuel c [None; None; Some (at_, 15)] 1 initial_state
       = (Done tt, s2,
          forward ++ (EndForward, s1) :: reverse
                  ++ [(EndReverse false, s2)])
    /\ _max_n s1 = Some 15
    /\ filter is_Write (actions forward)
       = [Write 0 "disk"; Write 5 "disk"; Write 10 "disk"]
    /\ (forall n st d,
           In (Read n st d) (actions reverse) -> n mod 5 = 0 ->
           n = 0 \/ n = 5 \/ n = 10)
    /\ In (Read 0 "disk" false) (actions reverse)
    /\ In (Read 5 "disk" false) (actions reverse)
    /\ In (Read 10 "disk" false) (actions reverse).
Proof.
  intros Hbs Hst Htraj Hfuel Hat.
  set (c := {| _period := 5;
               _binomial_snapshots := binomial_snapshots;
               _binomial_storage := binomial_storage;
               _keep_block_0_ics := keep;
               _trajectory := trajectory |}).
  assert (Hvalid : valid fuel c 15)
    by (constructor; cbn; trivial; lia).
  assert (Hc : TwoLevelCheckpointSchedule 5 binomial_snapshots
                 binomial_storage keep trajectory
               = Done (c, initial_state)).
  { unfold TwoLevelCheckpointSchedule, string_in.
    destruct Hst as [-> | ->]; reflexivity. }
  destruct (forward_loop c [None; None; Some (at_, 15)] initial_state)
    as [[o1 s1] forward] eqn:Hf.
  assert (Hs1 : o1 = Done tt /\ _max_n s1 = Some 15 /\ _r s1 = 0
                /\ filter is_Write (actions forward)
                   = [Write 0 "disk"; Write 5 "disk"; Write 10 "disk"]).
  { destruct at_; [now destruct Hat| | |];
      vm_compute in Hf; injection Hf as <- <- <-; repeat split. }
  destruct Hs1 as (-> & Hmax1 & Hr1 & Hwrites).
  destruct (post_equation _ _ _
              (reverse_sweep_total fuel c 15 Hvalid s1 Hmax1 Hr1))
    as (o2 & s2 & tr2 & Hsweep & -> & reverse & -> & HF & Hcov & _).
  exists c, s1, forward, s2, reverse. split; [exact Hc|].
  split; [|split; [exact Hmax1|split; [exact Hwrites|]]].
  - unfold iter, bind at 1. rewrite Hf.
    unfold bind at 1, yield. cbn [reverse_sweeps].
    unfold bind at 1. rewrite Hsweep. unfold ret.
    now rewrite app_nil_r.
  - split; [|repeat split; apply Hcov; cbn; lia].
    intros n st d Hin Hmod. unfold actions in Hin.
    apply in_map_iff in Hin. destruct Hin as ([a s] & Ha & Hin).
    cbn in Ha. subst a. rewrite Forall_forall in HF.
    destruct (HF _ Hin) as (_ & _ & Hn). cbn in Hn.
    assert (Hq : n = 5 * (n / 5))
      by (pose proof (Z.div_mod n 5 ltac:(lia)); lia).
    lia.
Qed.

Lemma three_periods_witness :
  exists c s1 forward s2 reverse,
    TwoLevelCheckpointSchedule 5 2 "RAM" false "revolve"
    = Done (c, initial_state)
    /\ iter 15 c [None; None; Some (AtForward, 15)] 1 initial_state
       = (Done tt, s2,
          forward ++ (EndForward, s1) :: reverse
                  ++ [(EndReverse false, s2)])
    /\ _max_n s1 = Some 15
    /\ filter is_Write (actions forward)
       = [Write 0 "disk"; Write 5 "disk"; Write 10 "disk"]
    /\ (forall n st d,
           In (Read n st d) (actions reverse) -> n mod 5 = 0 ->
           n = 0 \/ n = 5 \/ n = 10)
    /\ In (Read 0 "disk" false) (actions reverse)
    /\ In (Read 5 "disk" false) (actions reverse)
    /\ In (Read 10 "disk" false) (actions reverse).
Proof.
  apply (three_periods 15 2 "RAM" false "revolve" AtForward).
  - lia.
  - left. reflexivity.
  - right. reflexivity.
  - lia.
  - discriminate.
Defined.

End TwoLevelProofs.

(** ** Claim C8: a reverse sweep can be repeated *)

Section SameRun.
Context {St : Type}.

Lemma bind_get_eq {B} (k : St -> gen St B) (s : St) :
  bind get k s = k s s.
Proof. unfold bind, get. now destruct (k s s) as [[o s2] tr2]. Qed.

Lemma bind_modify_eq {B} (f : St -> St) (k : unit -> gen St B) (s : St) :
  bind (modify f) k s = k tt (f s).
Proof. unfold bind, modify. now destruct (k tt (f s)) as [[o s2] tr2]. Qed.

Lemma same_run_refl (E : St -> St -> Prop)
      (x : outcome unit * St * list (event St)) :
  (forall s, E s s) -> same_run E x x.
Proof. destruct x as [[o s] tr]. cbn. auto. Qed.

Lemma bind_same_run (E E' : St -> St -> Prop) (m : gen St unit)
      (k : unit -> gen St unit) (s1 s2 : St) :
  same_run E (m s1) (m s2) ->
  (forall s, E' s s) ->
  (forall s1 s2, E s1 s2 -> E' s1 s2) ->
  (forall s1 s2, E s1 s2 -> same_run E' (k tt s1) (k tt s2)) ->
  same_run E' (bind m k s1) (bind m k s2).
Proof.
  intros Hm Hrefl Hsub Hk. unfold bind. unfold same_run in Hm.
  destruct (m s1) as [[o1 s1'] t1], (m s2) as [[o2 s2'] t2].
  destruct Hm as (<- & <- & HE).
  destruct o1 as [[]|e|]; try (cbn; now auto).
  specialize (Hk s1' s2' HE). unfold same_run in Hk.
  destruct (k tt s1') as [[o3 s3] t3], (k tt s2') as [[o4 s4] t4].
  destruct Hk as (<- & <- & HE'). cbn. auto.
Qed.

(** The same with the traces compared by their actions only. *)
Definition same_actions (E : St -> St -> Prop)
           (x y : outcome unit * St * list (event St)) : Prop :=
  match x, y with
  | (o1, s1, t1), (o2, s2, t2) =>
      o1 = o2 /\ actions t1 = actions t2 /\ E s1 s2
  end.

Lemma bind_same_actions (E : St -> St -> Prop) (m : gen St unit)
      (k : unit -> gen St unit) (s1 s2 : St) :
  same_run E (m s1) (m s2) ->
  (forall s1 s2, E s1 s2 -> same_actions E (k tt s1) (k tt s2)) ->
  same_actions E (bind m k s1) (bind m k s2).
Proof.
  intros Hm Hk. unfold bind. unfold same_run in Hm.
  destruct (m s1) as [[o1 s1'] t1], (m s2) as [[o2 s2'] t2].
  destruct Hm as (<- & <- & HE).
  destruct o1 as [[]|e|]; try (cbn; now auto).
  specialize (Hk s1' s2' HE). unfold same_actions in Hk.
  destruct (k tt s1') as [[o3 s3] t3], (k tt s2') as [[o4 s4] t4].
  destruct Hk as (<- & Ha & HE'). unfold same_actions, actions in *.
  split; [reflexivity|]. split; [|exact HE'].
  rewrite !map_app. f_equal. exact Ha.
Qed.

End SameRun.

Module TwoLevelSweeps.
Import TwoLevel.

(** Two states of the schedule that differ at most in [n]. *)
Definition same_but_n (s1 s2 : state) : Prop :=
  _r s1 = _r s2 /\ _max_n s1 = _max_n s2
  /\ snapshots s1 = snapshots s2 /\ n0s s1 = n0s s2.

(** Two states that differ at most in [n] and in the locals of [iter]. *)
Definition agree (s1 s2 : state) : Prop :=
  _r s1 = _r s2 /\ _max_n s1 = _max_n s2.

Lemma same_but_n_refl (s : state) : same_but_n s s.
Proof. repeat split. Qed.

Lemma agree_refl (s : state) : agree s s.
Proof. split; reflexivity. Qed.

Lemma same_but_n_agree (s1 s2 : state) : same_but_n s1 s2 -> agree s1 s2.
Proof. intros (? & ? & _). now split. Qed.

Section Sweeps.
Variable fuel : nat.
Variable c : config.

(** The body of the loop over a period assigns [n] before it reads it. *)
Lemma restore_step_same (max_n : Z) (s1 s2 : state) :
  same_but_n s1 s2 ->
  same_run same_but_n (restore_step fuel c max_n s1)
           (restore_step fuel c max_n s2).
Proof.
  destruct s1 as [n1 r1 m1 l1 z1], s2 as [n2 r2 m2 l2 z2].
  intros (Hr & Hm & Hl & Hz). cbn in Hr, Hm, Hl, Hz. subst r2 m2 l2 z2.
  unfold restore_step. rewrite !bind_get_eq. cbn [snapshots _r n0s].
  destruct l1 as [|cp_n rest].
  - cbn. repeat split.
  - destruct (cp_n =? max_n - r1 - 1).
    + rewrite !bind_assoc, !bind_modify_eq.
      rewrite !bind_assoc, !bind_modify_eq.
      apply same_run_refl, same_but_n_refl.
    + unfold rerun. rewrite !bind_assoc, !bind_modify_eq.
      apply same_run_refl, same_but_n_refl.
Qed.

Lemma restore_loop_same (max_n : Z) (s1 s2 : state) :
  same_but_n s1 s2 ->
  same_run same_but_n
           (while_ fuel (fun s => _r s <? max_n - n0s s)
                   (restore_step fuel c max_n) s1)
           (while_ fuel (fun s => _r s <? max_n - n0s s)
                   (restore_step fuel c max_n) s2).
Proof.
  apply while_same_run.
  - intros ? ? (-> & _ & _ & ->). reflexivity.
  - apply restore_step_same.
Qed.

(** A period assigns the locals before it reads them. *)
Lemma period_step_same (max_n : Z) (s1 s2 : state) :
  agree s1 s2 ->
  same_run agree (period_step fuel c max_n s1) (period_step fuel c max_n s2).
Proof.
  destruct s1 as [n1 r1 m1 l1 z1], s2 as [n2 r2 m2 l2 z2].
  intros (Hr & Hm). cbn in Hr, Hm. subst r2 m2.
  unfold period_step. rewrite !bind_get_eq. cbn [_r].
  destruct (negb _).
  - cbn. repeat split.
  - rewrite !bind_modify_eq.
    apply (bind_same_run same_but_n agree).
    + apply restore_loop_same. repeat split.
    + apply agree_refl.
    + apply same_but_n_agree.
    + intros [n3 r3 m3 l3 z3] [n4 r4 m4 l4 z4] (Hr & Hm & Hl & Hz).
      cbn in Hr, Hm, Hl, Hz. subst r4 m4 l4 z4.
      rewrite !bind_get_eq. cbn [_r n0s snapshots].
      destruct (negb _); [cbn; repeat split|].
      destruct (negb _); cbn; repeat split.
Qed.

Lemma period_loop_same (max_n : Z) (s1 s2 : state) :
  agree s1 s2 ->
  same_run agree
           (while_ fuel (fun s => _r s <? max_n) (period_step fuel c max_n) s1)
           (while_ fuel (fun s => _r s <? max_n) (period_step fuel c max_n) s2).
Proof.
  apply while_same_run.
  - intros ? ? (-> & _). reflexivity.
  - apply period_step_same.
Qed.

(** Two sweeps from states that agree yield the same actions. *)
Lemma reverse_sweep_same (s1 s2 : state) :
  agree s1 s2 ->
  same_actions agree (reverse_sweep fuel c s1) (reverse_sweep fuel c s2).
Proof.
  intros Hagree. pose proof Hagree as (Hr & Hm).
  unfold reverse_sweep. rewrite !bind_get_eq. rewrite <- Hm.
  destruct (_max_n s1) as [max_n|]; [|cbn; auto].
  apply bind_same_actions; [now apply period_loop_same|].
  clear. intros s1 s2 (Hr & Hm).
  rewrite !bind_get_eq, <- Hr.
  destruct (negb _); [cbn; repeat split; assumption|].
  rewrite !bind_modify_eq. cbn. repeat split. exact Hm.
Qed.

(** *** What a sweep leaves unchanged *)

Definition fixed (max_n : option Z) {A} (m : gen state A) : Prop :=
  keeps (fun s => _max_n s = max_n) (fun _ => True) m.

Ltac fixed_structure :=
  unfold fixed;
  repeat (keeps_structure (Logic.I : (fun _ : list (event state) => True) [])
                          (fun (_ _ : list (event state)) (_ _ : True)
                           => Logic.I);
          try lazymatch goal with
          | |- keeps _ _ (modify _) =>
              apply keeps_modify; [exact Logic.I | intros ? H; exact H]
          | |- keeps _ _ (yield _) =>
              apply keeps_yield; intros; exact Logic.I
          end).

Lemma rerun_step_fixed (m : option Z) (max_n : Z) :
  fixed m (rerun_step fuel c max_n).
Proof. unfold rerun_step. fixed_structure. Qed.

Lemma rerun_fixed (m : option Z) (max_n cp_n : Z) :
  fixed m (rerun fuel c max_n cp_n).
Proof. unfold rerun. fixed_structure. apply rerun_step_fixed. Qed.

Lemma adjoint_step_fixed (m : option Z) : fixed m (adjoint_step c).
Proof. unfold adjoint_step. fixed_structure. Qed.

Lemma restore_step_fixed (m : option Z) (max_n : Z) :
  fixed m (restore_step fuel c max_n).
Proof.
  unfold restore_step. fixed_structure;
    first [apply rerun_fixed | apply adjoint_step_fixed].
Qed.

Lemma period_step_fixed (m : option Z) (max_n : Z) :
  fixed m (period_step fuel c max_n).
Proof. unfold period_step. fixed_structure. apply restore_step_fixed. Qed.

(** A sweep that completes ends with [EndReverse(False)], the counter [r]
    back at zero and [max_n] as it was. *)
Lemma reverse_sweep_end (s s' : state) (tr : list (event state)) :
  reverse_sweep fuel c s = (Done tt, s', tr) ->
  _r s' = 0 /\ _max_n s' = _max_n s
  /\ exists pre, tr = pre ++ [(EndReverse false, s')].
Proof.
  intros Hrun.
  enough (H : post (reverse_sweep fuel c) s
                   (fun o s1 tr1 =>
                      o = Done tt ->
                      _r s1 = 0 /\ _max_n s1 = _max_n s
                      /\ exists pre, tr1 = pre ++ [(EndReverse false, s1)])).
  { unfold post in H. rewrite Hrun in H. now apply H. }
  unfold reverse_sweep. gstep.
  destruct (_max_n s) as [max_n|] eqn:Hmax; [|gstep; discriminate].
  apply post_bind.
  eapply post_conseq.
  - apply (keeps_while _ _ Logic.I
                       (fun (_ _ : list (event state)) (_ _ : True)
                        => Logic.I)
                       fuel _ _ (period_step_fixed (Some max_n) max_n)).
    exact Hmax.
  - cbv beta. intros [[]|e|] s1 t1 [_ Hm1]; try discriminate.
    gsafe; try discriminate. intros _. cbn [_r _max_n set_r].
    repeat split; trivial. now exists t1.
Qed.

End Sweeps.

(** The forward sweep leaves the reverse counter at zero. *)
Lemma forward_loop_r (c : config) (script : list driver_call) :
  keeps (fun s => _r s = 0) (fun _ => True)
        (forward_loop c script;; yield EndForward).
Proof.
  assert (Hloop : keeps (fun s => _r s = 0) (fun _ => True)
                        (forward_loop c script)).
  { induction script as [|d script IH]; cbn [forward_loop];
      unfold forward_step, yield_to;
      repeat (keeps_structure
                (Logic.I : (fun _ : list (event state) => True) [])
                (fun (_ _ : list (event state)) (_ _ : True) => Logic.I);
              try lazymatch goal with
              | |- keeps _ _ (modify _) =>
                  apply keeps_modify; [exact Logic.I | intros ? H; exact H]
              | |- keeps _ _ (yield _) =>
                  apply keeps_yield; intros; exact Logic.I
              end).
    exact IH. }
  apply (keeps_bind _ _ (fun (_ _ : list (event state)) (_ _ : True)
                         => Logic.I)); [exact Hloop|].
  intros _. apply keeps_yield. intros; exact Logic.I.
Qed.

End TwoLevelSweeps.

(** ** Claim C10: the snapshots of the period starts are never deleted *)

Module TwoLevelReads.
Import TwoLevel.

(** A [Read] at a multiple of the period is from disk and keeps the
    snapshot. *)
Definition period_read_ok (c : config) (a : action) : Prop :=
  match a with
  | Read n storage delete =>
      n mod _period c = 0 -> delete = false /\ storage = "disk"%string
  | _ => True
  end.

Definition reads_ok (c : config) (tr : list (event state)) : Prop :=
  Forall (fun e => period_read_ok c (fst e)) tr.

Lemma reads_ok_nil (c : config) : reads_ok c [].
Proof. constructor. Qed.

Lemma reads_ok_app (c : config) (t1 t2 : list (event state)) :
  reads_ok c t1 -> reads_ok c t2 -> reads_ok c (t1 ++ t2).
Proof. intros H1 H2. apply Forall_app. now split. Qed.

Section Reads.
Variable fuel : nat.
Variable c : config.
Hypothesis Hperiod : 1 <= _period c.

(** Inside a period: [n0s] is its start, a multiple of the period; the
    reverse counter has not left the period; the stack holds the start and
    steps strictly inside the period. *)
Definition in_period (max_n : Z) (s : state) : Prop :=
  n0s s mod _period c = 0
  /\ max_n - n0s s - _period c <= _r s
  /\ Forall (fun x => x = n0s s \/ n0s s < x < n0s s + _period c)
            (snapshots s).

Definition advancing (max_n : Z) (s : state) : Prop :=
  in_period max_n s /\ n0s s < _n s.

Lemma inner_step_not_multiple (lo x : Z) :
  lo mod _period c = 0 -> lo < x < lo + _period c ->
  x mod _period c <> 0.
Proof.
  intros Hlo Hx Hmod.
  pose proof (TwoLevelProofs.same_multiple (_period c) lo x Hperiod Hlo Hmod).
  lia.
Qed.

Ltac reads_finish :=
  unfold reads_ok, period_read_ok, advancing, in_period in *;
  repeat (cbn [_n _r _max_n snapshots n0s set_n set_r set_max_n
               set_snapshots set_n0s fst snd] in *;
          match goal with
          | |- _ /\ _ => split
          | |- Forall _ (_ :: _) => constructor
          | |- Forall _ [] => constructor
          | |- True => exact Logic.I
          | |- _ = Done tt -> _ => intros _
          | |- _ = Done tt -> _ => discriminate
          end);
  cbn [_n _r _max_n snapshots n0s set_n set_r set_max_n
       set_snapshots set_n0s fst snd] in *;
  try tauto; try lia; try discriminate.

Lemma rerun_step_reads (max_n : Z) (s : state) :
  advancing max_n s -> (_n s <? max_n - _r s - 1) = true ->
  post (rerun_step fuel c max_n) s
       (fun o s' tr => reads_ok c tr /\ (o = Done tt -> advancing max_n s')).
Proof.
  intros ((Hmod & Hr & Hstack) & Hn) Hcond.
  unfold rerun_step. gsafe; reads_finish.
Qed.

Lemma rerun_loop_reads (max_n : Z) (s : state) :
  advancing max_n s ->
  post (while_ fuel (fun s => _n s <? max_n - _r s - 1)
               (rerun_step fuel c max_n)) s
       (fun o s' tr => reads_ok c tr /\ (o = Done tt -> in_period max_n s')).
Proof.
  intros Hadv.
  eapply post_conseq.
  - apply (while_safe (advancing max_n) (reads_ok c)); trivial.
    + apply reads_ok_nil.
    + apply reads_ok_app.
    + apply rerun_step_reads.
  - cbv beta. intros o s' tr [HT H]. split; trivial.
    intros Ho. now destruct (H Ho) as [[? _] _].
Qed.

Lemma rerun_reads (max_n cp_n : Z) (s : state) :
  in_period max_n s ->
  cp_n = n0s s \/ n0s s < cp_n < n0s s + _period c ->
  post (rerun fuel c max_n cp_n) s
       (fun o s' tr => reads_ok c tr /\ (o = Done tt -> in_period max_n s')).
Proof.
  intros (Hmod & Hr & Hstack) Hcp.
  assert (Hinner : cp_n <> n0s s -> cp_n mod _period c <> 0).
  { intros Hne. apply (inner_step_not_multiple (n0s s)); trivial. lia. }
  unfold rerun. gstep. gstep. cbn [n0s set_n].
  (* the restored step is the start of the period, or lies inside it *)
  destruct (Z.eqb_spec cp_n (n0s s)) as [Hcn|Hcn];
    gstep; gstep; gstep; gstep;
    (apply post_lift_bind;
     destruct (n_advance _ _ _ _) as [a| |]; cbv beta match;
     [|reads_finish; intros; exfalso; auto
      |reads_finish; intros; exfalso; auto]);
    (apply post_assert_bind; intros Hassert;
     [reads_finish; intros; exfalso; auto|]);
    gstep; gstep; gstep;
    apply post_bind;
    (eapply post_conseq;
     [apply rerun_loop_reads; unfold advancing, in_period;
      cbn [_n _r snapshots n0s set_n] in *; repeat split; trivial; lia|]);
    cbv beta; intros o s' tr [HT Hin];
    (destruct o as [[]|e|];
     [specialize (Hin eq_refl); gsafe|idtac|idtac]);
    (split; [|try discriminate; intros _; try exact Hin]);
    unfold reads_ok in *;
    repeat (first [apply Forall_cons | apply Forall_app; split
                   | apply Forall_nil]);
    trivial; cbn [fst period_read_ok]; trivial;
    try (intros Hm; exfalso; eapply Hinner; eassumption);
    try (intros; now split).
Qed.

Lemma adjoint_step_reads (max_n : Z) (s : state) :
  in_period max_n s ->
  post (adjoint_step c) s
       (fun o s' tr => reads_ok c tr /\ (o = Done tt -> in_period max_n s')).
Proof.
  intros (Hmod & Hr & Hstack). unfold adjoint_step. gsafe. reads_finish.
Qed.

Lemma restore_step_reads (max_n : Z) (s : state) :
  in_period max_n s ->
  post (restore_step fuel c max_n) s
       (fun o s' tr => reads_ok c tr /\ (o = Done tt -> in_period max_n s')).
Proof.
  intros Hin. pose proof Hin as (Hmod & Hr & Hstack).
  unfold restore_step. gsafe.
  - split; [constructor | discriminate].
  - inversion Hstack as [|? ? Hcp Hrest]; subst.
    eapply post_conseq;
      [apply (adjoint_step_reads max_n); unfold in_period;
       cbn [_r n0s snapshots set_n set_snapshots]; auto|].
    cbv beta. intros o s' tr [HT Hin']. split; [|exact Hin'].
    repeat apply Forall_cons; trivial; cbn [fst period_read_ok]; trivial.
    intros _. now split.
  - inversion Hstack as [|? ? Hcp Hrest]; subst.
    eapply post_conseq;
      [apply (adjoint_step_reads max_n); unfold in_period;
       cbn [_r n0s snapshots set_n set_snapshots]; auto|].
    cbv beta. intros o s' tr [HT Hin']. split; [|exact Hin'].
    repeat apply Forall_cons; trivial; cbn [fst period_read_ok]; trivial.
    intros Hm. exfalso.
    apply (inner_step_not_multiple (n0s s) z); trivial. lia.
  - inversion Hstack as [|? ? Hcp Hrest]; subst.
    apply post_bind.
    eapply post_conseq; [apply (rerun_reads max_n z s Hin Hcp)|].
    cbv beta. intros [[]|e|] s1 t1 [HT1 Hin1];
      try (split; [exact HT1 | discriminate]).
    eapply post_conseq; [apply (adjoint_step_reads max_n s1); auto|].
    cbv beta. intros o s' t2 [HT2 Hin2]. split; [|exact Hin2].
    now apply reads_ok_app.
Qed.

Lemma period_step_reads (max_n : Z) :
  keeps (fun _ => True) (reads_ok c) (period_step fuel c max_n).
Proof.
  intros s _. unfold period_step. gstep.
  set (lo := (max_n - _r s - 1) / _period c * _period c).
  destruct (negb _) eqn:Hguard; [gstep; split; [constructor | trivial]|].
  gstep. gstep. apply post_bind.
  eapply post_conseq.
  - apply (keeps_while (in_period max_n) (reads_ok c) (reads_ok_nil c)
                       (reads_ok_app c)).
    + intros s1 H1.
      eapply post_conseq; [apply (restore_step_reads max_n s1 H1)|].
      cbv beta. intros o s' tr [HT H']. split; trivial.
      destruct o as [[]|e|]; auto.
    + unfold in_period. cbn [_r n0s snapshots set_snapshots set_n0s].
      repeat split.
      * apply Z.mod_mul. lia.
      * fold lo. lia.
      * constructor; [now left | constructor].
  - cbv beta. intros [[]|e|] s1 t1 [HT1 _]; try (split; trivial).
    gsafe; (split; [|trivial]); now rewrite app_nil_r.
Qed.

Definition reads_safe {A} (m : gen state A) : Prop :=
  keeps (fun _ => True) (reads_ok c) m.

Ltac reads_structure :=
  unfold reads_safe;
  repeat (keeps_structure (reads_ok_nil c) (reads_ok_app c);
          try lazymatch goal with
          | |- keeps _ _ (modify _) =>
              apply keeps_modify; [apply reads_ok_nil | trivial]
          | |- keeps _ _ (yield (Read _ _ _)) => fail
          | |- keeps _ _ (yield _) =>
              apply keeps_yield; intros;
              repeat constructor
          | |- keeps _ _ (period_step _ _ _) => apply period_step_reads
          end).

Lemma reverse_sweep_reads : reads_safe (reverse_sweep fuel c).
Proof. unfold reverse_sweep. reads_structure. Qed.

Lemma reverse_sweeps_reads (sweeps : nat) :
  reads_safe (reverse_sweeps fuel c sweeps).
Proof.
  induction sweeps as [|sweeps IH]; cbn [reverse_sweeps]; reads_structure.
  - apply reverse_sweep_reads.
  - apply IH.
Qed.

Lemma forward_loop_reads (script : list driver_call) :
  reads_safe (forward_loop c script).
Proof.
  induction script as [|d script IH]; cbn [forward_loop];
    unfold forward_step, yield_to; reads_structure.
  apply IH.
Qed.

Lemma iter_reads (script : list driver_call) (sweeps : nat) :
  reads_safe (iter fuel c script sweeps).
Proof.
  unfold iter. reads_structure;
    first [apply forward_loop_reads | apply reverse_sweeps_reads].
Qed.

End Reads.

(** C10: in every action sequence of a two-level schedule, whatever its
    arguments and however far it is driven, a [Read] at a step that is a
    multiple of [disk_period] is from disk and has [delete = False]; a
    [Read] with [delete = True] is at a step that is not a multiple of
    [disk_period], the step of a snapshot written inside a period. *)
Theorem period_snapshots_kept (disk_period binomial_snapshots : Z)
        (binomial_storage : string) (keep : bool) (trajectory : string)
        (fuel : nat) (script : list driver_call) (sweeps : nat)
        (c : config) (s0 s' : state) (o : outcome unit)
        (tr : list (event state)) :
  TwoLevelCheckpointSchedule disk_period binomial_snapshots binomial_storage
                             keep trajectory
  = Done (c, s0) ->
  iter fuel c script sweeps s0 = (o, s', tr) ->
  forall n storage delete,
    In (Read n storage delete) (actions tr) ->
    (n mod disk_period = 0 -> delete = false /\ storage = "disk"%string)
    /\ (delete = true -> n mod disk_period <> 0).
Proof.
  intros Hc Hrun n storage delete Hin.
  assert (Hp : 1 <= _period c /\ _period c = disk_period).
  { unfold TwoLevelCheckpointSchedule in Hc.
    destruct (Z.ltb_spec disk_period 1); [discriminate|].
    destruct (negb _); [discriminate|].
    injection Hc as <- _. split; trivial. }
  destruct Hp as [Hp <-].
  pose proof (iter_reads fuel c Hp script sweeps s0 Logic.I) as H.
  unfold post in H. rewrite Hrun in H. destruct H as [H _].
  unfold actions in Hin. apply in_map_iff in Hin.
  destruct Hin as ([a s] & Ha & Hin). cbn in Ha. subst a.
  unfold reads_ok in H. rewrite Forall_forall in H.
  specialize (H _ Hin). cbn in H. split; trivial.
  intros -> Hm. now destruct (H Hm).
Qed.

Lemma period_snapshots_kept_witness :
  (5 mod 5 = 0 -> false = false /\ "disk"%string = "disk"%string)
  /\ (false = true -> 5 mod 5 <> 0).
Proof.
  eapply (period_snapshots_kept 5 1 "disk" false "maximum" 8
                                [None; Some (AtForward, 8)] 1).
  - reflexivity.
  - vm_compute. reflexivity.
  - vm_compute. do 9 right. left. reflexivity.
Defined.

End TwoLevelReads.

(** * Part III: further properties of the code *)

(** ** [n_advance]: which arguments it rejects *)

Lemma valid_trajectory_dec (trajectory : string) :
  {valid_trajectory trajectory} + {~ valid_trajectory trajectory}.
Proof.
  unfold valid_trajectory.
  destruct (String.eqb_spec trajectory "maximum");
    destruct (String.eqb_spec trajectory "revolve"); tauto.
Qed.

(** X1: with fuel for [n] turns of its loop, [n_advance] raises
    [ValueError] when [n < 1], when [snapshots <= 0], and when the
    trajectory is unknown and [2 <= snapshots < n - 1]; in every other
    case it returns a step [r] with [0 <= r < n].  In particular the
    trajectory is not looked at when [snapshots == 1] or
    [snapshots >= n - 1]. *)
Theorem n_advance_rejects (fuel : nat) (n snapshots : Z)
        (trajectory : string) :
  (Z.to_nat n <= fuel)%nat ->
  (n < 1 \/ snapshots <= 0
   \/ (2 <= snapshots < n - 1 /\ ~ valid_trajectory trajectory) ->
   n_advance fuel n snapshots trajectory = Raised ValueError)
  /\ (1 <= n -> 1 <= snapshots ->
      snapshots = 1 \/ n - 1 <= snapshots \/ valid_trajectory trajectory ->
      exists r, n_advance fuel n snapshots trajectory = Done r /\ 0 <= r < n).
Proof.
  intros Hfuel. split.
  - intros [Hn | [Hs | [Hs Htraj]]].
    + unfold n_advance. now replace (n <? 1) with true by lia.
    + unfold n_advance. destruct (n <? 1); trivial.
      now replace (snapshots <=? 0) with true by lia.
    + now apply n_advance_unknown_trajectory.
  - intros Hn Hs Hcase.
    destruct (valid_trajectory_dec trajectory) as [Htraj | Htraj].
    + destruct (n_advance_spec fuel n snapshots trajectory Hn Hs Htraj Hfuel)
        as (r & Hr & H1 & _ & _ & Hb).
      exists r. split; trivial.
      destruct (Z.eq_dec n 1) as [-> | Hn1]; [|lia].
      unfold n_advance in Hr. cbn in Hr.
      replace (snapshots <=? 0) with false in Hr by lia.
      replace (Z.max (Z.min snapshots 0) 1) with 1 in Hr by lia.
      cbn in Hr. injection Hr as <-. lia.
    + unfold n_advance.
      replace (n <? 1) with false by lia.
      replace (snapshots <=? 0) with false by lia.
      destruct (Z.eqb_spec (Z.max (Z.min snapshots (n - 1)) 1) 1) as [E1 | E1].
      * exists (n - 1). split; [reflexivity | lia].
      * destruct (Z.eqb_spec (Z.max (Z.min snapshots (n - 1)) 1) (n - 1))
          as [E2 | E2]; [|exfalso; destruct Hcase as [H | [H | H]]; tauto || lia].
        exists 1. split; [reflexivity | lia].
Qed.

Lemma n_advance_rejects_witness :
  exists r, n_advance 7 7 1 "steepest" = Done r /\ 0 <= r < 7.
Proof.
  apply (proj2 (n_advance_rejects 7 7 1 "steepest" ltac:(lia))).
  - lia.
  - lia.
  - left. reflexivity.
Defined.

(** ** [n_advance]: the values of the loop are binomial coefficients *)

(** Pascal's triangle. *)
Fixpoint binom (n k : nat) : Z :=
  match n, k with
  | _, O => 1
  | O, S _ => 0
  | S n', S k' => binom n' k' + binom n' (S k')
  end.

(** [beta s t] is the number called beta(s, t) in GW2000, equation (1):
    the binomial coefficient of [s + t] over [s]. *)
Definition beta (s t : Z) : Z := binom (Z.to_nat (s + t)) (Z.to_nat s).

(** The step of GW2000, bottom of p. 34, for the [t] with
    [beta s (t - 1) < n <= beta s t]. *)
Definition revolve_formula (n s t : Z) : Z :=
  if n <=? beta s (t - 1) + beta (s - 2) (t - 1) then beta s (t - 2)
  else if n <? beta s (t - 1) + beta (s - 1) (t - 1) + beta (s - 2) (t - 1)
       then n - beta (s - 1) (t - 1) - beta (s - 2) (t - 1)
       else beta s (t - 1).

(** The largest step compatible with GW2000, Fig. 4. *)
Definition maximum_formula (n s t : Z) : Z :=
  if n <=? beta s (t - 1) + beta (s - 1) (t - 2)
  then n - beta s (t - 1) + beta s (t - 2)
  else if n <=? beta s (t - 1) + beta (s - 2) (t - 1) + beta (s - 1) (t - 2)
       then beta s (t - 2) + beta (s - 1) (t - 2)
       else if n <=? beta s (t - 1) + beta (s - 1) (t - 1)
                     + beta (s - 2) (t - 1)
            then n - beta (s - 1) (t - 1) - beta (s - 2) (t - 1)
            else beta s (t - 1).

Lemma binom_0_r (n : nat) : binom n 0 = 1.
Proof. now destruct n. Qed.

Lemma binom_nonneg (n k : nat) : 0 <= binom n k.
Proof.
  revert k. induction n as [|n IH]; intros [|k]; cbn; try lia.
  pose proof (IH k). pose proof (IH (S k)). lia.
Qed.

Lemma binom_above (n k : nat) : (n < k)%nat -> binom n k = 0.
Proof.
  revert k. induction n as [|n IH]; intros [|k] H; cbn; try lia.
  rewrite !IH by lia. reflexivity.
Qed.

Lemma binom_diag (n : nat) : binom n n = 1.
Proof.
  induction n as [|n IH]; cbn; trivial.
  rewrite IH, binom_above by lia. reflexivity.
Qed.

Lemma binom_pos (n k : nat) : (k <= n)%nat -> 1 <= binom n k.
Proof.
  revert k. induction n as [|n IH]; intros [|k] H; cbn; try lia.
  pose proof (IH k ltac:(lia)). pose proof (binom_nonneg n (S k)). lia.
Qed.

(** The absorption identity. *)
Lemma binom_absorb (n k : nat) :
  Z.of_nat (S k) * binom (S n) (S k) = Z.of_nat (S n) * binom n k.
Proof.
  revert k. induction n as [|n IH]; intros k.
  - destruct k as [|k]; cbn; lia.
  - change (binom (S (S n)) (S k)) with (binom (S n) k + binom (S n) (S k)).
    pose proof (IH k) as H1.
    destruct k as [|k].
    + rewrite binom_0_r in *. lia.
    + pose proof (IH k) as H2.
      assert (HP : binom (S n) (S k) = binom n k + binom n (S k))
        by reflexivity.
      rewrite !Nat2Z.inj_succ in *.
      generalize dependent (binom (S n) (S (S k))).
      generalize dependent (binom (S n) (S k)).
      generalize (binom n k) (binom n (S k)) (Z.of_nat k) (Z.of_nat n).
      intros a b kz nz B HP H2 D H1. subst B. lia.
Qed.

Lemma binom_absorb_row (n k : nat) :
  (k <= S n)%nat ->
  (Z.of_nat (S n) - Z.of_nat k) * binom (S n) k = Z.of_nat (S n) * binom n k.
Proof.
  intros Hk. destruct k as [|k].
  - rewrite !binom_0_r. lia.
  - pose proof (binom_absorb n k) as H.
    assert (HP : binom (S n) (S k) = binom n k + binom n (S k))
      by reflexivity.
    rewrite !Nat2Z.inj_succ in *.
    generalize dependent (binom (S n) (S k)).
    generalize (binom n k) (binom n (S k)) (Z.of_nat k) (Z.of_nat n).
    intros a b kz nz B H HP. subst B. lia.
Qed.

Lemma beta_0_t (s : Z) : 0 <= s -> beta s 0 = 1.
Proof. intros Hs. unfold beta. rewrite Z.add_0_r. apply binom_diag. Qed.

Lemma beta_pos (s t : Z) : 0 <= s -> 0 <= t -> 1 <= beta s t.
Proof. intros Hs Ht. apply binom_pos. lia. Qed.

(** Pascal's rule on [beta]. *)
Lemma beta_pascal (s t : Z) :
  1 <= s -> 1 <= t -> beta s t = beta (s - 1) t + beta s (t - 1).
Proof.
  intros Hs Ht. unfold beta.
  replace (Z.to_nat (s + t)) with (S (Z.to_nat (s - 1 + t))) by lia.
  replace (Z.to_nat s) with (S (Z.to_nat (s - 1))) at 1 by lia.
  cbn [binom].
  replace (S (Z.to_nat (s - 1))) with (Z.to_nat s) by lia.
  replace (s + (t - 1)) with (s - 1 + t) by lia. reflexivity.
Qed.

Lemma beta_1 (s : Z) : 0 <= s -> beta s 1 = s + 1.
Proof.
  intros Hs. pattern s. apply natlike_ind; trivial; clear s Hs.
  intros s Hs IH. rewrite beta_pascal by lia.
  replace (Z.succ s - 1) with s by lia. rewrite IH.
  replace (1 - 1) with 0 by lia. rewrite beta_0_t by lia. lia.
Qed.

(** The floor division that steps [t] is exact. *)
Lemma beta_next (s t : Z) :
  0 <= s -> 0 <= t -> (beta s t * (s + (t + 1))) / (t + 1) = beta s (t + 1).
Proof.
  intros Hs Ht.
  symmetry. apply Z.div_unique_exact; [lia|]. unfold beta.
  pose proof (binom_absorb_row (Z.to_nat (s + t)) (Z.to_nat s) ltac:(lia))
    as H.
  replace (Z.to_nat (s + (t + 1))) with (S (Z.to_nat (s + t))) by lia.
  rewrite Nat2Z.inj_succ in H. rewrite !Z2Nat.id in H by lia. lia.
Qed.

(** The floor division that lowers [s] is exact. *)
Lemma beta_lower (s t : Z) :
  1 <= s -> 0 <= t -> (beta s t * s) / (s + t) = beta (s - 1) t.
Proof.
  intros Hs Ht.
  symmetry. apply Z.div_unique_exact; [lia|]. unfold beta.
  pose proof (binom_absorb (Z.to_nat (s - 1 + t)) (Z.to_nat (s - 1))) as H.
  replace (S (Z.to_nat (s - 1 + t))) with (Z.to_nat (s + t)) in H by lia.
  replace (S (Z.to_nat (s - 1))) with (Z.to_nat s) in H by lia.
  rewrite !Z2Nat.id in H by lia. lia.
Qed.

(** The values the loop of [n_advance] holds. *)
Record beta_exact (s t b2 b1 b0 : Z) : Prop := {
  be_t : 2 <= t;
  be_b2 : b2 = beta s (t - 2);
  be_b1 : b1 = beta s (t - 1);
  be_b0 : b0 = beta s t
}.

Lemma beta_exact_init (s : Z) :
  0 <= s -> beta_exact s 2 1 (s + 1) (((s + 1) * (s + 2)) / 2).
Proof.
  intros Hs. constructor.
  - lia.
  - replace (2 - 2) with 0 by lia. now rewrite beta_0_t.
  - replace (2 - 1) with 1 by lia. now rewrite beta_1.
  - pose proof (beta_next s 1 Hs ltac:(lia)) as H.
    rewrite beta_1 in H by lia.
    replace (1 + 1) with 2 in H by lia.
    replace (s + 2) with (s + 2) by lia. exact H.
Qed.

Lemma beta_loop_exact (fuel : nat) :
  forall n s t b2 b1 b0 t' b2' b1' b0',
    0 <= s -> beta_exact s t b2 b1 b0 ->
    beta_loop fuel n s t b2 b1 b0 = Some (t', b2', b1', b0') ->
    beta_exact s t' b2' b1' b0' /\ b1' < n <= b0'.
Proof.
  induction fuel as [|fuel IH]; intros n s t b2 b1 b0 t' b2' b1' b0' Hs Hex;
    cbn [beta_loop]; destruct ((b1 >=? n) || (n >? b0)) eqn:Hc;
    try discriminate.
  - intros [= <- <- <- <-]. split; [trivial | lia].
  - apply IH; trivial. destruct Hex as [Ht -> -> ->]. constructor.
    + lia.
    + f_equal. lia.
    + f_equal. lia.
    + apply beta_next; lia.
  - intros [= <- <- <- <-]. split; [trivial | lia].
Qed.

Section Formulas.
Variables n s t : Z.
Hypothesis Hs : 2 <= s.
Hypothesis Ht : 2 <= t.

Lemma maximum_step_formula :
  maximum_step n s t (beta s (t - 2)) (beta s (t - 1)) = maximum_formula n s t.
Proof.
  unfold maximum_step, maximum_formula.
  replace (s + t - 2) with (s + (t - 2)) by lia.
  rewrite (beta_lower s (t - 2)) by lia.
  replace (s + t - 1) with (s + (t - 1)) by lia.
  rewrite (beta_lower s (t - 1)) by lia.
  replace (s + (t - 2)) with (s - 1 + (t - 1)) by lia.
  rewrite (beta_lower (s - 1) (t - 1)) by lia.
  replace (s - 1 - 1) with (s - 2) by lia. reflexivity.
Qed.

Lemma revolve_step_formula :
  revolve_step n s t (beta s (t - 2)) (beta s (t - 1)) = revolve_formula n s t.
Proof.
  unfold revolve_step, revolve_formula.
  replace (s + t - 1) with (s + (t - 1)) by lia.
  rewrite (beta_lower s (t - 1)) by lia.
  replace (s + t - 2) with (s - 1 + (t - 1)) by lia.
  rewrite (beta_lower (s - 1) (t - 1)) by lia.
  replace (s - 1 - 1) with (s - 2) by lia. reflexivity.
Qed.

(** The two formulas compared, through Pascal's rule. *)
Lemma formulas_ordered :
  beta s (t - 1) < n ->
  beta s (t - 2) <= revolve_formula n s t
  /\ revolve_formula n s t <= maximum_formula n s t
  /\ maximum_formula n s t <= beta s (t - 1).
Proof.
  intros Hn.
  pose proof (beta_pascal s (t - 1) ltac:(lia) ltac:(lia)) as P1.
  pose proof (beta_pascal (s - 1) (t - 1) ltac:(lia) ltac:(lia)) as P2.
  replace (t - 1 - 1) with (t - 2) in * by lia.
  replace (s - 1 - 1) with (s - 2) in * by lia.
  pose proof (beta_pos (s - 2) (t - 1) ltac:(lia) ltac:(lia)).
  pose proof (beta_pos (s - 1) (t - 2) ltac:(lia) ltac:(lia)).
  pose proof (beta_pos s (t - 2) ltac:(lia) ltac:(lia)).
  unfold revolve_formula, maximum_formula.
  repeat match goal with
         | |- context [?a <=? ?b] => destruct (Z.leb_spec a b)
         | |- context [?a <? ?b] => destruct (Z.ltb_spec a b)
         end; lia.
Qed.

End Formulas.

(** For [2 <= snapshots < n - 1], where [n_advance] runs its loop,
    the loop stops at the [t >= 2] with
    [beta(snapshots, t - 1) < n <= beta(snapshots, t)], where
    [beta(s, t)] is the binomial coefficient of [s + t] over [s]; every
    floor division of the function is exact, and the step returned is the
    one the formulas of GW2000 give on these binomial coefficients. *)
Lemma n_advance_general (fuel : nat) (n snapshots : Z) :
  2 <= snapshots < n - 1 -> (Z.to_nat n <= fuel)%nat ->
  exists t,
    2 <= t
    /\ beta snapshots (t - 1) < n <= beta snapshots t
    /\ n_advance fuel n snapshots "maximum"
       = Done (maximum_formula n snapshots t)
    /\ n_advance fuel n snapshots "revolve"
       = Done (revolve_formula n snapshots t).
Proof.
  intros Hs Hfuel.
  pose proof (beta_inv_init n snapshots ltac:(lia) ltac:(lia)) as Hinit.
  destruct (beta_loop_total fuel n snapshots 2 1 (snapshots + 1) _
                            ltac:(lia) Hinit)
    as (t & b2 & b1 & b0 & Hloop & _).
  { destruct Hinit. lia. }
  assert (H0 : 0 <= snapshots) by lia.
  destruct (beta_loop_exact fuel _ _ _ _ _ _ _ _ _ _ H0
                            (beta_exact_init snapshots H0) Hloop)
    as ([Ht -> -> ->] & Hn).
  exists t. split; [exact Ht|]. split; [exact Hn|].
  unfold n_advance.
  replace (n <? 1) with false by lia.
  replace (snapshots <=? 0) with false by lia.
  replace (Z.max (Z.min snapshots (n - 1)) 1) with snapshots by lia.
  replace (snapshots =? 1) with false by lia.
  replace (snapshots =? n - 1) with false by lia.
  rewrite Hloop. cbn [String.eqb Ascii.eqb Bool.eqb].
  rewrite maximum_step_formula, revolve_step_formula by lia. auto.
Qed.

(** The floor divisions of [n_advance] on the values its loop holds. *)
Lemma beta_divisions (s t : Z) :
  2 <= s -> 2 <= t ->
  (forall k, 1 <= k ->
             (beta s k * (s + (k + 1))) mod (k + 1) = 0
             /\ (beta s k * (s + (k + 1))) / (k + 1) = beta s (k + 1))
  /\ ((beta s (t - 2) * s) mod (s + t - 2) = 0
      /\ (beta s (t - 2) * s) / (s + t - 2) = beta (s - 1) (t - 2))
  /\ ((beta s (t - 1) * s) mod (s + t - 1) = 0
      /\ (beta s (t - 1) * s) / (s + t - 1) = beta (s - 1) (t - 1))
  /\ ((beta (s - 1) (t - 1) * (s - 1)) mod (s + t - 2) = 0
      /\ (beta (s - 1) (t - 1) * (s - 1)) / (s + t - 2)
         = beta (s - 2) (t - 1)).
Proof.
  intros Hs Ht.
  assert (Hnext : forall k, 1 <= k ->
             beta s k * (s + (k + 1)) = (k + 1) * beta s (k + 1)).
  { intros k Hk. unfold beta.
    pose proof (binom_absorb_row (Z.to_nat (s + k)) (Z.to_nat s) ltac:(lia))
      as H.
    replace (Z.to_nat (s + (k + 1))) with (S (Z.to_nat (s + k))) by lia.
    rewrite Nat2Z.inj_succ in H. rewrite !Z2Nat.id in H by lia. lia. }
  assert (Hlower : forall s' t', 1 <= s' -> 0 <= t' ->
             beta s' t' * s' = (s' + t') * beta (s' - 1) t').
  { intros s' t' Hs' Ht'. unfold beta.
    pose proof (binom_absorb (Z.to_nat (s' - 1 + t')) (Z.to_nat (s' - 1)))
      as H.
    replace (S (Z.to_nat (s' - 1 + t'))) with (Z.to_nat (s' + t')) in H
      by lia.
    replace (S (Z.to_nat (s' - 1))) with (Z.to_nat s') in H by lia.
    rewrite !Z2Nat.id in H by lia. lia. }
  assert (Hexact : forall a b q, 0 < b -> a = b * q ->
                                 a mod b = 0 /\ a / b = q).
  { intros a b q Hb ->. split.
    - rewrite Z.mul_comm. apply Z_mod_mult.
    - rewrite Z.mul_comm. apply Z_div_mult. lia. }
  split; [|split; [|split]].
  - intros k Hk. apply Hexact; [lia | now apply Hnext].
  - replace (s + t - 2) with (s + (t - 2)) by lia.
    apply Hexact; [lia | apply Hlower; lia].
  - replace (s + t - 1) with (s + (t - 1)) by lia.
    apply Hexact; [lia | apply Hlower; lia].
  - replace (s + t - 2) with (s - 1 + (t - 1)) by lia.
    replace (s - 2) with (s - 1 - 1) by lia.
    apply Hexact; [lia | apply Hlower; lia].
Qed.

(** X2: for [2 <= snapshots < n - 1], where [n_advance] runs its loop,
    the loop ends at the [t >= 2] with
    [beta(snapshots, t - 1) < n <= beta(snapshots, t)], holding
    [beta(snapshots, t - 2)], [beta(snapshots, t - 1)] and
    [beta(snapshots, t)], where [beta(s, t)] is the binomial coefficient of
    [s + t] over [s].  Every floor division of the function has remainder
    zero on these values: the one that takes [beta(snapshots, k)] to
    [beta(snapshots, k + 1)] at the start and in the loop, and the three of
    the step, by [snapshots + t - 2] and [snapshots + t - 1].  The step of
    each trajectory is the case analysis of the function written on these
    binomial coefficients, [maximum_formula] and [revolve_formula], and
    both steps lie between [beta(snapshots, t - 2)] and
    [beta(snapshots, t - 1)], the step of "revolve" not above the step of
    "maximum". *)
Theorem n_advance_binomial (fuel : nat) (n snapshots : Z) :
  2 <= snapshots < n - 1 -> (Z.to_nat n <= fuel)%nat ->
  exists t,
    2 <= t
    /\ beta snapshots (t - 1) < n <= beta snapshots t
    /\ beta_loop fuel n snapshots 2 1 (snapshots + 1)
                 (((snapshots + 1) * (snapshots + 2)) / 2)
       = Some (t, beta snapshots (t - 2), beta snapshots (t - 1),
               beta snapshots t)
    /\ (forall k, 1 <= k ->
          (beta snapshots k * (snapshots + (k + 1))) mod (k + 1) = 0
          /\ (beta snapshots k * (snapshots + (k + 1))) / (k + 1)
             = beta snapshots (k + 1))
    /\ ((beta snapshots (t - 2) * snapshots) mod (snapshots + t - 2) = 0
        /\ (beta snapshots (t - 2) * snapshots) / (snapshots + t - 2)
           = beta (snapshots - 1) (t - 2))
    /\ ((beta snapshots (t - 1) * snapshots) mod (snapshots + t - 1) = 0
        /\ (beta snapshots (t - 1) * snapshots) / (snapshots + t - 1)
           = beta (snapshots - 1) (t - 1))
    /\ ((beta (snapshots - 1) (t - 1) * (snapshots - 1))
          mod (snapshots + t - 2) = 0
        /\ (beta (snapshots - 1) (t - 1) * (snapshots - 1))
           / (snapshots + t - 2)
           = beta (snapshots - 2) (t - 1))
    /\ n_advance fuel n snapshots "maximum"
       = Done (maximum_formula n snapshots t)
    /\ n_advance fuel n snapshots "revolve"
       = Done (revolve_formula n snapshots t)
    /\ beta snapshots (t - 2) <= revolve_formula n snapshots t
    /\ revolve_formula n snapshots t <= maximum_formula n snapshots t
    /\ maximum_formula n snapshots t <= beta snapshots (t - 1).
Proof.
  intros Hs Hfuel.
  pose proof (beta_inv_init n snapshots ltac:(lia) ltac:(lia)) as Hinit.
  destruct (beta_loop_total fuel n snapshots 2 1 (snapshots + 1) _
                            ltac:(lia) Hinit)
    as (t & b2 & b1 & b0 & Hloop & _).
  { destruct Hinit. lia. }
  assert (H0 : 0 <= snapshots) by lia.
  destruct (beta_loop_exact fuel _ _ _ _ _ _ _ _ _ _ H0
                            (beta_exact_init snapshots H0) Hloop)
    as ([Ht -> -> ->] & Hn).
  assert (Hmax : n_advance fuel n snapshots "maximum"
                 = Done (maximum_formula n snapshots t)
                 /\ n_advance fuel n snapshots "revolve"
                    = Done (revolve_formula n snapshots t)).
  { unfold n_advance.
    replace (n <? 1) with false by lia.
    replace (snapshots <=? 0) with false by lia.
    replace (Z.max (Z.min snapshots (n - 1)) 1) with snapshots by lia.
    replace (snapshots =? 1) with false by lia.
    replace (snapshots =? n - 1) with false by lia.
    rewrite Hloop. cbn [String.eqb Ascii.eqb Bool.eqb].
    rewrite maximum_step_formula, revolve_step_formula by lia. auto. }
  destruct Hmax as [Hmax Hrev].
  destruct (beta_divisions snapshots t ltac:(lia) Ht)
    as (D1 & D2 & D3 & D4).
  destruct (formulas_ordered n snapshots t ltac:(lia) Ht ltac:(lia))
    as (Hlo & Hmid & Hhi).
  exists t. repeat split; trivial; try lia; apply D1 || apply D2 || apply D3
                                           || apply D4; trivial.
Qed.

Lemma n_advance_binomial_witness :
  exists t,
    2 <= t
    /\ beta 3 (t - 1) < 30 <= beta 3 t
    /\ beta_loop 30 30 3 2 1 (3 + 1) (((3 + 1) * (3 + 2)) / 2)
       = Some (t, beta 3 (t - 2), beta 3 (t - 1), beta 3 t)
    /\ (forall k, 1 <= k ->
          (beta 3 k * (3 + (k + 1))) mod (k + 1) = 0
          /\ (beta 3 k * (3 + (k + 1))) / (k + 1) = beta 3 (k + 1))
    /\ ((beta 3 (t - 2) * 3) mod (3 + t - 2) = 0
        /\ (beta 3 (t - 2) * 3) / (3 + t - 2) = beta (3 - 1) (t - 2))
    /\ ((beta 3 (t - 1) * 3) mod (3 + t - 1) = 0
        /\ (beta 3 (t - 1) * 3) / (3 + t - 1) = beta (3 - 1) (t - 1))
    /\ ((beta (3 - 1) (t - 1) * (3 - 1)) mod (3 + t - 2) = 0
        /\ (beta (3 - 1) (t - 1) * (3 - 1)) / (3 + t - 2)
           = beta (3 - 2) (t - 1))
    /\ n_advance 30 30 3 "maximum" = Done (maximum_formula 30 3 t)
    /\ n_advance 30 30 3 "revolve" = Done (revolve_formula 30 3 t)
    /\ beta 3 (t - 2) <= revolve_formula 30 3 t
    /\ revolve_formula 30 3 t <= maximum_formula 30 3 t
    /\ maximum_formula 30 3 t <= beta 3 (t - 1).
Proof.
  apply (n_advance_binomial 30 30 3).
  - lia.
  - lia.
Defined.

(** X3: for every [n >= 1] and [snapshots >= 1] both trajectories return a
    step, and the step of "maximum" is never shorter than the step of
    "revolve". *)
Theorem maximum_not_shorter (fuel : nat) (n snapshots : Z) :
  1 <= n -> 1 <= snapshots -> (Z.to_nat n <= fuel)%nat ->
  exists r m,
    n_advance fuel n snapshots "revolve" = Done r
    /\ n_advance fuel n snapshots "maximum" = Done m
    /\ r <= m.
Proof.
  intros Hn Hs Hfuel.
  destruct (Z_lt_le_dec (Z.max (Z.min snapshots (n - 1)) 1) 2) as [H1 | H1];
    [|destruct (Z.eq_dec (Z.max (Z.min snapshots (n - 1)) 1) (n - 1))
       as [H2 | H2]].
  - exists (n - 1), (n - 1). unfold n_advance.
    replace (n <? 1) with false by lia.
    replace (snapshots <=? 0) with false by lia.
    replace (Z.max (Z.min snapshots (n - 1)) 1 =? 1) with true by lia.
    repeat split. lia.
  - exists 1, 1. unfold n_advance.
    replace (n <? 1) with false by lia.
    replace (snapshots <=? 0) with false by lia.
    replace (Z.max (Z.min snapshots (n - 1)) 1 =? 1) with false by lia.
    replace (Z.max (Z.min snapshots (n - 1)) 1 =? n - 1) with true by lia.
    repeat split. lia.
  - assert (Hin : 2 <= snapshots < n - 1) by lia.
    destruct (n_advance_general fuel n snapshots Hin Hfuel)
      as (t & Ht & Hb & Hmax & Hrev).
    exists (revolve_formula n snapshots t), (maximum_formula n snapshots t).
    repeat split; trivial.
    apply formulas_ordered; lia.
Qed.

Lemma maximum_not_shorter_witness :
  exists r m,
    n_advance 40 40 4 "revolve" = Done r
    /\ n_advance 40 40 4 "maximum" = Done m
    /\ r <= m.
Proof.
  apply (maximum_not_shorter 40 40 4).
  - lia.
  - lia.
  - lia.
Defined.

(** ** The allocation: how many slots each tier gets *)

(** The number of slots of a tier in a storage tuple. *)
Definition count_tier (tier : string) (storage : list string) : Z :=
  len (filter (String.eqb tier) storage).

Module StorageProofs.
Import Multistage.

Lemma count_tier_cons (tier x : string) (a : list string) :
  count_tier tier (x :: a)
  = (if String.eqb tier x then 1 else 0) + count_tier tier a.
Proof.
  unfold count_tier. cbn [filter].
  destruct (String.eqb tier x); rewrite ?len_cons; lia.
Qed.

Lemma count_tier_repeat (tier x : string) (k : nat) :
  count_tier tier (repeat x k)
  = if String.eqb tier x then Z.of_nat k else 0.
Proof.
  induction k as [|k IH]; cbn [repeat].
  - now destruct (String.eqb tier x).
  - rewrite count_tier_cons, IH. destruct (String.eqb tier x); lia.
Qed.

Lemma count_tier_update (tier x old : string) (a : list string) (j : nat) :
  nth_error a j = Some old ->
  count_tier tier (update j (fun _ => x) a)
  = count_tier tier a - (if String.eqb tier old then 1 else 0)
    + (if String.eqb tier x then 1 else 0).
Proof.
  revert j. induction a as [|y a IH]; intros [|j] Hj; try discriminate;
    cbn [update]; rewrite !count_tier_cons.
  - injection Hj as ->. lia.
  - rewrite (IH j Hj). lia.
Qed.

(** Marking distinct slots that are on disk. *)
Lemma count_tier_mark (idxs : list nat) :
  forall a : list string,
    NoDup idxs ->
    (forall j, In j idxs -> nth_error a j = Some "disk"%string) ->
    let a' := fold_left (fun a j => update j (fun _ => "RAM"%string) a)
                        idxs a in
    count_tier "RAM" a' = count_tier "RAM" a + len idxs
    /\ count_tier "disk" a' = count_tier "disk" a - len idxs.
Proof.
  induction idxs as [|j idxs IH]; intros a Hnd Hdisk; cbn [fold_left].
  - rewrite len_nil. lia.
  - inversion Hnd as [|? ? Hj Hnd']; subst.
    destruct (IH (update j (fun _ => "RAM"%string) a) Hnd') as [H1 H2].
    + intros i Hi. rewrite AllocationProofs.nth_error_update.
      destruct (Nat.eqb_spec i j) as [->|_]; [now destruct Hj|].
      apply Hdisk. now right.
    + cbv zeta in H1, H2. cbv zeta. rewrite H1, H2, len_cons.
      rewrite !(count_tier_update _ _ "disk" a j) by (apply Hdisk; now left).
      cbn. lia.
Qed.

Lemma map_fst_enumerate_from {A} (l : list A) (s : nat) :
  map fst (enumerate_from s l) = seq s (List.length l).
Proof.
  revert s. induction l as [|x l IH]; intros s; cbn; trivial.
  now rewrite IH.
Qed.

Lemma NoDup_firstn {A} (k : nat) (l : list A) : NoDup l -> NoDup (firstn k l).
Proof.
  intros H. rewrite <- (firstn_skipn k l) in H.
  now apply NoDup_app_remove_r in H.
Qed.

Lemma In_firstn {A} (k : nat) (l : list A) (x : A) :
  In x (firstn k l) -> In x l.
Proof.
  intros H. rewrite <- (firstn_skipn k l). apply in_or_app. now left.
Qed.

(** Whatever the weights and however they compare, the allocation has
    [snapshots_in_ram] slots in RAM and the others on disk. *)
Lemma allocation_of_counts {W} (Wltb : W -> W -> bool) (weights : list W)
      (snapshots in_ram : Z) :
  List.length weights = Z.to_nat snapshots -> 0 <= in_ram <= snapshots ->
  count_tier "RAM" (allocation_of W Wltb weights snapshots in_ram) = in_ram
  /\ count_tier "disk" (allocation_of W Wltb weights snapshots in_ram)
     = snapshots - in_ram.
Proof.
  intros Hlen Hram. unfold allocation_of, slice_to.
  replace (0 <=? in_ram) with true by lia.
  set (L := sorted_desc W Wltb (enumerate_from 0 weights)).
  assert (Hperm : Permutation (map fst L) (seq 0 (List.length weights))).
  { rewrite <- map_fst_enumerate_from. apply Permutation_map.
    apply AllocationProofs.sorted_desc_perm. }
  assert (Hnd : NoDup (map fst L)).
  { eapply Permutation_NoDup; [symmetry; exact Hperm | apply seq_NoDup]. }
  rewrite <- firstn_map.
  destruct (count_tier_mark (firstn (Z.to_nat in_ram) (map fst L))
                            (repeat "disk"%string (Z.to_nat snapshots)))
    as [H1 H2].
  - now apply NoDup_firstn.
  - intros j Hj. apply In_firstn in Hj.
    eapply Permutation_in in Hj; [|exact Hperm].
    apply in_seq in Hj. apply nth_error_repeat. lia.
  - cbv zeta in H1, H2. rewrite H1, H2, !count_tier_repeat. cbn.
    unfold len. rewrite length_firstn, length_map. unfold L.
    rewrite (Permutation_length (AllocationProofs.sorted_desc_perm W Wltb _)).
    assert (Hl : List.length (enumerate_from 0 weights) = List.length weights).
    { rewrite <- (length_map fst), map_fst_enumerate_from. apply length_seq. }
    rewrite Hl. lia.
Qed.

Section Counts.
Variable W : Type.
Variable Wzero : W.
Variable Wadd : W -> W -> W.
Variable Wltb : W -> W -> bool.
Variables write_weight read_weight delete_weight : W.

(** What [allocate_snapshots] returns when it returns. *)
Lemma allocate_snapshots_tiers (fuel : nat) (max_n : option Z)
        (in_ram on_disk : Z) (trajectory : string)
        (weights : list W) (allocation : list string) :
  0 <= in_ram -> 0 <= on_disk ->
  allocate_snapshots W Wzero Wadd Wltb write_weight read_weight
                     delete_weight fuel max_n in_ram on_disk trajectory
  = Done (weights, allocation) ->
  len weights = in_ram + on_disk
  /\ len allocation = in_ram + on_disk
  /\ count_tier "RAM" allocation = in_ram
  /\ count_tier "disk" allocation = on_disk.
Proof.
  intros Hram Hdisk. unfold allocate_snapshots.
  destruct (Multistage.iter _ _ _) as [[rest s'] tr].
  destruct (drive _ _ _ _ _ _ _ _ _) as [[z w]| |] eqn:Hdrive;
    try discriminate.
  destruct (z =? -1); [|discriminate]. intros [= <- <-].
  apply AllocationProofs.drive_length in Hdrive. cbn [snd] in Hdrive.
  rewrite repeat_length in Hdrive.
  destruct (allocation_of_counts Wltb w (in_ram + on_disk) in_ram Hdrive)
    as [H1 H2]; [lia|].
  rewrite MultistageProofs.allocation_of_length.
  repeat split; trivial; unfold len; lia.
Qed.


(** X4: whenever [allocate_snapshots] returns, with both counts
    non-negative, it returns one weight and one tier per slot, and exactly
    [snapshots_in_ram] of the tiers are RAM and [snapshots_on_disk] are
    disk, whatever the weights are and however [<] compares them. *)
Theorem allocation_counts (fuel : nat) (max_n : option Z)
        (in_ram on_disk : Z) (trajectory : string)
        (weights : list W) (allocation : list string) :
  0 <= in_ram -> 0 <= on_disk ->
  allocate_snapshots W Wzero Wadd Wltb write_weight read_weight
                     delete_weight fuel max_n in_ram on_disk trajectory
  = Done (weights, allocation) ->
  len weights = in_ram + on_disk
  /\ len allocation = in_ram + on_disk
  /\ count_tier "RAM" allocation = in_ram
  /\ count_tier "disk" allocation = on_disk.
Proof.
  apply allocate_snapshots_tiers.
Qed.

End Counts.

Lemma allocation_counts_witness :
  len [3; 5; 7] = 1 + 2
  /\ len ["disk"; "disk"; "RAM"]%string = 1 + 2
  /\ count_tier "RAM" ["disk"; "disk"; "RAM"]%string = 1
  /\ count_tier "disk" ["disk"; "disk"; "RAM"]%string = 2.
Proof.
  apply (allocation_counts Z 0 Z.add Z.ltb 1 1 0 10 (Some 10) 1 2 "maximum").
  - lia.
  - lia.
  - vm_compute. reflexivity.
Defined.

(** A constructed schedule has one tier per snapshot slot. *)
Lemma constructed_slots (fuel : nat) (max_n : option Z)
      (in_ram on_disk : Z) (keep : bool) (trajectory : string)
      (c : config) (s0 : state) :
  0 <= in_ram -> 0 <= on_disk ->
  MultistageCheckpointSchedule fuel max_n in_ram on_disk keep trajectory
  = Done (c, s0) ->
  len (_storage c) = capacity c.
Proof.
  intros Hram Hdisk Hc. unfold MultistageCheckpointSchedule in Hc.
  destruct (Z.eqb_spec in_ram 0) as [Hr0|Hr0];
    [|destruct (Z.eqb_spec on_disk 0) as [Hd0|Hd0]].
  - injection Hc as <- _. unfold capacity. cbn.
    rewrite len_repeat. lia.
  - injection Hc as <- _. unfold capacity. cbn.
    rewrite len_repeat. lia.
  - destruct (allocate_snapshots _ _ _ _ _ _ _ _ _ _ _ _)
      as [[w a]| |] eqn:Ha; try discriminate.
    injection Hc as <- _. unfold capacity. cbn.
    destruct (allocate_snapshots_tiers _ _ _ _ _ _ _ _ _ _ _ _ _ _
                                       Hram Hdisk Ha)
      as (_ & H1 & _).
    exact H1.
Qed.

(** X5: a multistage schedule constructed with non-negative counts has one
    tier per snapshot slot, [snapshots_in_ram] of them RAM and
    [snapshots_on_disk] of them disk, and [uses_disk_storage()] is true
    exactly when one of its slots is on disk. *)
Theorem constructed_storage (fuel : nat) (max_n : option Z)
        (in_ram on_disk : Z) (keep : bool) (trajectory : string)
        (c : config) (s0 : state) :
  0 <= in_ram -> 0 <= on_disk ->
  MultistageCheckpointSchedule fuel max_n in_ram on_disk keep trajectory
  = Done (c, s0) ->
  len (_storage c) = capacity c
  /\ capacity c = in_ram + on_disk
  /\ count_tier "RAM" (_storage c) = in_ram
  /\ count_tier "disk" (_storage c) = on_disk
  /\ (uses_disk_storage c = true <-> In "disk"%string (_storage c)).
Proof.
  intros Hram Hdisk Hc.
  assert (H : len (_storage c) = in_ram + on_disk
              /\ capacity c = in_ram + on_disk
              /\ _snapshots_on_disk c = on_disk
              /\ count_tier "RAM" (_storage c) = in_ram
              /\ count_tier "disk" (_storage c) = on_disk).
  { unfold MultistageCheckpointSchedule in Hc.
    destruct (Z.eqb_spec in_ram 0) as [Hr0|Hr0];
      [|destruct (Z.eqb_spec on_disk 0) as [Hd0|Hd0]].
    - injection Hc as <- _. unfold capacity. cbn.
      rewrite len_repeat, !count_tier_repeat. cbn. lia.
    - injection Hc as <- _. unfold capacity. cbn.
      rewrite len_repeat, !count_tier_repeat. cbn. lia.
    - destruct (allocate_snapshots _ _ _ _ _ _ _ _ _ _ _ _)
        as [[w a]| |] eqn:Ha; try discriminate.
      injection Hc as <- _. unfold capacity. cbn.
      destruct (allocate_snapshots_tiers _ _ _ _ _ _ _ _ _ _ _ _ _ _
                                        Hram Hdisk Ha)
        as (_ & H1 & H2 & H3).
      auto. }
  destruct H as (Hlen & Hcap & Hod & HR & HD).
  split; [lia|]. split; [exact Hcap|]. split; [exact HR|].
  split; [exact HD|].
  unfold uses_disk_storage. rewrite Hod. split.
  - intros Hpos. assert (Hd : 0 < count_tier "disk" (_storage c)) by lia.
    unfold count_tier in Hd.
    destruct (filter (String.eqb "disk") (_storage c)) as [|x l] eqn:Hf;
      [cbn in Hd; lia|].
    assert (Hx : In x (filter (String.eqb "disk") (_storage c)))
      by (rewrite Hf; now left).
    apply filter_In in Hx. destruct Hx as [Hx Heq].
    apply String.eqb_eq in Heq. now subst x.
  - intros Hin.
    assert (Hx : In "disk"%string (filter (String.eqb "disk") (_storage c)))
      by (apply filter_In; split; [exact Hin | apply String.eqb_refl]).
    unfold count_tier in HD.
    destruct (filter (String.eqb "disk") (_storage c)); [destruct Hx|].
    rewrite len_cons in HD. pose proof (len_nonneg l). lia.
Qed.

Lemma constructed_storage_witness :
  exists c,
    len (_storage c) = capacity c
    /\ capacity c = 2 + 3
    /\ count_tier "RAM" (_storage c) = 2
    /\ count_tier "disk" (_storage c) = 3
    /\ (uses_disk_storage c = true <-> In "disk"%string (_storage c)).
Proof.
  eexists.
  eapply (constructed_storage 12 (Some 12) 2 3 false "revolve").
  - lia.
  - lia.
  - vm_compute. reflexivity.
Defined.

End StorageProofs.

(** ** A schedule without a number of steps *)

(** X6: the generator of a multistage schedule whose [max_n] is [None], or
    below 1, raises [RuntimeError] at the first request, before any action
    is yielded.  When both snapshot counts are non-zero and [max_n] is
    [None] the constructor itself raises this [RuntimeError], from the run
    the allocator makes. *)
Theorem without_max_n :
  (forall fuel c,
      Multistage._max_n c = None
      \/ (exists N, Multistage._max_n c = Some N /\ N < 1) ->
      Multistage.iter fuel c Multistage.initial_state
      = (Raised RuntimeError, Multistage.initial_state, []))
  /\ (forall fuel in_ram on_disk keep trajectory,
         in_ram <> 0 -> on_disk <> 0 ->
         MultistageCheckpointSchedule fuel None in_ram on_disk keep
                                      trajectory
         = Raised RuntimeError).
Proof.
  split.
  - intros fuel c [Hnone | (N & Hsome & HN)]; unfold Multistage.iter.
    + now rewrite Hnone.
    + rewrite Hsome. unfold bind.
      assert (Hloop : while_ fuel (fun s => Multistage._n s <? N - 1)
                             (Multistage.forward_step fuel c N)
                             Multistage.initial_state
                      = (Done tt, Multistage.initial_state, [])).
      { destruct fuel; cbn [while_ Multistage._n Multistage.initial_state];
          now replace (0 <? N - 1) with false by lia. }
      rewrite Hloop. unfold get.
      cbn [Multistage._n Multistage.initial_state].
      now replace (0 =? N - 1) with false by lia.
  - intros fuel in_ram on_disk keep trajectory Hram Hdisk.
    unfold MultistageCheckpointSchedule.
    apply Z.eqb_neq in Hram, Hdisk. rewrite Hram, Hdisk. reflexivity.
Qed.

Lemma without_max_n_witness :
  MultistageCheckpointSchedule 4 None 1 2 false "maximum"
  = Raised RuntimeError.
Proof.
  apply (proj2 without_max_n 4%nat 1 2 false "maximum"%string).
  - lia.
  - lia.
Defined.

(** ** Runs as seen by the driver

    What a driver does with the actions, as functions of the action
    sequence alone: where the forward model stands, which snapshots are
    stored, which adjoint steps were taken. *)

(** The step the forward model stands at after the actions of [l], from
    step [pos]: a [Forward(n0, n1)] must start at that step and moves it to
    [n1]; a [Read(n, ...)] moves it to step [n]. *)
Fixpoint advance (pos : Z) (l : list action) : option Z :=
  match l with
  | [] => Some pos
  | Forward n0 n1 :: l' =>
      if (pos =? n0) && (n0 <? n1) then advance n1 l' else None
  | Read n _ _ :: l' => advance n l'
  | _ :: l' => advance pos l'
  end.

(** The stack of stored snapshots after the actions of [l]: a [Write]
    pushes its step with its tier; a [Read] must be of the step on top of
    the stack, from the tier it was written to, and pops it when it
    deletes. *)
Fixpoint restore (stack : list (Z * string)) (l : list action)
  : option (list (Z * string)) :=
  match l with
  | [] => Some stack
  | Write n storage :: l' => restore ((n, storage) :: stack) l'
  | Read n storage delete :: l' =>
      match stack with
      | (m, written) :: rest =>
          if (m =? n) && String.eqb written storage
          then restore (if delete then rest else stack) l'
          else None
      | [] => None
      end
  | _ :: l' => restore stack l'
  end.

(** The adjoint steps of [l], in order. *)
Fixpoint reversals (l : list action) : list (Z * Z) :=
  match l with
  | [] => []
  | Reverse n1 n0 :: l' => (n1, n0) :: reversals l'
  | _ :: l' => reversals l'
  end.

(** The adjoint steps from step [hi] down, [k] of them. *)
Fixpoint countdown (hi : Z) (k : nat) : list (Z * Z) :=
  match k with
  | O => []
  | S k' => (hi, hi - 1) :: countdown (hi - 1) k'
  end.

Lemma actions_app {St} (t1 t2 : list (event St)) :
  actions (t1 ++ t2) = actions t1 ++ actions t2.
Proof. unfold actions. apply map_app. Qed.

Lemma advance_app (l1 l2 : list action) :
  forall pos pos',
    advance pos l1 = Some pos' -> advance pos (l1 ++ l2) = advance pos' l2.
Proof.
  induction l1 as [|a l1 IH]; intros pos pos'; cbn [advance app].
  - now intros [= ->].
  - destruct a; try apply IH.
    destruct ((pos =? n0) && (n0 <? n1)); [apply IH | discriminate].
Qed.

Lemma restore_app (l1 l2 : list action) :
  forall stack stack',
    restore stack l1 = Some stack' ->
    restore stack (l1 ++ l2) = restore stack' l2.
Proof.
  induction l1 as [|a l1 IH]; intros stack stack'; cbn [restore app].
  - now intros [= ->].
  - destruct a; try apply IH.
    destruct stack as [|[m written] rest]; [discriminate|].
    destruct ((m =? n) && String.eqb written storage);
      [apply IH | discriminate].
Qed.

Lemma reversals_app (l1 l2 : list action) :
  reversals (l1 ++ l2) = reversals l1 ++ reversals l2.
Proof.
  induction l1 as [|a l1 IH]; cbn [reversals app]; trivial.
  destruct a; trivial. cbn [app]. now rewrite IH.
Qed.

Lemma countdown_app (k1 k2 : nat) :
  forall hi,
    countdown hi (k1 + k2)
    = countdown hi k1 ++ countdown (hi - Z.of_nat k1) k2.
Proof.
  induction k1 as [|k1 IH]; intros hi; cbn [countdown Nat.add app].
  - f_equal. lia.
  - rewrite IH. do 3 f_equal. lia.
Qed.

Lemma countdown_length (hi : Z) (k : nat) :
  List.length (countdown hi k) = k.
Proof. revert hi. induction k; intros hi; cbn; auto. Qed.

(** *** Relations along a run

    [along R Q s0]: the run from the state [s0] where the relation [R] was
    last established, through the states and the trace of the run, when
    it returns, and to some state when it raises. *)

Section Along.
Context {St : Type}.
Variable R : St -> list (event St) -> St -> Prop.
Hypothesis R_refl : forall s, R s [] s.
Hypothesis R_trans :
  forall s1 t1 s2 t2 s3, R s1 t1 s2 -> R s2 t2 s3 -> R s1 (t1 ++ t2) s3.

Definition along {A} (Q : A -> St -> Prop) (s0 : St)
  : outcome A -> St -> list (event St) -> Prop :=
  fun o s' tr =>
    match o with
    | Done a => R s0 tr s' /\ Q a s'
    | _ => exists s'', R s0 tr s''
    end.

Lemma along_from {A} (Q : A -> St -> Prop) (s0 s : St)
      (pre : list (event St)) (o : outcome A) (s' : St)
      (tr : list (event St)) :
  R s0 pre s -> along Q s o s' tr -> along Q s0 o s' (pre ++ tr).
Proof.
  intros H0 H. destruct o as [a|e|]; cbn in *.
  - destruct H. eauto.
  - destruct H as [s'' H]. eauto.
  - destruct H as [s'' H]. eauto.
Qed.

Lemma along_yield_bind {B} (Q : B -> St -> Prop) (a : action)
      (k : unit -> gen St B) (s0 s : St) :
  R s0 [(a, s)] s ->
  post (k tt) s (along Q s) ->
  post (bind (yield a) k) s (along Q s0).
Proof.
  intros H0 Hk. apply post_yield_bind.
  eapply post_conseq; [exact Hk|]. intros o s' tr H.
  apply (along_from Q s0 s [(a, s)] o s' tr H0 H).
Qed.

Lemma along_yield (Q : unit -> St -> Prop) (a : action) (s0 s : St) :
  R s0 [(a, s)] s -> Q tt s -> post (yield a) s (along Q s0).
Proof. intros H0 HQ. apply post_yield. cbn. auto. Qed.

Lemma along_modify_bind {B} (Q : B -> St -> Prop) (f : St -> St)
      (k : unit -> gen St B) (s0 s : St) :
  post (k tt) (f s) (along Q s0) ->
  post (bind (modify f) k) s (along Q s0).
Proof. apply post_modify_bind. Qed.

Lemma along_get_bind {B} (Q : B -> St -> Prop) (k : St -> gen St B)
      (s0 s : St) :
  post (k s) s (along Q s0) -> post (bind get k) s (along Q s0).
Proof. apply post_get_bind. Qed.

Lemma along_modify (Q : unit -> St -> Prop) (f : St -> St) (s0 s : St) :
  R s0 [] (f s) -> Q tt (f s) -> post (modify f) s (along Q s0).
Proof. intros H0 HQ. apply post_modify. cbn. auto. Qed.

Lemma along_ret {A} (Q : A -> St -> Prop) (a : A) (s0 s : St) :
  R s0 [] s -> Q a s -> post (ret a) s (along Q s0).
Proof. intros H0 HQ. apply post_ret. cbn. auto. Qed.

Lemma along_raise {A} (Q : A -> St -> Prop) (e : exn) (s0 s : St) :
  post (raise e) s (along Q s0).
Proof. apply post_raise. cbn. eauto. Qed.

Lemma along_raise_bind {A B} (Q : B -> St -> Prop) (e : exn)
      (k : A -> gen St B) (s0 s : St) :
  post (bind (raise e) k) s (along Q s0).
Proof. apply post_raise_bind. cbn. eauto. Qed.

Lemma along_lift_bind {A B} (Q : B -> St -> Prop) (o : outcome A)
      (k : A -> gen St B) (s0 s : St) :
  (forall a, o = Done a -> post (k a) s (along Q s0)) ->
  post (bind (lift o) k) s (along Q s0).
Proof.
  intros Hk. apply post_lift_bind. destruct o as [a|e|]; cbn; eauto.
Qed.

Lemma along_assert_bind {B} (Q : B -> St -> Prop) (b : bool)
      (k : unit -> gen St B) (s0 s : St) :
  (b = true -> post (k tt) s (along Q s0)) ->
  post (bind (assert_ b) k) s (along Q s0).
Proof.
  intros Hk. apply post_assert_bind; [|exact Hk]. cbn. eauto.
Qed.

(** A part of the run that has its own lemma. *)
Lemma along_call {A B} (Q1 : A -> St -> Prop) (Q : B -> St -> Prop)
      (m : gen St A) (k : A -> gen St B) (s0 s : St) :
  R s0 [] s ->
  post m s (along Q1 s) ->
  (forall a s1, Q1 a s1 -> post (k a) s1 (along Q s1)) ->
  post (bind m k) s (along Q s0).
Proof.
  intros H0 Hm Hk. apply post_bind.
  eapply post_conseq; [exact Hm|].
  intros [a|e|] s1 t1 H1; cbn in H1.
  - destruct H1 as [HR HQ].
    eapply post_conseq; [apply (Hk a s1 HQ)|].
    intros o s2 t2 H2.
    apply (along_from Q s0 s1 t1 o s2 t2); trivial.
    apply (R_trans s0 [] s t1 s1 H0 HR).
  - destruct H1 as [s'' H1]. exists s''.
    apply (R_trans s0 [] s t1 s'' H0 H1).
  - destruct H1 as [s'' H1]. exists s''.
    apply (R_trans s0 [] s t1 s'' H0 H1).
Qed.

Lemma along_last {A} (Q1 Q : A -> St -> Prop) (m : gen St A) (s0 s : St) :
  R s0 [] s ->
  post m s (along Q1 s) ->
  (forall a s1, Q1 a s1 -> Q a s1) ->
  post m s (along Q s0).
Proof.
  intros H0 Hm HQ. eapply post_conseq; [exact Hm|].
  intros [a|e|] s1 t1 H1; cbn in *.
  - destruct H1 as [HR H1]. split; [|now apply HQ].
    apply (R_trans s0 [] s t1 s1 H0 HR).
  - destruct H1 as [s'' H1]. exists s''.
    apply (R_trans s0 [] s t1 s'' H0 H1).
  - destruct H1 as [s'' H1]. exists s''.
    apply (R_trans s0 [] s t1 s'' H0 H1).
Qed.

Lemma along_while (Inv : St -> Prop) (cond : St -> bool)
      (body : gen St unit) :
  (forall s, Inv s -> cond s = true ->
             post body s (along (fun _ s' => Inv s') s)) ->
  forall fuel s, Inv s ->
    post (while_ fuel cond body) s
         (along (fun _ s' => Inv s' /\ cond s' = false) s).
Proof.
  intros Hbody. induction fuel as [|fuel IH]; intros s Hinv.
  - unfold post. cbn [while_]. destruct (cond s) eqn:Hc; cbn; eauto.
  - unfold post. cbn [while_]. destruct (cond s) eqn:Hc; [|cbn; eauto].
    change (post (bind body (fun _ => while_ fuel cond body)) s
                 (along (fun _ s' => Inv s' /\ cond s' = false) s)).
    apply (along_call (fun _ s' => Inv s')); auto.
Qed.

End Along.

(** A relation that implies another. *)
Lemma along_weaken {St A} (R R' : St -> list (event St) -> St -> Prop)
      (Q : A -> St -> Prop) (m : gen St A) (s0 s : St) :
  (forall s1 tr s2, R s1 tr s2 -> R' s1 tr s2) ->
  post m s (along R Q s0) -> post m s (along R' Q s0).
Proof.
  intros HR H. eapply post_conseq; [exact H|].
  intros [a|e|] s' tr; cbn.
  - intros [H1 H2]. auto.
  - intros [s'' H1]. eauto.
  - intros [s'' H1]. eauto.
Qed.

Lemma post_both {St A} (m : gen St A) (s : St)
      (Q1 Q2 : outcome A -> St -> list (event St) -> Prop) :
  post m s Q1 -> post m s Q2 ->
  post m s (fun o s' tr => Q1 o s' tr /\ Q2 o s' tr).
Proof. unfold post. destruct (m s) as [[o s'] tr]. auto. Qed.

(** One step of a run, for a relation with the two lemmas [Hrefl] and
    [Htrans]. *)
Ltac astep Hrefl Htrans :=
  lazymatch goal with
  | |- post (bind (bind _ _) _) _ _ => apply post_bind_assoc
  | |- post (bind (yield _) _) _ (along _ _ _) =>
      apply (along_yield_bind _ Htrans)
  | |- post (bind get _) _ (along _ _ _) => apply along_get_bind
  | |- post (bind (modify _) _) _ (along _ _ _) => apply along_modify_bind
  | |- post (bind (ret _) _) _ (along _ _ _) => apply post_ret_bind
  | |- post (bind (raise _) _) _ (along _ _ _) =>
      apply (along_raise_bind _ Hrefl)
  | |- post (bind (lift _) _) _ (along _ _ _) =>
      apply (along_lift_bind _ Hrefl); intros ? ?
  | |- post (bind (assert_ _) _) _ (along _ _ _) =>
      apply (along_assert_bind _ Hrefl); intros ?
  | |- post (bind (if ?b then _ else _) _) _ _ => destruct b eqn:?
  | |- post (if ?b then _ else _) _ _ => destruct b eqn:?
  | |- post (bind (match ?x with _ => _ end) _) _ _ => destruct x eqn:?
  | |- post (match ?x with _ => _ end) _ _ => destruct x eqn:?
  | |- post (yield _) _ (along _ _ _) => apply along_yield
  | |- post (modify _) _ (along _ _ _) => apply along_modify
  | |- post (ret _) _ (along _ _ _) => apply along_ret
  | |- post (raise _) _ (along _ _ _) => apply (along_raise _ Hrefl)
  end; cbv beta match zeta.

(** ** The multistage schedule as seen by the driver *)

Module MultistageRuns.
Import Multistage.

Section Relation.
Variable c : config.
Variable N : Z.

(** The tiers of the stored snapshots are those of their slots: the
    snapshot with [k] snapshots below it was written to [_storage[k]]. *)
Fixpoint tiers (stack : list (Z * string)) : Prop :=
  match stack with
  | [] => True
  | (_, written) :: rest =>
      getitem (_storage c) (len rest) = Done written /\ tiers rest
  end.

Definition stack_of (stack : list (Z * string)) (s : state) : Prop :=
  map fst stack = _snapshots s /\ tiers stack.

(** From [s] to [s'] the driver has followed the trace: the forward model
    stands at step [n], the stored snapshots are those of [_snapshots],
    and the adjoint steps taken are those the counter [r] counts, from
    step [N] down. *)
Definition run_rel (s : state) (tr : list (event state)) (s' : state)
  : Prop :=
  advance (_n s) (actions tr) = Some (_n s')
  /\ (forall stack, stack_of stack s ->
        exists stack', restore stack (actions tr) = Some stack'
                       /\ stack_of stack' s')
  /\ _r s <= _r s'
  /\ reversals (actions tr)
     = countdown (N - _r s) (Z.to_nat (_r s' - _r s)).

Lemma run_rel_refl (s : state) : run_rel s [] s.
Proof.
  repeat split; try lia.
  - intros stack H. now exists stack.
  - now rewrite Z.sub_diag.
Qed.

Lemma run_rel_trans (s1 : state) (t1 : list (event state)) (s2 : state)
      (t2 : list (event state)) (s3 : state) :
  run_rel s1 t1 s2 -> run_rel s2 t2 s3 -> run_rel s1 (t1 ++ t2) s3.
Proof.
  intros (A1 & S1 & R1 & C1) (A2 & S2 & R2 & C2).
  unfold run_rel. rewrite actions_app. repeat split.
  - now rewrite (advance_app _ _ _ _ A1).
  - intros stack H. destruct (S1 stack H) as (stack1 & E1 & H1).
    destruct (S2 stack1 H1) as (stack2 & E2 & H2).
    exists stack2. split; [|exact H2].
    now rewrite (restore_app _ _ _ _ E1).
  - lia.
  - rewrite reversals_app, C1, C2.
    replace (Z.to_nat (_r s3 - _r s1))
      with (Z.to_nat (_r s2 - _r s1) + Z.to_nat (_r s3 - _r s2))%nat by lia.
    rewrite countdown_app. do 2 f_equal. lia.
Qed.

(** An action that moves nothing. *)
Definition still (a : action) : bool :=
  match a with
  | Clear _ _ | Configure _ _ | EndForward | EndReverse _ => true
  | _ => false
  end.

Lemma rel_still (a : action) (s0 s : state) :
  still a = true ->
  _n s = _n s0 -> _r s = _r s0 -> _snapshots s = _snapshots s0 ->
  run_rel s0 [(a, s)] s.
Proof.
  intros Ha Hn Hr Hs. unfold run_rel, stack_of. rewrite Hn, Hr, Hs.
  rewrite Z.sub_diag.
  destruct a; try discriminate; cbn; repeat split; try lia;
    intros stack H; now exists stack.
Qed.

Lemma rel_forward (n0 n1 : Z) (s0 s : state) :
  _n s0 = n0 -> n0 < n1 -> _n s = n1 ->
  _r s = _r s0 -> _snapshots s = _snapshots s0 ->
  run_rel s0 [(Forward n0 n1, s)] s.
Proof.
  intros Hn0 Hlt Hn Hr Hs. unfold run_rel, stack_of. rewrite Hn, Hr, Hs.
  rewrite Z.sub_diag. cbn. rewrite Hn0.
  replace ((n0 =? n0) && (n0 <? n1)) with true by lia.
  repeat split; try lia. intros stack H; now exists stack.
Qed.

Lemma rel_write (n : Z) (storage : string) (s0 s : state) :
  _n s = _n s0 -> _r s = _r s0 -> _snapshots s = n :: _snapshots s0 ->
  getitem (_storage c) (len (_snapshots s) - 1) = Done storage ->
  run_rel s0 [(Write n storage, s)] s.
Proof.
  intros Hn Hr Hs Hget. unfold run_rel, stack_of. rewrite Hn, Hr.
  rewrite Z.sub_diag. cbn. repeat split; try lia.
  intros stack [Hfst Htiers]. exists ((n, storage) :: stack).
  split; [reflexivity|]. cbn. rewrite Hs, Hfst. repeat split; trivial.
  rewrite Hs, len_cons, <- Hfst in Hget.
  unfold len in *. rewrite length_map in Hget.
  replace (Z.of_nat (List.length stack)) 
    with (Z.of_nat (List.length stack) + 1 - 1) by lia. exact Hget.
Qed.

Lemma rel_read (cp_n : Z) (storage : string) (delete : bool)
      (rest : list Z) (s0 s : state) :
  _snapshots s0 = cp_n :: rest ->
  getitem (_storage c) (len (cp_n :: rest) - 1) = Done storage ->
  _n s = cp_n -> _r s = _r s0 ->
  _snapshots s = (if delete then rest else cp_n :: rest) ->
  run_rel s0 [(Read cp_n storage delete, s)] s.
Proof.
  intros Hs0 Hget Hn Hr Hs. unfold run_rel, stack_of. rewrite Hn, Hr.
  rewrite Z.sub_diag. cbn. repeat split; try lia.
  intros stack [Hfst Htiers]. rewrite Hs0 in Hfst.
  destruct stack as [|[m written] stack]; [discriminate|].
  cbn in Hfst. injection Hfst as -> Hfst. cbn in Htiers.
  destruct Htiers as [Hw Htiers].
  rewrite len_cons, <- Hfst in Hget.
  unfold len in *. rewrite length_map in Hget.
  replace (Z.of_nat (List.length stack) + 1 - 1)
    with (Z.of_nat (List.length stack)) in Hget by lia.
  rewrite Hw in Hget. injection Hget as ->.
  rewrite Z.eqb_refl, String.eqb_refl. cbn [andb].
  eexists. split; [reflexivity|]. rewrite Hs.
  destruct delete; cbn; rewrite Hfst; auto.
Qed.

Lemma rel_reverse (n1 n0 : Z) (s0 s : state) :
  n1 = N - _r s0 -> n0 = n1 - 1 ->
  _n s = _n s0 -> _r s = _r s0 + 1 -> _snapshots s = _snapshots s0 ->
  run_rel s0 [(Reverse n1 n0, s)] s.
Proof.
  intros H1 H0 Hn Hr Hs. unfold run_rel, stack_of. rewrite Hn, Hr, Hs.
  replace (_r s0 + 1 - _r s0) with 1 by lia. cbn. subst n1 n0.
  repeat split; try lia. intros stack H; now exists stack.
Qed.

End Relation.

Ltac msteps c N :=
  repeat astep (run_rel_refl c N) (run_rel_trans c N).

(** The obligations the steps leave: one relation per yielded action. *)
Ltac ms_event c N :=
  cbn [_n _r _snapshots _exhausted set_n set_r set_snapshots set_exhausted]
    in *;
  lazymatch goal with
  | |- run_rel _ _ _ [(Forward _ _, _)] _ =>
      apply rel_forward;
      cbn [_n _r _snapshots set_n set_r set_snapshots set_exhausted];
      trivial; try lia
  | |- run_rel _ _ _ [(Write _ _, _)] _ =>
      apply rel_write;
      cbn [_n _r _snapshots set_n set_r set_snapshots set_exhausted];
      trivial; try lia
  | |- run_rel _ _ _ [(Read _ _ _, _)] _ =>
      eapply rel_read;
      cbn [_n _r _snapshots set_n set_r set_snapshots set_exhausted];
      try eassumption; trivial; try lia
  | |- run_rel _ _ _ [(Reverse _ _, _)] _ =>
      apply rel_reverse;
      cbn [_n _r _snapshots set_n set_r set_snapshots set_exhausted];
      trivial; try lia
  | |- run_rel _ _ _ [(_, _)] _ =>
      apply rel_still;
      cbn [_n _r _snapshots set_n set_r set_snapshots set_exhausted];
      trivial; try lia
  | |- run_rel _ _ _ [] _ => apply run_rel_refl
  | |- _ => idtac
  end.

Section Steps.
Variable fuel : nat.
Variable c : config.
Variable N : Z.

Lemma rerun_step_run (s : state) :
  post (rerun_step fuel c N) s
       (along (run_rel c N) (fun _ s' => _r s' = _r s) s).
Proof.
  unfold rerun_step, _snapshot. msteps c N; ms_event c N; trivial.
Qed.

Lemma forward_step_run (s : state) :
  post (forward_step fuel c N) s
       (along (run_rel c N) (fun _ s' => _r s' = _r s) s).
Proof.
  unfold forward_step, _snapshot. msteps c N; ms_event c N; trivial.
Qed.

Lemma rerun_loop_run (r0 : Z) (s : state) :
  _r s = r0 ->
  post (while_ fuel (fun s => _n s <? N - _r s - 1) (rerun_step fuel c N)) s
       (along (run_rel c N)
              (fun _ s' => _r s' = r0 /\ (_n s' <? N - _r s' - 1) = false) s).
Proof.
  apply (along_while (run_rel c N) (run_rel_refl c N) (run_rel_trans c N)
                     (fun s => _r s = r0)).
  intros s1 H1 _.
  eapply post_conseq; [apply rerun_step_run|].
  intros [[]|e|] s' tr; cbn; trivial. intros [HR Hr]. split; [exact HR | lia].
Qed.

Lemma forward_loop_run (s : state) :
  _r s = 0 ->
  post (while_ fuel (fun s => _n s <? N - 1) (forward_step fuel c N)) s
       (along (run_rel c N)
              (fun _ s' => _r s' = 0 /\ (_n s' <? N - 1) = false) s).
Proof.
  apply (along_while (run_rel c N) (run_rel_refl c N) (run_rel_trans c N)
                     (fun s => _r s = 0)).
  intros s1 H1 _.
  eapply post_conseq; [apply forward_step_run|].
  intros [[]|e|] s' tr; cbn; trivial. intros [HR Hr]. split; [exact HR | lia].
Qed.

Lemma rerun_run (cp_n : Z) (rest : list Z) (st : string) (s : state) :
  _snapshots s = cp_n :: rest ->
  getitem (_storage c) (len (cp_n :: rest) - 1) = Done st ->
  post (rerun fuel c N cp_n st) s
       (along (run_rel c N) (fun _ s' => _n s' = N - _r s' - 1) s).
Proof.
  intros Hstack Hget. unfold rerun. msteps c N; ms_event c N.
  apply (along_call _ (run_rel_trans c N)
                    (fun _ s' => _r s' = _r s
                                 /\ (_n s' <? N - _r s' - 1) = false)).
  - apply run_rel_refl.
  - now apply rerun_loop_run.
  - intros _ s1 [Hr1 Hc1]. msteps c N; ms_event c N. lia.
Qed.

Lemma adjoint_step_run (s : state) :
  _n s = N - _r s - 1 ->
  post (adjoint_step c) s (along (run_rel c N) (fun _ _ => True) s).
Proof.
  intros Hn. unfold adjoint_step. msteps c N; ms_event c N; trivial.
Qed.

Lemma turn_run (s : state) :
  _n s = N - _r s - 1 ->
  post (turn c) s (along (run_rel c N) (fun _ _ => True) s).
Proof.
  intros Hn. unfold turn. msteps c N; ms_event c N; trivial.
Qed.

Lemma finish_run (s : state) :
  post (finish N) s
       (along (run_rel c N)
              (fun _ s' => _r s' = N /\ _snapshots s' = []) s).
Proof.
  unfold finish. msteps c N; ms_event c N.
  split; [lia|]. destruct (_snapshots s); trivial.
  rewrite len_cons in *. pose proof (len_nonneg l). lia.
Qed.

Lemma reverse_step_run (s : state) :
  post (reverse_step fuel c N) s (along (run_rel c N) (fun _ _ => True) s).
Proof.
  unfold reverse_step. msteps c N; ms_event c N.
  - apply adjoint_step_run. cbn [_n _r set_n set_snapshots]. lia.
  - apply (along_call _ (run_rel_trans c N)
                      (fun _ s' => _n s' = N - _r s' - 1)).
    + apply run_rel_refl.
    + eapply rerun_run; eassumption.
    + intros _ s1 Hn1. now apply adjoint_step_run.
Qed.

Lemma reverse_loop_run (s : state) :
  post (while_ fuel (fun s => _r s <? N) (reverse_step fuel c N)) s
       (along (run_rel c N) (fun _ _ => True) s).
Proof.
  eapply post_conseq.
  - apply (along_while (run_rel c N) (run_rel_refl c N) (run_rel_trans c N)
                       (fun _ => True)); trivial.
    intros s1 _ _. apply reverse_step_run.
  - intros [[]|e|] s' tr; cbn; tauto.
Qed.

(** Every run of [iter], complete or not. *)
Lemma iter_run (s : state) :
  _max_n c = Some N -> _r s = 0 ->
  post (iter fuel c) s
       (along (run_rel c N)
              (fun _ s' => _r s' = N /\ _snapshots s' = []) s).
Proof.
  intros Hmax Hr. unfold iter. rewrite Hmax.
  apply (along_call _ (run_rel_trans c N)
                    (fun _ s' => _r s' = 0 /\ (_n s' <? N - 1) = false)).
  - apply run_rel_refl.
  - now apply forward_loop_run.
  - intros _ s1 [Hr1 Hc1]. msteps c N.
    apply (along_call _ (run_rel_trans c N) (fun _ _ => True)).
    + apply run_rel_refl.
    + apply turn_run. lia.
    + intros _ s2 _.
      apply (along_call _ (run_rel_trans c N) (fun _ _ => True)).
      * apply run_rel_refl.
      * apply reverse_loop_run.
      * intros _ s3 _. apply finish_run.
Qed.

End Steps.
End MultistageRuns.

(** ** The two-level schedule as seen by the driver *)

Module TwoLevelRuns.
Import TwoLevel.

(** Where the forward model stands. *)
Definition pos_rel (s : state) (tr : list (event state)) (s' : state)
  : Prop :=
  advance (_n s) (actions tr) = Some (_n s').

(** Inside a reverse sweep over [N] steps: where the forward model stands
    and which adjoint steps were taken. *)
Definition sweep_rel (N : Z) (s : state) (tr : list (event state))
           (s' : state) : Prop :=
  advance (_n s) (actions tr) = Some (_n s')
  /\ _r s <= _r s'
  /\ reversals (actions tr)
     = countdown (N - _r s) (Z.to_nat (_r s' - _r s)).

Lemma pos_rel_refl (s : state) : pos_rel s [] s.
Proof. reflexivity. Qed.

Lemma pos_rel_trans (s1 : state) (t1 : list (event state)) (s2 : state)
      (t2 : list (event state)) (s3 : state) :
  pos_rel s1 t1 s2 -> pos_rel s2 t2 s3 -> pos_rel s1 (t1 ++ t2) s3.
Proof.
  unfold pos_rel. intros A1 A2.
  now rewrite actions_app, (advance_app _ _ _ _ A1).
Qed.

Lemma sweep_rel_pos (N : Z) (s : state) (tr : list (event state))
      (s' : state) :
  sweep_rel N s tr s' -> pos_rel s tr s'.
Proof. now intros (H & _). Qed.

Section Relation.
Variable N : Z.

Lemma sweep_rel_refl (s : state) : sweep_rel N s [] s.
Proof. repeat split; try lia. now rewrite Z.sub_diag. Qed.

Lemma sweep_rel_trans (s1 : state) (t1 : list (event state)) (s2 : state)
      (t2 : list (event state)) (s3 : state) :
  sweep_rel N s1 t1 s2 -> sweep_rel N s2 t2 s3 ->
  sweep_rel N s1 (t1 ++ t2) s3.
Proof.
  intros (A1 & R1 & C1) (A2 & R2 & C2).
  unfold sweep_rel. rewrite actions_app. repeat split.
  - now rewrite (advance_app _ _ _ _ A1).
  - lia.
  - rewrite reversals_app, C1, C2.
    replace (Z.to_nat (_r s3 - _r s1))
      with (Z.to_nat (_r s2 - _r s1) + Z.to_nat (_r s3 - _r s2))%nat by lia.
    rewrite countdown_app. do 2 f_equal. lia.
Qed.

(** An action that moves neither the forward model nor the adjoint. *)
Definition idle (a : action) : bool :=
  match a with
  | Clear _ _ | Configure _ _ | Write _ _ | EndForward | EndReverse _ => true
  | _ => false
  end.

Lemma sweep_idle (a : action) (s0 s : state) :
  idle a = true -> _n s = _n s0 -> _r s = _r s0 ->
  sweep_rel N s0 [(a, s)] s.
Proof.
  intros Ha Hn Hr. unfold sweep_rel. rewrite Hn, Hr, Z.sub_diag.
  destruct a; try discriminate; cbn; repeat split; lia.
Qed.

Lemma sweep_none (s0 s : state) :
  _n s = _n s0 -> _r s = _r s0 -> sweep_rel N s0 [] s.
Proof.
  intros Hn Hr. unfold sweep_rel. rewrite Hn, Hr, Z.sub_diag.
  cbn; repeat split; lia.
Qed.

Lemma sweep_forward (n0 n1 : Z) (s0 s : state) :
  _n s0 = n0 -> n0 < n1 -> _n s = n1 -> _r s = _r s0 ->
  sweep_rel N s0 [(Forward n0 n1, s)] s.
Proof.
  intros Hn0 Hlt Hn Hr. unfold sweep_rel. rewrite Hn, Hr, Z.sub_diag.
  cbn. rewrite Hn0.
  replace ((n0 =? n0) && (n0 <? n1)) with true by lia.
  repeat split; lia.
Qed.

Lemma sweep_read (n : Z) (storage : string) (delete : bool)
      (s0 s : state) :
  _n s = n -> _r s = _r s0 ->
  sweep_rel N s0 [(Read n storage delete, s)] s.
Proof.
  intros Hn Hr. unfold sweep_rel. rewrite Hn, Hr, Z.sub_diag.
  cbn. repeat split; lia.
Qed.

Lemma sweep_reverse (n1 n0 : Z) (s0 s : state) :
  n1 = N - _r s0 -> n0 = n1 - 1 -> _n s = _n s0 -> _r s = _r s0 + 1 ->
  sweep_rel N s0 [(Reverse n1 n0, s)] s.
Proof.
  intros H1 H0 Hn Hr. unfold sweep_rel. rewrite Hn, Hr.
  replace (_r s0 + 1 - _r s0) with 1 by lia. cbn. subst n1 n0.
  repeat split; lia.
Qed.

End Relation.

Ltac tlsteps N := repeat astep (sweep_rel_refl N) (sweep_rel_trans N).

Ltac tl_fields :=
  cbn [_n _r _max_n snapshots n0s set_n set_r set_max_n set_snapshots
       set_n0s finalize] in *.

Ltac tl_event :=
  tl_fields;
  lazymatch goal with
  | |- sweep_rel _ _ [(Forward _ _, _)] _ =>
      apply sweep_forward; tl_fields; trivial; try lia
  | |- sweep_rel _ _ [(Read _ _ _, _)] _ =>
      apply sweep_read; tl_fields; trivial; try lia
  | |- sweep_rel _ _ [(Reverse _ _, _)] _ =>
      apply sweep_reverse; tl_fields; trivial; try lia
  | |- sweep_rel _ _ [(_, _)] _ =>
      apply sweep_idle; tl_fields; trivial; try lia
  | |- sweep_rel _ _ [] _ => apply sweep_none; tl_fields; trivial; try lia
  | |- _ => idtac
  end.

Section Steps.
Variable fuel : nat.
Variable c : config.
Variable N : Z.

Lemma tl_rerun_step_run (s : state) :
  post (rerun_step fuel c N) s
       (along (sweep_rel N) (fun _ s' => _r s' = _r s) s).
Proof.
  unfold rerun_step. tlsteps N; tl_event; trivial.
Qed.

Lemma tl_rerun_loop_run (r0 : Z) (s : state) :
  _r s = r0 ->
  post (while_ fuel (fun s => _n s <? N - _r s - 1) (rerun_step fuel c N)) s
       (along (sweep_rel N)
              (fun _ s' => _r s' = r0 /\ (_n s' <? N - _r s' - 1) = false) s).
Proof.
  apply (along_while (sweep_rel N) (sweep_rel_refl N) (sweep_rel_trans N)
                     (fun s => _r s = r0)).
  intros s1 H1 _.
  eapply post_conseq; [apply tl_rerun_step_run|].
  intros [[]|e|] s' tr; cbn; trivial. intros [HR Hr]. split; [exact HR | lia].
Qed.

Lemma tl_rerun_run (cp_n : Z) (s : state) :
  post (rerun fuel c N cp_n) s
       (along (sweep_rel N) (fun _ s' => _n s' = N - _r s' - 1) s).
Proof.
  unfold rerun. tlsteps N; tl_event;
    (apply (along_call _ (sweep_rel_trans N)
                       (fun _ s' => _r s' = _r s
                                    /\ (_n s' <? N - _r s' - 1) = false));
     [apply sweep_rel_refl
     |now apply tl_rerun_loop_run
     |intros _ s1 [Hr1 Hc1]; tlsteps N; tl_event; lia]).
Qed.

Lemma tl_adjoint_step_run (s : state) :
  _n s = N - _r s - 1 ->
  post (adjoint_step c) s (along (sweep_rel N) (fun _ _ => True) s).
Proof.
  intros Hn. unfold adjoint_step. tlsteps N; tl_event; trivial.
Qed.

Lemma restore_step_run (s : state) :
  post (restore_step fuel c N) s (along (sweep_rel N) (fun _ _ => True) s).
Proof.
  unfold restore_step. tlsteps N; tl_event;
    try (apply tl_adjoint_step_run; tl_fields; lia).
  apply (along_call _ (sweep_rel_trans N)
                    (fun _ s' => _n s' = N - _r s' - 1)).
  - apply sweep_rel_refl.
  - apply tl_rerun_run.
  - intros _ s1 Hn1. now apply tl_adjoint_step_run.
Qed.

Lemma restore_loop_run (s : state) :
  post (while_ fuel (fun s => _r s <? N - n0s s) (restore_step fuel c N)) s
       (along (sweep_rel N) (fun _ _ => True) s).
Proof.
  eapply post_conseq.
  - apply (along_while (sweep_rel N) (sweep_rel_refl N) (sweep_rel_trans N)
                       (fun _ => True)); trivial.
    intros s1 _ _. apply restore_step_run.
  - intros [[]|e|] s' tr; cbn; tauto.
Qed.

Lemma period_step_run (s : state) :
  post (period_step fuel c N) s (along (sweep_rel N) (fun _ _ => True) s).
Proof.
  unfold period_step. tlsteps N; tl_event.
  apply (along_call _ (sweep_rel_trans N) (fun _ _ => True)).
  - now apply sweep_none.
  - apply restore_loop_run.
  - intros _ s1 _. tlsteps N; tl_event; trivial.
Qed.

Lemma period_loop_run (s : state) :
  post (while_ fuel (fun s => _r s <? N) (period_step fuel c N)) s
       (along (sweep_rel N) (fun _ _ => True) s).
Proof.
  eapply post_conseq.
  - apply (along_while (sweep_rel N) (sweep_rel_refl N) (sweep_rel_trans N)
                       (fun _ => True)); trivial.
    intros s1 _ _. apply period_step_run.
  - intros [[]|e|] s' tr; cbn; tauto.
Qed.

End Steps.

Ltac possteps := repeat astep pos_rel_refl pos_rel_trans.

Lemma pos_idle (a : action) (s0 s : state) :
  idle a = true -> _n s = _n s0 -> pos_rel s0 [(a, s)] s.
Proof.
  intros Ha Hn. unfold pos_rel. rewrite Hn.
  destruct a; try discriminate; reflexivity.
Qed.

Lemma pos_forward (n0 n1 : Z) (s0 s : state) :
  _n s0 = n0 -> n0 < n1 -> _n s = n1 -> pos_rel s0 [(Forward n0 n1, s)] s.
Proof.
  intros Hn0 Hlt Hn. unfold pos_rel. rewrite Hn. cbn. rewrite Hn0.
  now replace ((n0 =? n0) && (n0 <? n1)) with true by lia.
Qed.

Ltac pos_event :=
  tl_fields;
  lazymatch goal with
  | |- pos_rel _ [(Forward _ _, _)] _ =>
      apply pos_forward; tl_fields; trivial; try lia
  | |- pos_rel _ [(_, _)] _ => apply pos_idle; tl_fields; trivial
  | |- pos_rel _ [] _ => reflexivity
  | |- _ => idtac
  end.

Section Sweeps.
Variable fuel : nat.
Variable c : config.
Hypothesis Hperiod : 1 <= _period c.

(** Every run of a reverse sweep, complete or not. *)
Lemma reverse_sweep_pos (s : state) :
  post (reverse_sweep fuel c) s (along pos_rel (fun _ _ => True) s).
Proof.
  unfold reverse_sweep. possteps.
  apply (along_call _ pos_rel_trans (fun _ _ => True)).
  - apply pos_rel_refl.
  - eapply along_weaken; [apply sweep_rel_pos | apply period_loop_run].
  - intros _ s1 _. possteps; pos_event; trivial.
Qed.

Lemma reverse_sweeps_pos (sweeps : nat) (s : state) :
  post (reverse_sweeps fuel c sweeps) s (along pos_rel (fun _ _ => True) s).
Proof.
  revert s. induction sweeps as [|sweeps IH]; intros s; cbn [reverse_sweeps].
  - possteps; trivial. apply pos_rel_refl.
  - apply (along_call _ pos_rel_trans (fun _ _ => True)).
    + apply pos_rel_refl.
    + apply reverse_sweep_pos.
    + intros _ s1 _. apply IH.
Qed.

Lemma forward_step_pos (d : driver_call) (s : state) :
  post (forward_step c d) s (along pos_rel (fun _ _ => True) s).
Proof.
  unfold forward_step, yield_to.
  destruct d as [[[] n]|]; cbn [suspension_eqb]; possteps; pos_event;
    trivial.
Qed.

Lemma forward_loop_pos (script : list driver_call) (s : state) :
  post (forward_loop c script) s (along pos_rel (fun _ _ => True) s).
Proof.
  revert s. induction script as [|d script IH]; intros s;
    cbn [forward_loop]; possteps; trivial; try apply pos_rel_refl.
  - apply post_lift. cbn. exists s. apply pos_rel_refl.
  - apply (along_call _ pos_rel_trans (fun _ _ => True)).
    + apply pos_rel_refl.
    + apply forward_step_pos.
    + intros _ s1 _. apply IH.
Qed.

Lemma iter_pos (script : list driver_call) (sweeps : nat) (s : state) :
  post (iter fuel c script sweeps) s (along pos_rel (fun _ _ => True) s).
Proof.
  unfold iter.
  apply (along_call _ pos_rel_trans (fun _ _ => True)).
  - apply pos_rel_refl.
  - apply forward_loop_pos.
  - intros _ s1 _. possteps; pos_event.
    apply reverse_sweeps_pos.
Qed.

End Sweeps.

End TwoLevelRuns.

(** ** What every run shows the driver *)

Lemma constructed_initial (fuel : nat) (max_n : option Z)
      (in_ram on_disk : Z) (keep : bool) (trajectory : string)
      (c : Multistage.config) (s0 : Multistage.state) :
  MultistageCheckpointSchedule fuel max_n in_ram on_disk keep trajectory
  = Done (c, s0) ->
  s0 = Multistage.initial_state /\ Multistage._max_n c = max_n
  /\ Multistage._keep_block_0_ics c = keep.
Proof.
  unfold MultistageCheckpointSchedule.
  destruct (in_ram =? 0); [|destruct (on_disk =? 0)];
    [| |destruct (allocate_snapshots _ _ _ _ _ _ _ _ _ _ _ _)
          as [[w a]| |]; try discriminate];
    intros [= <- <-]; auto.
Qed.

Lemma two_level_constructed (disk_period binomial_snapshots : Z)
      (binomial_storage : string) (keep : bool) (trajectory : string)
      (c : TwoLevel.config) (s0 : TwoLevel.state) :
  TwoLevelCheckpointSchedule disk_period binomial_snapshots binomial_storage
                             keep trajectory
  = Done (c, s0) ->
  s0 = TwoLevel.initial_state /\ 1 <= TwoLevel._period c
  /\ TwoLevel._period c = disk_period
  /\ TwoLevel._binomial_snapshots c = binomial_snapshots
  /\ TwoLevel._binomial_storage c = binomial_storage
  /\ TwoLevel._trajectory c = trajectory
  /\ TwoLevel._keep_block_0_ics c = keep.
Proof.
  unfold TwoLevelCheckpointSchedule.
  destruct (Z.ltb_spec disk_period 1); [discriminate|].
  destruct (negb _); [discriminate|].
  intros [= <- <-]. cbn. repeat split; trivial.
Qed.

(** Every run of a multistage schedule, from its first state. *)
Lemma multistage_run (fuel : nat) (c : Multistage.config) (N : Z)
      (o : outcome unit) (s' : Multistage.state)
      (tr : list (event Multistage.state)) :
  Multistage._max_n c = Some N ->
  Multistage.iter fuel c Multistage.initial_state = (o, s', tr) ->
  exists s'',
    MultistageRuns.run_rel c N Multistage.initial_state tr s''
    /\ (o = Done tt ->
        s'' = s' /\ Multistage._r s' = N /\ Multistage._snapshots s' = []).
Proof.
  intros Hmax Hrun.
  pose proof (MultistageRuns.iter_run fuel c N Multistage.initial_state
                                      Hmax eq_refl) as H.
  unfold post in H. rewrite Hrun in H.
  destruct o as [[]|e|]; cbn in H.
  - destruct H as [HR HQ]. exists s'. auto.
  - destruct H as [s'' HR]. exists s''. split; [exact HR | discriminate].
  - destruct H as [s'' HR]. exists s''. split; [exact HR | discriminate].
Qed.

(** X7: a multistage schedule built with arguments in their ranges runs to
    completion, and the adjoint steps it asks for are exactly
    [Reverse(max_n, max_n - 1)], [Reverse(max_n - 1, max_n - 2)], ...,
    [Reverse(1, 0)], in this order: each step of the forward model is
    reversed once, the last step first. *)
Theorem adjoint_steps_in_order (fuel : nat) (N in_ram on_disk : Z)
        (keep : bool) (trajectory : string) :
  1 <= N -> 0 <= in_ram -> 0 <= on_disk ->
  1 <= in_ram + on_disk \/ N = 1 ->
  valid_trajectory trajectory -> (Z.to_nat N <= fuel)%nat ->
  exists c s' tr,
    MultistageCheckpointSchedule fuel (Some N) in_ram on_disk keep trajectory
    = Done (c, Multistage.initial_state)
    /\ Multistage.iter fuel c Multistage.initial_state = (Done tt, s', tr)
    /\ reversals (actions tr) = countdown N (Z.to_nat N)
    /\ List.length (reversals (actions tr)) = Z.to_nat N.
Proof.
  intros HN Hram Hdisk Hcap Htraj Hfuel.
  destruct (MultistageProofs.constructor_total fuel N in_ram on_disk keep
                                               trajectory)
    as (c & Hc & Hvalid & _); trivial.
  destruct (MultistageProofs.iter_total fuel c N Hvalid)
    as (s' & tr & Hrun & _).
  exists c, s', tr. split; [exact Hc|]. split; [exact Hrun|].
  destruct (multistage_run fuel c N _ _ _
                           (MultistageProofs.v_max_n _ _ _ Hvalid) Hrun)
    as (s'' & (_ & _ & _ & Hrev) & Hdone).
  destruct (Hdone eq_refl) as (-> & Hr & _).
  cbn [Multistage._r Multistage.initial_state] in Hrev.
  rewrite Hr, !Z.sub_0_r in Hrev.
  split; [exact Hrev|]. rewrite Hrev. apply countdown_length.
Qed.

Lemma adjoint_steps_in_order_witness :
  exists c s' tr,
    MultistageCheckpointSchedule 10 (Some 10) 3 0 false "maximum"
    = Done (c, Multistage.initial_state)
    /\ Multistage.iter 10 c Multistage.initial_state = (Done tt, s', tr)
    /\ reversals (actions tr) = countdown 10 (Z.to_nat 10)
    /\ List.length (reversals (actions tr)) = Z.to_nat 10.
Proof.
  apply (adjoint_steps_in_order 10 10 3 0 false "maximum").
  - lia.
  - lia.
  - lia.
  - left. lia.
  - left. reflexivity.
  - lia.
Defined.

(** X8: in every action sequence of a schedule, whatever its arguments and
    however far it is driven, each [Forward(n0, n1)] has [n0 < n1] and
    starts at the step where the forward model stands: step 0 at first,
    then the end of the last [Forward] or, when a [Read] came after it, the
    step that was read. *)
Theorem forward_starts_where_model_stands :
  (forall fuel max_n in_ram on_disk keep trajectory c s0 o s' tr,
      MultistageCheckpointSchedule fuel max_n in_ram on_disk keep trajectory
      = Done (c, s0) ->
      Multistage.iter fuel c s0 = (o, s', tr) ->
      exists pos, advance 0 (actions tr) = Some pos)
  /\ (forall disk_period binomial_snapshots binomial_storage keep trajectory
             fuel script sweeps c s0 o s' tr,
         TwoLevelCheckpointSchedule disk_period binomial_snapshots
                                    binomial_storage keep trajectory
         = Done (c, s0) ->
         TwoLevel.iter fuel c script sweeps s0 = (o, s', tr) ->
         exists pos, advance 0 (actions tr) = Some pos).
Proof.
  split.
  - intros fuel max_n in_ram on_disk keep trajectory c s0 o s' tr Hc Hrun.
    destruct (constructed_initial _ _ _ _ _ _ _ _ Hc) as (-> & Hmax & _).
    destruct max_n as [N|].
    + destruct (multistage_run fuel c N o s' tr Hmax Hrun)
        as (s'' & (Hadv & _) & _).
      now exists (Multistage._n s'').
    + unfold Multistage.iter in Hrun. rewrite Hmax in Hrun.
      injection Hrun as _ _ <-. now exists 0.
  - intros p bs st keep trajectory fuel script sweeps c s0 o s' tr Hc Hrun.
    destruct (two_level_constructed _ _ _ _ _ _ _ Hc) as (-> & Hp & _).
    pose proof (TwoLevelRuns.iter_pos fuel c Hp script sweeps
                                      TwoLevel.initial_state) as H.
    unfold post in H. rewrite Hrun in H.
    destruct o as [[]|e|]; cbn in H.
    + destruct H as [H _]. now exists (TwoLevel._n s').
    + destruct H as [s'' H]. now exists (TwoLevel._n s'').
    + destruct H as [s'' H]. now exists (TwoLevel._n s'').
Qed.

Lemma forward_starts_where_model_stands_witness :
  exists pos,
    advance 0
      (actions
         (snd (TwoLevel.iter 7
                 {| TwoLevel._period := 3;
                    TwoLevel._binomial_snapshots := 1;
                    TwoLevel._binomial_storage := "RAM";
                    TwoLevel._keep_block_0_ics := false;
                    TwoLevel._trajectory := "maximum" |}
                 [None; None; Some (TwoLevel.AtForward, 7)] 2
                 TwoLevel.initial_state)))
    = Some pos.
Proof.
  refine (proj2 forward_starts_where_model_stands 3 1 "RAM"%string false
                "maximum"%string 7%nat
                [None; None; Some (TwoLevel.AtForward, 7)] 2%nat
                _ _ _ _ _ eq_refl _).
  vm_compute. reflexivity.
Defined.

(** X9: in every action sequence of a multistage schedule, whatever its
    arguments and however far it is driven, the snapshots are used as a
    stack: each [Read(n, tier, delete)] is of the snapshot written last
    among those not deleted yet, at the step [n] and from the tier it was
    written to.  When the run completes every snapshot written has been
    deleted. *)
Theorem snapshots_last_in_first_out
        (fuel : nat) (max_n : option Z) (in_ram on_disk : Z) (keep : bool)
        (trajectory : string) (c : Multistage.config)
        (s0 s' : Multistage.state) (o : outcome unit)
        (tr : list (event Multistage.state)) :
  MultistageCheckpointSchedule fuel max_n in_ram on_disk keep trajectory
  = Done (c, s0) ->
  Multistage.iter fuel c s0 = (o, s', tr) ->
  exists stack,
    restore [] (actions tr) = Some stack
    /\ (o = Done tt -> stack = []).
Proof.
  intros Hc Hrun.
  destruct (constructed_initial _ _ _ _ _ _ _ _ Hc) as (-> & Hmax & _).
  destruct max_n as [N|].
  - destruct (multistage_run fuel c N o s' tr Hmax Hrun)
      as (s'' & (_ & Hstack & _) & Hdone).
    destruct (Hstack []) as (stack & Hrestore & Hfst & _).
    { split; [reflexivity | exact I]. }
    exists stack. split; [exact Hrestore|].
    intros Ho. destruct (Hdone Ho) as (-> & _ & Hs').
    rewrite Hs' in Hfst. now destruct stack.
  - unfold Multistage.iter in Hrun. rewrite Hmax in Hrun.
    injection Hrun as <- _ <-. exists []. split; [reflexivity | discriminate].
Qed.

Lemma snapshots_last_in_first_out_witness :
  exists stack,
    restore []
      (actions
         (snd (Multistage.iter 9
                 {| Multistage._max_n := Some 9;
                    Multistage._snapshots_in_ram := 0;
                    Multistage._snapshots_on_disk := 2;
                    Multistage._storage := ["disk"; "disk"]%string;
                    Multistage._keep_block_0_ics := false;
                    Multistage._trajectory := "revolve" |}
                 Multistage.initial_state)))
    = Some stack
    /\ (Done tt = Done tt -> stack = []).
Proof.
  refine (snapshots_last_in_first_out 9 (Some 9) 0 2 false "revolve"
                                      _ _ _ _ _ eq_refl _).
  vm_compute. reflexivity.
Defined.

(** The adjoint steps of a reverse sweep that completes. *)
Lemma reverse_sweep_reversals (fuel : nat) (c : TwoLevel.config) (N : Z)
      (s s' : TwoLevel.state) (tr : list (event TwoLevel.state)) :
  TwoLevel._max_n s = Some N ->
  TwoLevel.reverse_sweep fuel c s = (Done tt, s', tr) ->
  reversals (actions tr)
  = countdown (N - TwoLevel._r s) (Z.to_nat (N - TwoLevel._r s)).
Proof.
  intros Hmax Hrun.
  enough (H : post (TwoLevel.reverse_sweep fuel c) s
                   (fun o s1 tr1 =>
                      o = Done tt ->
                      reversals (actions tr1)
                      = countdown (N - TwoLevel._r s)
                                  (Z.to_nat (N - TwoLevel._r s)))).
  { unfold post in H. rewrite Hrun in H. now apply H. }
  unfold TwoLevel.reverse_sweep. gstep. rewrite Hmax.
  apply post_bind.
  eapply post_conseq; [apply (TwoLevelRuns.period_loop_run fuel c N s)|].
  intros [[]|e|] s1 t1; cbn; try discriminate.
  intros [(_ & _ & Hrev) _]. gstep.
  destruct (Z.eqb_spec (TwoLevel._r s1) N) as [Hr1|Hr1]; cbn [negb];
    gsteps; [|discriminate].
  intros _. rewrite actions_app, reversals_app, Hrev, Hr1. cbn.
  now rewrite app_nil_r.
Qed.

(** X15: take a two-level schedule with [disk_period >= 1],
    [binomial_snapshots >= 0] and one of the two trajectories, after a
    forward sweep that was finalized at [max_n = N >= 1], at the start of a
    reverse sweep.  The sweep runs to [EndReverse(False)]; the adjoint
    steps it asks for are exactly [Reverse(N, N - 1)], ..., [Reverse(1, 0)]
    in this order; it restores every multiple of [disk_period] below [N]
    from disk, and every step it restores lies in [0, N). *)
Theorem sweep_reverses_every_step
        (fuel : nat) (c : TwoLevel.config) (N : Z) (s : TwoLevel.state) :
  1 <= TwoLevel._period c -> 0 <= TwoLevel._binomial_snapshots c ->
  valid_trajectory (TwoLevel._trajectory c) ->
  1 <= N -> (Z.to_nat N <= fuel)%nat ->
  TwoLevel._max_n s = Some N -> TwoLevel._r s = 0 ->
  exists s' pre,
    TwoLevel.reverse_sweep fuel c s
    = (Done tt, s', pre ++ [(EndReverse false, s')])
    /\ reversals (actions pre) = countdown N (Z.to_nat N)
    /\ (forall m, m mod TwoLevel._period c = 0 -> 0 <= m < N ->
                  In (Read m "disk" false) (actions pre))
    /\ (forall n storage delete,
           In (Read n storage delete) (actions pre) -> 0 <= n < N)
    /\ TwoLevel._r s' = 0 /\ TwoLevel._max_n s' = Some N.
Proof.
  intros Hp Hbs Htraj HN Hfuel Hmax Hr.
  assert (Hvalid : TwoLevelProofs.valid fuel c N) by (constructor; trivial).
  destruct (TwoLevelProofs.post_equation
              _ _ _ (TwoLevelProofs.reverse_sweep_total fuel c N Hvalid s
                                                        Hmax Hr))
    as (o & s' & tr & Hrun & -> & pre & -> & HF & Hcov & Hr' & Hmax').
  exists s', pre. split; [exact Hrun|].
  pose proof (reverse_sweep_reversals fuel c N s s' _ Hmax Hrun) as Hrev.
  rewrite actions_app, reversals_app, Hr, Z.sub_0_r in Hrev. cbn in Hrev.
  rewrite app_nil_r in Hrev.
  repeat split; trivial.
  - unfold actions in H. apply in_map_iff in H.
    destruct H as ([a s1] & Ha & Hin). cbn in Ha. subst a.
    rewrite Forall_forall in HF. destruct (HF _ Hin) as (_ & _ & Hn).
    cbn in Hn. lia.
  - unfold actions in H. apply in_map_iff in H.
    destruct H as ([a s1] & Ha & Hin). cbn in Ha. subst a.
    rewrite Forall_forall in HF. destruct (HF _ Hin) as (_ & _ & Hn).
    cbn in Hn. lia.
Qed.

Lemma sweep_reverses_every_step_witness :
  exists s' pre,
    TwoLevel.reverse_sweep 7
      {| TwoLevel._period := 3;
         TwoLevel._binomial_snapshots := 1;
         TwoLevel._binomial_storage := "RAM";
         TwoLevel._keep_block_0_ics := false;
         TwoLevel._trajectory := "maximum" |}
      (TwoLevel.finalize 7 TwoLevel.initial_state)
    = (Done tt, s', pre ++ [(EndReverse false, s')])
    /\ reversals (actions pre) = countdown 7 (Z.to_nat 7)
    /\ (forall m, m mod 3 = 0 -> 0 <= m < 7 ->
                  In (Read m "disk" false) (actions pre))
    /\ (forall n storage delete,
           In (Read n storage delete) (actions pre) -> 0 <= n < 7)
    /\ TwoLevel._r s' = 0 /\ TwoLevel._max_n s' = Some 7.
Proof.
  apply (sweep_reverses_every_step
           7 {| TwoLevel._period := 3;
                TwoLevel._binomial_snapshots := 1;
                TwoLevel._binomial_storage := "RAM";
                TwoLevel._keep_block_0_ics := false;
                TwoLevel._trajectory := "maximum" |}
           7 (TwoLevel.finalize 7 TwoLevel.initial_state)).
  - cbn. lia.
  - cbn. lia.
  - left. reflexivity.
  - lia.
  - lia.
  - reflexivity.
  - reflexivity.
Defined.

(** ** The forward sweep of the multistage schedule *)

(** Every action of a trace is of a kind. *)
Definition all_actions {St} (kind : action -> bool) (tr : list (event St))
  : Prop :=
  Forall (fun e => kind (fst e) = true) tr.

Lemma all_actions_nil {St} (kind : action -> bool) :
  @all_actions St kind [].
Proof. constructor. Qed.

Lemma all_actions_app {St} (kind : action -> bool)
      (t1 t2 : list (event St)) :
  all_actions kind t1 -> all_actions kind t2 -> all_actions kind (t1 ++ t2).
Proof. intros H1 H2. apply Forall_app. now split. Qed.

(** The actions of an advance that stores snapshots. *)
Definition advancing (a : action) : bool :=
  match a with
  | Configure _ _ | Forward _ _ | Write _ _ | Clear _ _ => true
  | _ => false
  end.

Definition not_EndForward (a : action) : bool :=
  match a with
  | EndForward => false
  | _ => true
  end.

(** The structure of a generator whose every action is of a kind. *)
Ltac kind_structure kind St :=
  repeat (keeps_structure (@all_actions_nil St kind)
                          (@all_actions_app St kind);
          try lazymatch goal with
          | |- keeps _ _ (modify _) =>
              apply keeps_modify; [apply all_actions_nil | trivial]
          | |- keeps _ _ (yield _) =>
              apply keeps_yield; intros; repeat constructor
          end).

Module MultistageSweep.
Import Multistage.

Section Kinds.
Variable fuel : nat.
Variable c : config.

Lemma forward_step_advancing (max_n : Z) :
  keeps (fun _ => True) (all_actions advancing) (forward_step fuel c max_n).
Proof. unfold forward_step, _snapshot. kind_structure advancing state. Qed.

Lemma rerun_step_once (max_n : Z) :
  keeps (fun _ => True) (all_actions not_EndForward)
        (rerun_step fuel c max_n).
Proof. unfold rerun_step, _snapshot. kind_structure not_EndForward state. Qed.

Lemma reverse_step_once (max_n : Z) :
  keeps (fun _ => True) (all_actions not_EndForward)
        (reverse_step fuel c max_n).
Proof.
  unfold reverse_step, rerun, adjoint_step.
  kind_structure not_EndForward state. apply rerun_step_once.
Qed.

End Kinds.

(** Without a [Read] the stack grows by the number of [Write] actions. *)
Lemma writes_counted (tr : list (event state)) :
  forall z z',
    all_actions advancing tr ->
    tracks MultistageProofs.stack_size sdelta z tr z' ->
    MultistageProofs.count_writes (actions tr) = z' - z.
Proof.
  unfold MultistageProofs.count_writes.
  induction tr as [|[a s] tr IH]; intros z z' Hk Ht.
  - cbn in *. lia.
  - inversion Hk as [|? ? Ha Hk']; subst. cbn [fst] in Ha.
    cbn [tracks fst snd] in Ht. destruct Ht as [Hs Ht].
    specialize (IH _ _ Hk' Ht).
    unfold actions in *.
    destruct a; try discriminate; cbn [map fst filter sdelta] in *;
      rewrite ?len_cons; lia.
Qed.

(** X11: a multistage schedule built with arguments in their ranges yields
    [EndForward] once.  The actions before it are [Configure], [Forward],
    [Write] and [Clear] only; their [Forward] actions follow one another
    from step 0 to step [max_n], each starting where the one before it
    ended; and they hold at most [snapshots_in_ram + snapshots_on_disk]
    [Write] actions. *)
Theorem forward_sweep_once (fuel : nat) (N in_ram on_disk : Z)
        (keep : bool) (trajectory : string) :
  1 <= N -> 0 <= in_ram -> 0 <= on_disk ->
  1 <= in_ram + on_disk \/ N = 1 ->
  valid_trajectory trajectory -> (Z.to_nat N <= fuel)%nat ->
  exists c s' forward s1 rest,
    MultistageCheckpointSchedule fuel (Some N) in_ram on_disk keep trajectory
    = Done (c, initial_state)
    /\ iter fuel c initial_state
       = (Done tt, s', forward ++ (EndForward, s1) :: rest)
    /\ all_actions advancing forward
    /\ advance 0 (actions forward) = Some N
    /\ MultistageProofs.count_writes (actions forward) <= in_ram + on_disk
    /\ all_actions not_EndForward rest.
Proof.
  intros HN Hram Hdisk Hcap Htraj Hfuel.
  destruct (MultistageProofs.constructor_total fuel N in_ram on_disk keep
                                               trajectory)
    as (c & Hc & Hvalid & Hcapc); trivial.
  exists c.
  enough (H : post (iter fuel c) initial_state
                   (fun o s' tr =>
                      o = Done tt
                      /\ exists forward s1 rest,
                          tr = forward ++ (EndForward, s1) :: rest
                          /\ all_actions advancing forward
                          /\ advance 0 (actions forward) = Some N
                          /\ MultistageProofs.count_writes (actions forward)
                             <= in_ram + on_disk
                          /\ all_actions not_EndForward rest)).
  { unfold post in H. destruct (iter fuel c initial_state) as [[o s'] tr].
    destruct H as (-> & forward & s1 & rest & -> & H).
    exists s', forward, s1, rest. auto. }
  unfold iter. rewrite (MultistageProofs.v_max_n _ _ _ Hvalid).
  apply post_bind.
  eapply post_conseq.
  { apply post_both;
      [apply (MultistageProofs.forward_loop_total fuel c N Hvalid),
             (MultistageProofs.initial_adv_inv fuel); exact Hvalid
      |apply post_both;
         [apply (MultistageRuns.forward_loop_run fuel c N initial_state
                                                 eq_refl)
         |apply (keeps_while _ _ (@all_actions_nil state advancing)
                             (@all_actions_app state advancing)
                             fuel _ _ (forward_step_advancing fuel c N)
                             initial_state Logic.I)]]. }
  cbv beta.
  intros o s1 t1 ((-> & Hinv1 & Hn1 & _ & _ & HS1) & Hrun1 & Hkind1 & _).
  cbn in Hrun1. destruct Hrun1 as [(Hadv1 & _) _].
  gstep. replace (negb (_n s1 =? N - 1)) with false by lia.
  unfold turn. gsteps.
  apply post_bind.
  eapply post_conseq.
  { apply post_both;
      [apply (MultistageProofs.reverse_loop_total fuel c N Hvalid)
      |apply (keeps_while _ _ (@all_actions_nil state not_EndForward)
                          (@all_actions_app state not_EndForward)
                          fuel _ _ (reverse_step_once fuel c N) _ Logic.I)].
    destruct Hinv1 as (Hr1 & _ & _ & Hdesc1 & _ & Hcap1 & Hin1 & Hex1).
    unfold MultistageProofs.rev_inv, MultistageProofs.stack_size in *.
    cbn [_n _r _snapshots _exhausted set_n set_r].
    rewrite Hr1, Hn1 in *.
    replace (N - (0 + 1)) with (N - 1) by lia.
    repeat split; trivial; try lia. intros. apply Hin1. lia. }
  cbv beta. intros o s3 t3 ((-> & Hinv3 & Hr3 & _) & Hkind3 & _).
  eapply post_conseq; [apply (MultistageProofs.finish_total c N s3 Hinv3 Hr3)|].
  cbv beta. intros o s4 t4 (-> & -> & _).
  split; trivial.
  exists (t1 ++ [(Configure (_keep_block_0_ics c && (_n s1 =? 0)) true, s1);
                 (Forward (_n (set_n (_n s1 + 1) s1) - 1)
                          (_n (set_n (_n s1 + 1) s1)), set_n (_n s1 + 1) s1)]).
  eexists _, _. split; [rewrite <- app_assoc; reflexivity|].
  split; [|split; [|split]].
  - apply all_actions_app; trivial. repeat constructor.
  - rewrite actions_app, (advance_app _ _ _ _ Hadv1).
    cbn [actions map fst advance _n set_n].
    replace ((_n s1 =? _n s1 + 1 - 1) && (_n s1 + 1 - 1 <? _n s1 + 1))
      with true by lia.
    f_equal. lia.
  - rewrite actions_app. unfold MultistageProofs.count_writes.
    rewrite filter_app. cbn [actions map fst filter]. rewrite app_nil_r.
    pose proof (writes_counted t1 _ _ Hkind1 HS1) as Hw.
    unfold MultistageProofs.count_writes in Hw. rewrite Hw.
    destruct Hinv1 as (_ & _ & _ & _ & _ & Hcap1 & _).
    unfold MultistageProofs.stack_size in *. cbn [_snapshots initial_state].
    rewrite len_nil. lia.
  - repeat constructor. apply all_actions_app; trivial. repeat constructor.
Qed.

Lemma forward_sweep_once_witness :
  exists c s' forward s1 rest,
    MultistageCheckpointSchedule 10 (Some 10) 3 0 false "maximum"
    = Done (c, initial_state)
    /\ iter 10 c initial_state
       = (Done tt, s', forward ++ (EndForward, s1) :: rest)
    /\ all_actions advancing forward
    /\ advance 0 (actions forward) = Some 10
    /\ MultistageProofs.count_writes (actions forward) <= 3 + 0
    /\ all_actions not_EndForward rest.
Proof.
  apply (forward_sweep_once 10 10 3 0 false "maximum").
  - lia.
  - lia.
  - lia.
  - left. lia.
  - left. reflexivity.
  - lia.
Defined.

End MultistageSweep.

(** ** What comes before an action *)

Section Follows.
Variable P : list action -> action -> Prop.
Hypothesis P_mono : forall h h' a, P h a -> P (h ++ h') a.

(** [follows hist l]: every action of [l] satisfies [P] with the actions
    before it, the latest first; [hist] holds those before [l]. *)
Fixpoint follows (hist : list action) (l : list action) : Prop :=
  match l with
  | [] => True
  | a :: l' => P hist a /\ follows (a :: hist) l'
  end.

Lemma follows_mono (l : list action) :
  forall h h', follows h l -> follows (h ++ h') l.
Proof.
  induction l as [|a l IH]; cbn; trivial.
  intros h h' [Ha Hl]. split; [now apply P_mono|].
  apply (IH (a :: h) h' Hl).
Qed.

Lemma follows_app (l1 l2 : list action) :
  forall h, follows h l1 -> follows [] l2 -> follows h (l1 ++ l2).
Proof.
  induction l1 as [|a l1 IH]; cbn; intros h H1 H2.
  - apply (follows_mono l2 [] h H2).
  - destruct H1. split; auto.
Qed.

Definition obeys {St} (tr : list (event St)) : Prop :=
  follows [] (actions tr).

Lemma obeys_nil {St} : @obeys St [].
Proof. exact I. Qed.

Lemma obeys_app {St} (t1 t2 : list (event St)) :
  obeys t1 -> obeys t2 -> obeys (t1 ++ t2).
Proof. unfold obeys. rewrite actions_app. apply follows_app. Qed.

End Follows.

Lemma follows_impl (P P' : list action -> action -> Prop) :
  (forall h a, P h a -> P' h a) ->
  forall l h, follows P h l -> follows P' h l.
Proof.
  intros HP. induction l as [|a l IH]; cbn; trivial.
  intros h [Ha Hl]. auto.
Qed.

(** The data an adjoint step needs: a [Forward] comes right after a
    [Configure], and advances one step when that [Configure] asks to store
    the data of the forward run; a [Reverse(n1, n0)] comes right after the
    [Forward(n0, n1)] of a [Configure] that asked for the data, with at
    most [EndForward] in between. *)
Definition data_stored (hist : list action) (a : action) : Prop :=
  match a with
  | Forward n0 n1 =>
      match hist with
      | Configure _ store_data :: _ => store_data = true -> n1 = n0 + 1
      | _ => False
      end
  | Reverse n1 n0 =>
      match hist with
      | Forward m0 m1 :: Configure _ true :: _ => m0 = n0 /\ m1 = n1
      | EndForward :: Forward m0 m1 :: Configure _ true :: _ =>
          m0 = n0 /\ m1 = n1
      | _ => False
      end
  | _ => True
  end.

(** The initial condition of block 0: a [Configure] that asks for the data
    of the forward run asks for its initial condition exactly when
    [keep_block_0_ics] is set and the run starts at step 0; every [Clear]
    clears the data, and clears the initial conditions unless it comes
    right after [Reverse(1, 0)] with [keep_block_0_ics] set. *)
Definition ics_kept (keep : bool) (hist : list action) (a : action) : Prop :=
  match a with
  | Forward n0 _ =>
      match hist with
      | Configure store_ics true :: _ => store_ics = keep && (n0 =? 0)
      | Configure _ false :: _ => True
      | _ => False
      end
  | Clear clear_ics clear_data =>
      clear_data = true
      /\ match hist with
         | Reverse n1 _ :: _ => clear_ics = negb keep || negb (n1 =? 1)
         | _ :: _ => clear_ics = true
         | [] => False
         end
  | _ => True
  end.

Definition protocol (keep : bool) (hist : list action) (a : action) : Prop :=
  data_stored hist a /\ ics_kept keep hist a.

Lemma protocol_mono (keep : bool) (h h' : list action) (a : action) :
  protocol keep h a -> protocol keep (h ++ h') a.
Proof.
  unfold protocol.
  destruct a; cbn; trivial;
    destruct h as [|x1 h]; cbn; try tauto;
    destruct x1; cbn; try tauto;
    destruct h as [|x2 h]; cbn; try tauto;
    destruct x2; cbn; try tauto;
    destruct h as [|x3 h]; cbn; try tauto;
    destruct x3; cbn; try tauto.
Qed.

(** The end of a proof that a trace obeys the protocol: the actions of
    the trace one by one, and the traces of the parts that have their own
    lemma. *)
Ltac obeys_finish keep :=
  unfold obeys, actions in *;
  repeat (cbn [map fst follows app] in *; rewrite ?map_app, ?app_nil_r);
  repeat lazymatch goal with
    | |- _ /\ _ => split
    | |- True => exact Logic.I
    | |- follows _ _ [] => exact Logic.I
    | |- follows _ _ (_ :: _) => split
    | |- follows _ _ (map fst _ ++ _) =>
        apply (follows_app _ (protocol_mono keep)); [assumption|]
    | |- follows _ _ (map fst _) =>
        apply (follows_mono _ (protocol_mono keep) _ []); assumption
    end.

Ltac protocol_facts :=
  unfold protocol, data_stored, ics_kept;
  repeat split; trivial; try discriminate; try lia;
  try (intros; f_equal; lia).

Module MultistageProtocol.
Import Multistage.

Ltac ms_fields :=
  cbn [_n _r _snapshots _exhausted set_n set_r set_snapshots set_exhausted]
    in *.

Section Steps.
Variable fuel : nat.
Variable c : config.

Definition ok {A} (m : gen state A) : Prop :=
  keeps (fun _ => True) (obeys (protocol (_keep_block_0_ics c))) m.

Lemma rerun_step_ok (max_n : Z) : ok (rerun_step fuel c max_n).
Proof.
  intros s _. unfold rerun_step, _snapshot. gsafe;
    (split; [|trivial]); obeys_finish (_keep_block_0_ics c);
    ms_fields; protocol_facts.
Qed.

Lemma forward_step_ok (max_n : Z) : ok (forward_step fuel c max_n).
Proof.
  intros s _. unfold forward_step, _snapshot. gsafe;
    (split; [|trivial]); obeys_finish (_keep_block_0_ics c);
    ms_fields; protocol_facts.
Qed.

Lemma adjoint_step_ok : ok (adjoint_step c).
Proof.
  intros s _. unfold adjoint_step. gsafe.
  split; [|trivial]. obeys_finish (_keep_block_0_ics c);
    ms_fields; protocol_facts.
Qed.

Lemma turn_ok : ok (turn c).
Proof.
  intros s _. unfold turn. gsafe.
  split; [|trivial]. obeys_finish (_keep_block_0_ics c);
    ms_fields; protocol_facts.
Qed.

Lemma rerun_ok (max_n cp_n : Z) (st : string) :
  ok (rerun fuel c max_n cp_n st).
Proof.
  intros s _. unfold rerun. gsafe;
    try (split; [|trivial]; obeys_finish (_keep_block_0_ics c);
         ms_fields; protocol_facts).
  apply post_bind.
  eapply post_conseq;
    [apply (keeps_while _ _ (obeys_nil _)
                        (obeys_app _ (protocol_mono (_keep_block_0_ics c)))
                        fuel _ _ (rerun_step_ok max_n) _ Logic.I)|].
  cbv beta. intros [[]|e|] s1 t1 [HT _]; gsafe;
    (split; [|trivial]); obeys_finish (_keep_block_0_ics c);
    ms_fields; protocol_facts.
Qed.

Lemma reverse_step_ok (max_n : Z) : ok (reverse_step fuel c max_n).
Proof.
  intros s _. unfold reverse_step. gsafe;
    try (split; [|trivial]; obeys_finish (_keep_block_0_ics c);
         ms_fields; protocol_facts).
  apply post_bind.
  eapply post_conseq; [apply rerun_ok; exact Logic.I|].
  cbv beta. intros [[]|e|] s1 t1 [HT1 _]; unfold adjoint_step; gsafe;
    (split; [|trivial]); obeys_finish (_keep_block_0_ics c);
    ms_fields; protocol_facts.
Qed.

Lemma iter_ok : ok (iter fuel c).
Proof.
  unfold ok, iter, finish.
  repeat (keeps_structure
            (@obeys_nil (protocol (_keep_block_0_ics c)) state)
            (@obeys_app _ (protocol_mono (_keep_block_0_ics c)) state);
          try lazymatch goal with
          | |- keeps _ _ (modify _) =>
              apply keeps_modify; [apply obeys_nil | trivial]
          | |- keeps _ _ (yield (EndReverse _)) =>
              apply keeps_yield; intros; repeat split
          | |- keeps _ _ (forward_step _ _ _) => apply forward_step_ok
          | |- keeps _ _ (reverse_step _ _ _) => apply reverse_step_ok
          | |- keeps _ _ (turn _) => apply turn_ok
          end).
Qed.

End Steps.
End MultistageProtocol.

Module TwoLevelProtocol.
Import TwoLevel.

Ltac tl_fields :=
  cbn [_n _r _max_n snapshots n0s set_n set_r set_max_n set_snapshots
       set_n0s finalize] in *.

Section Steps.
Variable fuel : nat.
Variable c : config.

Definition ok {A} (m : gen state A) : Prop :=
  keeps (fun _ => True) (obeys (protocol (_keep_block_0_ics c))) m.

Ltac tl_done :=
  (split; [|trivial]); obeys_finish (_keep_block_0_ics c);
  tl_fields; protocol_facts.

Lemma tl_forward_step_ok (d : driver_call) : ok (forward_step c d).
Proof.
  intros s _. unfold forward_step, yield_to.
  destruct d as [[[] n]|]; cbn [suspension_eqb]; gsafe; tl_done.
Qed.

Lemma tl_rerun_step_ok (max_n : Z) : ok (rerun_step fuel c max_n).
Proof. intros s _. unfold rerun_step. gsafe; tl_done. Qed.

Lemma tl_rerun_ok (max_n cp_n : Z) : ok (rerun fuel c max_n cp_n).
Proof.
  intros s _. unfold rerun. gsafe; try tl_done;
    (apply post_bind;
     eapply post_conseq;
     [apply (keeps_while _ _ (obeys_nil _)
                         (obeys_app _ (protocol_mono (_keep_block_0_ics c)))
                         fuel _ _ (tl_rerun_step_ok max_n) _ Logic.I)|];
     cbv beta; intros [[]|e|] s1 t1 [HT _]; gsafe; tl_done).
Qed.

Lemma restore_step_ok (max_n : Z) : ok (restore_step fuel c max_n).
Proof.
  intros s _. unfold restore_step. gsafe; try tl_done.
  apply post_bind.
  eapply post_conseq; [apply tl_rerun_ok; exact Logic.I|].
  cbv beta. intros [[]|e|] s1 t1 [HT1 _]; unfold adjoint_step; gsafe;
    tl_done.
Qed.

Ltac ok_structure :=
  unfold ok;
  repeat (keeps_structure
            (@obeys_nil (protocol (_keep_block_0_ics c)) state)
            (@obeys_app _ (protocol_mono (_keep_block_0_ics c)) state);
          try lazymatch goal with
          | |- keeps _ _ (modify _) =>
              apply keeps_modify; [apply obeys_nil | trivial]
          | |- keeps _ _ (yield (EndReverse _)) =>
              apply keeps_yield; intros; repeat split
          | |- keeps _ _ (yield EndForward) =>
              apply keeps_yield; intros; repeat split
          | |- keeps _ _ (restore_step _ _ _) => apply restore_step_ok
          | |- keeps _ _ (forward_step _ _) => apply tl_forward_step_ok
          end).

Lemma period_step_ok (max_n : Z) : ok (period_step fuel c max_n).
Proof. unfold period_step. ok_structure. Qed.

Lemma reverse_sweep_ok : ok (reverse_sweep fuel c).
Proof. unfold reverse_sweep. ok_structure. apply period_step_ok. Qed.

Lemma reverse_sweeps_ok (sweeps : nat) : ok (reverse_sweeps fuel c sweeps).
Proof.
  induction sweeps as [|sweeps IH]; cbn [reverse_sweeps]; ok_structure.
  - apply reverse_sweep_ok.
  - apply IH.
Qed.

Lemma forward_loop_ok (script : list driver_call) :
  ok (forward_loop c script).
Proof.
  induction script as [|d script IH]; cbn [forward_loop]; ok_structure.
  apply IH.
Qed.

Lemma tl_iter_ok (script : list driver_call) (sweeps : nat) :
  ok (iter fuel c script sweeps).
Proof.
  unfold iter. ok_structure;
    first [apply forward_loop_ok | apply reverse_sweeps_ok].
Qed.

End Steps.
End TwoLevelProtocol.

(** X10: in every action sequence of a schedule, whatever its arguments
    and however far it is driven, a [Forward] comes right after a
    [Configure], and advances exactly one step when that [Configure] has
    [store_data = True]; a [Reverse(n1, n0)] comes right after the
    [Forward(n0, n1)] of a [Configure] with [store_data = True], where
    only [EndForward] may stand between the two. *)
Theorem adjoint_after_its_forward :
  (forall fuel max_n in_ram on_disk keep trajectory c s0 o s' tr,
      MultistageCheckpointSchedule fuel max_n in_ram on_disk keep trajectory
      = Done (c, s0) ->
      Multistage.iter fuel c s0 = (o, s', tr) ->
      follows data_stored [] (actions tr))
  /\ (forall disk_period binomial_snapshots binomial_storage keep trajectory
             fuel script sweeps c s0 o s' tr,
         TwoLevelCheckpointSchedule disk_period binomial_snapshots
                                    binomial_storage keep trajectory
         = Done (c, s0) ->
         TwoLevel.iter fuel c script sweeps s0 = (o, s', tr) ->
         follows data_stored [] (actions tr)).
Proof.
  split.
  - intros fuel max_n in_ram on_disk keep trajectory c s0 o s' tr _ Hrun.
    pose proof (MultistageProtocol.iter_ok fuel c s0 Logic.I) as H.
    unfold post in H. rewrite Hrun in H. destruct H as [H _].
    revert H. apply follows_impl. now intros h a [H _].
  - intros p bs st keep trajectory fuel script sweeps c s0 o s' tr _ Hrun.
    pose proof (TwoLevelProtocol.tl_iter_ok fuel c script sweeps s0 Logic.I)
      as H.
    unfold post in H. rewrite Hrun in H. destruct H as [H _].
    revert H. apply follows_impl. now intros h a [H _].
Qed.

Lemma adjoint_after_its_forward_witness :
  follows data_stored []
    (actions
       (snd (TwoLevel.iter 7
               {| TwoLevel._period := 3;
                  TwoLevel._binomial_snapshots := 1;
                  TwoLevel._binomial_storage := "RAM";
                  TwoLevel._keep_block_0_ics := false;
                  TwoLevel._trajectory := "maximum" |}
               [None; None; Some (TwoLevel.AtForward, 7)] 1
               TwoLevel.initial_state))).
Proof.
  refine (proj2 adjoint_after_its_forward 3 1 "RAM"%string false
                "maximum"%string 7%nat
                [None; None; Some (TwoLevel.AtForward, 7)] 1%nat
                _ _ _ _ _ eq_refl _).
  vm_compute. reflexivity.
Defined.

(** X12: in every action sequence of a schedule built with
    [keep_block_0_ics = keep], every [Clear] has [clear_data = True]; its
    [clear_ics] is [False] exactly when it comes right after
    [Reverse(1, 0)] and [keep] is set; and the [Configure] before a
    [Forward(n0, _)], when it has [store_data = True], has
    [store_ics = True] exactly when [n0 == 0] and [keep] is set. *)
Theorem block_0_initial_condition :
  (forall fuel max_n in_ram on_disk keep trajectory c s0 o s' tr,
      MultistageCheckpointSchedule fuel max_n in_ram on_disk keep trajectory
      = Done (c, s0) ->
      Multistage.iter fuel c s0 = (o, s', tr) ->
      follows (ics_kept keep) [] (actions tr))
  /\ (forall disk_period binomial_snapshots binomial_storage keep trajectory
             fuel script sweeps c s0 o s' tr,
         TwoLevelCheckpointSchedule disk_period binomial_snapshots
                                    binomial_storage keep trajectory
         = Done (c, s0) ->
         TwoLevel.iter fuel c script sweeps s0 = (o, s', tr) ->
         follows (ics_kept keep) [] (actions tr)).
Proof.
  split.
  - intros fuel max_n in_ram on_disk keep trajectory c s0 o s' tr Hc Hrun.
    destruct (constructed_initial _ _ _ _ _ _ _ _ Hc) as (_ & _ & <-).
    pose proof (MultistageProtocol.iter_ok fuel c s0 Logic.I) as H.
    unfold post in H. rewrite Hrun in H. destruct H as [H _].
    revert H. apply follows_impl. now intros h a [_ H].
  - intros p bs st keep trajectory fuel script sweeps c s0 o s' tr Hc Hrun.
    destruct (two_level_constructed _ _ _ _ _ _ _ Hc)
      as (_ & _ & _ & _ & _ & _ & <-).
    pose proof (TwoLevelProtocol.tl_iter_ok fuel c script sweeps s0 Logic.I)
      as H.
    unfold post in H. rewrite Hrun in H. destruct H as [H _].
    revert H. apply follows_impl. now intros h a [_ H].
Qed.

Lemma block_0_initial_condition_witness :
  follows (ics_kept true) []
    (actions
       (snd (Multistage.iter 6
               {| Multistage._max_n := Some 6;
                  Multistage._snapshots_in_ram := 0;
                  Multistage._snapshots_on_disk := 2;
                  Multistage._storage := ["disk"; "disk"]%string;
                  Multistage._keep_block_0_ics := true;
                  Multistage._trajectory := "maximum" |}
               Multistage.initial_state))).
Proof.
  refine (proj1 block_0_initial_condition 6%nat (Some 6) 0 2 true
                "maximum"%string _ _ _ _ _ eq_refl _).
  vm_compute. reflexivity.
Defined.

(** ** The forward sweep of the two-level schedule *)

(** The actions of [k] passes of the forward loop from step [n0], with
    period [p]. *)
Fixpoint periods (p n0 : Z) (k : nat) : list action :=
  match k with
  | O => []
  | S k' =>
      Configure true false :: Forward n0 (n0 + p) :: Write n0 "disk"
      :: Clear true true :: periods p (n0 + p) k'
  end.

Lemma periods_succ (p : Z) (k : nat) :
  forall n0,
    periods p n0 (S k)
    = periods p n0 k
      ++ [Configure true false;
          Forward (n0 + Z.of_nat k * p) (n0 + Z.of_nat k * p + p);
          Write (n0 + Z.of_nat k * p) "disk"; Clear true true].
Proof.
  induction k as [|k IH]; intros n0.
  - cbn. now rewrite Z.add_0_r.
  - change (periods p n0 (S (S k)))
      with (Configure true false :: Forward n0 (n0 + p) :: Write n0 "disk"
            :: Clear true true :: periods p (n0 + p) (S k)).
    rewrite IH. cbn [periods app]. do 4 f_equal.
    replace (n0 + p + Z.of_nat k * p) with (n0 + Z.of_nat (S k) * p)
      by (rewrite Nat2Z.inj_succ; ring).
    reflexivity.
Qed.

Module TwoLevelForward.
Import TwoLevel.

Section Passes.
Variable c : config.

(** After [finalize] the loop ends, whatever the driver had planned. *)
Lemma forward_loop_ends (script : list driver_call) (s : state) (N : Z) :
  _max_n s = Some N -> forward_loop c script s = (Done tt, s, []).
Proof.
  intros Hmax. destruct script; cbn [forward_loop];
    unfold bind, get; now rewrite Hmax.
Qed.

Lemma forward_loop_pass (d : driver_call) (script : list driver_call)
      (s : state) :
  _max_n s = None ->
  forward_loop c (d :: script) s
  = (forward_step c d;; forward_loop c script) s.
Proof.
  intros Hmax. cbn [forward_loop]. unfold bind at 1, get. rewrite Hmax.
  now destruct ((forward_step c d;; forward_loop c script) s) as [[o s'] tr].
Qed.

(** A pass during which the driver does not finalize. *)
Lemma forward_passes (k : nat) :
  forall (script : list driver_call) (s : state)
         (Q : outcome unit -> state -> list (event state) -> Prop),
    _max_n s = None ->
    post (forward_loop c script) (set_n (_n s + Z.of_nat k * _period c) s)
         (fun o s' tr =>
            forall pre, actions pre = periods (_period c) (_n s) k ->
                        Q o s' (pre ++ tr)) ->
    post (forward_loop c (repeat None k ++ script)) s Q.
Proof.
  induction k as [|k IH]; intros script s Q Hmax H.
  - cbn [repeat app]. replace (set_n (_n s + Z.of_nat 0 * _period c) s)
      with s in H by (destruct s; unfold set_n; cbn; f_equal; lia).
    eapply post_conseq; [exact H|]. intros o s' tr HQ. apply (HQ []).
    reflexivity.
  - cbn [repeat app]. unfold post. rewrite (forward_loop_pass _ _ _ Hmax).
    change (post (forward_step c None;;
                  forward_loop c (repeat None k ++ script)) s Q).
    unfold forward_step, yield_to. gsteps. rewrite Hmax. gsteps.
    apply IH; [exact Hmax|]. cbn [_n set_n].
    replace (set_n (_n s + _period c + Z.of_nat k * _period c)
                   (set_n (_n s + _period c) s))
      with (set_n (_n s + Z.of_nat (S k) * _period c) s)
      by (destruct s; unfold set_n; cbn [_n _r _max_n snapshots n0s];
          f_equal; rewrite Nat2Z.inj_succ; ring).
    eapply post_conseq; [exact H|]. intros o s' tr HQ pre Hpre.
    apply (HQ ((Configure true false, s)
               :: (Forward (_n s) (_n s + _period c),
                   set_n (_n s + _period c) s)
               :: (Write (_n s) "disk", set_n (_n s + _period c) s)
               :: (Clear true true, set_n (_n s + _period c) s) :: pre)).
    cbn [actions map fst periods]. do 4 f_equal. exact Hpre.
Qed.

End Passes.

(** X13: the forward sweep of a two-level schedule under a driver that
    calls [finalize(N)] in pass [k + 1] of the forward loop, after the
    [Forward], the [Write] or the [Clear] of that pass.  The loop ends with
    that pass, whatever the driver planned afterwards; its actions are, for
    each of the [k + 1] passes, [Configure(True, False)],
    [Forward(i * period, (i + 1) * period)], [Write(i * period, "disk")]
    and [Clear(True, True)]; then [max_n] is [N] and no adjoint step is
    taken. *)
Theorem forward_sweep_periods (c : config) (k : nat) (at_ : suspension)
        (N : Z) (rest : list driver_call) :
  at_ <> AtConfigure ->
  exists s' tr,
    forward_loop c (repeat None k ++ Some (at_, N) :: rest) initial_state
    = (Done tt, s', tr)
    /\ actions tr = periods (_period c) 0 (S k)
    /\ _max_n s' = Some N
    /\ _r s' = 0.
Proof.
  intros Hat.
  enough (H : post (forward_loop c (repeat None k ++ Some (at_, N) :: rest))
                   initial_state
                   (fun o s' tr =>
                      o = Done tt
                      /\ actions tr = periods (_period c) 0 (S k)
                      /\ _max_n s' = Some N
                      /\ _r s' = 0)).
  { unfold post in H.
    destruct (forward_loop c _ initial_state) as [[o s'] tr].
    destruct H as (-> & H). now exists s', tr. }
  apply forward_passes; [reflexivity|].
  cbn [_n initial_state]. rewrite Z.add_0_l.
  unfold post. rewrite forward_loop_pass by reflexivity.
  change (post (forward_step c (Some (at_, N));; forward_loop c rest)
               (set_n (Z.of_nat k * _period c) initial_state)
               (fun o s' tr =>
                  forall pre,
                    actions pre = periods (_period c) 0 k ->
                    o = Done tt
                    /\ actions (pre ++ tr) = periods (_period c) 0 (S k)
                    /\ _max_n s' = Some N
                    /\ _r s' = 0)).
  unfold forward_step, yield_to.
  destruct at_; [now destruct Hat| | |]; cbn [suspension_eqb]; gsteps;
    cbn [_max_n set_n initial_state]; gsteps;
    unfold post; rewrite (forward_loop_ends c rest _ N) by reflexivity;
    intros pre Hpre; rewrite actions_app, Hpre, periods_succ;
    cbn [actions map fst _n _r _max_n set_n finalize set_max_n
         initial_state];
    rewrite ?Z.add_0_l; repeat split.
Qed.

Lemma forward_sweep_periods_witness :
  exists s' tr,
    forward_loop
      {| _period := 4; _binomial_snapshots := 2; _binomial_storage := "RAM";
         _keep_block_0_ics := false; _trajectory := "maximum" |}
      (repeat None 2 ++ Some (AtWrite, 11) :: [None; None]) initial_state
    = (Done tt, s', tr)
    /\ actions tr = periods 4 0 3
    /\ _max_n s' = Some 11
    /\ _r s' = 0.
Proof.
  apply (forward_sweep_periods
           {| _period := 4; _binomial_snapshots := 2;
              _binomial_storage := "RAM"; _keep_block_0_ics := false;
              _trajectory := "maximum" |}
           2 AtWrite 11 [None; None]).
  discriminate.
Defined.

(** X14: when the driver calls [finalize] while the generator is
    suspended at the [Configure] of a pass of the forward loop, the
    generator raises [RuntimeError] as soon as it is resumed: the actions
    are those of the passes before, then this [Configure], and neither the
    [Forward] of the pass nor [EndForward] is yielded. *)
Theorem finalize_at_configure (fuel : nat) (c : config) (k : nat) (N : Z)
        (rest : list driver_call) (sweeps : nat) :
  exists s' tr,
    iter fuel c (repeat None k ++ Some (AtConfigure, N) :: rest) sweeps
         initial_state
    = (Raised RuntimeError, s', tr)
    /\ actions tr = periods (_period c) 0 k ++ [Configure true false]
    /\ _n s' = Z.of_nat k * _period c.
Proof.
  enough (H : post (forward_loop
                      c (repeat None k ++ Some (AtConfigure, N) :: rest))
                   initial_state
                   (fun o s' tr =>
                      o = Raised RuntimeError
                      /\ actions tr
                         = periods (_period c) 0 k ++ [Configure true false]
                      /\ _n s' = Z.of_nat k * _period c)).
  { unfold post in H. unfold iter, bind at 1.
    destruct (forward_loop c _ initial_state) as [[o s'] tr].
    destruct H as (-> & H). now exists s', tr. }
  apply forward_passes; [reflexivity|].
  cbn [_n initial_state]. rewrite Z.add_0_l.
  unfold post. rewrite forward_loop_pass by reflexivity.
  change (post (forward_step c (Some (AtConfigure, N));; forward_loop c rest)
               (set_n (Z.of_nat k * _period c) initial_state)
               (fun o s' tr =>
                  forall pre,
                    actions pre = periods (_period c) 0 k ->
                    o = Raised RuntimeError
                    /\ actions (pre ++ tr)
                       = periods (_period c) 0 k ++ [Configure true false]
                    /\ _n s' = Z.of_nat k * _period c)).
  unfold forward_step, yield_to. cbn [suspension_eqb]. gsteps.
  cbn [_max_n finalize set_max_n]. gsteps.
  intros pre Hpre. rewrite actions_app, Hpre. repeat split.
Qed.

End TwoLevelForward.

(** ** What a run never does *)

(** [n_advance], whenever it returns. *)
Lemma beta_loop_sound (fuel : nat) :
  forall n s t b2 b1 b0 t' b2' b1' b0',
    1 <= s -> beta_inv n s t b2 b1 b0 ->
    beta_loop fuel n s t b2 b1 b0 = Some (t', b2', b1', b0') ->
    beta_inv n s t' b2' b1' b0'.
Proof.
  induction fuel as [|fuel IH]; intros n s t b2 b1 b0 t' b2' b1' b0' Hs Hinv;
    cbn [beta_loop]; destruct ((b1 >=? n) || (n >? b0)) eqn:Hc;
    try discriminate.
  - now intros [= <- <- <- <-].
  - apply IH; trivial. apply (beta_inv_step n s t b2 b1 b0); trivial.
    destruct Hinv. lia.
  - now intros [= <- <- <- <-].
Qed.

Lemma n_advance_sound (fuel : nat) (n snapshots : Z) (trajectory : string)
      (r : Z) :
  n_advance fuel n snapshots trajectory = Done r ->
  1 <= n /\ 1 <= snapshots /\ 0 <= r < n /\ (2 <= n -> 1 <= r).
Proof.
  unfold n_advance.
  destruct (Z.ltb_spec n 1); [discriminate|].
  destruct (Z.leb_spec snapshots 0); [discriminate|].
  set (s := Z.max (Z.min snapshots (n - 1)) 1).
  destruct (Z.eqb_spec s 1); [intros [= <-]; lia|].
  destruct (Z.eqb_spec s (n - 1)); [intros [= <-]; lia|].
  assert (Hs : 2 <= s) by lia.
  pose proof (beta_inv_init n s Hs ltac:(lia)) as Hinit.
  destruct (beta_loop fuel n s 2 1 (s + 1) _)
    as [[[[t b2] b1] b0]|] eqn:Hloop; [|discriminate].
  assert (H1 : 1 <= s) by lia.
  pose proof (beta_loop_sound fuel _ _ _ _ _ _ _ _ _ _ H1 Hinit Hloop)
    as Hinv.
  pose proof (maximum_step_bounds n s t b2 b1 b0 Hs Hinv).
  pose proof (revolve_step_bounds n s t b2 b1 b0 Hs Hinv).
  destruct (String.eqb trajectory "maximum"); [intros [= <-]; lia|].
  destruct (String.eqb trajectory "revolve"); [intros [= <-]; lia|].
  discriminate.
Qed.

Lemma n_advance_raises_only (fuel : nat) (n snapshots : Z)
      (trajectory : string) (e : exn) :
  n_advance fuel n snapshots trajectory = Raised e -> e = ValueError.
Proof.
  unfold n_advance.
  destruct (n <? 1); [now intros [= <-]|].
  destruct (snapshots <=? 0); [now intros [= <-]|].
  destruct (_ =? 1); [discriminate|].
  destruct (_ =? n - 1); [discriminate|].
  destruct (beta_loop _ _ _ _ _ _ _) as [[[[t b2] b1] b0]|]; [|discriminate].
  destruct (String.eqb trajectory "maximum"); [discriminate|].
  destruct (String.eqb trajectory "revolve"); [discriminate|].
  now intros [= <-].
Qed.

(** The steps an action names lie in the trajectory of [N] steps. *)
Definition within (N : Z) (a : action) : bool :=
  match a with
  | Forward n0 n1 => (0 <=? n0) && (n0 <? n1) && (n1 <=? N)
  | Reverse n1 n0 => (0 <=? n0) && (n1 =? n0 + 1) && (n1 <=? N)
  | Read n _ _ => (0 <=? n) && (n <? N)
  | Write n _ => (0 <=? n) && (n <? N)
  | _ => true
  end.

(** The exceptions a schedule raises by design: [ValueError] for
    arguments [n_advance] rejects, [RuntimeError] for an invalid state. *)
Definition by_design (e : exn) : Prop := e = ValueError \/ e = RuntimeError.

Lemma getitem_in_range {A} (l : list A) (i : Z) (e : exn) :
  0 <= i < len l -> getitem l i <> Raised e.
Proof.
  intros Hi. unfold getitem, position.
  replace ((0 <=? i) && (i <? len l)) with true by lia.
  destruct (nth_error l (Z.to_nat i)) eqn:E; [discriminate|].
  apply nth_error_None in E. unfold len in Hi. lia.
Qed.

(** While a loop goes on: a property of the trace, an invariant of the
    state, and a bound on what is raised. *)
Lemma while_guarded {St} (T : list (event St) -> Prop) (E : exn -> Prop)
      (Inv : St -> Prop) (cond : St -> bool) (body : gen St unit) :
  T [] ->
  (forall t1 t2, T t1 -> T t2 -> T (t1 ++ t2)) ->
  (forall s, Inv s -> cond s = true ->
             post body s
                  (fun o s' tr =>
                     T tr /\ match o with
                             | Done _ => Inv s'
                             | Raised e => E e
                             | OutOfFuel => True
                             end)) ->
  forall fuel s, Inv s ->
    post (while_ fuel cond body) s
         (fun o s' tr =>
            T tr /\ match o with
                    | Done _ => Inv s' /\ cond s' = false
                    | Raised e => E e
                    | OutOfFuel => True
                    end).
Proof.
  intros Hnil Happ Hbody.
  induction fuel as [|fuel IH]; intros s Hinv.
  - unfold post. cbn [while_]. destruct (cond s) eqn:Hc; auto.
  - unfold post. cbn [while_]. destruct (cond s) eqn:Hc; [|auto].
    apply post_bind. eapply post_conseq; [apply (Hbody s Hinv Hc)|].
    intros [[]|e|] s1 tr1 [HT1 H1]; auto.
    eapply post_conseq; [apply (IH s1 H1)|].
    cbv beta. intros o s2 tr2 [HT2 H2]. auto.
Qed.

Module MultistageGuards.
Import Multistage.

Section Guards.
Variable fuel : nat.
Variable c : config.
Variable N : Z.
Hypothesis Hstorage : capacity c <= len (_storage c).

Definition inv (s : state) : Prop :=
  0 <= _n s /\ 0 <= _r s
  /\ Forall (fun x => 0 <= x < N) (_snapshots s)
  /\ len (_snapshots s) <= Z.max 0 (capacity c).

(** [guarded Q]: every action is within the trajectory; the run returns
    with the invariant and [Q], or raises an exception that is by
    design. *)
Definition guarded (Q : state -> Prop)
  : outcome unit -> state -> list (event state) -> Prop :=
  fun o s' tr =>
    all_actions (within N) tr
    /\ match o with
       | Done _ => inv s' /\ Q s'
       | Raised e => by_design e
       | OutOfFuel => True
       end.

Ltac lens :=
  repeat match goal with
    | x : state |- _ =>
        lazymatch goal with
        | _ : 0 <= len (_snapshots x) |- _ => fail
        | _ => pose proof (len_nonneg (_snapshots x))
        end
    | l : list Z |- _ =>
        lazymatch goal with
        | _ : 0 <= len l |- _ => fail
        | _ => pose proof (len_nonneg l)
        end
    end.

Ltac guard_facts :=
  repeat match goal with
    | H : n_advance _ _ _ _ = Done _ |- _ => apply n_advance_sound in H
    | H : n_advance _ _ _ _ = Raised _ |- _ =>
        apply n_advance_raises_only in H; subst
    | H : getitem (_storage c) _ = Raised _ |- _ =>
        exfalso; revert H; apply getitem_in_range;
        cbn [_n _r _snapshots set_n set_r set_snapshots set_exhausted] in *;
        rewrite ?len_cons in *; lens; lia
    end.

Ltac guard_done :=
  unfold guarded, inv, by_design, all_actions in *;
  cbn [_n _r _snapshots _exhausted set_n set_r set_snapshots set_exhausted]
    in *;
  rewrite ?len_cons in *;
  repeat match goal with
    | |- _ /\ _ => split
    | |- True => exact Logic.I
    | |- Forall _ (_ :: _) => constructor
    | |- Forall _ (_ ++ _) => apply Forall_app
    | |- Forall _ [] => constructor
    end;
  cbn [fst snd within] in *;
  trivial; try lia; try tauto; try (exfalso; lia).

Lemma rerun_step_guarded (s : state) :
  inv s -> _n s < N - _r s - 1 ->
  post (rerun_step fuel c N) s (guarded (fun s' => _r s' = _r s)).
Proof.
  intros (Hn & Hr & Hstack & Hcap) Hlt.
  unfold rerun_step, _snapshot. gsafe; guard_facts; guard_done.
Qed.

Lemma forward_step_guarded (s : state) :
  inv s -> _n s < N - 1 ->
  post (forward_step fuel c N) s (guarded (fun s' => _r s' = _r s)).
Proof.
  intros (Hn & Hr & Hstack & Hcap) Hlt.
  unfold forward_step, _snapshot. gsafe; guard_facts; guard_done.
Qed.

Ltac guard_loop body_lemma :=
  eapply post_conseq;
  [ apply (while_guarded (all_actions (within N)) by_design);
    [ apply all_actions_nil
    | intros t1 t2 H1 H2; apply all_actions_app; auto
    | | ] |].

Lemma rerun_loop_guarded (s : state) :
  inv s ->
  post (while_ fuel (fun s => _n s <? N - _r s - 1) (rerun_step fuel c N)) s
       (guarded (fun s' => _r s' = _r s /\ N - _r s' - 1 <= _n s')).
Proof.
  intros Hinv.
  eapply post_conseq.
  - apply (while_guarded (all_actions (within N)) by_design
                         (fun s' => inv s' /\ _r s' = _r s)).
    + apply all_actions_nil.
    + intros t1 t2 H1 H2. apply all_actions_app; auto.
    + intros s1 [Hi1 Hr1] Hc.
      eapply post_conseq; [apply (rerun_step_guarded s1 Hi1); lia|].
      unfold guarded. intros [[]|e|] s2 t2 [HT H2]; split; trivial.
      destruct H2 as [? ?]. split; [trivial|congruence].
    + split; trivial.
  - unfold guarded. cbv beta.
    intros [[]|e|] s2 t2 [HT H2]; split; trivial.
    destruct H2 as [[? ?] Hc]. cbv beta in Hc.
    split; [trivial|]. split; [trivial|lia].
Qed.

Lemma forward_loop_guarded (s : state) :
  inv s ->
  post (while_ fuel (fun s => _n s <? N - 1) (forward_step fuel c N)) s
       (guarded (fun s' => _r s' = _r s /\ N - 1 <= _n s')).
Proof.
  intros Hinv.
  eapply post_conseq.
  - apply (while_guarded (all_actions (within N)) by_design
                         (fun s' => inv s' /\ _r s' = _r s)).
    + apply all_actions_nil.
    + intros t1 t2 H1 H2. apply all_actions_app; auto.
    + intros s1 [Hi1 Hr1] Hc.
      eapply post_conseq; [apply (forward_step_guarded s1 Hi1); lia|].
      unfold guarded. intros [[]|e|] s2 t2 [HT H2]; split; trivial.
      destruct H2 as [? ?]. split; [trivial|congruence].
    + split; trivial.
  - unfold guarded. cbv beta.
    intros [[]|e|] s2 t2 [HT H2]; split; trivial.
    destruct H2 as [[? ?] Hc]. cbv beta in Hc.
    split; [trivial|]. split; [trivial|lia].
Qed.

Lemma adjoint_step_guarded (s : state) :
  inv s -> _n s = N - _r s - 1 ->
  post (adjoint_step c) s (guarded (fun s' => _r s' = _r s + 1)).
Proof.
  intros (Hn & Hr & Hstack & Hcap) Heq.
  unfold adjoint_step. gsafe; guard_facts; guard_done.
Qed.

Lemma turn_guarded (s : state) :
  inv s -> _r s = 0 -> _n s = N - 1 ->
  post (turn c) s (guarded (fun s' => True)).
Proof.
  intros (Hn & Hr & Hstack & Hcap) Hr0 Heq.
  unfold turn. gsafe; guard_facts; guard_done.
Qed.

Lemma finish_guarded (s : state) :
  inv s -> post (finish N) s (guarded (fun s' => True)).
Proof.
  intros (Hn & Hr & Hstack & Hcap).
  unfold finish. gsafe; guard_facts; guard_done.
Qed.

Lemma rerun_guarded (s : state) (cp_n : Z) (cp_storage : string) :
  inv s -> 0 <= cp_n < N -> cp_n <> N - _r s - 1 ->
  post (rerun fuel c N cp_n cp_storage) s
       (guarded (fun s' => _n s' = N - _r s' - 1 /\ _r s' = _r s)).
Proof.
  intros (Hn & Hr & Hstack & Hcap) Hcp Hne.
  unfold rerun. gsafe; guard_facts; try solve [guard_done].
  cbn [_n _r _snapshots set_n] in *.
  apply post_bind. eapply post_conseq; [apply rerun_loop_guarded; guard_done|].
  cbv beta. intros [[]|e|] s1 t1 [HT H1].
  - destruct H1 as [(Hn1 & Hr1 & Hstack1 & Hcap1) [Hrr Hge]].
    cbn [_n _r _snapshots set_n] in *.
    gsafe; guard_done.
  - guard_done.
  - guard_done.
Qed.

Lemma reverse_step_guarded (s : state) :
  inv s -> _r s < N ->
  post (reverse_step fuel c N) s (guarded (fun s' => True)).
Proof.
  intros (Hn & Hr & Hstack & Hcap) Hlt.
  unfold reverse_step. gsafe; guard_facts; try solve [guard_done].
  - apply Forall_cons_iff in Hstack. destruct Hstack as [Hz Hl].
    eapply post_conseq;
      [apply (adjoint_step_guarded (set_n z (set_snapshots l s)));
       guard_done; lens; lia|].
    cbv beta. intros [[]|e|] s1 t1 [HT H1]; guard_done.
  - apply Forall_cons_iff in Hstack. destruct Hstack as [Hz Hl].
    apply post_bind.
    eapply post_conseq;
      [apply (rerun_guarded s);
       [guard_done; rewrite Heql; rewrite ?len_cons; auto|lia|lia]|].
    cbv beta.
    + intros [[]|e|] s1 t1 [HT H1]; try solve [guard_done].
      destruct H1 as [Hi1 [Hn1 Hr1]].
      eapply post_conseq; [apply (adjoint_step_guarded s1 Hi1 Hn1)|].
      cbv beta. intros [[]|e|] s2 t2 [HT2 H2]; guard_done.
Qed.

Lemma reverse_loop_guarded (s : state) :
  inv s ->
  post (while_ fuel (fun s => _r s <? N) (reverse_step fuel c N)) s
       (guarded (fun s' => N <= _r s')).
Proof.
  intros Hinv.
  eapply post_conseq.
  - apply (while_guarded (all_actions (within N)) by_design inv).
    + apply all_actions_nil.
    + intros t1 t2 H1 H2. apply all_actions_app; auto.
    + intros s1 Hi1 Hc.
      eapply post_conseq; [apply (reverse_step_guarded s1 Hi1); lia|].
      unfold guarded. intros [[]|e|] s2 t2 [HT H2]; split; trivial.
      tauto.
    + trivial.
  - unfold guarded. cbv beta.
    intros [[]|e|] s2 t2 [HT H2]; split; trivial.
    destruct H2 as [? Hc]. cbv beta in Hc.
    split; [trivial|lia].
Qed.

(** Every run of [iter] from a state with the invariant. *)
Lemma iter_guarded (s : state) :
  _max_n c = Some N -> inv s -> _r s = 0 ->
  post (iter fuel c) s (guarded (fun s' => True)).
Proof.
  intros Hmax Hinv Hr0. unfold iter. rewrite Hmax.
  apply post_bind.
  eapply post_conseq; [apply (forward_loop_guarded s Hinv)|].
  cbv beta. intros [[]|e|] s1 t1 [HT1 H1]; try solve [guard_done].
  destruct H1 as [Hi1 [Hr1 Hn1]].
  gsafe; try solve [guard_done].
  apply post_bind.
  eapply post_conseq; [apply (turn_guarded s1 Hi1); lia|].
  cbv beta. intros [[]|e|] s2 t2 [HT2 H2]; try solve [guard_done].
  destruct H2 as [Hi2 _].
  apply post_bind.
  eapply post_conseq; [apply (reverse_loop_guarded s2 Hi2)|].
  cbv beta. intros [[]|e|] s3 t3 [HT3 H3]; try solve [guard_done].
  destruct H3 as [Hi3 _].
  eapply post_conseq; [apply (finish_guarded s3 Hi3)|].
  cbv beta. intros [[]|e|] s4 t4 [HT4 H4]; guard_done.
Qed.

End Guards.

End MultistageGuards.

(** A constructed schedule has a tier for each snapshot slot, whatever
    the counts are. *)
Lemma constructed_room (fuel : nat) (max_n : option Z)
      (in_ram on_disk : Z) (keep : bool) (trajectory : string)
      (c : Multistage.config) (s0 : Multistage.state) :
  MultistageCheckpointSchedule fuel max_n in_ram on_disk keep trajectory
  = Done (c, s0) ->
  Multistage.capacity c <= len (Multistage._storage c).
Proof.
  unfold MultistageCheckpointSchedule, Multistage.capacity.
  destruct (Z.eqb_spec in_ram 0) as [Hr0|Hr0];
    [|destruct (Z.eqb_spec on_disk 0) as [Hd0|Hd0]].
  - intros [= <- _]. cbn. rewrite len_repeat. lia.
  - intros [= <- _]. cbn. rewrite len_repeat. lia.
  - unfold allocate_snapshots.
    destruct (Multistage.iter _ _ _) as [[rest s'] tr].
    destruct (drive _ _ _ _ _ _ _ _ _) as [[z w]| |]; try discriminate.
    destruct (z =? -1); [|discriminate].
    intros [= <- _]. cbn.
    rewrite MultistageProofs.allocation_of_length. lia.
Qed.

(** The outcome of a run is a return, a cut loop, or an exception the
    schedule raises by design. *)
Definition raises_by_design {A} (o : outcome A) : Prop :=
  match o with
  | Raised e => by_design e
  | _ => True
  end.

(** Every run of a schedule that has a tier for each of its slots. *)
Lemma run_guarded (fuel : nat) (c : Multistage.config)
      (s' : Multistage.state) (o : outcome unit)
      (tr : list (event Multistage.state)) :
  Multistage.capacity c <= len (Multistage._storage c) ->
  Multistage.iter fuel c Multistage.initial_state = (o, s', tr) ->
  raises_by_design o
  /\ forall N, Multistage._max_n c = Some N -> all_actions (within N) tr.
Proof.
  intros Hroom Hrun.
  destruct (Multistage._max_n c) as [N|] eqn:Hmax.
  - assert (Hinv : MultistageGuards.inv c N Multistage.initial_state).
    { unfold MultistageGuards.inv. cbn. repeat split; try lia.
      constructor. }
    pose proof (MultistageGuards.iter_guarded fuel c N Hroom
                  Multistage.initial_state Hmax Hinv eq_refl) as H.
    unfold post in H. rewrite Hrun in H. destruct H as [HT H].
    split.
    + destruct o as [[]|e|]; cbn; trivial.
    + intros N' [= <-]. exact HT.
  - unfold Multistage.iter in Hrun. rewrite Hmax in Hrun.
    injection Hrun as <- _ <-. split.
    + right. reflexivity.
    + discriminate.
Qed.

Lemma multistage_guarded (fuel : nat) (max_n : option Z)
      (in_ram on_disk : Z) (keep : bool) (trajectory : string)
      (c : Multistage.config) (s0 s' : Multistage.state)
      (o : outcome unit) (tr : list (event Multistage.state)) :
  MultistageCheckpointSchedule fuel max_n in_ram on_disk keep trajectory
  = Done (c, s0) ->
  Multistage.iter fuel c s0 = (o, s', tr) ->
  raises_by_design o
  /\ forall N, max_n = Some N -> all_actions (within N) tr.
Proof.
  intros Hc Hrun.
  pose proof (constructed_room _ _ _ _ _ _ _ _ Hc) as Hroom.
  destruct (constructed_initial _ _ _ _ _ _ _ _ Hc) as (-> & <- & _).
  exact (run_guarded fuel c s' o tr Hroom Hrun).
Qed.

(** X16: no run of a multistage schedule fails an assertion or indexes
    [_storage] or [_snapshots] out of range: whatever the arguments the
    constructor accepted, [iter] returns, or raises [ValueError] (from
    [n_advance]) or [RuntimeError] ("Invalid checkpointing state"), or is
    cut by the bound on its loops. *)
Theorem multistage_raises_by_design
        (fuel : nat) (max_n : option Z) (in_ram on_disk : Z) (keep : bool)
        (trajectory : string) (c : Multistage.config)
        (s0 s' : Multistage.state) (o : outcome unit)
        (tr : list (event Multistage.state)) :
  MultistageCheckpointSchedule fuel max_n in_ram on_disk keep trajectory
  = Done (c, s0) ->
  Multistage.iter fuel c s0 = (o, s', tr) ->
  raises_by_design o
  /\ o <> Raised AssertionError /\ o <> Raised IndexError.
Proof.
  intros Hc Hrun.
  destruct (multistage_guarded _ _ _ _ _ _ _ _ _ _ _ Hc Hrun) as [Ho _].
  split; [exact Ho|].
  split; intros ->; destruct Ho; discriminate.
Qed.

Lemma multistage_raises_by_design_witness :
  raises_by_design (Raised ValueError : outcome unit)
  /\ (Raised ValueError : outcome unit) <> Raised AssertionError
  /\ (Raised ValueError : outcome unit) <> Raised IndexError.
Proof.
  refine (multistage_raises_by_design 5 (Some 5) 0 0 false "maximum"
                                      _ _ _ _ _ eq_refl _).
  vm_compute. reflexivity.
Defined.

(** X17: every action of a multistage schedule stays within the
    trajectory: [Forward(n0, n1)] has [0 <= n0 < n1 <= max_n],
    [Reverse(n1, n0)] has [n1 = n0 + 1] and [0 <= n0 < max_n], and
    [Write(n, ...)] and [Read(n, ...)] have [0 <= n < max_n]; in every
    run, complete or not. *)
Theorem multistage_steps_in_range
        (fuel : nat) (N in_ram on_disk : Z) (keep : bool)
        (trajectory : string) (c : Multistage.config)
        (s0 s' : Multistage.state) (o : outcome unit)
        (tr : list (event Multistage.state)) :
  MultistageCheckpointSchedule fuel (Some N) in_ram on_disk keep trajectory
  = Done (c, s0) ->
  Multistage.iter fuel c s0 = (o, s', tr) ->
  forallb (within N) (actions tr) = true.
Proof.
  intros Hc Hrun.
  destruct (multistage_guarded _ _ _ _ _ _ _ _ _ _ _ Hc Hrun) as [_ HT].
  specialize (HT N eq_refl). unfold all_actions in HT.
  unfold actions. apply forallb_forall. intros a Ha.
  apply in_map_iff in Ha. destruct Ha as (e & <- & He).
  rewrite Forall_forall in HT. auto.
Qed.

Lemma multistage_steps_in_range_witness :
  forallb (within 9)
    (actions
       (snd (Multistage.iter 9
               {| Multistage._max_n := Some 9;
                  Multistage._snapshots_in_ram := 0;
                  Multistage._snapshots_on_disk := 2;
                  Multistage._storage := ["disk"; "disk"]%string;
                  Multistage._keep_block_0_ics := false;
                  Multistage._trajectory := "revolve" |}
               Multistage.initial_state)))
  = true.
Proof.
  refine (multistage_steps_in_range 9 9 0 2 false "revolve"
                                    _ _ _ _ _ eq_refl _).
  vm_compute. reflexivity.
Defined.

(** ** What a run of the two-level schedule never does *)

(** The events that follow [EndForward]. *)
Fixpoint after_EndForward {St} (tr : list (event St)) : list (event St) :=
  match tr with
  | [] => []
  | (EndForward, _) :: tr' => tr'
  | _ :: tr' => after_EndForward tr'
  end.

Lemma after_EndForward_app {St} (t1 t2 : list (event St)) (s : St) :
  all_actions not_EndForward t1 ->
  after_EndForward (t1 ++ (EndForward, s) :: t2) = t2.
Proof.
  unfold all_actions. induction 1 as [|[a s1] t1 Ha _ IH]; cbn.
  - reflexivity.
  - cbn in Ha. destruct a; trivial. discriminate.
Qed.

(** An action of the two-level schedule is in the trajectory when its
    indices are within [0, max_n], for the [max_n] of the schedule at the
    moment of the action. *)
Definition in_trajectory (e : event TwoLevel.state) : bool :=
  match TwoLevel._max_n (snd e) with
  | Some N => within N (fst e)
  | None => false
  end.

Module TwoLevelGuards.
Import TwoLevel.

Section Guards.
Variable fuel : nat.
Variable c : config.
Variable N : Z.
Hypothesis Hperiod : 1 <= _period c.

Definition inv (s : state) : Prop :=
  0 <= _n s /\ 0 <= _r s /\ _max_n s = Some N
  /\ Forall (fun x => 0 <= x < N) (snapshots s).

Definition ranged (tr : list (event state)) : Prop :=
  Forall (fun e => within N (fst e) = true /\ _max_n (snd e) = Some N) tr.

Lemma ranged_nil : ranged [].
Proof. constructor. Qed.

Lemma ranged_app (t1 t2 : list (event state)) :
  ranged t1 -> ranged t2 -> ranged (t1 ++ t2).
Proof. intros H1 H2. apply Forall_app. auto. Qed.

(** [guarded Q]: every action is within the trajectory; the run returns
    with the invariant and [Q], or raises an exception that is by
    design. *)
Definition guarded (Q : state -> Prop)
  : outcome unit -> state -> list (event state) -> Prop :=
  fun o s' tr =>
    ranged tr
    /\ match o with
       | Done _ => inv s' /\ Q s'
       | Raised e => by_design e
       | OutOfFuel => True
       end.

Ltac guard_facts :=
  repeat match goal with
    | H : n_advance _ _ _ _ = Done _ |- _ => apply n_advance_sound in H
    | H : n_advance _ _ _ _ = Raised _ |- _ =>
        apply n_advance_raises_only in H; subst
    | H : Forall _ (_ :: _) |- _ =>
        apply Forall_cons_iff in H; destruct H
    end.

Ltac guard_done :=
  unfold guarded, inv, by_design, ranged in *;
  cbn [_n _r _max_n snapshots n0s set_n set_r set_max_n set_snapshots
       set_n0s] in *;
  repeat match goal with
    | |- _ /\ _ => split
    | |- True => exact Logic.I
    | |- Forall _ (_ :: _) => constructor
    | |- Forall _ (_ ++ _) => apply Forall_app
    | |- Forall _ [] => constructor
    end;
  cbn [fst snd within] in *;
  trivial; try lia; try tauto; try (exfalso; lia).

Lemma tl_rerun_step_guarded (s : state) :
  inv s -> _n s < N - _r s - 1 ->
  post (rerun_step fuel c N) s (guarded (fun s' => _r s' = _r s)).
Proof.
  intros (Hn & Hr & Hmax & Hstack) Hlt.
  unfold rerun_step. gsafe; guard_facts; guard_done.
Qed.

Lemma tl_rerun_loop_guarded (s : state) :
  inv s ->
  post (while_ fuel (fun s => _n s <? N - _r s - 1) (rerun_step fuel c N)) s
       (guarded (fun s' => _r s' = _r s /\ N - _r s' - 1 <= _n s')).
Proof.
  intros Hinv.
  eapply post_conseq.
  - apply (while_guarded ranged by_design
                         (fun s' => inv s' /\ _r s' = _r s)).
    + apply ranged_nil.
    + apply ranged_app.
    + intros s1 [Hi1 Hr1] Hc.
      eapply post_conseq; [apply (tl_rerun_step_guarded s1 Hi1); lia|].
      unfold guarded. intros [[]|e|] s2 t2 [HT H2]; split; trivial.
      destruct H2 as [? ?]. split; [trivial|congruence].
    + split; trivial.
  - unfold guarded. cbv beta.
    intros [[]|e|] s2 t2 [HT H2]; split; trivial.
    destruct H2 as [[? ?] Hc]. cbv beta in Hc.
    split; [trivial|]. split; [trivial|lia].
Qed.

Lemma tl_rerun_guarded (s : state) (cp_n : Z) :
  inv s -> 0 <= cp_n < N -> cp_n <> N - _r s - 1 ->
  post (rerun fuel c N cp_n) s
       (guarded (fun s' => _n s' = N - _r s' - 1 /\ _r s' = _r s)).
Proof.
  intros (Hn & Hr & Hmax & Hstack) Hcp Hne.
  unfold rerun. gsafe; guard_facts; try solve [guard_done].
  all: cbn [_n _r _max_n snapshots n0s set_n] in *.
  all: apply post_bind;
    (eapply post_conseq; [apply tl_rerun_loop_guarded; guard_done|]);
    cbv beta; intros [[]|e|] s1 t1 [HT H1]; try solve [guard_done];
    destruct H1 as [(Hn1 & Hr1 & Hmax1 & Hstack1) [Hrr Hge]];
    cbn [_n _r _max_n snapshots n0s set_n] in *;
    gsafe; guard_done.
Qed.

Lemma tl_adjoint_step_guarded (s : state) :
  inv s -> _n s = N - _r s - 1 ->
  post (adjoint_step c) s (guarded (fun s' => _r s' = _r s + 1)).
Proof.
  intros (Hn & Hr & Hmax & Hstack) Heq.
  unfold adjoint_step. gsafe; guard_facts; guard_done.
Qed.

Lemma restore_step_guarded (s : state) :
  inv s ->
  post (restore_step fuel c N) s (guarded (fun s' => True)).
Proof.
  intros (Hn & Hr & Hmax & Hstack).
  unfold restore_step. gsafe; guard_facts; try solve [guard_done].
  - eapply post_conseq;
      [apply (tl_adjoint_step_guarded (set_n z (set_snapshots l s)));
       guard_done|].
    cbv beta. intros [[]|e|] s1 t1 [HT H1]; guard_done.
  - eapply post_conseq;
      [apply (tl_adjoint_step_guarded (set_n z (set_snapshots l s)));
       guard_done|].
    cbv beta. intros [[]|e|] s1 t1 [HT H1]; guard_done.
  - apply post_bind.
    eapply post_conseq;
      [apply (tl_rerun_guarded s);
       [guard_done; rewrite Heql; auto|lia|lia]|].
    cbv beta. intros [[]|e|] s1 t1 [HT H1]; try solve [guard_done].
    destruct H1 as [Hi1 [Hn1 Hr1]].
    eapply post_conseq; [apply (tl_adjoint_step_guarded s1 Hi1 Hn1)|].
    cbv beta. intros [[]|e|] s2 t2 [HT2 H2]; guard_done.
Qed.

Lemma restore_loop_guarded (s : state) :
  inv s ->
  post (while_ fuel (fun s => _r s <? N - n0s s) (restore_step fuel c N)) s
       (guarded (fun s' => True)).
Proof.
  intros Hinv.
  eapply post_conseq.
  - apply (while_guarded ranged by_design inv).
    + apply ranged_nil.
    + apply ranged_app.
    + intros s1 Hi1 Hc.
      eapply post_conseq; [apply (restore_step_guarded s1 Hi1)|].
      unfold guarded. intros [[]|e|] s2 t2 [HT H2]; split; trivial.
      tauto.
    + trivial.
  - unfold guarded. cbv beta.
    intros [[]|e|] s2 t2 [HT H2]; split; trivial. tauto.
Qed.

Lemma period_step_guarded (s : state) :
  inv s -> _r s < N ->
  post (period_step fuel c N) s (guarded (fun s' => True)).
Proof.
  intros (Hn & Hr & Hmax & Hstack) Hlt.
  unfold period_step. gstep.
  assert (Hlo : 0 <= (N - _r s - 1) / _period c * _period c
                <= N - _r s - 1).
  { split.
    - apply Z.mul_nonneg_nonneg; [apply Z.div_pos|]; lia.
    - rewrite Z.mul_comm. apply Z.mul_div_le. lia. }
  set (lo := (N - _r s - 1) / _period c * _period c) in *. clearbody lo.
  gsafe; try solve [guard_done].
  apply post_bind.
  eapply post_conseq; [apply restore_loop_guarded; guard_done|].
  cbv beta. intros [[]|e|] s1 t1 [HT H1]; try solve [guard_done].
  destruct H1 as [(Hn1 & Hr1 & Hmax1 & Hstack1) _].
  gsafe; guard_done.
Qed.

Lemma period_loop_guarded (s : state) :
  inv s ->
  post (while_ fuel (fun s => _r s <? N) (period_step fuel c N)) s
       (guarded (fun s' => True)).
Proof.
  intros Hinv.
  eapply post_conseq.
  - apply (while_guarded ranged by_design inv).
    + apply ranged_nil.
    + apply ranged_app.
    + intros s1 Hi1 Hc.
      eapply post_conseq; [apply (period_step_guarded s1 Hi1); lia|].
      unfold guarded. intros [[]|e|] s2 t2 [HT H2]; split; trivial.
      tauto.
    + trivial.
  - unfold guarded. cbv beta.
    intros [[]|e|] s2 t2 [HT H2]; split; trivial. tauto.
Qed.

Lemma reverse_sweep_guarded (s : state) :
  inv s ->
  post (reverse_sweep fuel c) s (guarded (fun s' => True)).
Proof.
  intros Hinv. pose proof Hinv as (Hn & Hr & Hmax & Hstack).
  unfold reverse_sweep. gstep. rewrite Hmax.
  apply post_bind.
  eapply post_conseq; [apply (period_loop_guarded s Hinv)|].
  cbv beta. intros [[]|e|] s1 t1 [HT H1]; try solve [guard_done].
  destruct H1 as [(Hn1 & Hr1 & Hmax1 & Hstack1) _].
  gsafe; guard_done.
Qed.

Lemma reverse_sweeps_guarded (sweeps : nat) :
  forall s, inv s ->
    post (reverse_sweeps fuel c sweeps) s (guarded (fun s' => True)).
Proof.
  induction sweeps as [|k IH]; intros s Hinv; cbn [reverse_sweeps].
  - gsafe. guard_done.
  - apply post_bind.
    eapply post_conseq; [apply (reverse_sweep_guarded s Hinv)|].
    cbv beta. intros [[]|e|] s1 t1 [HT H1]; try solve [guard_done].
    destruct H1 as [Hi1 _].
    eapply post_conseq; [apply (IH s1 Hi1)|].
    cbv beta. intros [[]|e|] s2 t2 [HT2 H2]; guard_done.
Qed.

End Guards.
End TwoLevelGuards.

Section Forward.
Import TwoLevel.
Variable c : config.

(** [by_design] outcomes and no [EndForward] while the forward sweep
    goes on; the counters as they were. *)
Definition sweeping (s : state)
  : outcome unit -> state -> list (event state) -> Prop :=
  fun o s' tr =>
    all_actions not_EndForward tr
    /\ match o with
       | Done _ => _n s <= _n s' /\ _r s' = _r s
                   /\ snapshots s' = snapshots s
       | Raised e => by_design e
       | OutOfFuel => True
       end.

Hypothesis Hperiod : 1 <= _period c.

Lemma forward_step_sweeping (d : driver_call) (s : state) :
  post (forward_step c d) s (sweeping s).
Proof.
  unfold forward_step, yield_to, sweeping, by_design, all_actions.
  destruct d as [[[] n]|]; cbn [suspension_eqb]; gsafe;
    cbn [_n _r snapshots finalize set_n set_max_n];
    repeat match goal with
      | |- _ /\ _ => split
      | |- Forall _ (_ :: _) => constructor
      | |- Forall _ [] => constructor
      end; cbn [fst not_EndForward]; trivial; try lia; try tauto.
Qed.

Lemma forward_loop_sweeping (script : list driver_call) :
  forall s,
    post (forward_loop c script) s
         (fun o s' tr =>
            sweeping s o s' tr
            /\ (o = Done tt -> exists N, _max_n s' = Some N)).
Proof.
  induction script as [|d script IH]; intros s; cbn [forward_loop].
  - gstep. destruct (_max_n s) as [N|] eqn:Hmax; gstep.
    + split; [|eauto]. unfold sweeping.
      split; [apply all_actions_nil|]. repeat split; trivial; lia.
    + split; [|discriminate]. unfold sweeping.
      split; [apply all_actions_nil | trivial].
  - gstep. destruct (_max_n s) as [N|] eqn:Hmax.
    + gstep. split; [|eauto]. unfold sweeping.
      split; [apply all_actions_nil|]. repeat split; trivial; lia.
    + apply post_bind.
      eapply post_conseq; [apply (forward_step_sweeping d s)|].
      unfold sweeping. cbv beta.
      intros [[]|e|] s1 t1 [HT H1];
        try (split; [split; trivial | discriminate]).
      destruct H1 as (Hn1 & Hr1 & Hs1).
      eapply post_conseq; [apply (IH s1)|].
      cbv beta. intros o s2 t2 [[HT2 H2] Hmax2].
      split; [|exact Hmax2].
      split; [apply all_actions_app; trivial|].
      destruct o as [[]|e|]; trivial.
      destruct H2 as (Hn2 & Hr2 & Hs2). repeat split; congruence || lia.
Qed.

End Forward.

Lemma ranged_in_trajectory (N : Z) (tr : list (event TwoLevel.state)) :
  TwoLevelGuards.ranged N tr -> forallb in_trajectory tr = true.
Proof.
  unfold TwoLevelGuards.ranged. intros H. apply forallb_forall.
  intros e He. rewrite Forall_forall in H. destruct (H e He) as [Hw Hm].
  unfold in_trajectory. now rewrite Hm.
Qed.

(** Every run of a constructed two-level schedule, under any driver. *)
Lemma two_level_guarded (fuel : nat) (disk_period binomial_snapshots : Z)
      (binomial_storage : string) (keep : bool) (trajectory : string)
      (c : TwoLevel.config) (s0 s' : TwoLevel.state)
      (script : list TwoLevel.driver_call) (sweeps : nat)
      (o : outcome unit) (tr : list (event TwoLevel.state)) :
  TwoLevelCheckpointSchedule disk_period binomial_snapshots binomial_storage
                             keep trajectory
  = Done (c, s0) ->
  TwoLevel.iter fuel c script sweeps s0 = (o, s', tr) ->
  raises_by_design o
  /\ forallb in_trajectory (after_EndForward tr) = true.
Proof.
  intros Hc Hrun.
  destruct (two_level_constructed _ _ _ _ _ _ _ Hc) as (-> & Hperiod & _).
  enough (H : post (TwoLevel.iter fuel c script sweeps)
                   TwoLevel.initial_state
                   (fun o s' tr =>
                      raises_by_design o
                      /\ forallb in_trajectory (after_EndForward tr) = true)).
  { unfold post in H. now rewrite Hrun in H. }
  unfold TwoLevel.iter. apply post_bind.
  eapply post_conseq;
    [apply (forward_loop_sweeping c Hperiod script TwoLevel.initial_state)|].
  unfold sweeping. cbv beta.
  assert (Hquiet : forall t : list (event TwoLevel.state),
             all_actions not_EndForward t -> after_EndForward t = []).
  { unfold all_actions. induction 1 as [|[a s1] t Ha _ IH]; cbn; trivial.
    cbn in Ha. destruct a; trivial. discriminate. }
  intros [[]|e|] s1 t1 [[HT H1] Hmax].
  - destruct (Hmax eq_refl) as [N HN]. destruct H1 as (Hn1 & Hr1 & Hs1).
    cbn [TwoLevel._n TwoLevel._r TwoLevel.snapshots TwoLevel.initial_state]
      in *.
    gstep.
    eapply post_conseq;
      [apply (TwoLevelGuards.reverse_sweeps_guarded fuel c N Hperiod
                                                    sweeps s1)|].
    + unfold TwoLevelGuards.inv. rewrite Hs1. repeat split; trivial; try lia.
    + cbv beta. intros o2 s2 t2 [HT2 H2].
      rewrite (after_EndForward_app t1 t2 s1 HT).
      split; [|now apply (ranged_in_trajectory N)].
      destruct o2 as [[]|e|]; cbn; trivial.
  - rewrite (Hquiet t1 HT). split; [exact H1 | reflexivity].
  - rewrite (Hquiet t1 HT). split; [exact Logic.I | reflexivity].
Qed.

(** X18: no run of a two-level schedule fails an assertion or compares
    with a [max_n] that is not set: under any driver, whenever it calls
    [finalize] and with whatever value, and for any number of binomial
    snapshots, [iter] raises nothing but [ValueError] (from [n_advance])
    and [RuntimeError] ("Invalid checkpointing state"). *)
Theorem two_level_raises_by_design
        (fuel : nat) (disk_period binomial_snapshots : Z)
        (binomial_storage : string) (keep : bool) (trajectory : string)
        (c : TwoLevel.config) (s0 s' : TwoLevel.state)
        (script : list TwoLevel.driver_call) (sweeps : nat)
        (o : outcome unit) (tr : list (event TwoLevel.state)) :
  TwoLevelCheckpointSchedule disk_period binomial_snapshots binomial_storage
                             keep trajectory
  = Done (c, s0) ->
  TwoLevel.iter fuel c script sweeps s0 = (o, s', tr) ->
  raises_by_design o
  /\ o <> Raised AssertionError /\ o <> Raised TypeError.
Proof.
  intros Hc Hrun.
  destruct (two_level_guarded _ _ _ _ _ _ _ _ _ _ _ _ _ Hc Hrun) as [Ho _].
  split; [exact Ho|].
  split; intros ->; destruct Ho; discriminate.
Qed.

Lemma two_level_raises_by_design_witness :
  raises_by_design (Raised ValueError : outcome unit)
  /\ (Raised ValueError : outcome unit) <> Raised AssertionError
  /\ (Raised ValueError : outcome unit) <> Raised TypeError.
Proof.
  refine (two_level_raises_by_design
            7 3 (-1) "RAM" false "maximum" _ _ _
            [None; None; Some (TwoLevel.AtForward, 7)] 1 _ _ eq_refl _).
  vm_compute. reflexivity.
Defined.

(** X19: in the reverse sweeps of a two-level schedule every action stays
    within the trajectory, whatever step the driver finalized at:
    [Forward(n0, n1)] has [0 <= n0 < n1 <= max_n], [Reverse(n1, n0)] has
    [n1 = n0 + 1] and [0 <= n0 < max_n], and [Write(n, ...)] and
    [Read(n, ...)] have [0 <= n < max_n]; in every run, complete or
    not. *)
Theorem two_level_steps_in_range
        (fuel : nat) (disk_period binomial_snapshots : Z)
        (binomial_storage : string) (keep : bool) (trajectory : string)
        (c : TwoLevel.config) (s0 s' : TwoLevel.state)
        (script : list TwoLevel.driver_call) (sweeps : nat)
        (o : outcome unit) (tr : list (event TwoLevel.state)) :
  TwoLevelCheckpointSchedule disk_period binomial_snapshots binomial_storage
                             keep trajectory
  = Done (c, s0) ->
  TwoLevel.iter fuel c script sweeps s0 = (o, s', tr) ->
  forallb in_trajectory (after_EndForward tr) = true.
Proof.
  intros Hc Hrun.
  now destruct (two_level_guarded _ _ _ _ _ _ _ _ _ _ _ _ _ Hc Hrun).
Qed.

Lemma two_level_steps_in_range_witness :
  forallb in_trajectory
    (after_EndForward
       (snd (TwoLevel.iter 7
               {| TwoLevel._period := 3;
                  TwoLevel._binomial_snapshots := 1;
                  TwoLevel._binomial_storage := "RAM";
                  TwoLevel._keep_block_0_ics := false;
                  TwoLevel._trajectory := "maximum" |}
               [None; None; Some (TwoLevel.AtForward, 7)] 2
               TwoLevel.initial_state)))
  = true.
Proof.
  refine (two_level_steps_in_range
            7 3 1 "RAM" false "maximum" _ _ _
            [None; None; Some (TwoLevel.AtForward, 7)] 2 _ _ eq_refl _).
  vm_compute. reflexivity.
Defined.

(** ** The driver of [allocate_snapshots] *)

Module AllocatorDrive.
Import Multistage.

Section Thru.
Variable W : Type.
Variable Wadd : W -> W -> W.
Variables write_weight read_weight delete_weight : W.
Variable c : config.

(** The number of weights: [range(snapshots)] is empty for a negative
    count. *)
Definition room : Z := Z.max 0 (capacity c).

(** The value of [snapshot_i] that goes with a state of the schedule. *)
Definition top (s : state) : Z := len (_snapshots s) - 1.

(** From [s] to [s'] the loop of the allocator passes through the trace:
    none of its checks fires on an action of [tr], no action of [tr] ends
    the loop, and [snapshot_i] follows the stack of the schedule. *)
Definition thru (s : state) (tr : list (event state)) (s' : state) : Prop :=
  len (_snapshots s) <= room ->
  len (_snapshots s') <= room
  /\ forall w, len w = room ->
       exists w',
         len w' = room
         /\ forall tail rest,
             drive W Wadd write_weight read_weight delete_weight
                   (capacity c) (actions tr ++ tail) rest (top s, w)
             = drive W Wadd write_weight read_weight delete_weight
                     (capacity c) tail rest (top s', w').

Lemma thru_same (s s' : state) :
  _snapshots s' = _snapshots s -> thru s [] s'.
Proof.
  intros Hs Hroom. unfold top. rewrite Hs. split; trivial.
  intros w Hw. exists w. split; trivial.
Qed.

Lemma thru_refl (s : state) : thru s [] s.
Proof. now apply thru_same. Qed.

Lemma thru_trans (s1 : state) (t1 : list (event state)) (s2 : state)
      (t2 : list (event state)) (s3 : state) :
  thru s1 t1 s2 -> thru s2 t2 s3 -> thru s1 (t1 ++ t2) s3.
Proof.
  intros H1 H2 Hroom.
  destruct (H1 Hroom) as [Hroom2 D1]. destruct (H2 Hroom2) as [Hroom3 D2].
  split; trivial. intros w Hw.
  destruct (D1 w Hw) as (w1 & Hw1 & E1).
  destruct (D2 w1 Hw1) as (w2 & Hw2 & E2).
  exists w2. split; trivial. intros tail rest.
  rewrite actions_app, <- app_assoc, E1. apply E2.
Qed.

(** An action the allocator passes over. *)
Definition passed (a : action) : bool :=
  match a with
  | Clear _ _ | Configure _ _ | Forward _ _ | Reverse _ _ | EndForward => true
  | _ => false
  end.

Lemma thru_passed (a : action) (s0 s : state) :
  passed a = true -> _snapshots s = _snapshots s0 -> thru s0 [(a, s)] s.
Proof.
  intros Ha Hs Hroom. unfold top. rewrite Hs. split; trivial.
  intros w Hw. exists w. split; trivial. intros tail rest.
  destruct a; try discriminate; reflexivity.
Qed.

Lemma add_weight_within (w : list W) (i : Z) (x : W) :
  0 <= i < len w ->
  exists w', add_weight W Wadd w i x = Done w' /\ len w' = len w.
Proof.
  intros Hi. unfold add_weight, position.
  replace ((0 <=? i) && (i <? len w)) with true by lia.
  eexists. split; [reflexivity|]. apply MultistageProofs.len_update.
Qed.

Lemma thru_write (n : Z) (storage : string) (s0 s : state) :
  _snapshots s = n :: _snapshots s0 ->
  (len (_snapshots s0) >=? capacity c) = false ->
  thru s0 [(Write n storage, s)] s.
Proof.
  intros Hs Hcap Hroom. unfold top, room in *. rewrite Hs, len_cons.
  pose proof (len_nonneg (_snapshots s0)) as H0.
  split; [lia|]. intros w Hw.
  destruct (add_weight_within w (len (_snapshots s0)) write_weight)
    as (w' & Hadd & Hw'); [lia|].
  exists w'. split; [lia|]. intros tail rest.
  cbn [actions map fst app drive dispatch is_EndReverse].
  unfold action_write.
  replace (len (_snapshots s0) - 1 + 1) with (len (_snapshots s0)) by lia.
  rewrite Hcap, Hadd.
  now replace (len (_snapshots s0) + 1 - 1) with (len (_snapshots s0)) by lia.
Qed.

Lemma thru_read (cp_n : Z) (storage : string) (delete : bool)
      (rest : list Z) (s0 s : state) :
  _snapshots s0 = cp_n :: rest ->
  _snapshots s = (if delete then rest else cp_n :: rest) ->
  thru s0 [(Read cp_n storage delete, s)] s.
Proof.
  intros Hs0 Hs Hroom. unfold top, room in *.
  rewrite Hs0, len_cons in *. pose proof (len_nonneg rest) as H0.
  split; [rewrite Hs; destruct delete; rewrite ?len_cons; lia|].
  intros w Hw.
  destruct (add_weight_within w (len rest) read_weight)
    as (w1 & Hadd1 & Hw1); [lia|].
  destruct (add_weight_within w1 (len rest) delete_weight)
    as (w2 & Hadd2 & Hw2); [lia|].
  exists (if delete then w2 else w1).
  split; [destruct delete; lia|]. intros tail rest'.
  cbn [actions map fst app drive dispatch is_EndReverse].
  unfold action_read.
  replace (len rest + 1 - 1) with (len rest) by lia.
  replace (len rest <? 0) with false by lia.
  rewrite Hadd1, Hs. destruct delete.
  - rewrite Hadd2. reflexivity.
  - rewrite len_cons.
    now replace (len rest + 1 - 1) with (len rest) by lia.
Qed.

End Thru.

Ltac thsteps W Wadd ww rw dw c :=
  repeat astep (thru_refl W Wadd ww rw dw c) (thru_trans W Wadd ww rw dw c).

(** The obligations the steps leave: one relation per yielded action. *)
Ltac th_event :=
  cbn [_n _r _snapshots _exhausted set_n set_r set_snapshots set_exhausted]
    in *;
  lazymatch goal with
  | |- thru _ _ _ _ _ _ _ [(Write _ _, _)] _ =>
      apply thru_write;
      cbn [_n _r _snapshots set_n set_r set_snapshots set_exhausted];
      trivial
  | |- thru _ _ _ _ _ _ _ [(Read _ _ _, _)] _ =>
      eapply thru_read;
      cbn [_n _r _snapshots set_n set_r set_snapshots set_exhausted];
      try eassumption; trivial
  | |- thru _ _ _ _ _ _ _ [(_, _)] _ =>
      apply thru_passed;
      cbn [_n _r _snapshots set_n set_r set_snapshots set_exhausted];
      trivial
  | |- thru _ _ _ _ _ _ _ [] _ =>
      apply thru_same;
      cbn [_n _r _snapshots set_n set_r set_snapshots set_exhausted];
      trivial
  | |- _ => idtac
  end.

Section Steps.
Variable W : Type.
Variable Wadd : W -> W -> W.
Variables write_weight read_weight delete_weight : W.
Variable fuel : nat.
Variable c : config.
Variable N : Z.

Local Abbreviation through :=
  (thru W Wadd write_weight read_weight delete_weight c).

Lemma rerun_step_thru (s : state) :
  post (rerun_step fuel c N) s (along through (fun _ _ => True) s).
Proof.
  unfold rerun_step, _snapshot.
  thsteps W Wadd write_weight read_weight delete_weight c; th_event;
    trivial.
Qed.

Lemma forward_step_thru (s : state) :
  post (forward_step fuel c N) s (along through (fun _ _ => True) s).
Proof.
  unfold forward_step, _snapshot.
  thsteps W Wadd write_weight read_weight delete_weight c; th_event;
    trivial.
Qed.

Lemma loop_thru (cond : state -> bool) (body : gen state unit)
      (s : state) :
  (forall s1, post body s1 (along through (fun _ _ => True) s1)) ->
  post (while_ fuel cond body) s (along through (fun _ _ => True) s).
Proof.
  intros Hbody. eapply post_conseq.
  - apply (along_while through
             (thru_refl W Wadd write_weight read_weight delete_weight c)
             (thru_trans W Wadd write_weight read_weight delete_weight c)
             (fun _ => True)); trivial.
  - intros [[]|e|] s' tr; cbn; tauto.
Qed.

Lemma rerun_thru (cp_n : Z) (rest : list Z) (st : string) (s : state) :
  _snapshots s = cp_n :: rest ->
  post (rerun fuel c N cp_n st) s (along through (fun _ _ => True) s).
Proof.
  intros Hstack. unfold rerun.
  thsteps W Wadd write_weight read_weight delete_weight c; th_event.
  apply (along_call _ (thru_trans W Wadd write_weight read_weight
                                  delete_weight c)
                    (fun _ _ => True)).
  - apply thru_same. reflexivity.
  - apply loop_thru. apply rerun_step_thru.
  - intros _ s1 _.
    thsteps W Wadd write_weight read_weight delete_weight c; th_event;
      trivial.
Qed.

Lemma adjoint_step_thru (s : state) :
  post (adjoint_step c) s (along through (fun _ _ => True) s).
Proof.
  unfold adjoint_step.
  thsteps W Wadd write_weight read_weight delete_weight c; th_event;
    trivial.
Qed.

Lemma turn_thru (s : state) :
  post (turn c) s (along through (fun _ _ => True) s).
Proof.
  unfold turn.
  thsteps W Wadd write_weight read_weight delete_weight c; th_event;
    trivial.
Qed.

Lemma reverse_step_thru (s : state) :
  post (reverse_step fuel c N) s (along through (fun _ _ => True) s).
Proof.
  unfold reverse_step.
  thsteps W Wadd write_weight read_weight delete_weight c; th_event.
  - apply adjoint_step_thru.
  - apply (along_call _ (thru_trans W Wadd write_weight read_weight
                                    delete_weight c)
                      (fun _ _ => True)).
    + apply thru_refl.
    + eapply rerun_thru; eassumption.
    + intros _ s1 _. apply adjoint_step_thru.
Qed.

End Steps.

Section Iter.
Variable W : Type.
Variable Wadd : W -> W -> W.
Variables write_weight read_weight delete_weight : W.
Variable fuel : nat.
Variable c : config.

Local Abbreviation through :=
  (thru W Wadd write_weight read_weight delete_weight c).

(** A run to its end: the loop of the allocator passes through the
    actions before [EndReverse], which a run that returns yields last,
    with an empty stack. *)
Definition ends (s : state)
  : outcome unit -> state -> list (event state) -> Prop :=
  fun o s' tr =>
    match o with
    | Done _ =>
        exists pre,
          tr = pre ++ [(EndReverse true, s')]
          /\ through s pre s' /\ _snapshots s' = []
    | _ => exists s'', through s tr s''
    end.

Lemma thru_then (m : gen state unit) (k : unit -> gen state unit)
      (s : state) :
  post m s (along through (fun _ _ => True) s) ->
  (forall s1, post (k tt) s1 (ends s1)) ->
  post (bind m k) s (ends s).
Proof.
  intros Hm Hk. apply post_bind.
  eapply post_conseq; [exact Hm|].
  intros [[]|e|] s1 t1 H1; cbn in H1.
  - destruct H1 as [H1 _].
    eapply post_conseq; [apply (Hk s1)|].
    intros [[]|e|] s2 t2 H2; cbn in H2 |- *.
    + destruct H2 as (pre & -> & H2 & Hs). exists (t1 ++ pre).
      rewrite app_assoc. split; [reflexivity|]. split; [|exact Hs].
      eapply thru_trans; eassumption.
    + destruct H2 as [s'' H2]. exists s''.
      eapply thru_trans; eassumption.
    + destruct H2 as [s'' H2]. exists s''.
      eapply thru_trans; eassumption.
  - exact H1.
  - exact H1.
Qed.

Lemma finish_ends (max_n : Z) (s : state) :
  post (finish max_n) s (ends s).
Proof.
  unfold finish, ends. gsafe; try (exists s; apply thru_refl).
  exists []. split; [reflexivity|]. split.
  - apply thru_same. reflexivity.
  - cbn [_snapshots set_exhausted].
    destruct (_snapshots s) as [|x l]; trivial.
    rewrite len_cons in *. pose proof (len_nonneg l). lia.
Qed.

(** Every run of [iter], complete or not. *)
Lemma iter_ends (s : state) : post (iter fuel c) s (ends s).
Proof.
  unfold iter. destruct (_max_n c) as [max_n|].
  2: { apply post_raise. exists s. apply thru_refl. }
  apply thru_then; [apply loop_thru; intros; apply forward_step_thru|].
  intros s1. gstep.
  destruct (negb (_n s1 =? max_n - 1)).
  { apply post_raise. exists s1. apply thru_refl. }
  apply thru_then; [apply turn_thru|]. intros s2.
  apply thru_then; [apply loop_thru; intros; apply reverse_step_thru|].
  intros s3. apply finish_ends.
Qed.

End Iter.

End AllocatorDrive.

Section Follows.
Variable W : Type.
Variable Wzero : W.
Variable Wadd : W -> W -> W.
Variable Wltb : W -> W -> bool.
Variables write_weight read_weight delete_weight : W.

(** How [allocate_snapshots] ends, from how its dry run ends. *)
Lemma allocate_snapshots_follows
        (fuel : nat) (max_n : option Z) (in_ram on_disk : Z)
        (trajectory : string) (o : outcome unit) (s' : Multistage.state)
        (tr : list (event Multistage.state)) :
  Multistage.iter fuel (dry_run_config max_n (in_ram + on_disk) trajectory)
                  Multistage.initial_state
  = (o, s', tr) ->
  match o with
  | Done _ =>
      exists weights,
        allocate_snapshots W Wzero Wadd Wltb write_weight read_weight
                           delete_weight fuel max_n in_ram on_disk trajectory
        = Done (weights,
                allocation_of W Wltb weights (in_ram + on_disk) in_ram)
  | Raised e =>
      allocate_snapshots W Wzero Wadd Wltb write_weight read_weight
                         delete_weight fuel max_n in_ram on_disk trajectory
      = Raised e
      /\ by_design e
  | OutOfFuel =>
      allocate_snapshots W Wzero Wadd Wltb write_weight read_weight
                         delete_weight fuel max_n in_ram on_disk trajectory
      = OutOfFuel
  end.
Proof.
  intros Hrun.
  set (c := dry_run_config max_n (in_ram + on_disk) trajectory) in *.
  assert (Hcap : Multistage.capacity c = in_ram + on_disk).
  { unfold Multistage.capacity, c. cbn. lia. }
  assert (Hroom : Multistage.capacity c <= len (Multistage._storage c)).
  { rewrite Hcap. unfold c. cbn.
    destruct (Z.eqb_spec (in_ram + on_disk) 0) as [E|E];
      [rewrite E; cbn; lia | rewrite len_repeat; lia]. }
  pose proof (AllocatorDrive.iter_ends W Wadd write_weight read_weight
                delete_weight fuel c Multistage.initial_state) as H.
  unfold post in H. rewrite Hrun in H.
  set (weights := repeat Wzero (Z.to_nat (in_ram + on_disk))).
  assert (Hw : len weights = AllocatorDrive.room c).
  { unfold weights, AllocatorDrive.room. rewrite len_repeat, Hcap. lia. }
  assert (H0 : len (Multistage._snapshots Multistage.initial_state)
               <= AllocatorDrive.room c).
  { unfold AllocatorDrive.room. cbn. lia. }
  unfold allocate_snapshots. fold c. rewrite Hrun. fold weights.
  rewrite <- Hcap.
  destruct o as [[]|e|]; cbn in H.
  - destruct H as (pre & -> & Hthru & Hs).
    destruct (Hthru H0) as [_ Hd].
    destruct (Hd weights Hw) as (w' & _ & Hdrive).
    rewrite actions_app, Hdrive.
    unfold AllocatorDrive.top. rewrite Hs. cbn.
    exists w'. reflexivity.
  - destruct H as (s'' & Hthru).
    destruct (Hthru H0) as [_ Hd].
    destruct (Hd weights Hw) as (w' & _ & Hdrive).
    rewrite <- (app_nil_r (actions tr)), Hdrive. cbn.
    split; [reflexivity|].
    destruct (run_guarded fuel c s' (Raised e) tr Hroom Hrun) as [He _].
    exact He.
  - destruct H as (s'' & Hthru).
    destruct (Hthru H0) as [_ Hd].
    destruct (Hd weights Hw) as (w' & _ & Hdrive).
    rewrite <- (app_nil_r (actions tr)), Hdrive. reflexivity.
Qed.

(** X20: [allocate_snapshots] ends as its dry run of the schedule ends.
    When the run completes it returns the weights and their allocation;
    when the run raises, it raises the same exception, a [ValueError] or
    a [RuntimeError] of the schedule.  Its own checks ([snapshot_i < 0],
    [snapshot_i >= snapshots], the final [assert], an index of [weights]
    out of range, [next] on an ended generator) never fire, for any
    arguments. *)
Theorem allocator_follows_dry_run
        (fuel : nat) (max_n : option Z) (in_ram on_disk : Z)
        (trajectory : string) (o : outcome unit) (s' : Multistage.state)
        (tr : list (event Multistage.state)) :
  Multistage.iter fuel (dry_run_config max_n (in_ram + on_disk) trajectory)
                  Multistage.initial_state
  = (o, s', tr) ->
  match o with
  | Done _ =>
      exists weights,
        allocate_snapshots W Wzero Wadd Wltb write_weight read_weight
                           delete_weight fuel max_n in_ram on_disk trajectory
        = Done (weights,
                allocation_of W Wltb weights (in_ram + on_disk) in_ram)
  | Raised e =>
      allocate_snapshots W Wzero Wadd Wltb write_weight read_weight
                         delete_weight fuel max_n in_ram on_disk trajectory
      = Raised e
      /\ by_design e
  | OutOfFuel =>
      allocate_snapshots W Wzero Wadd Wltb write_weight read_weight
                         delete_weight fuel max_n in_ram on_disk trajectory
      = OutOfFuel
  end.
Proof.
  apply allocate_snapshots_follows.
Qed.

End Follows.

Lemma allocator_follows_dry_run_witness :
  exists weights,
    allocate_snapshots Z 0 Z.add Z.ltb 1 1 0 10 (Some 10) 1 2 "maximum"
    = Done (weights, allocation_of Z Z.ltb weights (1 + 2) 1).
Proof.
  refine (allocator_follows_dry_run Z 0 Z.add Z.ltb 1 1 0 10 (Some 10) 1 2
                                    "maximum" (Done tt) _ _ _).
  vm_compute. reflexivity.
Defined.

(** ** The binomial snapshots of the two-level schedule *)

(** The stack of binomial snapshots after the actions of [l], at most
    [bound] of them, all in [storage]: a [Write] pushes its step; a
    [Read] that deletes pops the step on top; a [Read] that does not
    delete is of the step on top or, when the stack is empty, of a
    period start on disk. *)
Fixpoint serve (bound : Z) (storage : string) (stack : list Z)
         (l : list action) : option (list Z) :=
  match l with
  | [] => Some stack
  | Write n written :: l' =>
      if String.eqb written storage && (len stack <? bound)
      then serve bound storage (n :: stack) l'
      else None
  | Read n from delete :: l' =>
      match stack with
      | m :: rest =>
          if (m =? n) && String.eqb from storage
          then serve bound storage (if delete then rest else stack) l'
          else None
      | [] =>
          if String.eqb from "disk" && negb delete
          then serve bound storage stack l'
          else None
      end
  | _ :: l' => serve bound storage stack l'
  end.

Lemma serve_app (bound : Z) (storage : string) (l1 l2 : list action) :
  forall stack stack1,
    serve bound storage stack l1 = Some stack1 ->
    serve bound storage stack (l1 ++ l2) = serve bound storage stack1 l2.
Proof.
  induction l1 as [|a l1 IH]; cbn [serve app]; intros stack stack1 H.
  - now injection H as <-.
  - destruct a; try (now apply IH).
    + destruct stack as [|m rest].
      * destruct (_ && _); [now apply IH | discriminate].
      * destruct (_ && _); [now apply IH | discriminate].
    + destruct (_ && _); [now apply IH | discriminate].
Qed.

Module TwoLevelStack.
Import TwoLevel.

Section Relation.
Variable c : config.

Definition bound : Z := Z.max 0 (_binomial_snapshots c).

(** The binomial snapshots are the entries of [snapshots] above the
    period start, which is on disk. *)
Definition stack_of (stack : list Z) (s : state) : Prop :=
  (snapshots s = [] /\ stack = [])
  \/ (snapshots s = stack ++ [n0s s]
      /\ Forall (fun x => n0s s < x) stack).

Definition held (s : state) (tr : list (event state)) (s' : state)
  : Prop :=
  forall stack, stack_of stack s ->
    exists stack',
      serve bound (_binomial_storage c) stack (actions tr) = Some stack'
      /\ stack_of stack' s'.

Lemma held_refl (s : state) : held s [] s.
Proof. intros stack H. now exists stack. Qed.

Lemma held_trans (s1 : state) (t1 : list (event state)) (s2 : state)
      (t2 : list (event state)) (s3 : state) :
  held s1 t1 s2 -> held s2 t2 s3 -> held s1 (t1 ++ t2) s3.
Proof.
  intros H1 H2 stack H. destruct (H1 stack H) as (stack1 & E1 & S1).
  destruct (H2 stack1 S1) as (stack2 & E2 & S2).
  exists stack2. split; [|exact S2].
  now rewrite actions_app, (serve_app _ _ _ _ _ _ E1).
Qed.

Lemma stack_of_same (stack : list Z) (s0 s : state) :
  snapshots s = snapshots s0 -> n0s s = n0s s0 ->
  stack_of stack s0 -> stack_of stack s.
Proof. unfold stack_of. intros -> ->. trivial. Qed.

Lemma held_same (s0 s : state) :
  snapshots s = snapshots s0 -> n0s s = n0s s0 -> held s0 [] s.
Proof.
  intros Hs Hn stack H. exists stack. split; [reflexivity|].
  now apply (stack_of_same stack s0).
Qed.

(** An action that stores and restores nothing. *)
Definition quiet (a : action) : bool :=
  match a with
  | Read _ _ _ | Write _ _ => false
  | _ => true
  end.

Lemma held_quiet (a : action) (s0 s : state) :
  quiet a = true ->
  snapshots s = snapshots s0 -> n0s s = n0s s0 -> held s0 [(a, s)] s.
Proof.
  intros Ha Hs Hn stack H. exists stack. split.
  - destruct a; try discriminate; reflexivity.
  - now apply (stack_of_same stack s0).
Qed.

(** A period begins: its start is the one entry of [snapshots]. *)
Lemma held_start (s0 s : state) :
  snapshots s0 = [] -> snapshots s = [n0s s] -> held s0 [] s.
Proof.
  intros H0 Hs stack [[_ ->]|[H _]].
  - exists []. split; [reflexivity|]. right. split; [exact Hs | constructor].
  - rewrite H0 in H. now destruct stack.
Qed.

Lemma held_write (n : Z) (s0 s : state) :
  snapshots s = n :: snapshots s0 -> n0s s = n0s s0 ->
  snapshots s0 <> [] -> n0s s0 < n ->
  (len (snapshots s0) >=? _binomial_snapshots c + 1) = false ->
  held s0 [(Write n (_binomial_storage c), s)] s.
Proof.
  intros Hs Hn Hne Hlt Hcap stack [[H _]|[H HF]]; [contradiction|].
  exists (n :: stack). cbn [actions map fst serve].
  rewrite String.eqb_refl. cbn [andb].
  assert (Hlen : len (snapshots s0) = len stack + 1).
  { rewrite H. unfold len. rewrite length_app. cbn. lia. }
  pose proof (len_nonneg stack).
  replace (len stack <? bound) with true by (unfold bound; lia).
  split; [reflexivity|]. right. rewrite Hs, Hn, H. split; [reflexivity|].
  constructor; trivial.
Qed.

Lemma held_read_top (cp_n : Z) (rest : list Z) (delete : bool)
      (s0 s : state) :
  snapshots s0 = cp_n :: rest -> (cp_n =? n0s s0) = false ->
  n0s s = n0s s0 ->
  snapshots s = (if delete then rest else cp_n :: rest) ->
  held s0 [(Read cp_n (_binomial_storage c) delete, s)] s.
Proof.
  intros H0 Hne Hn Hs stack [[H _]|[H HF]]; [congruence|].
  rewrite H0 in H. destruct stack as [|m stack].
  - cbn in H. injection H as H _. lia.
  - cbn in H. injection H as <- Hrest.
    exists (if delete then stack else cp_n :: stack).
    cbn [actions map fst serve].
    rewrite Z.eqb_refl, String.eqb_refl. cbn [andb].
    split; [reflexivity|]. right. rewrite Hs, Hn.
    inversion HF; subst. destruct delete; auto.
Qed.

Lemma held_read_start (cp_n : Z) (rest : list Z) (s0 s : state) :
  snapshots s0 = cp_n :: rest -> (cp_n =? n0s s0) = true ->
  n0s s = n0s s0 ->
  snapshots s = rest \/ snapshots s = cp_n :: rest ->
  held s0 [(Read cp_n "disk" false, s)] s.
Proof.
  intros H0 Heq Hn Hs stack [[H _]|[H HF]]; [congruence|].
  rewrite H0 in H. destruct stack as [|m stack].
  - cbn in H. injection H as _ ->.
    exists []. split; [reflexivity|].
    destruct Hs as [Hs|Hs]; [left; auto|].
    right. rewrite Hs, Hn. split; [|constructor].
    cbn. f_equal. lia.
  - cbn in H. injection H as <- _. inversion HF; subst. lia.
Qed.

End Relation.

Ltac hdsteps c := repeat astep (held_refl c) (held_trans c).

Ltac hd_fields :=
  cbn [_n _r _max_n snapshots n0s set_n set_r set_max_n set_snapshots
       set_n0s] in *.

(** The obligations the steps leave: one relation per yielded action. *)
Ltac hd_event :=
  hd_fields;
  lazymatch goal with
  | |- held _ _ [(Write _ _, _)] _ =>
      apply held_write; hd_fields; trivial; try lia
  | |- held ?c _ [(Read _ (_binomial_storage ?c) _, _)] _ =>
      eapply held_read_top; hd_fields; try eassumption; trivial
  | |- held _ _ [(Read _ _ _, _)] _ =>
      eapply held_read_start; hd_fields; try eassumption; auto
  | |- held _ _ [(_, _)] _ =>
      apply held_quiet; hd_fields; trivial
  | |- held _ _ [] _ =>
      apply held_same; hd_fields; trivial
  | |- _ => idtac
  end.

Section Steps.
Variable fuel : nat.
Variable c : config.
Variable N : Z.

(** Above the period start. *)
Definition low (s : state) : Prop :=
  Forall (fun x => n0s s <= x) (snapshots s).

(** While the forward model advances again from a snapshot. *)
Definition advanced (lo : Z) (s : state) : Prop :=
  snapshots s <> [] /\ n0s s = lo /\ lo < _n s /\ low s.

Ltac hd_done :=
  unfold advanced, low in *; hd_fields;
  repeat match goal with
    | H : snapshots ?s = _ :: _, H2 : Forall _ (snapshots ?s) |- _ =>
        rewrite H in H2
    | H : snapshots ?s = _ :: _ |- context [snapshots ?s] => rewrite H
    end;
  repeat match goal with
    | |- _ /\ _ => split
    | |- True => exact Logic.I
    | |- _ :: _ <> [] => discriminate
    | |- Forall _ (_ :: _) => constructor
    | |- Forall _ [] => constructor
    | H : Forall _ (_ :: _) |- _ =>
        apply Forall_cons_iff in H; destruct H
    end;
  trivial; try congruence; try lia.

Lemma rerun_step_held (lo : Z) (s : state) :
  advanced lo s ->
  post (rerun_step fuel c N) s (along (held c) (fun _ => advanced lo) s).
Proof.
  intros (Hne & Hlo & Hn & Hlow).
  unfold rerun_step. hdsteps c; hd_event; hd_done.
Qed.

Lemma rerun_loop_held (lo : Z) (s : state) :
  advanced lo s ->
  post (while_ fuel (fun s => _n s <? N - _r s - 1) (rerun_step fuel c N)) s
       (along (held c) (fun _ => advanced lo) s).
Proof.
  intros Hadv. eapply post_conseq.
  - apply (along_while (held c) (held_refl c) (held_trans c) (advanced lo));
      trivial.
    intros s1 H1 _. now apply rerun_step_held.
  - intros [[]|e|] s' tr; cbn; tauto.
Qed.

Lemma rerun_held (cp_n : Z) (rest : list Z) (s : state) :
  snapshots s = cp_n :: rest -> low s ->
  post (rerun fuel c N cp_n) s
       (along (held c) (fun _ s' => low s' /\ n0s s' = n0s s) s).
Proof.
  intros Hstack Hlow. pose proof Hlow as Hcp. unfold low in Hcp.
  rewrite Hstack in Hcp. apply Forall_cons_iff in Hcp. destruct Hcp as [Hcp _].
  unfold rerun. hdsteps c; hd_event.
  all: try (right; exact Hstack).
  all: apply (along_call _ (held_trans c) (fun _ => advanced (n0s s)));
    [ apply held_same; reflexivity
    | apply rerun_loop_held; hd_done; try (rewrite Hstack; discriminate)
    | intros _ s1 (Hne1 & Hlo1 & Hn1 & Hlow1); hdsteps c; hd_event;
      hd_done ].
Qed.

Lemma adjoint_step_held (s : state) :
  post (adjoint_step c) s
       (along (held c)
              (fun _ s' => snapshots s' = snapshots s /\ n0s s' = n0s s) s).
Proof.
  unfold adjoint_step. hdsteps c; hd_event; hd_done.
Qed.

Lemma restore_step_held (s : state) :
  low s ->
  post (restore_step fuel c N) s
       (along (held c) (fun _ s' => low s' /\ n0s s' = n0s s) s).
Proof.
  intros Hlow. unfold restore_step. hdsteps c; hd_event.
  - apply (along_last _ (held_trans c) _ _ _ _ _ (held_refl c _)
                      (adjoint_step_held _)).
    intros _ s1 [Hs1 Hn1]. hd_done. rewrite Hs1, Hn1. hd_done.
  - apply (along_last _ (held_trans c) _ _ _ _ _ (held_refl c _)
                      (adjoint_step_held _)).
    intros _ s1 [Hs1 Hn1]. hd_done. rewrite Hs1, Hn1. hd_done.
  - apply (along_call _ (held_trans c)
                      (fun _ s' => low s' /\ n0s s' = n0s s)).
    + apply held_refl.
    + eapply rerun_held; eassumption.
    + intros _ s1 [Hlow1 Hn1].
      apply (along_last _ (held_trans c) _ _ _ _ _ (held_refl c _)
                        (adjoint_step_held _)).
      intros _ s2 [Hs2 Hn2]. hd_done. rewrite Hs2, Hn2. exact Hlow1.
Qed.

Lemma restore_loop_held (s : state) :
  low s ->
  post (while_ fuel (fun s => _r s <? N - n0s s) (restore_step fuel c N)) s
       (along (held c) (fun _ _ => True) s).
Proof.
  intros Hlow. eapply post_conseq.
  - apply (along_while (held c) (held_refl c) (held_trans c) low); trivial.
    intros s1 H1 _.
    apply (along_last _ (held_trans c) _ _ _ _ _ (held_refl c _)
                      (restore_step_held _ H1)).
    now intros _ s2 [H2 _].
  - intros [[]|e|] s' tr; cbn; tauto.
Qed.

Lemma period_step_held (s : state) :
  snapshots s = [] ->
  post (period_step fuel c N) s
       (along (held c) (fun _ s' => snapshots s' = []) s).
Proof.
  intros Hs. unfold period_step. hdsteps c; hd_event.
  apply (along_call _ (held_trans c) (fun _ _ => True)).
  - apply held_start; hd_fields; trivial.
  - apply restore_loop_held. hd_done.
  - intros _ s1 _. hdsteps c; hd_event.
    destruct (snapshots s1) as [|x l]; trivial.
    rewrite len_cons in *. pose proof (len_nonneg l). lia.
Qed.

Lemma period_loop_held (s : state) :
  snapshots s = [] ->
  post (while_ fuel (fun s => _r s <? N) (period_step fuel c N)) s
       (along (held c) (fun _ s' => snapshots s' = []) s).
Proof.
  intros Hs. eapply post_conseq.
  - apply (along_while (held c) (held_refl c) (held_trans c)
                       (fun s => snapshots s = [])); trivial.
    intros s1 H1 _. now apply period_step_held.
  - intros [[]|e|] s' tr; cbn; tauto.
Qed.

End Steps.

Section Sweeps.
Variable fuel : nat.
Variable c : config.

Lemma reverse_sweep_held (s : state) :
  snapshots s = [] ->
  post (reverse_sweep fuel c) s
       (along (held c) (fun _ s' => snapshots s' = []) s).
Proof.
  intros Hs. unfold reverse_sweep. hdsteps c; hd_event.
  apply (along_call _ (held_trans c) (fun _ s' => snapshots s' = [])).
  - apply held_refl.
  - now apply period_loop_held.
  - intros _ s1 Hs1. hdsteps c; hd_event; trivial.
Qed.

Lemma reverse_sweeps_held (sweeps : nat) :
  forall s, snapshots s = [] ->
    post (reverse_sweeps fuel c sweeps) s
         (along (held c) (fun _ s' => snapshots s' = []) s).
Proof.
  induction sweeps as [|k IH]; intros s Hs; cbn [reverse_sweeps].
  - hdsteps c; hd_event; trivial.
  - apply (along_call _ (held_trans c) (fun _ s' => snapshots s' = [])).
    + apply held_refl.
    + now apply reverse_sweep_held.
    + intros _ s1 Hs1. now apply IH.
Qed.

End Sweeps.

End TwoLevelStack.

(** X21: in the reverse sweeps of a two-level schedule the binomial
    snapshots form a stack in [binomial_storage] that never holds more
    than [binomial_snapshots] entries: each [Write] is to
    [binomial_storage]; each [Read] that deletes is of the snapshot
    written last among those not deleted yet; a [Read] that does not
    delete is of that snapshot or, when none is held, of a period start on
    disk.  When the run returns no binomial snapshot is left. *)
Theorem two_level_binomial_stack
        (fuel : nat) (disk_period binomial_snapshots : Z)
        (binomial_storage : string) (keep : bool) (trajectory : string)
        (c : TwoLevel.config) (s0 s' : TwoLevel.state)
        (script : list TwoLevel.driver_call) (sweeps : nat)
        (o : outcome unit) (tr : list (event TwoLevel.state)) :
  TwoLevelCheckpointSchedule disk_period binomial_snapshots binomial_storage
                             keep trajectory
  = Done (c, s0) ->
  TwoLevel.iter fuel c script sweeps s0 = (o, s', tr) ->
  exists stack,
    serve (Z.max 0 binomial_snapshots) binomial_storage []
          (actions (after_EndForward tr))
    = Some stack
    /\ (o = Done tt -> stack = []).
Proof.
  intros Hc Hrun.
  destruct (two_level_constructed _ _ _ _ _ _ _ Hc)
    as (-> & Hperiod & _ & Hbs & Hst & _).
  enough (H : post (TwoLevel.iter fuel c script sweeps)
                   TwoLevel.initial_state
                   (fun o s' tr =>
                      exists stack,
                        serve (TwoLevelStack.bound c)
                              (TwoLevel._binomial_storage c) []
                              (actions (after_EndForward tr))
                        = Some stack
                        /\ (o = Done tt -> stack = []))).
  { unfold post in H. rewrite Hrun in H.
    unfold TwoLevelStack.bound in H. now rewrite Hbs, Hst in H. }
  unfold TwoLevel.iter. apply post_bind.
  eapply post_conseq;
    [apply (forward_loop_sweeping c Hperiod script TwoLevel.initial_state)|].
  unfold sweeping. cbv beta.
  assert (Hquiet : forall t : list (event TwoLevel.state),
             all_actions not_EndForward t -> after_EndForward t = []).
  { unfold all_actions. induction 1 as [|[a s1] t Ha _ IH]; cbn; trivial.
    cbn in Ha. destruct a; trivial. discriminate. }
  intros [[]|e|] s1 t1 [[HT H1] _].
  - destruct H1 as (_ & _ & Hs1).
    cbn [TwoLevel.snapshots TwoLevel.initial_state] in Hs1.
    gstep.
    eapply post_conseq;
      [apply (TwoLevelStack.reverse_sweeps_held fuel c sweeps s1 Hs1)|].
    cbv beta. intros o2 s2 t2 H2.
    rewrite (after_EndForward_app t1 t2 s1 HT).
    assert (H0 : TwoLevelStack.stack_of [] s1) by (left; auto).
    destruct o2 as [[]|e|]; cbn in H2.
    + destruct H2 as [H2 Hs2]. destruct (H2 [] H0) as (stack & Hserve & Hof).
      exists stack. split; [exact Hserve|]. intros _.
      destruct Hof as [[_ Hst']|[Hst' _]]; trivial.
      rewrite Hs2 in Hst'. now destruct stack.
    + destruct H2 as [s'' H2]. destruct (H2 [] H0) as (stack & Hserve & _).
      exists stack. split; [exact Hserve | discriminate].
    + destruct H2 as [s'' H2]. destruct (H2 [] H0) as (stack & Hserve & _).
      exists stack. split; [exact Hserve | discriminate].
  - rewrite (Hquiet t1 HT). exists []. split; [reflexivity | discriminate].
  - rewrite (Hquiet t1 HT). exists []. split; [reflexivity | discriminate].
Qed.

Lemma two_level_binomial_stack_witness :
  exists stack,
    serve (Z.max 0 2) "RAM" []
      (actions
         (after_EndForward
            (snd (TwoLevel.iter 20
                    {| TwoLevel._period := 8;
                       TwoLevel._binomial_snapshots := 2;
                       TwoLevel._binomial_storage := "RAM";
                       TwoLevel._keep_block_0_ics := false;
                       TwoLevel._trajectory := "maximum" |}
                    [None; None; Some (TwoLevel.AtForward, 20)] 1
                    TwoLevel.initial_state))))
    = Some stack
    /\ (Done tt = Done tt -> stack = []).
Proof.
  refine (two_level_binomial_stack
            20 8 2 "RAM" false "maximum" _ _ _
            [None; None; Some (TwoLevel.AtForward, 20)] 1 _ _ eq_refl _).
  vm_compute. reflexivity.
Defined.

(** ** Claim C8: the reverse sweeps of the two-level schedule *)

Module TwoLevelCount.
Import TwoLevel.

(** From [s] to [s'] the reverse counter moves by one at each [Reverse]
    of the trace, and at no other action. *)
Definition counted (s : state) (tr : list (event state)) (s' : state)
  : Prop :=
  tracks _r rdelta (_r s) tr (_r s').

Lemma counted_same (s0 s : state) : _r s = _r s0 -> counted s0 [] s.
Proof. intros H. exact H. Qed.

Lemma counted_refl (s : state) : counted s [] s.
Proof. reflexivity. Qed.

Lemma counted_trans (s1 : state) (t1 : list (event state)) (s2 : state)
      (t2 : list (event state)) (s3 : state) :
  counted s1 t1 s2 -> counted s2 t2 s3 -> counted s1 (t1 ++ t2) s3.
Proof. apply tracks_app. Qed.

Lemma counted_event (a : action) (s0 s : state) :
  _r s = _r s0 + rdelta a -> counted s0 [(a, s)] s.
Proof. intros H. split; [exact H | reflexivity]. Qed.

Ltac ctsteps := repeat astep counted_refl counted_trans.

Ltac ct_event :=
  lazymatch goal with
  | |- counted _ [(_, _)] _ =>
      apply counted_event;
      cbn [_n _r _max_n snapshots n0s set_n set_r set_max_n set_snapshots
           set_n0s rdelta];
      lia
  | |- counted _ [] _ =>
      apply counted_same;
      cbn [_n _r _max_n snapshots n0s set_n set_r set_max_n set_snapshots
           set_n0s];
      lia
  | |- True => exact Logic.I
  | |- _ => idtac
  end.

Section Steps.
Variable fuel : nat.
Variable c : config.
Variable N : Z.

Lemma rerun_step_counted (s : state) :
  post (rerun_step fuel c N) s (along counted (fun _ _ => True) s).
Proof. unfold rerun_step. ctsteps; ct_event. Qed.

Lemma loop_counted (cond : state -> bool) (body : gen state unit)
      (s : state) :
  (forall s1, post body s1 (along counted (fun _ _ => True) s1)) ->
  post (while_ fuel cond body) s
       (along counted (fun _ s' => cond s' = false) s).
Proof.
  intros Hbody. eapply post_conseq.
  - apply (along_while counted counted_refl counted_trans (fun _ => True));
      trivial.
  - intros [[]|e|] s' tr; cbn; tauto.
Qed.

Lemma call_counted {A} (m : gen state A) (k : A -> gen state unit)
      (Q1 : A -> state -> Prop) (s : state) :
  post m s (along counted Q1 s) ->
  (forall a s1, post (k a) s1 (along counted (fun _ _ => True) s1)) ->
  post (bind m k) s (along counted (fun _ _ => True) s).
Proof.
  intros Hm Hk.
  apply (along_call _ counted_trans Q1); trivial.
  apply counted_refl.
Qed.

Lemma rerun_counted (cp_n : Z) (s : state) :
  post (rerun fuel c N cp_n) s (along counted (fun _ _ => True) s).
Proof.
  unfold rerun. ctsteps; ct_event.
  all: eapply call_counted;
    [ apply loop_counted; intros; apply rerun_step_counted
    | intros _ s1; ctsteps; ct_event ].
Qed.

Lemma adjoint_step_counted (s : state) :
  post (adjoint_step c) s (along counted (fun _ _ => True) s).
Proof. unfold adjoint_step. ctsteps; ct_event. Qed.

Lemma restore_step_counted (s : state) :
  post (restore_step fuel c N) s (along counted (fun _ _ => True) s).
Proof.
  unfold restore_step. ctsteps; ct_event.
  - apply (along_last _ counted_trans _ _ _ _ _ (counted_same _ _ eq_refl)
                      (adjoint_step_counted _)). trivial.
  - apply (along_last _ counted_trans _ _ _ _ _ (counted_same _ _ eq_refl)
                      (adjoint_step_counted _)). trivial.
  - eapply call_counted; [apply rerun_counted|].
    intros _ s1. apply adjoint_step_counted.
Qed.

Lemma period_step_counted (s : state) :
  post (period_step fuel c N) s (along counted (fun _ _ => True) s).
Proof.
  unfold period_step. ctsteps; ct_event.
  apply (along_call _ counted_trans
                    (fun _ s' => (_r s' <? N - n0s s') = false)).
  - apply counted_same. reflexivity.
  - apply loop_counted. intros. apply restore_step_counted.
  - intros _ s1 _. ctsteps; ct_event.
Qed.

End Steps.

(** A complete reverse sweep: the counter goes from where it stands to
    [max_n], one by one at the [Reverse] actions, and is put back to zero
    for [EndReverse(False)]. *)
Lemma reverse_sweep_counted (fuel : nat) (c : config) (N : Z) (s : state) :
  _max_n s = Some N ->
  post (reverse_sweep fuel c) s
       (fun o s' tr =>
          o = Done tt ->
          exists pre,
            tr = pre ++ [(EndReverse false, s')]
            /\ tracks _r rdelta (_r s) pre N
            /\ _r s' = 0).
Proof.
  intros Hmax. unfold reverse_sweep. gstep. rewrite Hmax.
  apply post_bind.
  eapply post_conseq;
    [apply (loop_counted fuel (fun s => _r s <? N) (period_step fuel c N) s);
     intros; apply period_step_counted|].
  intros [[]|e|] s1 t1 H1; try discriminate.
  destruct H1 as [H1 _]. gsafe; try discriminate.
  intros _. exists t1. cbn [_r set_r]. repeat split.
  unfold counted in H1. now replace N with (_r s1) by lia.
Qed.

End TwoLevelCount.

Section Repeated.
Import TwoLevel.
Variable fuel : nat.
Variable c : config.
Variable N : Z.

(** A complete reverse sweep from a state with [r == 0]. *)
Definition complete_sweep (s : state) (tr : list (event state))
           (s' : state) : Prop :=
  reverse_sweep fuel c s = (Done tt, s', tr)
  /\ (exists pre,
         tr = pre ++ [(EndReverse false, s')]
         /\ tracks _r rdelta 0 pre N)
  /\ _r s' = 0 /\ _max_n s' = Some N.

Variable sf s1 : state.
Variable first : list (event state).
Hypothesis Hrf : _r sf = 0.
Hypothesis Hmf : _max_n sf = Some N.
Hypothesis Hfirst : reverse_sweep fuel c sf = (Done tt, s1, first).

(** Every sweep from a state with [r == 0] and the same [max_n] completes
    as the first did. *)
Lemma sweep_again (s : state) :
  _r s = 0 -> _max_n s = Some N ->
  exists s' tr, complete_sweep s tr s' /\ actions tr = actions first.
Proof.
  intros Hr Hm.
  pose proof (TwoLevelSweeps.reverse_sweep_same fuel c sf s) as Hsame.
  unfold same_actions in Hsame. rewrite Hfirst in Hsame.
  destruct (reverse_sweep fuel c s) as [[o s'] tr] eqn:Hrun.
  destruct Hsame as (<- & Hactions & _); [split; congruence|].
  exists s', tr. split; [|now symmetry].
  destruct (TwoLevelSweeps.reverse_sweep_end fuel c s s' tr Hrun)
    as (Hr' & Hm' & _).
  pose proof (TwoLevelCount.reverse_sweep_counted fuel c N s Hm) as H.
  unfold post in H. rewrite Hrun in H.
  destruct (H eq_refl) as (pre & Htr & Htracks & _).
  rewrite Hr in Htracks.
  repeat split; trivial; [now exists pre | congruence].
Qed.

(** Any number of sweeps, one after the other. *)
Lemma sweeps_again (k : nat) :
  forall s, _r s = 0 -> _max_n s = Some N ->
    exists sk rest,
      reverse_sweeps fuel c k s = (Done tt, sk, rest)
      /\ actions rest = List.concat (repeat (actions first) k)
      /\ _r sk = 0 /\ _max_n sk = Some N.
Proof.
  induction k as [|k IH]; intros s Hr Hm.
  - exists s, []. repeat split; trivial.
  - destruct (sweep_again s Hr Hm)
      as (s' & tr & (Hrun & _ & Hr' & Hm') & Hactions).
    destruct (IH s' Hr' Hm') as (sk & rest & Hrest & Harest & Hrk & Hmk).
    exists sk, (tr ++ rest). cbn [reverse_sweeps repeat List.concat].
    unfold bind at 1. rewrite Hrun, Hrest.
    repeat split; trivial.
    now rewrite actions_app, Hactions, Harest.
Qed.

End Repeated.

(** C8: take a two-level schedule as its constructor returns it, driven
    through its forward sweep to [EndForward], whose first reverse sweep
    completes.  Then [max_n] is set, [is_exhausted()] is false in every
    state, and every reverse sweep driven from [r == 0], the first and each
    one after an [EndReverse(False)], completes in the same way: [r] goes
    up by one at each [Reverse] and at no other action until it is
    [max_n], is put back to zero, and [EndReverse(False)] is yielded last;
    the actions of the sweep are those of the first sweep.  So the second
    sweep, and any number [k] of sweeps driven one after the other, yield
    the actions of the first sweep again and again, and end with
    [r == 0]. *)
Theorem sweep_twice (disk_period binomial_snapshots : Z)
        (binomial_storage : string) (keep : bool) (trajectory : string)
        (fuel : nat) (script : list TwoLevel.driver_call)
        (c : TwoLevel.config) (s0 sf s1 : TwoLevel.state)
        (forward first : list (event TwoLevel.state)) :
  TwoLevelCheckpointSchedule disk_period binomial_snapshots binomial_storage
                             keep trajectory
  = Done (c, s0) ->
  (TwoLevel.forward_loop c script;; yield EndForward) s0
  = (Done tt, sf, forward) ->
  TwoLevel.reverse_sweep fuel c sf = (Done tt, s1, first) ->
  exists N,
    TwoLevel._max_n sf = Some N
    /\ TwoLevel._r sf = 0
    /\ (forall s, TwoLevel.is_exhausted s = false)
    /\ complete_sweep fuel c N sf first s1
    /\ (forall s,
          TwoLevel._r s = 0 -> TwoLevel._max_n s = Some N ->
          exists s' tr,
            complete_sweep fuel c N s tr s'
            /\ actions tr = actions first)
    /\ (exists s2 second,
          complete_sweep fuel c N s1 second s2
          /\ actions second = actions first
          /\ TwoLevel.iter fuel c script 2 s0
             = (Done tt, s2, forward ++ first ++ second))
    /\ (forall k,
          exists sk rest,
            TwoLevel.reverse_sweeps fuel c k sf = (Done tt, sk, rest)
            /\ actions rest = List.concat (repeat (actions first) k)
            /\ TwoLevel._r sk = 0 /\ TwoLevel._max_n sk = Some N
            /\ TwoLevel.iter fuel c script k s0
               = (Done tt, sk, forward ++ rest)).
Proof.
  intros Hc Hforward Hfirst.
  assert (Hs0 : TwoLevel._r s0 = 0).
  { unfold TwoLevelCheckpointSchedule in Hc.
    destruct (disk_period <? 1); [discriminate|].
    destruct (negb _); [discriminate|]. now injection Hc as _ <-. }
  assert (Hsf : TwoLevel._r sf = 0).
  { pose proof (TwoLevelSweeps.forward_loop_r c script s0 Hs0) as H.
    unfold post in H. rewrite Hforward in H. apply H. }
  destruct (TwoLevel._max_n sf) as [N|] eqn:Hmf.
  2: { unfold TwoLevel.reverse_sweep, bind, get in Hfirst.
       rewrite Hmf in Hfirst. discriminate. }
  exists N.
  assert (Hiter : forall k sk rest,
             TwoLevel.reverse_sweeps fuel c k sf = (Done tt, sk, rest) ->
             TwoLevel.iter fuel c script k s0
             = (Done tt, sk, forward ++ rest)).
  { intros k sk rest Hrest. unfold TwoLevel.iter.
    rewrite <- (bind_assoc (TwoLevel.forward_loop c script)
                           (fun _ => yield EndForward)
                           (fun _ => TwoLevel.reverse_sweeps fuel c k)).
    unfold bind at 1. now rewrite Hforward, Hrest. }
  destruct (sweep_again fuel c N sf s1 first Hsf Hmf Hfirst sf Hsf Hmf)
    as (s1' & first' & Hcomplete & _).
  assert (E : (s1', first') = (s1, first)).
  { destruct Hcomplete as (Hrun & _). rewrite Hfirst in Hrun.
    now injection Hrun as <- <-. }
  injection E as -> ->.
  pose proof Hcomplete as (_ & _ & Hr1 & Hm1).
  split; [reflexivity|]. split; [exact Hsf|].
  split; [reflexivity|]. split; [exact Hcomplete|].
  split; [intros s Hr Hm; now apply (sweep_again fuel c N sf s1 first Hsf Hmf Hfirst)|].
  split.
  - destruct (sweep_again fuel c N sf s1 first Hsf Hmf Hfirst s1 Hr1 Hm1)
      as (s2 & second & Hsecond & Hactions).
    exists s2, second. split; [exact Hsecond|]. split; [exact Hactions|].
    apply Hiter. cbn [TwoLevel.reverse_sweeps].
    destruct Hsecond as (Hrun2 & _).
    unfold bind at 1. rewrite Hfirst.
    unfold bind at 1. rewrite Hrun2. unfold ret.
    now rewrite app_nil_r.
  - intros k.
    destruct (sweeps_again fuel c N sf s1 first Hsf Hmf Hfirst k sf Hsf Hmf)
      as (sk & rest & Hrest & Harest & Hrk & Hmk).
    exists sk, rest. repeat split; trivial. now apply Hiter.
Qed.

Lemma sweep_twice_witness :
  exists c sf forward s1 first,
    (TwoLevel.forward_loop c [None; Some (TwoLevel.AtForward, 8)];;
     yield EndForward) TwoLevel.initial_state
    = (Done tt, sf, forward)
    /\ TwoLevel.reverse_sweep 8 c sf = (Done tt, s1, first)
    /\ exists N,
        TwoLevel._max_n sf = Some N
        /\ TwoLevel._r sf = 0
        /\ (forall s, TwoLevel.is_exhausted s = false)
        /\ complete_sweep 8 c N sf first s1
        /\ (forall s,
              TwoLevel._r s = 0 -> TwoLevel._max_n s = Some N ->
              exists s' tr,
                complete_sweep 8 c N s tr s'
                /\ actions tr = actions first)
        /\ (exists s2 second,
              complete_sweep 8 c N s1 second s2
              /\ actions second = actions first
              /\ TwoLevel.iter 8 c [None; Some (TwoLevel.AtForward, 8)] 2
                               TwoLevel.initial_state
                 = (Done tt, s2, forward ++ first ++ second))
        /\ (forall k,
              exists sk rest,
                TwoLevel.reverse_sweeps 8 c k sf = (Done tt, sk, rest)
                /\ actions rest = List.concat (repeat (actions first) k)
                /\ TwoLevel._r sk = 0 /\ TwoLevel._max_n sk = Some N
                /\ TwoLevel.iter 8 c [None; Some (TwoLevel.AtForward, 8)] k
                                 TwoLevel.initial_state
                   = (Done tt, sk, forward ++ rest)).
Proof.
  exists {| TwoLevel._period := 5; TwoLevel._binomial_snapshots := 1;
            TwoLevel._binomial_storage := "RAM";
            TwoLevel._keep_block_0_ics := false;
            TwoLevel._trajectory := "maximum" |}.
  eexists _, _, _, _.
  split; [vm_compute; reflexivity|].
  split; [vm_compute; reflexivity|].
  eapply (sweep_twice 5 1 "RAM" false "maximum" 8
                      [None; Some (TwoLevel.AtForward, 8)]).
  - reflexivity.
  - vm_compute. reflexivity.
  - vm_compute. reflexivity.
Defined.

(** ** Claim C5: where configuration errors are reported *)

(** The forward loop of the two-level schedule raises [RuntimeError]
    only. *)
Lemma forward_loop_raises (c : TwoLevel.config)
      (script : list TwoLevel.driver_call) :
  forall s,
    post (TwoLevel.forward_loop c script) s
         (fun o _ _ => forall e, o = Raised e -> e = RuntimeError).
Proof.
  induction script as [|d script IH]; intros s; cbn [TwoLevel.forward_loop].
  - gsafe; intros e [=].
  - gstep. destruct (TwoLevel._max_n s) as [N|] eqn:Hmax.
    + gstep. intros e [=].
    + apply post_bind. unfold TwoLevel.forward_step, TwoLevel.yield_to.
      destruct d as [[[] n]|]; cbn [TwoLevel.suspension_eqb]; gsafe;
        try (intros e [= <-]; reflexivity);
        try (eapply post_conseq; [apply IH|]; cbv beta; intros o s' tr H;
             exact H).
Qed.

(** Any [ValueError] of a two-level schedule comes after [EndForward]. *)
Lemma two_level_value_error (fuel : nat) (c : TwoLevel.config)
      (script : list TwoLevel.driver_call) (sweeps : nat)
      (s s' : TwoLevel.state) (tr : list (event TwoLevel.state)) :
  TwoLevel.iter fuel c script sweeps s = (Raised ValueError, s', tr) ->
  In EndForward (actions tr).
Proof.
  unfold TwoLevel.iter. unfold bind at 1.
  pose proof (forward_loop_raises c script s) as H. unfold post in H.
  destruct (TwoLevel.forward_loop c script s) as [[[[]|e|] s1] t1].
  - unfold bind at 1, yield.
    destruct (TwoLevel.reverse_sweeps fuel c sweeps s1) as [[o s2] t2].
    intros [= _ _ <-]. unfold actions. rewrite map_app.
    apply in_or_app. right. now left.
  - intros [= -> _ _]. specialize (H ValueError eq_refl). discriminate.
  - discriminate.
Qed.

Lemma n_advance_without_snapshots (fuel : nat) (n snapshots : Z)
      (trajectory : string) :
  1 <= n -> snapshots <= 0 ->
  n_advance fuel n snapshots trajectory = Raised ValueError.
Proof.
  intros Hn Hs. unfold n_advance.
  replace (n <? 1) with false by lia.
  now replace (snapshots <=? 0) with true by lia.
Qed.

Lemma n_advance_any_trajectory (fuel : nat) (n snapshots : Z)
      (trajectory : string) :
  1 <= n -> 1 <= snapshots -> snapshots = 1 \/ n - 1 <= snapshots ->
  exists r, n_advance fuel n snapshots trajectory = Done r.
Proof.
  intros Hn Hs Hcase. unfold n_advance.
  replace (n <? 1) with false by lia.
  replace (snapshots <=? 0) with false by lia.
  destruct (Z.eqb_spec (Z.max (Z.min snapshots (n - 1)) 1) 1) as [E1|E1];
    [eexists; reflexivity|].
  destruct (Z.eqb_spec (Z.max (Z.min snapshots (n - 1)) 1) (n - 1))
    as [E2|E2]; [eexists; reflexivity|].
  lia.
Qed.

(** C5, amended.  The constructors: a [disk_period] below 1 and a
    [binomial_storage] outside RAM and disk raise [ValueError] in the
    construction of a two-level schedule, which accepts every other
    argument; the multistage constructor accepts every argument when
    [snapshots_in_ram == 0] or [snapshots_on_disk == 0], and with both
    non-zero it ends as the dry run of the allocator ends, raising what
    that run raises, as (9, 1, 2, "optimal") does.  [n_advance]: it raises [ValueError] without
    snapshots, and for an unknown trajectory when
    [2 <= snapshots < n - 1]; with [snapshots == 1] or
    [snapshots >= n - 1] it returns a step for any trajectory string.
    So a multistage schedule for at least two steps without snapshots, or
    with one count zero, the other [c] with [2 <= c < max_n - 1] and an
    unknown trajectory, is constructed and raises [ValueError] right after
    its first [Configure]; the schedules (3, 0, 5, "optimal") and
    (9, 0, 1, "no such policy") run to their end without any error; and a
    two-level schedule raises no [ValueError] before [EndForward], the one
    with period 6, 2 binomial snapshots and trajectory "optimal",
    finalized at 12, raising it in the reverse sweep. *)
Theorem configuration_errors :
  (forall p bs st keep trajectory,
      p < 1 ->
      TwoLevelCheckpointSchedule p bs st keep trajectory = Raised ValueError)
  /\ (forall p bs st keep trajectory,
         st <> "RAM"%string -> st <> "disk"%string ->
         TwoLevelCheckpointSchedule p bs st keep trajectory
         = Raised ValueError)
  /\ (forall p bs st keep trajectory,
         1 <= p -> st = "RAM"%string \/ st = "disk"%string ->
         exists c,
           TwoLevelCheckpointSchedule p bs st keep trajectory
           = Done (c, TwoLevel.initial_state))
  /\ (forall fuel max_n in_ram on_disk keep trajectory,
         in_ram = 0 \/ on_disk = 0 ->
         exists c,
           MultistageCheckpointSchedule fuel max_n in_ram on_disk keep
                                        trajectory
           = Done (c, Multistage.initial_state))
  /\ (forall fuel max_n in_ram on_disk keep trajectory o s' tr,
         in_ram <> 0 -> on_disk <> 0 ->
         Multistage.iter fuel
                         (dry_run_config max_n (in_ram + on_disk) trajectory)
                         Multistage.initial_state
         = (o, s', tr) ->
         match o with
         | Done _ =>
             exists c,
               MultistageCheckpointSchedule fuel max_n in_ram on_disk keep
                                            trajectory
               = Done (c, Multistage.initial_state)
         | Raised e =>
             MultistageCheckpointSchedule fuel max_n in_ram on_disk keep
                                          trajectory
             = Raised e
         | OutOfFuel =>
             MultistageCheckpointSchedule fuel max_n in_ram on_disk keep
                                          trajectory
             = OutOfFuel
         end)
  /\ MultistageCheckpointSchedule 9 (Some 9) 1 2 false "optimal"
     = Raised ValueError
  /\ (forall fuel n snapshots trajectory,
         1 <= n -> snapshots <= 0 ->
         n_advance fuel n snapshots trajectory = Raised ValueError)
  /\ (forall fuel n snapshots trajectory,
         2 <= snapshots < n - 1 -> ~ valid_trajectory trajectory ->
         (Z.to_nat n <= fuel)%nat ->
         n_advance fuel n snapshots trajectory = Raised ValueError)
  /\ (forall fuel n snapshots trajectory,
         1 <= n -> 1 <= snapshots -> snapshots = 1 \/ n - 1 <= snapshots ->
         exists r, n_advance fuel n snapshots trajectory = Done r)
  /\ (forall fuel N keep trajectory,
         2 <= N -> (1 <= fuel)%nat ->
         exists c,
           MultistageCheckpointSchedule fuel (Some N) 0 0 keep trajectory
           = Done (c, Multistage.initial_state)
           /\ Multistage.iter fuel c Multistage.initial_state
              = (Raised ValueError, Multistage.initial_state,
                 [(Configure true false, Multistage.initial_state)]))
  /\ (forall fuel N in_ram on_disk keep trajectory,
         (in_ram = 0 /\ 2 <= on_disk < N - 1)
         \/ (on_disk = 0 /\ 2 <= in_ram < N - 1) ->
         ~ valid_trajectory trajectory ->
         (Z.to_nat N <= fuel)%nat ->
         exists c,
           MultistageCheckpointSchedule fuel (Some N) in_ram on_disk keep
                                        trajectory
           = Done (c, Multistage.initial_state)
           /\ Multistage.iter fuel c Multistage.initial_state
              = (Raised ValueError, Multistage.initial_state,
                 [(Configure true false, Multistage.initial_state)]))
  /\ (exists c s' tr,
         MultistageCheckpointSchedule 3 (Some 3) 0 5 false "optimal"
         = Done (c, Multistage.initial_state)
         /\ Multistage.iter 3 c Multistage.initial_state = (Done tt, s', tr))
  /\ (exists c s' tr,
         MultistageCheckpointSchedule 9 (Some 9) 0 1 false "no such policy"
         = Done (c, Multistage.initial_state)
         /\ Multistage.iter 9 c Multistage.initial_state = (Done tt, s', tr))
  /\ (forall p bs st keep trajectory fuel script sweeps c s0 s' tr,
         TwoLevelCheckpointSchedule p bs st keep trajectory = Done (c, s0) ->
         TwoLevel.iter fuel c script sweeps s0
         = (Raised ValueError, s', tr) ->
         In EndForward (actions tr))
  /\ (exists c s' tr,
         TwoLevelCheckpointSchedule 6 2 "RAM" false "optimal"
         = Done (c, TwoLevel.initial_state)
         /\ TwoLevel.iter 12 c [None; Some (TwoLevel.AtForward, 12)] 1
                          TwoLevel.initial_state
            = (Raised ValueError, s', tr)
         /\ In EndForward (actions tr)).
Proof.
  split; [|split; [|split; [|split; [|split; [|split; [|split; [|split;
    [|split; [|split; [|split; [|split; [|split; [|split]]]]]]]]]]]]].
  - intros p bs st keep trajectory Hp. unfold TwoLevelCheckpointSchedule.
    now replace (p <? 1) with true by lia.
  - intros p bs st keep trajectory H1 H2.
    unfold TwoLevelCheckpointSchedule, string_in. cbn [existsb].
    apply String.eqb_neq in H1, H2. rewrite H1, H2.
    now destruct (p <? 1).
  - intros p bs st keep trajectory Hp Hst.
    unfold TwoLevelCheckpointSchedule, string_in.
    replace (p <? 1) with false by lia.
    destruct Hst as [-> | ->]; eexists; reflexivity.
  - intros fuel max_n in_ram on_disk keep trajectory [-> | ->];
      unfold MultistageCheckpointSchedule.
    + eexists; reflexivity.
    + destruct (in_ram =? 0); eexists; reflexivity.
  - intros fuel max_n in_ram on_disk keep trajectory o s' tr Hr Hd Hrun.
    unfold MultistageCheckpointSchedule.
    replace (in_ram =? 0) with false by lia.
    replace (on_disk =? 0) with false by lia.
    pose proof (allocate_snapshots_follows Z 0 Z.add Z.ltb 1 1 0 fuel max_n
                  in_ram on_disk trajectory o s' tr Hrun) as H.
    destruct o as [[]|e|].
    + destruct H as [w ->]. eexists. reflexivity.
    + destruct H as [-> _]. reflexivity.
    + rewrite H. reflexivity.
  - vm_compute. reflexivity.
  - intros. now apply n_advance_without_snapshots.
  - intros. now apply n_advance_unknown_trajectory.
  - intros. now apply n_advance_any_trajectory.
  - intros fuel N keep trajectory HN Hfuel. eexists.
    split; [reflexivity|].
    apply (first_advance_raises fuel _ N); trivial.
    cbn. unfold n_advance.
    replace (N - 0 <? 1) with false by lia. reflexivity.
  - intros fuel N in_ram on_disk keep trajectory Hcase Htraj Hfuel.
    destruct Hcase as [[-> Hc] | [-> Hc]].
    + eexists. split; [reflexivity|].
      apply (first_advance_raises fuel _ N); trivial; try lia.
      cbn. apply n_advance_unknown_trajectory; trivial; lia.
    + unfold MultistageCheckpointSchedule.
      replace (in_ram =? 0) with false by lia. cbn [Z.eqb].
      eexists. split; [reflexivity|].
      apply (first_advance_raises fuel _ N); trivial; try lia.
      unfold Multistage.capacity. cbn.
      apply n_advance_unknown_trajectory; trivial; lia.
  - eexists _, _, _. split; [reflexivity | vm_compute; reflexivity].
  - eexists _, _, _. split; [reflexivity | vm_compute; reflexivity].
  - intros p bs st keep trajectory fuel script sweeps c s0 s' tr _ Hrun.
    now apply (two_level_value_error fuel c script sweeps s0 s' tr).
  - eexists _, _, _. split; [reflexivity|].
    split; [vm_compute; reflexivity|].
    vm_compute. right. right. right. right. right. right. right. right.
    left. reflexivity.
Qed.

Lemma configuration_errors_witness :
  TwoLevelCheckpointSchedule 0 1 "RAM" false "maximum" = Raised ValueError.
Proof.
  apply (proj1 configuration_errors 0 1 "RAM"%string false "maximum"%string).
  lia.
Defined.
